(** * AppDaemon app management: a shallow embedding of [app_management.py]

    The development follows the source file [appdaemon/app_management.py]
    (class [AppManagement]).  Part I embeds the data model and the methods,
    Part II defines the terms in which the properties are stated (graphs,
    invariants, example configurations and worlds), Part III proves the
    properties.

    The collaborators of the class (the YAML parser, the module loader,
    the thread pool, the scheduler, user code) are not modelled: what they
    return in a cycle is part of the [world] of that cycle, and what the
    class asks of them is recorded as an [event] in the state.

    Conventions of the embedding:
    - a Python [dict] is an association list in insertion order with unique
      keys ([dict_set] updates in place or appends, as CPython does);
    - a dict used as a set of names ([apps["init"]], [apps["term"]]) is the
      list of its keys in insertion order;
    - methods that mutate [self] or call user code run in a state and
      exception monad [M]; pure parts of a method are plain functions;
    - every [while] loop and every recursion of the source that is not
      structural takes a fuel argument; running out of fuel is a distinct
      outcome, and Part III proves that the fuel the callers pass is enough. *)

From Stdlib Require Import String Ascii List Bool Arith ZArith QArith Lia.
From Stdlib Require Import Permutation Relations Sorted.
Import ListNotations.

Local Open Scope string_scope.
Local Open Scope list_scope.
Local Open Scope nat_scope.

(* ===================================================================== *)
(** * Part I.  The model                                                  *)
(* ===================================================================== *)

(** ** Names, membership and Python dictionaries *)

(** [x in l] for a list (or the keys of a dict) of strings. *)
Definition mem (x : string) (l : list string) : bool :=
  existsb (String.eqb x) l.

Section OrderedDict.
Context {V : Type}.

Definition dict := list (string * V).

Fixpoint dict_get (k : string) (d : dict) : option V :=
  match d with
  | [] => None
  | (k', v) :: r => if String.eqb k' k then Some v else dict_get k r
  end.

Definition dict_has (k : string) (d : dict) : bool :=
  match dict_get k d with Some _ => true | None => false end.

(** [d[k] = v]: an existing key keeps its position. *)
Fixpoint dict_set (k : string) (v : V) (d : dict) : dict :=
  match d with
  | [] => [(k, v)]
  | (k', v') :: r =>
      if String.eqb k' k then (k', v) :: r else (k', v') :: dict_set k v r
  end.

(** [del d[k]] for a key that may be absent (callers test first). *)
Definition dict_del (k : string) (d : dict) : dict :=
  filter (fun item : string * V => negb (String.eqb (fst item) k)) d.

Definition dict_keys (d : dict) : list string := map fst d.
End OrderedDict.
Arguments dict V : clear implicits.

(** A dict whose values are all [1], used as an insertion-ordered set. *)
Definition nameset := list string.

Definition nameset_add (x : string) (s : nameset) : nameset :=
  if mem x s then s else s ++ [x].

Definition nameset_del (x : string) (s : nameset) : nameset :=
  filter (fun y => negb (String.eqb y x)) s.

(** ** App definitions (the values of [self.app_config]) *)

(** The value of a key that holds one name or a list of names
    ([dependencies], [global_dependencies], [plugin]), as the YAML document
    has it. *)
Inductive names :=
| Single (name : string)
| Several (l : list string).

(** [utils.single_or_list(field)] *)
Definition single_or_list (field : names) : list string :=
  match field with
  | Single name => [name]
  | Several l => l
  end.

(** One app section of the YAML configuration, a dict in which [module]
    and [class] are present.  A key that is absent is [None].  The values
    are typed: [priority] is a number, [pin_thread] an integer, [disable] a
    boolean, and a key that names apps, modules or plugins holds a string or
    a list of strings.  [ad_args] is the dict of the user parameters of the
    section (the remaining keys). *)
Record app_def := mk_app {
  ad_module : string;
  ad_class : string;
  ad_dependencies : option names;
  ad_global_dependencies : option names;
  ad_priority : option Q;
  ad_pin_thread : option Z;
  ad_disable : option bool;
  ad_plugin : option names;
  ad_args : dict string
}.

(** A value of [app_config]: an app section (a dict), or a list of
    strings, which is what the [global_modules] section holds (the names of
    the shared modules, a list in the typed configuration).  Subscripting a
    list with a key raises [TypeError].  A key test on a list is an element
    test: the tests for ["class"] and ["module"] are made on the names of
    the list ([entry_has_class_and_module]); the names are taken to differ
    from the optional keys of an app section ([dependencies],
    [global_dependencies], [priority], [disable], [plugin]), so those tests
    are [False] on a list. *)
Inductive entry :=
| App (a : app_def)
| GlobalModules (mods : list string).

Definition config := dict entry.

(** ["class" in value and "module" in value]: both keys are present in an
    app section; on a list both names have to be elements. *)
Definition entry_has_class_and_module (e : entry) : bool :=
  match e with
  | App _ => true
  | GlobalModules mods => mem "class" mods && mem "module" mods
  end.

(** ["dependencies" in self.app_config[app]] *)
Definition entry_has_dependencies (e : entry) : bool :=
  match e with
  | App a => match ad_dependencies a with Some _ => true | None => false end
  | GlobalModules _ => false
  end.

(** [utils.single_or_list(self.app_config[app]["dependencies"])], guarded by
    the key test above (the empty list when the key is absent). *)
Definition entry_dependencies (e : entry) : list string :=
  match e with
  | App a =>
      match ad_dependencies a with
      | Some field => single_or_list field
      | None => []
      end
  | GlobalModules _ => []
  end.

Definition entry_global_dependencies (e : entry) : list string :=
  match e with
  | App a =>
      match ad_global_dependencies a with
      | Some field => single_or_list field
      | None => []
      end
  | GlobalModules _ => []
  end.

(** ["disable" in cfg and cfg["disable"] is True] *)
Definition entry_disabled (e : entry) : bool :=
  match e with
  | App a => match ad_disable a with Some true => true | _ => false end
  | GlobalModules _ => false
  end.

(** ** Exceptions *)

Inductive exn :=
| TypeError_none_subscript     (* 'NoneType' object is not subscriptable *)
| TypeError_list_index         (* list indices must be integers, not str *)
| KeyError (k : string)
| ValueError_cyclic            (* "cyclic dependancy detected" *)
| LoadError (module : string)  (* whatever importing a module raised *)
| ReadError                    (* whatever reading the configuration raised *)
| ConstructError (app : string)(* whatever the app's constructor raised *)
| OutOfFuel.                   (* the model's loop bound was reached *)

Inductive result (A : Type) :=
| Ok (a : A)
| Raise (e : exn).
Arguments Ok {A} a.
Arguments Raise {A} e.

(** ** Dependency graph engine *)

(** *** [topological_sort] *)

(** [deps.difference_update(emitted)] on the set of pending dependencies;
    the set is a list, of which only emptiness and membership are used. *)
Definition difference_update (deps emitted : list string) : list string :=
  filter (fun d => negb (mem d emitted)) deps.

(** The state of one [for entry in pending] pass. *)
Record pass_state := mk_pass {
  ps_emitted : list string;                       (* [emitted], appended to *)
  ps_next_pending : list (string * list string);
  ps_next_emitted : list string                   (* also what was yielded *)
}.

Fixpoint sort_pass (pending : list (string * list string)) (s : pass_state)
  : pass_state :=
  match pending with
  | [] => s
  | (name, deps) :: rest =>
      let deps' := difference_update deps (ps_emitted s) in
      match deps' with
      | _ :: _ =>
          sort_pass rest
            (mk_pass (ps_emitted s)
                     (ps_next_pending s ++ [(name, deps')])
                     (ps_next_emitted s))
      | [] =>
          sort_pass rest
            (mk_pass (ps_emitted s ++ [name])
                     (ps_next_pending s)
                     (ps_next_emitted s ++ [name]))
      end
  end.

(** How the generator ends: exhausted, [ValueError] with the stuck entries
    that were logged, or the model's loop bound. *)
Inductive sort_end :=
| SortDone
| SortCyclic (stuck : list (string * list string))
| SortFuel.

(** The [while pending] loop; [yielded] collects the names yielded so far. *)
Fixpoint sort_loop (fuel : nat) (pending : list (string * list string))
  (emitted yielded : list string) : list string * sort_end :=
  match pending with
  | [] => (yielded, SortDone)
  | _ :: _ =>
      match fuel with
      | O => (yielded, SortFuel)
      | S fuel' =>
          let s := sort_pass pending (mk_pass emitted [] []) in
          match ps_next_emitted s with
          | [] => (yielded, SortCyclic (ps_next_pending s))
          | _ :: _ =>
              sort_loop fuel' (ps_next_pending s) (ps_next_emitted s)
                        (yielded ++ ps_next_emitted s)
          end
      end
  end.

(** [topological_sort(source)]: the names the generator yields, in order,
    and how it ends.  Each pass that does not raise emits at least one
    entry, so [length source] passes suffice. *)
Definition topological_sort (source : list (string * list string))
  : list string * sort_end :=
  sort_loop (length source) source [] [].

(** *** [get_dependent_apps] and [app_has_dependents] *)

(** A [for] loop whose body may run out of fuel. *)
Fixpoint fold_fuel {A S : Type} (f : S -> A -> option S) (l : list A) (s : S)
  : option S :=
  match l with
  | [] => Some s
  | x :: r => match f s x with Some s' => fold_fuel f r s' | None => None end
  end.

(** [get_dependent_apps(dependee, deps)]: [deps] is the caller's list, which
    the method extends in place, so the model threads it through both loops
    and through the recursive call.  The recursive call returns [None], so
    [deps.append(new_deps)] never runs.  [fuel] bounds the recursion depth. *)
Fixpoint get_dependent_apps_fuel (fuel : nat) (cfg : config)
  (dependee : string) (deps : list string) : option (list string) :=
  match fuel with
  | O => None
  | S fuel' =>
      fold_fuel
        (fun deps (item : string * entry) =>
           let (app, e) := item in
           fold_fuel
             (fun deps dep =>
                if String.eqb dep dependee && negb (mem app deps)
                then get_dependent_apps_fuel fuel' cfg app (deps ++ [app])
                else Some deps)
             (entry_dependencies e) deps)
        cfg deps
  end.

(** Every recursive call follows the append of an app that was not in
    [deps], so the depth is at most the number of apps. *)
Definition get_dependent_apps (cfg : config) (dependee : string)
  (deps : list string) : option (list string) :=
  get_dependent_apps_fuel (S (length cfg)) cfg dependee deps.

Definition app_has_dependents (cfg : config) (name : string) : bool :=
  existsb (fun item : string * entry => mem name (entry_dependencies (snd item)))
          cfg.

(** *** [get_app_deps_and_prios] *)

(** A priority is a Python float.  The model keeps how the float was made
    instead of its bits: the [k]-th value of the running counter that starts
    at [float(50.1)] and grows by [float(0.0001)], the float of a configured
    priority, or [float(50)]. *)
Inductive prio :=
| PrioClustered (k : nat)
| PrioConfigured (q : Q)
| PrioDefault.

Inductive log_msg :=
| LogUnableToFindDep (dep app : string)  (* "Unable to find app {} in dependencies for {}" *)
| LogIgnoringApp (app : string)          (* "Ignoring app {}" *)
| LogCyclicDetected                      (* "Cyclic or missing app dependencies detected" *)
| LogDependsOn (app : string) (deps : list string)  (* "{} depends on {}" *)
| LogErrorLoadingModule (file : string)  (* "Unexpected error loading module: %s:" *)
| LogRemovingAssociated                  (* "Removing associated apps:" *)
| LogRemovedApp (app : string)           (* the name of a removed app *)
| LogConfigNotApplied                    (* "New config not applied" *)
| LogUnexpectedError                     (* "Unexpected error:" and the traceback *)
| LogNoAppDescription (file : string)    (* "No app description found for: %s - ignoring" *)
| LogUnableToRead (file : string)        (* "Unable to read app %s: %s - skipping" *)
| LogMissingClassOrModule (app : string) (* "App '{}' missing 'class' or 'module' entry - ignoring" *)
| LogModuleNotFound (app : string)       (* "Unable to find module module %s - %s is not initialized" *)
| LogPinOutOfRange (app : string)        (* "pin_thread out of range ... - app will be discarded" *)
| LogClassNotFound (app : string)        (* "Unable to find class %s in module %s ..." *)
| LogInitializeSkipped (app : string)    (* "Unable to find module %s - initialize() skipped" *)
| LogAppError (what app : string).       (* a traceback in the app's error log *)

(** The first loop: [deplist], the input set and every app found by
    [get_dependent_apps]. *)
Fixpoint build_deplist (cfg : config) (applist : list string)
  (deplist : list string) : option (list string) :=
  match applist with
  | [] => Some deplist
  | app :: rest =>
      let deplist1 := if mem app deplist then deplist else deplist ++ [app] in
      match get_dependent_apps cfg app deplist1 with
      | Some deplist2 => build_deplist cfg rest deplist2
      | None => None
      end
  end.

(** [dependees] of one app: its dependencies that are apps of the
    configuration. *)
Definition valid_dependees (cfg : config) (e : entry) : list string :=
  filter (fun dep => dict_has dep cfg) (entry_dependencies e).

(** [deps], over [full_list = list(self.app_config.keys())]. *)
Definition build_deps (cfg : config) : list (string * list string) :=
  map (fun item : string * entry => (fst item, valid_dependees cfg (snd item)))
      cfg.

(** The two warnings logged for each dependency that is not an app. *)
Definition deps_warnings (cfg : config) : list log_msg :=
  flat_map
    (fun item : string * entry =>
       flat_map
         (fun dep =>
            if dict_has dep cfg then []
            else [LogUnableToFindDep dep (fst item); LogIgnoringApp (fst item)])
         (entry_dependencies (snd item)))
    cfg.

Definition entry_priority (e : entry) : option Q :=
  match e with
  | App a => ad_priority a
  | GlobalModules _ => None
  end.

(** The body of [for app in self.topological_sort(deps)], over the names the
    generator yields; [k] counts the additions made to [prio]. *)
Fixpoint assign_prios (cfg : config) (order : list string) (k : nat)
  (prio_apps : dict prio) : result (dict prio) :=
  match order with
  | [] => Ok prio_apps
  | app :: rest =>
      match dict_get app cfg with
      | None => Raise (KeyError app)
      | Some e =>
          if entry_has_dependencies e || app_has_dependents cfg app
          then assign_prios cfg rest (S k)
                 (dict_set app (PrioClustered k) prio_apps)
          else assign_prios cfg rest k
                 (dict_set app
                    (match entry_priority e with
                     | Some q => PrioConfigured q
                     | None => PrioDefault
                     end)
                    prio_apps)
      end
  end.

(** What [topological_sort] logs before it raises. *)
Definition sort_warnings (e : sort_end) : list log_msg :=
  match e with
  | SortCyclic stuck =>
      LogCyclicDetected
        :: map (fun p : string * list string => LogDependsOn (fst p) (snd p)) stuck
  | _ => []
  end.

(** [prio_apps] when the [try] statement is left: the priorities assigned to
    the names yielded before the generator ended; [except ValueError: pass]
    keeps them. *)
Definition prio_apps_of (cfg : config) : result (dict prio) :=
  assign_prios cfg (fst (topological_sort (build_deps cfg))) 0 [].

(** [final_apps]: the entries of [prio_apps] whose app is in [deplist]. *)
Definition restrict_to (deplist : list string) (prio_apps : dict prio)
  : dict prio :=
  filter (fun item : string * prio => mem (fst item) deplist) prio_apps.

(** [get_app_deps_and_prios(applist)]: what it logs and what it returns. *)
Definition get_app_deps_and_prios (cfg : config) (applist : list string)
  : list log_msg * result (dict prio) :=
  match build_deplist cfg applist [] with
  | None => ([], Raise OutOfFuel)
  | Some deplist =>
      let w := deps_warnings cfg in
      match snd (topological_sort (build_deps cfg)) with
      | SortFuel => (w, Raise OutOfFuel)
      | e =>
          match prio_apps_of cfg with
          | Raise x => (w, Raise x)
          | Ok prio_apps => (w ++ sort_warnings e, Ok (restrict_to deplist prio_apps))
          end
      end
  end.

(** ** Paths *)

(** [os.path.basename] (POSIX): what follows the last ["/"]. *)
Fixpoint basename_aux (p cur : string) : string :=
  match p with
  | EmptyString => cur
  | String c r =>
      if Ascii.eqb c "/" then basename_aux r EmptyString
      else basename_aux r (cur ++ String c EmptyString)
  end.

Definition basename (p : string) : string := basename_aux p EmptyString.

(** Splits a reversed name at its first ["."]: the reversed extension
    (without the dot) and the reversed root, when there is a dot. *)
Fixpoint split_at_dot (rev_name : list ascii)
  : option (list ascii * list ascii) :=
  match rev_name with
  | [] => None
  | c :: r =>
      if Ascii.eqb c "." then Some ([], r)
      else match split_at_dot r with
           | Some (ext, root) => Some (c :: ext, root)
           | None => None
           end
  end.

(** [os.path.splitext(name)[0]] for a name without directory: the part
    before the last dot, unless only dots precede it. *)
Definition splitext_root (name : string) : string :=
  match split_at_dot (rev (list_ascii_of_string name)) with
  | Some (_, rev_root) =>
      if existsb (fun c => negb (Ascii.eqb c ".")) rev_root
      then string_of_list_ascii (rev rev_root)
      else name
  | None => name
  end.

(** [get_module_from_path(path)] *)
Definition get_module_from_path (path : string) : string :=
  splitext_root (basename path).

Fixpoint ends_with_slash (p : string) : bool :=
  match p with
  | EmptyString => false
  | String c EmptyString => Ascii.eqb c "/"
  | String _ r => ends_with_slash r
  end.

(** [os.path.join(a, b)] for a relative [b]. *)
Definition path_join (a b : string) : string :=
  match a with
  | EmptyString => b
  | _ => if ends_with_slash a then a ++ b else a ++ "/" ++ b
  end.

(** ** Equality of configuration values ([!=] in [check_config]) *)

Fixpoint list_eqb {A : Type} (eqb : A -> A -> bool) (l1 l2 : list A) : bool :=
  match l1, l2 with
  | [], [] => true
  | x :: r1, y :: r2 => eqb x y && list_eqb eqb r1 r2
  | _, _ => false
  end.

Definition option_eqb {A : Type} (eqb : A -> A -> bool) (o1 o2 : option A)
  : bool :=
  match o1, o2 with
  | None, None => true
  | Some x, Some y => eqb x y
  | _, _ => false
  end.

(** [==] on the value of a key that holds a name or a list of names: a
    string is never equal to a list, and lists are compared in order. *)
Definition names_eqb (v1 v2 : names) : bool :=
  match v1, v2 with
  | Single s1, Single s2 => String.eqb s1 s2
  | Several l1, Several l2 => list_eqb String.eqb l1 l2
  | _, _ => false
  end.

(** [==] on two dicts: the same keys with equal values, whatever the order
    of insertion. *)
Definition dict_eqb {V : Type} (eqb : V -> V -> bool) (d1 d2 : dict V)
  : bool :=
  forallb (fun k => option_eqb eqb (dict_get k d1) (dict_get k d2))
          (dict_keys d1 ++ dict_keys d2).

(** [==] on two app sections, key by key: a key is present in both with
    equal values, or absent from both.  Numbers are compared by value
    ([10 == 10.0]). *)
Definition app_def_eqb (a b : app_def) : bool :=
  String.eqb (ad_module a) (ad_module b)
  && String.eqb (ad_class a) (ad_class b)
  && option_eqb names_eqb (ad_dependencies a) (ad_dependencies b)
  && option_eqb names_eqb
       (ad_global_dependencies a) (ad_global_dependencies b)
  && option_eqb Qeq_bool (ad_priority a) (ad_priority b)
  && option_eqb Z.eqb (ad_pin_thread a) (ad_pin_thread b)
  && option_eqb Bool.eqb (ad_disable a) (ad_disable b)
  && option_eqb names_eqb (ad_plugin a) (ad_plugin b)
  && dict_eqb String.eqb (ad_args a) (ad_args b).

Definition entry_eqb (e1 e2 : entry) : bool :=
  match e1, e2 with
  | App a, App b => app_def_eqb a b
  | GlobalModules l1, GlobalModules l2 => list_eqb String.eqb l1 l2
  | _, _ => false
  end.

(** ** The world of one cycle *)

(** What [read_config()] does when called: the walk over the YAML files and
    the parser are collaborators, so the model takes the outcome of the
    call from the world. *)
Inductive read_outcome :=
| ReadRaises                 (* an exception escapes [read_config] *)
| ReadNone                   (* it returns [None] *)
| ReadConfig (c : config).   (* it returns the merged configuration *)

(** What constructing an app does once its module file is known and its
    pin is in range: [__import__], [getattr] and the constructor call. *)
Inductive construct_outcome :=
| ImportRaises
| ClassMissing
| ConstructorRaises
| Constructed.

(** Modification times are floats that are only compared; the model uses
    integers. *)
Record world := mk_world {
  w_apps_enabled : bool;                  (* [self.AD.apps] *)
  w_app_dir : string;                     (* [self.AD.app_dir] *)
  w_config_is_file : bool;                (* [os.path.isfile(self.app_config_file)] *)
  w_config_file : string;                 (* [self.app_config_file] *)
  w_config_file_ts : Z;                   (* its modification time *)
  w_yaml_files : list (string * Z);       (* the walk: [*.yaml] paths and times *)
  w_read_config : read_outcome;
  w_py_files : list (string * option Z);  (* the walk: [*.py] paths; [None]
                                             when [open]/[getmtime] raises IOError *)
  w_import_fails : string -> bool;        (* importing or reloading the module raises *)
  w_sys_modules : list string;            (* the keys of [sys.modules] *)
  w_construct : string -> construct_outcome;   (* by app name *)
  w_threads : Z;                          (* [self.AD.threading.threads] *)
  w_auto_pin : bool;                      (* [self.AD.threading.auto_pin] *)
  w_invalid_yaml_warnings : bool;
  w_missing_app_warnings : bool
}.

(** ** The state of [AppManagement] *)

(** A registry entry: the live object (by its class), and its pin. *)
Record app_object := mk_object {
  o_module : string;
  o_class : string;
  o_pin_thread : Z
}.

(** What a cycle does to its collaborators and to user code, in order. *)
Inductive event :=
| EvLog (m : log_msg)            (* a warning *)
| EvTermObject (name : string)   (* [term_object(name)]: terminate hook,
                                    registry removal, callback, scheduler
                                    and API cleanup *)
| EvInitObject (name : string)   (* [init_object(name)] is called *)
| EvCalcPinThreads               (* [self.AD.threading.calculate_pin_threads()] *)
| EvInitializeApp (name : string)(* [initialize_app(name)] is called *)
| EvImport (module : string) (reload : bool)  (* a module is imported or reloaded *)
| EvAddThread.                   (* [self.AD.threading.add_thread(False, True)] *)

Record state := mk_state {
  app_config : config;
  app_config_file_modified : Z;
  app_config_files : option (list string);  (* [None]: still the initial [{}] *)
  monitored_files : dict Z;
  modules : list string;                    (* the keys of [self.modules] *)
  objects : dict app_object;
  apps_initialized : bool;
  trace : list event
}.

(** [AppManagement.__init__] *)
Definition initial_state : state :=
  mk_state [] 0%Z None [] [] [] false [].

Definition set_app_config (c : config) (st : state) : state :=
  mk_state c (app_config_file_modified st) (app_config_files st)
    (monitored_files st) (modules st) (objects st) (apps_initialized st)
    (trace st).

Definition set_app_config_file_modified (t : Z) (st : state) : state :=
  mk_state (app_config st) t (app_config_files st)
    (monitored_files st) (modules st) (objects st) (apps_initialized st)
    (trace st).

Definition set_app_config_files (l : list string) (st : state) : state :=
  mk_state (app_config st) (app_config_file_modified st) (Some l)
    (monitored_files st) (modules st) (objects st) (apps_initialized st)
    (trace st).

Definition set_monitored_files (m : dict Z) (st : state) : state :=
  mk_state (app_config st) (app_config_file_modified st) (app_config_files st)
    m (modules st) (objects st) (apps_initialized st) (trace st).

Definition set_modules (l : list string) (st : state) : state :=
  mk_state (app_config st) (app_config_file_modified st) (app_config_files st)
    (monitored_files st) l (objects st) (apps_initialized st) (trace st).

Definition set_objects (o : dict app_object) (st : state) : state :=
  mk_state (app_config st) (app_config_file_modified st) (app_config_files st)
    (monitored_files st) (modules st) o (apps_initialized st) (trace st).

Definition set_apps_initialized (b : bool) (st : state) : state :=
  mk_state (app_config st) (app_config_file_modified st) (app_config_files st)
    (monitored_files st) (modules st) (objects st) b (trace st).

Definition add_events (evs : list event) (st : state) : state :=
  mk_state (app_config st) (app_config_file_modified st) (app_config_files st)
    (monitored_files st) (modules st) (objects st) (apps_initialized st)
    (trace st ++ evs).

(** ** The state and exception monad *)

(** A raised exception keeps the state reached: Python undoes nothing. *)
Definition M (A : Type) : Type := state -> result A * state.

Definition ret {A : Type} (a : A) : M A := fun st => (Ok a, st).

Definition raise {A : Type} (e : exn) : M A := fun st => (Raise e, st).

Definition bind {A B : Type} (m : M A) (k : A -> M B) : M B :=
  fun st =>
    match m st with
    | (Ok a, st') => k a st'
    | (Raise e, st') => (Raise e, st')
    end.

(** [try: m  except: h] *)
Definition try_except {A : Type} (m : M A) (h : exn -> M A) : M A :=
  fun st =>
    match m st with
    | (Ok a, st') => (Ok a, st')
    | (Raise e, st') => h e st'
    end.

Definition get : M state := fun st => (Ok st, st).

Definition modify (f : state -> state) : M unit := fun st => (Ok tt, f st).

Definition emit (ev : event) : M unit := modify (add_events [ev]).

Definition warn (m : log_msg) : M unit := emit (EvLog m).

Definition lift {A : Type} (r : result A) : M A :=
  match r with
  | Ok a => ret a
  | Raise e => raise e
  end.

Notation "x <- m ;; k" := (bind m (fun x => k))
  (at level 61, m at next level, right associativity).
Notation "m ;;; k" := (bind m (fun _ => k))
  (at level 61, right associativity).

(** A [for] loop that threads a local variable. *)
Fixpoint foldM {A S : Type} (f : S -> A -> M S) (l : list A) (s : S) : M S :=
  match l with
  | [] => ret s
  | x :: r => s' <- f s x ;; foldM f r s'
  end.

(** A [for] loop run for its effects. *)
Fixpoint forM {A : Type} (f : A -> M unit) (l : list A) : M unit :=
  match l with
  | [] => ret tt
  | x :: r => f x ;;; forM f r
  end.

(** ** Change detection and the configuration diff *)

(** The dict [check_later_app_configs] returns.  With [apps.yaml] in the
    configuration directory it has no ["deleted"] key. *)
Record later_files := mk_later {
  lf_latest : Z;
  lf_files : list string;
  lf_deleted : option (list string)
}.

(** The files of the walk that are newer than [last_latest]. *)
Definition yaml_later (w : world) (last_latest : Z) : list string :=
  map fst (filter (fun f => Z.ltb last_latest (snd f)) (w_yaml_files w)).

(** [later_files["latest"]] after the walk. *)
Definition yaml_latest (w : world) (last_latest : Z) : Z :=
  fold_left (fun l f => if Z.ltb l (snd f) then snd f else l)
            (w_yaml_files w) last_latest.

(** The files of [self.app_config_files] that the walk did not find. *)
Definition yaml_deleted (w : world) (known : option (list string))
  : list string :=
  match known with
  | Some old => filter (fun f => negb (mem f (map fst (w_yaml_files w)))) old
  | None => []
  end.

(** The files of the walk that are not in [self.app_config_files]; the
    loop is skipped while that is still the initial [{}]. *)
Definition yaml_added (w : world) (known : option (list string))
  : list string :=
  match known with
  | Some old => filter (fun f => negb (mem f old)) (map fst (w_yaml_files w))
  | None => []
  end.

Definition check_later_app_configs (w : world) (last_latest : Z)
  : M later_files :=
  if w_config_is_file w then
    ret (mk_later (w_config_file_ts w) [w_config_file w] None)
  else
    st <- get ;;
    modify (set_app_config_files (map fst (w_yaml_files w))) ;;;
    ret (mk_later (yaml_latest w last_latest)
                  (yaml_later w last_latest ++ yaml_added w (app_config_files st))
                  (Some (yaml_deleted w (app_config_files st)))).

(** [latest["deleted"]] *)
Definition lf_deleted_get (l : later_files) : M (list string) :=
  match lf_deleted l with
  | Some d => ret d
  | None => raise (KeyError "deleted")
  end.

Definition read_config (w : world) : M (option config) :=
  match w_read_config w with
  | ReadRaises => raise ReadError
  | ReadNone => ret None
  | ReadConfig c => ret (Some c)
  end.

(** [term_object(name)]: the hook runs outside the lock and its exceptions
    are caught, the registry entry is removed, the collaborators clear what
    they hold for the app. *)
Definition term_object (name : string) : M unit :=
  emit (EvTermObject name) ;;;
  modify (fun st => set_objects (dict_del name (objects st)) st).

(** What [check_config] and [check_app_updates] call [apps]. *)
Record plan := mk_plan {
  p_init : nameset;
  p_term : nameset;
  p_total : nat
}.

(** The body of [for name in self.app_config]; the accumulator is
    [(terminate_apps, initialize_apps)]. *)
Definition diff_existing (new_config : config) (acc : nameset * nameset)
  (item : string * entry) : M (nameset * nameset) :=
  match dict_get (fst item) new_config with
  | Some new =>
      if negb (entry_eqb (snd item) new)
      then ret (nameset_add (fst item) (fst acc),
                nameset_add (fst item) (snd acc))
      else ret acc
  | None => term_object (fst item) ;;; ret acc
  end.

(** The body of [for name in new_config]. *)
Definition diff_added (w : world) (old_config : config) (init : nameset)
  (item : string * entry) : M nameset :=
  if dict_has (fst item) old_config then ret init
  else if entry_has_class_and_module (snd item)
  then ret (nameset_add (fst item) init)
  else if String.eqb (fst item) "global_modules" then ret init
  else
    (if w_invalid_yaml_warnings w
     then warn (LogMissingClassOrModule (fst item)) else ret tt) ;;;
    ret init.

(** The thread top-up at the end of [check_config]. *)
Definition add_threads (w : world) (total_apps : nat) : M unit :=
  if w_auto_pin w && Z.ltb (w_threads w) (Z.of_nat total_apps)
  then forM (fun _ : unit => emit EvAddThread)
            (repeat tt (Z.to_nat (Z.of_nat total_apps - w_threads w)))
  else ret tt.

(** The [try] block of [check_config] (called with its default arguments). *)
Definition check_config_body (w : world) : M (option plan) :=
  st0 <- get ;;
  let total_apps := length (app_config st0) in
  latest <- check_later_app_configs w (app_config_file_modified st0) ;;
  modify (set_app_config_file_modified (lf_latest latest)) ;;;
  changed <- match lf_files latest with
             | _ :: _ => ret true
             | [] => d <- lf_deleted_get latest ;;
                     ret (match d with [] => false | _ :: _ => true end)
             end ;;
  if (changed : bool) then
    new_config <- read_config w ;;
    match new_config with
    | None => warn LogConfigNotApplied ;;; ret None
    | Some new_config =>
        _ <- lf_deleted_get latest ;;
        st1 <- get ;;
        acc <- foldM (diff_existing new_config) (app_config st1) ([], []) ;;
        st2 <- get ;;
        init <- foldM (diff_added w (app_config st2)) new_config (snd acc) ;;
        modify (set_app_config new_config) ;;;
        add_threads w (length new_config) ;;;
        ret (Some (mk_plan init (fst acc) (length new_config)))
    end
  else
    add_threads w total_apps ;;;
    ret (Some (mk_plan [] [] total_apps)).

(** [check_config()]: the bare [except] logs and the method returns
    [None]. *)
Definition check_config (w : world) : M (option plan) :=
  try_except (check_config_body w)
             (fun _ => warn LogUnexpectedError ;;; ret None).

(** ** Apps of a module *)

(** [self.app_config[app]["module"]] *)
Definition entry_module (e : entry) : result string :=
  match e with
  | App a => Ok (ad_module a)
  | GlobalModules _ => Raise TypeError_list_index
  end.

Fixpoint apps_per_module (cfg : config) (module : string)
  : result (list string) :=
  match cfg with
  | [] => Ok []
  | (app, e) :: rest =>
      if String.eqb app "global_modules" then apps_per_module rest module
      else
        match entry_module e with
        | Raise x => Raise x
        | Ok m =>
            match apps_per_module rest module with
            | Raise x => Raise x
            | Ok l => Ok (if String.eqb m module then app :: l else l)
            end
        end
  end.

Definition apps_per_global_module (cfg : config) (module : string)
  : list string :=
  flat_map
    (fun item : string * entry =>
       flat_map (fun gm => if String.eqb gm module then [fst item] else [])
                (entry_global_dependencies (snd item)))
    cfg.

(** [utils.single_or_list(self.app_config["global_modules"])], empty when
    the key is absent; a dict under that key holds no module name. *)
Definition global_modules_list (cfg : config) : list string :=
  match dict_get "global_modules" cfg with
  | Some (GlobalModules l) => l
  | _ => []
  end.

(** ** The plan while [check_app_updates] extends it *)

(** [apps["term"][app] = 1]; [apps] is what [check_config] returned. *)
Definition plan_add_term (app : string) (apps : option plan)
  : M (option plan) :=
  match apps with
  | None => raise TypeError_none_subscript
  | Some p =>
      ret (Some (mk_plan (p_init p) (nameset_add app (p_term p)) (p_total p)))
  end.

(** [apps["init"][app] = 1] *)
Definition plan_add_init (app : string) (apps : option plan)
  : M (option plan) :=
  match apps with
  | None => raise TypeError_none_subscript
  | Some p =>
      ret (Some (mk_plan (nameset_add app (p_init p)) (p_term p) (p_total p)))
  end.

(** An element of [modules]. *)
Record module_change := mk_mod {
  m_name : string;
  m_reload : bool
}.

(** The body of [for file in found_files]. *)
Definition scan_file (w : world) (acc : list module_change)
  (f : string * option Z) : M (list module_change) :=
  if String.eqb (fst f) (path_join (w_app_dir w) "__init__.py") then ret acc
  else
    match snd f with
    | None => warn (LogUnableToRead (fst f)) ;;; ret acc
    | Some modified =>
        st <- get ;;
        match dict_get (fst f) (monitored_files st) with
        | Some seen =>
            if Z.ltb seen modified then
              modify (fun st =>
                        set_monitored_files
                          (dict_set (fst f) modified (monitored_files st)) st) ;;;
              ret (acc ++ [mk_mod (fst f) true])
            else ret acc
        | None =>
            modify (fun st =>
                      set_monitored_files
                        (dict_set (fst f) modified (monitored_files st)) st) ;;;
            ret (acc ++ [mk_mod (fst f) false])
        end
    end.

(** The body of [for file in deleted_modules]. *)
Definition delete_module (apps : option plan) (file : string)
  : M (option plan) :=
  modify (fun st => set_monitored_files (dict_del file (monitored_files st)) st) ;;;
  st <- get ;;
  l <- lift (apps_per_module (app_config st) (get_module_from_path file)) ;;
  foldM (fun apps app => plan_add_term app apps) l apps.

(** The two assignments made for an app of a changed module. *)
Definition plan_reload (reload : bool) (apps : option plan) (app : string)
  : M (option plan) :=
  apps' <- (if reload then plan_add_term app apps else ret apps) ;;
  plan_add_init app apps'.

(** The body of [for module in modules]. *)
Definition module_apps (apps : option plan) (mc : module_change)
  : M (option plan) :=
  st <- get ;;
  let name := get_module_from_path (m_name mc) in
  l <- lift (apps_per_module (app_config st) name) ;;
  apps1 <- foldM (plan_reload (m_reload mc)) l apps ;;
  foldM
    (fun apps gm =>
       if String.eqb gm name
       then foldM (plan_reload (m_reload mc))
                  (apps_per_global_module (app_config st) gm) apps
       else ret apps)
    (global_modules_list (app_config st)) apps1.

(** The [for this_plugin in ...] loop with its two [break]s. *)
Fixpoint plugin_matches (plugin : string) (l : list string) : bool :=
  match l with
  | [] => false
  | this_plugin :: rest =>
      if String.eqb this_plugin plugin then true
      else if String.eqb plugin "__ALL__" then true
      else plugin_matches plugin rest
  end.

Definition entry_plugin (e : entry) : option (list string) :=
  match e with
  | App a => option_map single_or_list (ad_plugin a)
  | GlobalModules _ => None
  end.

(** The body of [for app in self.app_config] of a plugin restart. *)
Definition plugin_app (plugin : string) (apps : option plan)
  (item : string * entry) : M (option plan) :=
  if String.eqb (fst item) "global_modules" then ret apps
  else
    let reload :=
      match entry_plugin (snd item) with
      | Some l => plugin_matches plugin l
      | None => true
      end in
    if reload then
      apps' <- plan_add_term (fst item) apps ;;
      plan_add_init (fst item) apps'
    else ret apps.

(** [check_app_updates] up to the plan: the configuration diff, the module
    scan, the apps of deleted and changed modules, the plugin restart. *)
Definition plan_phase (w : world) (plugin : option string) (exit : bool)
  : M (option plan * list module_change) :=
  apps <- check_config w ;;
  modules <- foldM (scan_file w) (w_py_files w) [] ;;
  st <- get ;;
  let found_files := map fst (w_py_files w) in
  let deleted_modules :=
    filter (fun file => negb (mem file found_files) || exit)
           (dict_keys (monitored_files st)) in
  apps1 <- foldM delete_module deleted_modules apps ;;
  apps2 <- foldM module_apps modules apps1 ;;
  apps3 <- match plugin with
           | Some pl =>
               st <- get ;;
               foldM (plugin_app pl) (app_config st) apps2
           | None => ret apps2
           end ;;
  ret (apps3, modules).

(** ** Loading modules *)

(** [importlib.import_module] or [importlib.reload]; an import stores the
    module in [self.modules]. *)
Definition import_module (w : world) (module_name : string) (reload : bool)
  : M unit :=
  emit (EvImport module_name reload) ;;;
  if w_import_fails w module_name then raise (LoadError module_name)
  else if reload then ret tt
  else modify (fun st =>
                 set_modules
                   (if mem module_name (modules st) then modules st
                    else modules st ++ [module_name]) st).

Definition get_app_from_file (cfg : config) (file : string) : option string :=
  let module := get_module_from_path file in
  match find (fun item : string * entry =>
                match snd item with
                | App a => String.eqb (ad_module a) module
                | GlobalModules _ => false
                end) cfg with
  | Some item => Some (fst item)
  | None => None
  end.

(** [read_app(file)] with [reload=False]. *)
Definition read_app_load (w : world) (file : string) : M unit :=
  let module_name := splitext_root (basename file) in
  st <- get ;;
  match get_app_from_file (app_config st) file with
  | Some _ =>
      if mem module_name (modules st)
      then import_module w module_name true
      else import_module w module_name false
  | None =>
      if mem module_name (global_modules_list (app_config st))
      then import_module w module_name false
      else if w_missing_app_warnings w
           then warn (LogNoAppDescription file)
           else ret tt
  end.

(** [read_app(file, reload)].  A module that is not in [self.modules] makes
    the reload raise [KeyError]; unless the file name is a key of
    [sys.modules] the module is then imported through [read_app] on the
    name without its extension. *)
Definition read_app (w : world) (file : string) (reload : bool) : M unit :=
  let name := basename file in
  let module_name := splitext_root name in
  if reload then
    st <- get ;;
    if mem module_name (modules st) then import_module w module_name true
    else if negb (mem name (w_sys_modules w))
         then read_app_load w (splitext_root name)
         else raise (KeyError module_name)
  else read_app_load w file.

(** The body of the [for app in self.app_config] loop of the handler that
    runs when [read_app] raised. *)
Definition remove_failed (module : string) (apps : option plan)
  (item : string * entry) : M (option plan) :=
  m <- lift (entry_module (snd item)) ;;
  if String.eqb m module then
    match apps with
    | None => raise TypeError_none_subscript
    | Some p =>
        if match p_init p with [] => false | _ :: _ => true end
           && mem (fst item) (p_init p)
        then
          warn (LogRemovedApp (fst item)) ;;;
          ret (Some (mk_plan (nameset_del (fst item) (p_init p))
                             (p_term p) (p_total p)))
        else ret apps
    end
  else ret apps.

(** The body of [for mod in modules] of the load phase. *)
Definition load_module (w : world) (apps : option plan) (mc : module_change)
  : M (option plan) :=
  try_except
    (read_app w (m_name mc) (m_reload mc) ;;; ret apps)
    (fun _ =>
       warn (LogErrorLoadingModule (m_name mc)) ;;;
       warn LogRemovingAssociated ;;;
       st <- get ;;
       foldM (remove_failed (get_module_from_path (m_name mc)))
             (app_config st) apps).

(** ** Constructing and initializing apps *)

Definition get_file_from_module (monitored : dict Z) (module : string)
  : option string :=
  find (fun file => String.eqb (get_module_from_path file) module)
       (dict_keys monitored).

Definition init_object (w : world) (name : string) : M unit :=
  emit (EvInitObject name) ;;;
  st <- get ;;
  match dict_get name (app_config st) with
  | None => raise (KeyError name)
  | Some (GlobalModules _) => raise TypeError_list_index
  | Some (App a) =>
      match get_file_from_module (monitored_files st) (ad_module a) with
      | None => warn (LogModuleNotFound name)
      | Some _ =>
          let construct (pin : Z) : M unit :=
            match w_construct w name with
            | ImportRaises => raise (LoadError (ad_module a))
            | ClassMissing => warn (LogClassNotFound name)
            | ConstructorRaises => raise (ConstructError name)
            | Constructed =>
                modify (fun st =>
                          set_objects
                            (dict_set name
                               (mk_object (ad_module a) (ad_class a) pin)
                               (objects st)) st)
            end in
          match ad_pin_thread a with
          | Some pin =>
              if Z.ltb pin 0 || Z.leb (w_threads w) pin
              then warn (LogPinOutOfRange name)
              else construct pin
          | None => construct (-1)%Z
          end
      end
  end.

(** [initialize_app(name)]: the hook of a registered app is run and its
    exceptions are caught. *)
Definition initialize_app (name : string) : M unit :=
  emit (EvInitializeApp name) ;;;
  st <- get ;;
  if dict_has name (objects st) then ret tt
  else warn (LogInitializeSkipped name).

(** ["disable" in self.app_config[app] and self.app_config[app]["disable"] is True] *)
Definition is_disabled (app : string) : M bool :=
  st <- get ;;
  match dict_get app (app_config st) with
  | Some e => ret (entry_disabled e)
  | None => raise (KeyError app)
  end.

(** [get_app_deps_and_prios] as a method: it reads [self.app_config]. *)
Definition run_get_app_deps_and_prios (applist : list string)
  : M (dict prio) :=
  st <- get ;;
  modify (add_events
            (map EvLog (fst (get_app_deps_and_prios (app_config st) applist)))) ;;;
  lift (snd (get_app_deps_and_prios (app_config st) applist)).

Section Lifecycle.
(** The order of Python floats on priorities ([<]). *)
Variable prio_lt : prio -> prio -> bool.

Fixpoint insert_by (lt : prio -> prio -> bool) (x : string * prio)
  (l : list (string * prio)) : list (string * prio) :=
  match l with
  | [] => [x]
  | y :: r => if lt (snd y) (snd x) then y :: insert_by lt x r
              else x :: y :: r
  end.

(** [sorted(prio_apps, key=prio_apps.get)]: a stable sort of the keys. *)
Definition sorted_keys (prio_apps : dict prio) : list string :=
  map fst (fold_right (insert_by prio_lt) [] prio_apps).

(** [sorted(prio_apps, key=prio_apps.get, reverse=True)] *)
Definition sorted_keys_reverse (prio_apps : dict prio) : list string :=
  map fst (fold_right (insert_by (fun a b => prio_lt b a)) [] prio_apps).

(** The terminate phase. *)
Definition terminate_phase (apps : option plan) : M unit :=
  match apps with
  | Some p =>
      match p_term p with
      | _ :: _ =>
          prio_apps <- run_get_app_deps_and_prios (p_term p) ;;
          forM (fun app =>
                  try_except (term_object app)
                             (fun _ => warn (LogAppError "terminating" app)))
               (sorted_keys_reverse prio_apps)
      | [] => ret tt
      end
  | None => ret tt
  end.

(** The initialize phase: construct, recompute the pins, initialize. *)
Definition init_phase (w : world) (apps : option plan) : M unit :=
  match apps with
  | Some p =>
      match p_init p with
      | _ :: _ =>
          prio_apps <- run_get_app_deps_and_prios (p_init p) ;;
          forM (fun app =>
                  try_except
                    (disabled <- is_disabled app ;;
                     if (disabled : bool) then ret tt else init_object w app)
                    (fun _ => warn (LogAppError "initializing" app)))
               (sorted_keys prio_apps) ;;;
          emit EvCalcPinThreads ;;;
          forM (fun app =>
                  disabled <- is_disabled app ;;
                  if (disabled : bool) then ret tt else initialize_app app)
               (sorted_keys prio_apps)
      | [] => ret tt
      end
  | None => ret tt
  end.

(** [check_app_updates(plugin, exit)].  The method returns nothing; the
    model returns the value of its local [apps] at the end.  The filter
    scripts and the profiler do not touch the state modelled here. *)
Definition check_app_updates (w : world) (plugin : option string)
  (exit : bool) : M (option plan) :=
  if negb (w_apps_enabled w) then ret None
  else
    planned <- plan_phase w plugin exit ;;
    terminate_phase (fst planned) ;;;
    apps <- foldM (load_module w) (snd planned) (fst planned) ;;
    init_phase w apps ;;;
    modify (set_apps_initialized true) ;;;
    ret apps.
End Lifecycle.

(** ** The order of the priorities *)

(** *** Python floats *)

(** [n / d] rounded to the nearest integer, a tie to the even one
    ([0 < d]). *)
Definition round_half_even (n d : Z) : Z :=
  let q := (n / d)%Z in
  match (2 * (n mod d) ?= d)%Z with
  | Lt => q
  | Gt => (q + 1)%Z
  | Eq => if Z.even q then q else (q + 1)%Z
  end.

(** [2 ** z], and [1] for a negative [z]. *)
Definition pow2 (z : Z) : Z := (2 ^ Z.max 0 z)%Z.

(** The float ([binary64]) nearest to a rational, a tie to the even
    significand, as the rational it is: what [float(x)] and the float
    operations of Python return.  [E] is the exponent of the leading bit
    and [e] that of the last bit of the 53-bit significand, not below that
    of the subnormal numbers.  Numbers beyond the largest float, which
    Python turns into [inf] or an [OverflowError], are not priorities of
    the typed configuration. *)
Definition float_of_Q (x : Q) : Q :=
  let n := Z.abs (Qnum x) in
  let d := Zpos (Qden x) in
  if (n =? 0)%Z then 0
  else
    let a := (Z.log2 n - Z.log2 d)%Z in
    let E := if (d * pow2 a <=? n * pow2 (- a))%Z then a else (a - 1)%Z in
    let e := Z.max (E - 52) (-1074) in
    let m := round_half_even (n * pow2 (- e)) (d * pow2 e) in
    Qred (Qmake (Z.sgn (Qnum x) * m * pow2 e) (Z.to_pos (pow2 (- e)))).

(** The float a priority is: [prio] starts as [float(50.1)] and
    [prio += float(0.0001)] follows each use of it; a configured priority
    goes through [float()]; the default is [float(50)]. *)
Definition prio_float (p : prio) : Q :=
  match p with
  | PrioClustered k =>
      Nat.iter k (fun prio => float_of_Q (prio + float_of_Q (1 # 10000)))
               (float_of_Q (501 # 10))
  | PrioConfigured q => float_of_Q q
  | PrioDefault => float_of_Q (50 # 1)
  end.

(** [<] on the floats of two priorities. *)
Definition prio_lt_float (a b : prio) : bool :=
  negb (Qle_bool (prio_float b) (prio_float a)).

(** *** The order without rounding *)

(** The rational a priority stands for when the sums are exact. *)
Definition prio_value (p : prio) : Q :=
  match p with
  | PrioClustered k => (501 # 10) + inject_Z (Z.of_nat k) * (1 # 10000)
  | PrioConfigured q => q
  | PrioDefault => 50 # 1
  end.

(** The order of the exact values.  It is not the order of the floats
    between values that are closer than the rounding error of the counter
    (the second value of the counter and a configured [50.1001] are equal
    here, and differ as floats).  It increases with the counter at every
    index, which the floats do only while [0.0001] is not absorbed by the
    sum. *)
Definition prio_lt_exact (a b : prio) : bool :=
  negb (Qle_bool (prio_value b) (prio_value a)).

(** ** Shutdown and lookup *)

(** [terminate()]: a last cycle with [exit=True], once a cycle has run to
    its end. *)
Definition terminate (prio_lt : prio -> prio -> bool) (w : world) : M unit :=
  st <- get ;;
  if apps_initialized st
  then check_app_updates prio_lt w None true ;;; ret tt
  else ret tt.

(** [get_app(name)]: the live object of the app, if it has one. *)
Definition get_app (name : string) : M (option app_object) :=
  st <- get ;;
  ret (dict_get name (objects st)).

(** [file_in_modules(file, modules)] *)
Definition file_in_modules (file : string) (modules : list module_change)
  : bool :=
  existsb (fun mc => String.eqb (m_name mc) file) modules.



(** ** Reading the YAML files *)

(** A YAML value as [read_config] looks at it: [None] (an empty value or
    document, or what [read_config_file] returns for a file it could not
    read or parse), a value that has no [in] (a number, a boolean, a
    date), a string, a list, a mapping.  The keys of a mapping are taken to
    be strings. *)
Local Unset Elimination Schemes.
Inductive yaml :=
| YNone
| YScalar
| YStr (s : string)
| YList (l : list yaml)
| YDict (d : list (string * yaml)).
Local Set Elimination Schemes.

(** [key in s] for two strings: [key] is a substring of [s]. *)
Fixpoint contains (key s : string) : bool :=
  String.prefix key s
  || match s with
     | EmptyString => false
     | String _ r => contains key r
     end.

(** [key in v]: a key of a mapping, an element of a list, a substring of a
    string; [TypeError] for a value that is not iterable. *)
Definition py_in (key : string) (v : yaml) : result bool :=
  match v with
  | YDict d => Ok (dict_has key d)
  | YList l =>
      Ok (existsb (fun x => match x with
                            | YStr s => String.eqb s key
                            | _ => false
                            end) l)
  | YStr s => Ok (contains key s)
  | YScalar | YNone => Raise ReadError
  end.

(** The warnings of [read_config]. *)
Inductive config_warning :=
| WarnMissingClassOrModule (app : string)  (* "App '%s' missing 'class' or 'module' entry - ignoring" *)
| WarnInvalidStructure (file : string)     (* "File '%s' invalid structure - ignoring" *)
| WarnDuplicateApp (file app : string).    (* "File '%s' duplicate app: %s - ignoring" *)

(** A [for] loop whose body may raise. *)
Fixpoint foldR {A S : Type} (f : S -> A -> result S) (l : list A) (s : S)
  : result S :=
  match l with
  | [] => Ok s
  | x :: r => match f s x with
              | Ok s' => foldR f r s'
              | Raise e => Raise e
              end
  end.

(** The body of [for app in config]; the accumulator is [valid_apps] and
    the warnings logged so far; [warnings] is
    [self.AD.invalid_yaml_warnings]. *)
Definition check_section (warnings : bool)
  (acc : dict yaml * list config_warning) (item : string * yaml)
  : result (dict yaml * list config_warning) :=
  let missing :=
    (fst acc,
     snd acc ++ (if warnings then [WarnMissingClassOrModule (fst item)] else [])) in
  match snd item with
  | YNone => Ok acc
  | v =>
      if String.eqb (fst item) "global_modules"
      then Ok (dict_set (fst item) v (fst acc), snd acc)
      else
        match py_in "class" v with
        | Raise e => Raise e
        | Ok false => Ok missing
        | Ok true =>
            match py_in "module" v with
            | Raise e => Raise e
            | Ok false => Ok missing
            | Ok true => Ok (dict_set (fst item) v (fst acc), snd acc)
            end
        end
  end.

(** The body of [for app in valid_apps]; the accumulator is [new_config]
    and the warnings. *)
Definition merge_section (file : string)
  (acc : dict yaml * list config_warning) (item : string * yaml)
  : dict yaml * list config_warning :=
  if dict_has (fst item) (fst acc)
  then (fst acc, snd acc ++ [WarnDuplicateApp file (fst item)])
  else (dict_set (fst item) (snd item) (fst acc), snd acc).

(** The body of [for file in files] for a YAML file: [f] is the path and
    what [read_config_file] returned for it. *)
Definition read_yaml_file (warnings : bool)
  (acc : option (dict yaml) * list config_warning) (f : string * yaml)
  : result (option (dict yaml) * list config_warning) :=
  match
    match snd f with
    | YDict d => foldR (check_section warnings) d ([], snd acc)
    | _ =>
        Ok ([], snd acc ++ (if warnings then [WarnInvalidStructure (fst f)] else []))
    end
  with
  | Raise e => Raise e
  | Ok valid =>
      let new_config := match fst acc with Some c => c | None => [] end in
      let merged :=
        fold_left (merge_section (fst f)) (fst valid) (new_config, snd valid) in
      Ok (Some (fst merged), snd merged)
  end.

(** [read_config()] with the configuration in the apps directory, over the
    YAML files of the walk in the order of the walk: what it returns and
    what it logs. *)
Definition read_config_walk (warnings : bool) (files : list (string * yaml))
  : result (option (dict yaml) * list config_warning) :=
  foldR (read_yaml_file warnings) files (None, []).

(** ** The filters *)

(** [s[-n:]] for [n > 0]: the last [n] characters of [s], all of [s] when
    it is shorter. *)
Definition py_last (n : nat) (s : string) : string :=
  string_of_list_ascii
    (skipn (String.length s - n) (list_ascii_of_string s)).

(** [file[extlen:] == ext] with [extlen = len(ext) * -1]: for an empty
    [ext] the slice starts at [-0], which is the start of the string. *)
Definition ext_matches (ext file : string) : bool :=
  String.eqb (match String.length ext with
              | O => file
              | S _ => py_last (String.length ext) file
              end) ext.

(** An entry of [self.AD.config["filters"]]. *)
Record filter_def := mk_filter {
  f_input_ext : string;
  f_output_ext : string;
  f_command_line : string
}.

(** A run of a filter: the command line is started for [r_infile], whose
    time [r_modified] is stored in [self.filter_files]. *)
Record filter_run := mk_run {
  r_infile : string;
  r_modified : Z;
  r_filter : filter_def
}.

(** What [os.walk] yields for a directory, with the modification time
    [os.path.getmtime] gives for each file when it is asked. *)
Definition listing := list (string * list (string * Z)).

(** The body of [for file in files]; the accumulator is
    [self.filter_files] and the runs started so far. *)
Definition filter_file (flt : filter_def) (root : string)
  (acc : dict Z * list filter_run) (f : string * Z)
  : dict Z * list filter_run :=
  if ext_matches (f_input_ext flt) (fst f) then
    let infile := path_join root (fst f) in
    if match dict_get infile (fst acc) with
       | Some seen => Z.ltb seen (snd f)
       | None => true
       end
    then (dict_set infile (snd f) (fst acc),
          snd acc ++ [mk_run infile (snd f) flt])
    else acc
  else acc.

(** The walk of one filter. *)
Definition filter_walk (flt : filter_def) (acc : dict Z * list filter_run)
  (walk : listing) : dict Z * list filter_run :=
  fold_left (fun acc dir => fold_left (filter_file flt (fst dir)) (snd dir) acc)
            walk acc.

(** [process_filters()]: each filter walks the apps directory again, so
    each comes with the listing its walk finds.  The result is
    [self.filter_files] and the runs started, in order. *)
Definition process_filters (filters : list (filter_def * listing))
  (filter_files : dict Z) : dict Z * list filter_run :=
  fold_left (fun acc fw => filter_walk (fst fw) acc (snd fw))
            filters (filter_files, []).

(* ===================================================================== *)
(** * Part II.  The terms of the properties                               *)
(* ===================================================================== *)

(** ** The dependency relation of a sort input *)

(** [depends_on source a b]: the entry of [a] lists [b]. *)
Definition depends_on (source : list (string * list string)) (a b : string)
  : Prop :=
  exists ds, In (a, ds) source /\ In b ds.

Definition has_cycle (source : list (string * list string)) : Prop :=
  exists x, clos_trans string (depends_on source) x x.

Definition acyclic (source : list (string * list string)) : Prop :=
  forall x, ~ clos_trans string (depends_on source) x x.

(** Every dependency names an entry of the input. *)
Definition deps_closed (source : list (string * list string)) : Prop :=
  forall n ds d, In (n, ds) source -> In d ds -> In d (map fst source).

(** [n] comes after all of [ds] wherever it occurs in [order]. *)
Definition after_all (order : list string) (n : string) (ds : list string)
  : Prop :=
  forall l1 l2, order = l1 ++ n :: l2 -> incl ds l1.

Section SortInvariantTerms.
Variable source : list (string * list string).

(** A pending entry [(n, ds')] against the names yielded so far ([y]) and
    the list the next [difference_update] will subtract ([em]): [ds'] is
    what is left of the entry's dependencies, and what was yielded since
    the entry was last visited is in [em]. *)
Definition entry_ok (y em : list string) (p : string * list string) : Prop :=
  exists ds,
    In (fst p, ds) source /\
    incl (snd p) ds /\
    (forall d, In d ds -> In d (snd p) \/ In d y) /\
    (forall d, In d (snd p) -> In d y -> In d em).

Definition order_ok (y : list string) : Prop :=
  forall n ds, In (n, ds) source -> after_all y n ds.

(** The invariant of the [while] loop. *)
Record sort_inv (pending : list (string * list string))
  (emitted yielded : list string) : Prop := {
  inv_perm : Permutation (map fst pending ++ yielded) (map fst source);
  inv_pending : Forall (entry_ok yielded emitted) pending;
  inv_emitted : incl emitted yielded;
  inv_order : order_ok yielded
}.

(** The invariant inside a pass: [y0] was yielded before the pass. *)
Record pass_inv (y0 : list string) (todo : list (string * list string))
  (s : pass_state) : Prop := {
  pi_perm : Permutation
              (map fst todo ++ map fst (ps_next_pending s)
                 ++ (y0 ++ ps_next_emitted s))
              (map fst source);
  pi_todo : Forall (entry_ok (y0 ++ ps_next_emitted s) (ps_emitted s)) todo;
  pi_next : Forall (entry_ok (y0 ++ ps_next_emitted s) (ps_next_emitted s))
              (ps_next_pending s);
  pi_stuck : Forall (fun p => snd p <> []) (ps_next_pending s);
  pi_emitted : incl (ps_emitted s) (y0 ++ ps_next_emitted s);
  pi_order : order_ok (y0 ++ ps_next_emitted s)
}.

(** What is known of a stuck entry when the generator raises. *)
Definition stuck_ok (order : list string) (p : string * list string) : Prop :=
  snd p <> [] /\
  forall d, In d (snd p) -> depends_on source (fst p) d /\ ~ In d order.

(** The outcome of a run of the loop that starts in the invariant. *)
Definition sort_outcome_ok (order : list string) (e : sort_end) : Prop :=
  match e with
  | SortDone => Permutation order (map fst source)
  | SortCyclic stuck =>
      stuck <> [] /\
      Permutation (map fst stuck ++ order) (map fst source) /\
      Forall (stuck_ok order) stuck
  | SortFuel => False
  end.

End SortInvariantTerms.

(** ** Positions in the yielded order *)

(** The index of the first occurrence of [x] ([length l] when absent). *)
Fixpoint pos (x : string) (l : list string) : nat :=
  match l with
  | [] => 0
  | y :: r => if String.eqb y x then 0 else S (pos x r)
  end.

Section DependentAppsTerms.
Variable cfg : config.

(** [declares app x]: the section of [app] lists [x] as a dependency. *)
Definition declares (app x : string) : Prop :=
  exists e, In (app, e) cfg /\ In x (entry_dependencies e).

(** Every app that declares [x] is in [deps]. *)
Definition closed_at (deps : list string) (x : string) : Prop :=
  forall app, declares app x -> In app deps.

(** The apps not yet in [deps]: what bounds the recursion depth. *)
Definition unseen (deps : list string) : nat :=
  length (filter (fun k => negb (mem k deps)) (dict_keys cfg)).

(** [deps'] extends [deps] by apps whose dependents are all in [deps']. *)
Definition extends_closed (deps deps' : list string) : Prop :=
  exists ext,
    deps' = deps ++ ext /\
    forall x, In x ext -> In x (dict_keys cfg) /\ closed_at deps' x.

End DependentAppsTerms.

(** ** Priority assignment *)

(** The priority of an app outside every dependency chain. *)
Definition plain_prio (e : entry) : prio :=
  match entry_priority e with
  | Some q => PrioConfigured q
  | None => PrioDefault
  end.

(** The test of the assignment loop: the app has the [dependencies] key or
    some app lists it. *)
Definition in_chain (cfg : config) (app : string) (e : entry) : bool :=
  entry_has_dependencies e || app_has_dependents cfg app.

(** ** Reasoning about runs in the monad *)

(** [run_rel m R]: every run of [m] relates the state it starts in to the
    state it ends in, whether it returns or raises. *)
Definition run_rel {A : Type} (m : M A) (R : state -> state -> Prop) : Prop :=
  forall st, R st (snd (m st)).

(** *** State relations *)

(** The run only appended events, all of them in [P]. *)
Definition emits (P : event -> Prop) (st st' : state) : Prop :=
  exists evs, trace st' = trace st ++ evs /\ Forall P evs.

(** The run left the configuration alone. *)
Definition same_config (st st' : state) : Prop :=
  app_config st' = app_config st.

(** The run left the change-detection records alone. *)
Definition same_records (st st' : state) : Prop :=
  app_config_file_modified st' = app_config_file_modified st /\
  app_config_files st' = app_config_files st /\
  monitored_files st' = monitored_files st.

(** *** Event classes *)

(** The construct / recompute-pins / initialize events. *)
Definition is_init_event (e : event) : bool :=
  match e with
  | EvInitObject _ | EvCalcPinThreads | EvInitializeApp _ => true
  | _ => false
  end.

(** The events that terminate, construct or initialize an app. *)
Definition is_lifecycle_event (e : event) : bool :=
  match e with
  | EvTermObject _ | EvInitObject _ | EvCalcPinThreads | EvInitializeApp _ => true
  | _ => false
  end.

Definition is_term_event (e : event) : bool :=
  match e with
  | EvTermObject _ => true
  | _ => false
  end.

Definition init_events (tr : list event) : list event := filter is_init_event tr.

Definition term_events (tr : list event) : list event := filter is_term_event tr.

Definition lifecycle_events (tr : list event) : list event :=
  filter is_lifecycle_event tr.

(** The disable test of both loops, on a configuration. *)
Definition app_enabled (cfg : config) (app : string) : bool :=
  match dict_get app cfg with
  | Some e => negb (entry_disabled e)
  | None => false
  end.

(** The body of the first loop of the initialize phase. *)
Definition construct_step (w : world) (app : string) : M unit :=
  try_except
    (disabled <- is_disabled app ;;
     if (disabled : bool) then ret tt else init_object w app)
    (fun _ => warn (LogAppError "initializing" app)).

(** The body of the second loop. *)
Definition initialize_step (app : string) : M unit :=
  disabled <- is_disabled app ;;
  if (disabled : bool) then ret tt else initialize_app app.

(** ** [check_config]: what one call does *)

(** Whether the scan of the configuration files makes [check_config] read
    the configuration. *)
Definition detects_change (w : world) (st : state) : bool :=
  if w_config_is_file w then true
  else
    match yaml_later w (app_config_file_modified st)
            ++ yaml_added w (app_config_files st) with
    | _ :: _ => true
    | [] => match yaml_deleted w (app_config_files st) with
            | [] => false
            | _ :: _ => true
            end
    end.

(** The watermark [check_config] stores. *)
Definition new_watermark (w : world) (st : state) : Z :=
  if w_config_is_file w then w_config_file_ts w
  else yaml_latest w (app_config_file_modified st).

(** The state after the scan: the watermark and the file list are stored
    before the configuration is read. *)
Definition after_scan (w : world) (st : state) : state :=
  set_app_config_file_modified (new_watermark w st)
    (if w_config_is_file w then st
     else set_app_config_files (map fst (w_yaml_files w)) st).

(** The apps of the old configuration that the new one lacks. *)
Definition removed_apps (new_config : config) (old : config) : list string :=
  map fst (filter (fun item : string * entry =>
                     negb (dict_has (fst item) new_config)) old).

(** The apps whose section differs in the new configuration. *)
Definition changed_apps (new_config : config) (old : config) : list string :=
  map fst (filter (fun item : string * entry =>
                     match dict_get (fst item) new_config with
                     | Some n => negb (entry_eqb (snd item) n)
                     | None => false
                     end) old).

(** The sections of the new configuration that the old one lacks and that
    pass the test for [class] and [module]. *)
Definition added_apps (old new_config : config) : list string :=
  map fst (filter (fun item : string * entry =>
                     negb (dict_has (fst item) old)
                     && entry_has_class_and_module (snd item)) new_config).

(** [term_object] on each name in turn. *)
Definition terminate_all (names : list string) (st : state) : state :=
  fold_left
    (fun st a => set_objects (dict_del a (objects st))
                   (add_events [EvTermObject a] st))
    names st.

(** ** The module scan *)

(** [os.path.join(self.AD.app_dir, "__init__.py")] *)
Definition init_py (w : world) : string := path_join (w_app_dir w) "__init__.py".

(** Every readable file of the walk is monitored with a time that is not
    older than the file's. *)
Definition files_seen (w : world) (files : list (string * option Z))
  (monitored : dict Z) : Prop :=
  forall f ts, In (f, Some ts) files -> f <> init_py w ->
    exists seen, dict_get f monitored = Some seen /\ Z.ltb seen ts = false.

(** Every monitored file is a file of the walk. *)
Definition none_deleted (w : world) (monitored : dict Z) : Prop :=
  forall f, In f (dict_keys monitored) -> In f (map fst (w_py_files w)).

(** Nothing changed on disk since the state was recorded: no configuration
    file is newer than the watermark, added or gone (when the configuration
    is in the apps directory), and the same for the code modules. *)
Definition in_sync (w : world) (st : state) : Prop :=
  (w_config_is_file w = false -> detects_change w st = false) /\
  files_seen w (w_py_files w) (monitored_files st) /\
  none_deleted w (monitored_files st).

(** The list [deleted_modules] of a cycle that is not an exit. *)
Definition deleted_modules (w : world) (monitored : dict Z) : list string :=
  filter (fun file => negb (mem file (map fst (w_py_files w))) || false)
         (dict_keys monitored).

(** ** A cycle on records that are in sync *)

(** Nothing to terminate and nothing to initialize.  The guards of both
    phases ([apps is not None and apps["term"]]) treat a missing plan like
    empty sets. *)
Definition plan_empty (apps : option plan) : Prop :=
  match apps with
  | Some p => p_init p = [] /\ p_term p = []
  | None => True
  end.

(** ** Changed modules and the apps they touch *)

(** A list under a key other than [global_modules] does not pass
    [read_config]; with this, [apps_per_module] does not raise. *)
Definition global_modules_keyed (cfg : config) : Prop :=
  forall k mods, In (k, GlobalModules mods) cfg -> k = "global_modules".

Definition nonempty {A : Type} (l : list A) : bool :=
  match l with
  | [] => false
  | _ :: _ => true
  end.

(** The file's module is the module of some app. *)
Definition file_has_apps (cfg : config) (file : string) : bool :=
  match apps_per_module cfg (get_module_from_path file) with
  | Ok l => nonempty l
  | Raise _ => false
  end.

(** The changed module is the module of some app, or a global module that
    some app lists in its [global_dependencies]. *)
Definition module_has_apps (cfg : config) (mc : module_change) : bool :=
  file_has_apps cfg (m_name mc)
  || (mem (get_module_from_path (m_name mc)) (global_modules_list cfg)
      && nonempty (apps_per_global_module cfg (get_module_from_path (m_name mc)))).

(** Some deleted or changed module touches an app. *)
Definition touches_app (cfg : config) (deleted : list string)
  (mods : list module_change) : bool :=
  existsb (file_has_apps cfg) deleted || existsb (module_has_apps cfg) mods.

(** The value of [reload] at the end of the loop body of a plugin restart:
    the section is not [global_modules], and it has no [plugin] key or the
    loop over its plugins ends in one of its two [break]s. *)
Definition plugin_reloads (plugin : string) (item : string * entry) : bool :=
  negb (String.eqb (fst item) "global_modules")
  && match entry_plugin (snd item) with
     | Some l => plugin_matches plugin l
     | None => true
     end.

(** The cycle is a plugin restart that reloads some section. *)
Definition plugin_touches_app (cfg : config) (plugin : option string) : bool :=
  match plugin with
  | Some pl => existsb (plugin_reloads pl) cfg
  | None => false
  end.

(** ** The apps of a module that failed to load *)

(** Without a [global_modules] section the handler does what C5 says: the
    apps of the failed module leave the initialize set, each with its
    warning, and no other app does. *)
Definition apps_with_module (cfg : config) (module : string) : list string :=
  map fst (filter (fun item : string * entry =>
                     match snd item with
                     | App a => String.eqb (ad_module a) module
                     | GlobalModules _ => false
                     end) cfg).

Definition only_app_sections (cfg : config) : Prop :=
  forall k e, In (k, e) cfg -> exists a, e = App a.

(** ** Example configurations and worlds *)

(** An app section with the given module, class and [dependencies] key. *)
Definition app_section (module class : string) (deps : option (list string))
  : entry :=
  App (mk_app module class (option_map Several deps) None None None None None []).

(** [base] has no dependency, [mid] depends on [base], [top] on both. *)
Definition cfg_chain : config :=
  [ ("top", app_section "top_mod" "Top" (Some ["mid"; "base"]));
    ("base", app_section "base_mod" "Base" None);
    ("mid", app_section "mid_mod" "Mid" (Some ["base"])) ].

(** [solo] stands alone; [ping] and [pong] depend on each other; [late]
    depends on [ping]. *)
Definition cfg_cycle : config :=
  [ ("solo", app_section "solo_mod" "Solo" None);
    ("ping", app_section "ping_mod" "Ping" (Some ["pong"]));
    ("pong", app_section "pong_mod" "Pong" (Some ["ping"]));
    ("late", app_section "late_mod" "Late" (Some ["ping"])) ].

(** [orphan] declares a dependency on [ghost], which is not an app. *)
Definition cfg_missing : config :=
  [ ("orphan", app_section "orphan_mod" "Orphan" (Some ["ghost"])) ].

(** A world in which the three apps of [cfg_chain] are found, read and
    loaded for the first time. *)
Definition world_chain : world :=
  mk_world true "/conf/apps" false "/conf/apps.yaml" 0
    [("/conf/apps/apps.yaml", 5%Z)]
    (ReadConfig cfg_chain)
    [("/conf/apps/top_mod.py", Some 3%Z);
     ("/conf/apps/base_mod.py", Some 3%Z);
     ("/conf/apps/mid_mod.py", Some 4%Z)]
    (fun _ => false) [] (fun _ => Constructed) 10 false true true.

(** The state after the first cycle in [world_chain]. *)
Definition state_chain : state :=
  snd (check_app_updates prio_lt_float world_chain None false initial_state).

(** [world_chain] after [apps.yaml] was saved with a content that makes
    [read_config] raise. *)
Definition world_chain_broken : world :=
  mk_world true "/conf/apps" false "/conf/apps.yaml" 0
    [("/conf/apps/apps.yaml", 9%Z)]
    ReadRaises
    [("/conf/apps/top_mod.py", Some 3%Z);
     ("/conf/apps/base_mod.py", Some 3%Z);
     ("/conf/apps/mid_mod.py", Some 4%Z)]
    (fun _ => false) [] (fun _ => Constructed) 10 false true true.

(** [cfg_chain] without the section of [base]; [mid] and [top] still list
    it. *)
Definition cfg_chain_without_base : config :=
  [ ("top", app_section "top_mod" "Top" (Some ["mid"; "base"]));
    ("mid", app_section "mid_mod" "Mid" (Some ["base"])) ].

(** [world_chain] after [apps.yaml] was saved without [base]. *)
Definition world_base_removed : world :=
  mk_world true "/conf/apps" false "/conf/apps.yaml" 0
    [("/conf/apps/apps.yaml", 9%Z)]
    (ReadConfig cfg_chain_without_base)
    [("/conf/apps/top_mod.py", Some 3%Z);
     ("/conf/apps/base_mod.py", Some 3%Z);
     ("/conf/apps/mid_mod.py", Some 4%Z)]
    (fun _ => false) [] (fun _ => Constructed) 10 false true true.

(** [world_chain] after [apps.yaml] was broken and [top_mod.py] saved. *)
Definition world_broken_and_module : world :=
  mk_world true "/conf/apps" false "/conf/apps.yaml" 0
    [("/conf/apps/apps.yaml", 9%Z)]
    ReadRaises
    [("/conf/apps/top_mod.py", Some 7%Z);
     ("/conf/apps/base_mod.py", Some 3%Z);
     ("/conf/apps/mid_mod.py", Some 4%Z)]
    (fun _ => false) [] (fun _ => Constructed) 10 false true true.

(** [world_chain] after [apps.yaml] was broken and a module that no app
    uses was added. *)
Definition world_broken_and_helper : world :=
  mk_world true "/conf/apps" false "/conf/apps.yaml" 0
    [("/conf/apps/apps.yaml", 9%Z)]
    ReadRaises
    [("/conf/apps/top_mod.py", Some 3%Z);
     ("/conf/apps/base_mod.py", Some 3%Z);
     ("/conf/apps/mid_mod.py", Some 4%Z);
     ("/conf/apps/helper.py", Some 6%Z)]
    (fun _ => false) [] (fun _ => Constructed) 10 false true true.

(** A configuration with a [global_modules] section. *)
Definition cfg_with_global : config :=
  [ ("global_modules", GlobalModules ["shared"]);
    ("hello", app_section "hello_mod" "Hello" None);
    ("other", app_section "other_mod" "Other" None) ].

(** A first cycle in which importing [hello_mod] raises. *)
Definition world_hello_fails : world :=
  mk_world true "/conf/apps" false "/conf/apps.yaml" 0
    [("/conf/apps/apps.yaml", 5%Z)]
    (ReadConfig cfg_with_global)
    [("/conf/apps/hello_mod.py", Some 3%Z);
     ("/conf/apps/other_mod.py", Some 3%Z);
     ("/conf/apps/shared.py", Some 3%Z)]
    (fun m => String.eqb m "hello_mod") [] (fun _ => Constructed)
    10 false true true.

(** A change of [base_mod.py] alone: [base] and its dependents [mid] and
    [top] are terminated, dependents first, and brought up again,
    dependencies first. *)
Definition world_base_modified : world :=
  mk_world true "/conf/apps" false "/conf/apps.yaml" 0
    [("/conf/apps/apps.yaml", 5%Z)]
    (ReadConfig cfg_chain)
    [("/conf/apps/top_mod.py", Some 3%Z);
     ("/conf/apps/base_mod.py", Some 8%Z);
     ("/conf/apps/mid_mod.py", Some 4%Z)]
    (fun _ => false) [] (fun _ => Constructed) 10 false true true.

(** A first cycle over [cfg_cycle]: every app is new, so all four are in
    the initialize set. *)
Definition world_cycle : world :=
  mk_world true "/conf/apps" false "/conf/apps.yaml" 0
    [("/conf/apps/apps.yaml", 5%Z)]
    (ReadConfig cfg_cycle)
    [("/conf/apps/solo_mod.py", Some 3%Z);
     ("/conf/apps/ping_mod.py", Some 3%Z);
     ("/conf/apps/pong_mod.py", Some 3%Z);
     ("/conf/apps/late_mod.py", Some 3%Z)]
    (fun _ => false) [] (fun _ => Constructed) 10 false true true.

(** ** Terms of the further properties (Part IV) *)

(** ** Inputs of the sort that are already in dependency order *)

(** Every entry lists only names of [seen] or of entries before it. *)
Fixpoint dependency_ordered (seen : list string)
  (source : list (string * list string)) : bool :=
  match source with
  | [] => true
  | (n, ds) :: rest =>
      forallb (fun d => mem d seen) ds && dependency_ordered (seen ++ [n]) rest
  end.

(** [x] comes before [y] in [l]. *)
Definition before {A : Type} (l : list A) (x y : A) : Prop :=
  exists l1 l2 l3, l = l1 ++ x :: l2 ++ y :: l3.

(** [deps'] extends [deps] by apps that reach [x] through declared
    dependencies, without repeating an app. *)
Definition extends_towards (cfg : config) (x : string)
  (deps deps' : list string) : Prop :=
  exists ext,
    deps' = deps ++ ext /\
    (forall y, In y ext -> clos_trans string (declares cfg) y x) /\
    (NoDup deps -> NoDup deps').

(** The apps of [l] that the assignment loop gives a counter value. *)
Definition chain_count (cfg : config) (l : list string) : nat :=
  length (filter (fun x => match dict_get x cfg with
                           | Some e => in_chain cfg x e
                           | None => false
                           end) l).

(** [u] does not come after [v] in the order of the sort with [lt]. *)
Definition prio_le (lt : prio -> prio -> bool) (u v : string * prio) : Prop :=
  lt (snd v) (snd u) = false.

(** ** The float counter *)

(** The next [n] values of the counter, from the value [prio], are each
    larger than the one before. *)
Fixpoint counter_increases (n : nat) (prio : Q) : bool :=
  match n with
  | O => true
  | S n' =>
      let next := float_of_Q (prio + float_of_Q (1 # 10000)) in
      negb (Qle_bool next prio) && counter_increases n' next
  end.

(** ** Configurations with the same sections *)

(** The same keys, with values that compare equal ([!=] is false). *)
Definition same_sections (c1 c2 : config) : Prop :=
  forall k,
    match dict_get k c1, dict_get k c2 with
    | Some e1, Some e2 => entry_eqb e1 e2 = true
    | None, None => True
    | _, _ => False
    end.

(** The calls of [add_thread] that bring the pool up to [total_apps]. *)
Definition threads_needed (w : world) (total_apps : nat) : nat :=
  if w_auto_pin w then Z.to_nat (Z.of_nat total_apps - w_threads w) else 0.

Definition is_thread_event (e : event) : bool :=
  match e with
  | EvAddThread => true
  | _ => false
  end.

Definition thread_events (tr : list event) : list event :=
  filter is_thread_event tr.

(** Two apps of one module with user parameters; [porch] names its
    dependency as a string. *)
Definition cfg_lights : config :=
  [ ("hall",
     App (mk_app "light_mod" "Light" None None None None None None
            [("entity", "light.hall"); ("delay", "5")]));
    ("porch",
     App (mk_app "light_mod" "Light" (Some (Single "hall")) None None None
            None None [("entity", "light.porch")])) ].

(** The sections of [cfg_lights] after the document was rearranged: the
    sections and the parameters of [hall] come in another order. *)
Definition cfg_lights_rearranged : config :=
  [ ("porch",
     App (mk_app "light_mod" "Light" (Some (Single "hall")) None None None
            None None [("entity", "light.porch")]));
    ("hall",
     App (mk_app "light_mod" "Light" None None None None None None
            [("delay", "5"); ("entity", "light.hall")])) ].

(** [cfg_lights] with the dependency of [porch] written as a list of one
    name. *)
Definition cfg_lights_listed : config :=
  [ ("hall",
     App (mk_app "light_mod" "Light" None None None None None None
            [("entity", "light.hall"); ("delay", "5")]));
    ("porch",
     App (mk_app "light_mod" "Light" (Some (Several ["hall"])) None None None
            None None [("entity", "light.porch")])) ].

Definition world_lights : world :=
  mk_world true "/conf/apps" false "/conf/apps.yaml" 0
    [("/conf/apps/lights.yaml", 5%Z)]
    (ReadConfig cfg_lights)
    [("/conf/apps/light_mod.py", Some 3%Z)]
    (fun _ => false) [] (fun _ => Constructed) 10 false true true.

(** The state after the first cycle in [world_lights]. *)
Definition state_lights : state :=
  snd (check_app_updates prio_lt_float world_lights None false initial_state).

(** [world_lights] after [lights.yaml] was saved with its sections and
    parameters rearranged. *)
Definition world_lights_rearranged : world :=
  mk_world true "/conf/apps" false "/conf/apps.yaml" 0
    [("/conf/apps/lights.yaml", 9%Z)]
    (ReadConfig cfg_lights_rearranged)
    [("/conf/apps/light_mod.py", Some 3%Z)]
    (fun _ => false) [] (fun _ => Constructed) 10 false true true.

(** [world_lights] after [lights.yaml] was saved with the dependency of
    [porch] as a list. *)
Definition world_lights_listed : world :=
  mk_world true "/conf/apps" false "/conf/apps.yaml" 0
    [("/conf/apps/lights.yaml", 9%Z)]
    (ReadConfig cfg_lights_listed)
    [("/conf/apps/light_mod.py", Some 3%Z)]
    (fun _ => false) [] (fun _ => Constructed) 10 false true true.

(** The configuration of [cfg_chain] in [apps.yaml] of the configuration
    directory. *)
Definition world_chain_deprecated : world :=
  mk_world true "/conf/apps" true "/conf/apps.yaml" 5
    []
    (ReadConfig cfg_chain)
    [("/conf/apps/top_mod.py", Some 3%Z);
     ("/conf/apps/base_mod.py", Some 3%Z);
     ("/conf/apps/mid_mod.py", Some 4%Z)]
    (fun _ => false) [] (fun _ => Constructed) 10 false true true.

(** [world_chain] with automatic pinning and a pool of two threads. *)
Definition world_chain_auto_pin : world :=
  mk_world true "/conf/apps" false "/conf/apps.yaml" 0
    [("/conf/apps/apps.yaml", 5%Z)]
    (ReadConfig cfg_chain)
    [("/conf/apps/top_mod.py", Some 3%Z);
     ("/conf/apps/base_mod.py", Some 3%Z);
     ("/conf/apps/mid_mod.py", Some 4%Z)]
    (fun _ => false) [] (fun _ => Constructed) 2 true true true.

(** ** The apps of a module, and the apps a plugin restart touches *)

(** [app] is a section other than [global_modules] whose [module] is
    [module]. *)
Definition uses_module (cfg : config) (module app : string) : Prop :=
  app <> "global_modules" /\
  exists a, In (app, App a) cfg /\ ad_module a = module.

(** Whether a restart of [plugin] restarts the app of the section:
    sections without a [plugin] key always, sections with one when the
    list is not empty and the restart is for all plugins or for one of the
    list. *)
Definition restarted_by (plugin : string) (item : string * entry) : bool :=
  negb (String.eqb (fst item) "global_modules")
  && match entry_plugin (snd item) with
     | Some l => nonempty l && (String.eqb plugin "__ALL__" || mem plugin l)
     | None => true
     end.

(** The files [check_app_updates] drops from [monitored_files]. *)
Definition dropped_files (w : world) (exit : bool) (monitored : dict Z)
  : list string :=
  filter (fun file => negb (mem file (map fst (w_py_files w))) || exit)
         (dict_keys monitored).

(** Some file of [files] holds the module. *)
Definition module_of_some (files : list string) (module : string) : Prop :=
  exists f, In f files /\ get_module_from_path f = module.

(** The apps a cycle restarts for its [plugin] argument. *)
Definition plugin_restarts (plugin : option string) (cfg : config)
  : list string :=
  match plugin with
  | Some pl => map fst (filter (restarted_by pl) cfg)
  | None => []
  end.

(** The apps of the modules of [files]. *)
Definition apps_of_files (cfg : config) (files : list string) (app : string)
  : Prop :=
  exists f, In f files /\ uses_module cfg (get_module_from_path f) app.

(** [world_chain] after [mid_mod.py] was removed from the apps directory. *)
Definition world_mid_deleted : world :=
  mk_world true "/conf/apps" false "/conf/apps.yaml" 0
    [("/conf/apps/apps.yaml", 5%Z)]
    (ReadConfig cfg_chain)
    [("/conf/apps/top_mod.py", Some 3%Z);
     ("/conf/apps/base_mod.py", Some 3%Z)]
    (fun _ => false) [] (fun _ => Constructed) 10 false true true.

(** Two apps that name the plugins they use, one with an empty list, one
    without the key. *)
Definition cfg_plugins : config :=
  [ ("hass_app",
     App (mk_app "hass_mod" "HassApp" None None None None None (Some (Several ["HASS"])) []));
    ("mqtt_app",
     App (mk_app "mqtt_mod" "MqttApp" None None None None None (Some (Several ["MQTT"])) []));
    ("none_app",
     App (mk_app "none_mod" "NoneApp" None None None None None (Some (Several [])) []));
    ("plain_app", app_section "plain_mod" "PlainApp" None) ].

(** [app] lists [module] in its [global_dependencies]. *)
Definition lists_global (cfg : config) (module app : string) : Prop :=
  exists e, In (app, e) cfg /\ In module (entry_global_dependencies e).

(** The apps a change of the file of [module] touches: the apps of the
    module, and when [global_modules] lists the module, the apps that list
    it in their [global_dependencies]. *)
Definition touched_by_module (cfg : config) (module app : string) : Prop :=
  uses_module cfg module app \/
  (In module (global_modules_list cfg) /\ lists_global cfg module app).

(** A file of the walk is new or newer than its record. *)
Definition file_changed (w : world) (monitored : dict Z) (file : string)
  : Prop :=
  file <> init_py w /\
  exists ts,
    In (file, Some ts) (w_py_files w) /\
    match dict_get file monitored with
    | Some seen => (seen < ts)%Z
    | None => True
    end.

(** A configuration in which two apps use a global module. *)
Definition cfg_globals : config :=
  [ ("global_modules", GlobalModules ["shared"]);
    ("hello",
     App (mk_app "hello_mod" "Hello" None (Some (Several ["shared"])) None None None None []));
    ("other", app_section "other_mod" "Other" None);
    ("third",
     App (mk_app "third_mod" "Third" None (Some (Several ["shared"])) None None None None [])) ].

(** What the scan decides for a file with time [ts], against the record
    [seen] it has of the file: whether the file is a changed module, and
    with which [reload] flag. *)
Definition scan_verdict (seen : option Z) (ts : Z) (reload : bool) : Prop :=
  match seen with
  | Some t => (t < ts)%Z /\ reload = true
  | None => reload = false
  end.

(** ** File names *)

(** The character occurs in the string. *)
Fixpoint has_char (c : ascii) (s : string) : bool :=
  match s with
  | EmptyString => false
  | String d r => Ascii.eqb d c || has_char c r
  end.

(** A file name without directory whose part before the extension has a
    character other than a dot. *)
Definition plain_name (m : string) : bool :=
  negb (has_char "/" m)
  && existsb (fun c => negb (Ascii.eqb c ".")) (list_ascii_of_string m).

(** An extension (without its dot). *)
Definition plain_ext (ext : string) : bool :=
  negb (has_char "/" ext) && negb (has_char "." ext).

(** The run left [apps_initialized] alone. *)
Definition same_initialized (st st' : state) : Prop :=
  apps_initialized st' = apps_initialized st.

(** The pin [init_object] stores for a section: its [pin_thread], or [-1];
    nothing when the [pin_thread] is not a thread of the pool. *)
Definition pin_of (w : world) (a : app_def) : option Z :=
  match ad_pin_thread a with
  | Some pin => if Z.ltb pin 0 || Z.leb (w_threads w) pin then None else Some pin
  | None => Some (-1)%Z
  end.

(** ** Sections that [read_config] accepts *)

(** The value is not [None], and the key is [global_modules] or the value
    has both [class] and [module]. *)
Definition accepted (app : string) (v : yaml) : bool :=
  match v with
  | YNone => false
  | _ =>
      String.eqb app "global_modules"
      || match py_in "class" v, py_in "module" v with
         | Ok true, Ok true => true
         | _, _ => false
         end
  end.

(** The section makes [read_config] raise: a value without [in] under a
    key other than [global_modules]. *)
Definition unreadable (item : string * yaml) : bool :=
  match snd item with
  | YScalar => negb (String.eqb (fst item) "global_modules")
  | _ => false
  end.

(** The document holds a section that makes [read_config] raise. *)
Definition unreadable_file (f : string * yaml) : bool :=
  match snd f with
  | YDict d => existsb unreadable d
  | _ => false
  end.

(** The mapping gives the app a section that is accepted. *)
Definition defines (d : dict yaml) (app : string) : Prop :=
  exists v, In (app, v) d /\ accepted app v = true.

(** The section a document gives an app, when it is accepted. *)
Definition file_section (f : string * yaml) (app : string) : option yaml :=
  match snd f with
  | YDict d =>
      match dict_get app d with
      | Some v => if accepted app v then Some v else None
      | None => None
      end
  | _ => None
  end.

(** The accepted section of the first file of the walk that has one. *)
Fixpoint first_section (files : list (string * yaml)) (app : string)
  : option yaml :=
  match files with
  | [] => None
  | f :: rest =>
      match file_section f app with
      | Some v => Some v
      | None => first_section rest app
      end
  end.

(** The keys of a mapping are distinct. *)
Definition distinct_keys (f : string * yaml) : Prop :=
  match snd f with
  | YDict d => NoDup (dict_keys d)
  | _ => True
  end.

(** Two files that both define [sensor]; a file that is not a mapping; a
    section without [module]; a string that passes the two tests. *)
Definition yaml_files_example : list (string * yaml) :=
  [ ("/conf/apps/a.yaml",
     YDict [ ("sensor", YDict [("module", YStr "sensor_a"); ("class", YStr "Sensor")]);
             ("broken", YDict [("class", YStr "Broken")]);
             ("empty", YNone) ]);
    ("/conf/apps/b.yaml", YNone);
    ("/conf/apps/c.yaml",
     YDict [ ("sensor", YDict [("module", YStr "sensor_c"); ("class", YStr "Sensor")]);
             ("global_modules", YStr "shared");
             ("odd", YStr "a class in a module") ]) ].

(** [new_config[app]] while [new_config] may still be [None]. *)
Definition config_get (cfg : option (dict yaml)) (app : string)
  : option yaml :=
  match cfg with
  | Some c => dict_get app c
  | None => None
  end.

Definition config_distinct (cfg : option (dict yaml)) : Prop :=
  match cfg with
  | Some c => NoDup (dict_keys c)
  | None => True
  end.

(** ** Terms for the filters *)

(** The files a call of [process_filters] looks at, in order: the filter,
    the path and the time of each file whose name passes the test of the
    filter. *)
Definition filter_visits (filters : list (filter_def * listing))
  : list (filter_def * (string * Z)) :=
  flat_map
    (fun fw : filter_def * listing =>
       flat_map
         (fun dir : string * list (string * Z) =>
            map (fun f : string * Z => (fst fw, (path_join (fst dir) (fst f), snd f)))
                (filter (fun f : string * Z =>
                           ext_matches (f_input_ext (fst fw)) (fst f))
                        (snd dir)))
         (snd fw))
    filters.

(** What a visit does to [self.filter_files] and to the runs. *)
Definition visit_step (acc : dict Z * list filter_run)
  (v : filter_def * (string * Z)) : dict Z * list filter_run :=
  if match dict_get (fst (snd v)) (fst acc) with
     | Some seen => Z.ltb seen (snd (snd v))
     | None => true
     end
  then (dict_set (fst (snd v)) (snd (snd v)) (fst acc),
        snd acc ++ [mk_run (fst (snd v)) (snd (snd v)) (fst v)])
  else acc.

(** Among the runs of one file, a later run has a larger time. *)
Definition runs_ordered (runs : list filter_run) : Prop :=
  forall l1 r l2, runs = l1 ++ r :: l2 ->
    forall r0, In r0 l1 -> r_infile r0 = r_infile r ->
      (r_modified r0 < r_modified r)%Z.

(** A SASS filter and a second filter on the same extension, over one
    directory. *)
Definition filters_example : list (filter_def * listing) :=
  let walk := [("/conf/apps", [("style.scss", 7%Z); ("hello.py", 3%Z)])] in
  [ (mk_filter "scss" "css" "sassc $1 $2", walk);
    (mk_filter "scss" "min" "minify $1 $2", walk);
    (mk_filter "" "all" "touch $2", walk) ].

(** The file of the visit has a record that is not older than the file. *)
Definition settled (filter_files : dict Z) (v : filter_def * (string * Z))
  : Prop :=
  exists seen,
    dict_get (fst (snd v)) filter_files = Some seen /\ (snd (snd v) <= seen)%Z.

(** The records only grow. *)
Definition records_grow (ff ff' : dict Z) : Prop :=
  forall k s, dict_get k ff = Some s ->
    exists s', dict_get k ff' = Some s' /\ (s <= s')%Z.

(** The invariant of the loops of [process_filters], from the records
    [ff0] the call started with. *)
Record filters_inv (ff0 ff : dict Z) (runs : list filter_run) : Prop := {
  fi_ordered : runs_ordered runs;
  fi_recorded : forall r, In r runs ->
                  exists seen, dict_get (r_infile r) ff = Some seen /\
                               (r_modified r <= seen)%Z;
  fi_grow : records_grow ff0 ff;
  fi_newer : forall r, In r runs ->
               match dict_get (r_infile r) ff0 with
               | Some s0 => (s0 < r_modified r)%Z
               | None => True
               end
}.

(** ** The load phase *)

(** The warnings that name an app a failed load removed from the
    initialize set. *)
Definition removed_app_logged (tr : list event) (app : string) : Prop :=
  In (EvLog (LogRemovedApp app)) tr.

(** [top] has a priority of its own but lists no dependency and nobody
    lists it; [lone] has the key [dependencies] with an empty list. *)
Definition cfg_priorities : config :=
  [ ("top",
     App (mk_app "top_mod" "Top" None None (Some (10 # 1)) None None None []));
    ("lone",
     App (mk_app "lone_mod" "Lone" (Some (Several [])) None (Some (10 # 1)) None None None []));
    ("plain", app_section "plain_mod" "Plain" None) ].

(** [cfg_chain] edited: [mid] now has its dependency as a string instead
    of a list of one string, [top] is as it was, [base] is gone, [fresh] is
    a new app, [names] is a new section that is a list holding ["class"]
    and ["module"], and there is a [global_modules] section. *)
Definition cfg_chain_edited : config :=
  [ ("mid",
     App (mk_app "mid_mod" "Mid" (Some (Single "base")) None None None None
            None []));
    ("top", app_section "top_mod" "Top" (Some ["mid"; "base"]));
    ("fresh", app_section "fresh_mod" "Fresh" None);
    ("names", GlobalModules ["class"; "module"]);
    ("global_modules", GlobalModules ["shared"]) ].

(** [world_chain] after [apps.yaml] was saved with the sections of
    [cfg_chain_edited]. *)
Definition world_chain_rewritten : world :=
  mk_world true "/conf/apps" false "/conf/apps.yaml" 0
    [("/conf/apps/apps.yaml", 9%Z)]
    (ReadConfig cfg_chain_edited)
    [("/conf/apps/top_mod.py", Some 3%Z);
     ("/conf/apps/base_mod.py", Some 3%Z);
     ("/conf/apps/mid_mod.py", Some 4%Z)]
    (fun _ => false) [] (fun _ => Constructed) 10 false true true.

(** [world_chain] when importing or reloading [mid_mod] raises. *)
Definition world_chain_mid_fails : world :=
  mk_world true "/conf/apps" false "/conf/apps.yaml" 0
    [("/conf/apps/apps.yaml", 5%Z)]
    (ReadConfig cfg_chain)
    [("/conf/apps/top_mod.py", Some 3%Z);
     ("/conf/apps/base_mod.py", Some 3%Z);
     ("/conf/apps/mid_mod.py", Some 8%Z)]
    (String.eqb "mid_mod") [] (fun _ => Constructed) 10 false true true.

(* ===================================================================== *)
(** * Part III.  Properties                                               *)
(* ===================================================================== *)

(** ** Lists and dictionaries *)

Lemma mem_In (x : string) (l : list string) : mem x l = true <-> In x l.
Proof.
  unfold mem. rewrite existsb_exists. split.
  - intros [y [Hy He]]. apply String.eqb_eq in He. now subst.
  - intros H. exists x. split; [assumption | apply String.eqb_refl].
Qed.

Lemma mem_false (x : string) (l : list string) : mem x l = false <-> ~ In x l.
Proof.
  rewrite <- mem_In. destruct (mem x l); split; intros; congruence.
Qed.

Lemma mem_app (x : string) (l1 l2 : list string) :
  mem x (l1 ++ l2) = mem x l1 || mem x l2.
Proof. unfold mem. apply existsb_app. Qed.

(** Where the last element of [y ++ [n]] can sit in a split of the list. *)
Lemma snoc_split {A : Type} (y l1 l2 : list A) (n m : A) :
  y ++ [n] = l1 ++ m :: l2 ->
  (l1 = y /\ m = n /\ l2 = []) \/ (exists l2', l2 = l2' ++ [n] /\ y = l1 ++ m :: l2').
Proof.
  revert l1. induction y as [|a y IH]; intros l1 H.
  - destruct l1 as [|b l1]; simpl in H.
    + inversion H; subst. left. repeat split.
    + inversion H as [[Hb Hn]]. destruct l1; discriminate.
  - destruct l1 as [|b l1]; simpl in H.
    + inversion H; subst. right. exists y. split; reflexivity.
    + inversion H as [[Hb Hr]]. subst b.
      destruct (IH l1 Hr) as [[E1 [E2 E3]] | [l2' [E1 E2]]].
      * subst. left. repeat split.
      * subst. right. exists l2'. split; reflexivity.
Qed.

Lemma difference_update_In (deps emitted : list string) (d : string) :
  In d (difference_update deps emitted) <-> In d deps /\ ~ In d emitted.
Proof.
  unfold difference_update. rewrite filter_In.
  rewrite negb_true_iff, mem_false. reflexivity.
Qed.

(** ** The dependency relation of a sort input *)

(** In a finite set of nodes each of which has a successor in the set, some
    node reaches itself. *)
Lemma finite_successors_cycle (R : relation string) :
  forall (k : nat) (P : list string),
    length P <= k -> P <> [] ->
    (forall x, In x P -> exists y, In y P /\ R x y) ->
    exists x, clos_trans string R x x.
Proof.
  intros k. revert R. induction k as [|k IH]; intros R P Hlen Hne Hsucc.
  - destruct P; [congruence | simpl in Hlen; lia].
  - destruct P as [|x P]; [congruence|].
    destruct (Hsucc x (or_introl eq_refl)) as [w [Hw Hxw]].
    destruct (string_dec w x) as [->|Hwx].
    { exists x. now apply t_step. }
    set (P' := remove string_dec x P).
    set (R' := fun a b => R a b \/ (R a x /\ R x b)).
    assert (HR' : forall a b, clos_trans string R' a b -> clos_trans string R a b).
    { intros a b H. induction H as [a b [H|[H1 H2]]|a b c _ IH1 _ IH2].
      - now apply t_step.
      - apply t_trans with x; now apply t_step.
      - now apply t_trans with b. }
    assert (HinP' : forall y, In y (x :: P) -> y <> x -> In y P').
    { intros y [->|Hy] Hyx; [congruence|].
      unfold P'. apply in_in_remove; assumption. }
    assert (HP'in : forall y, In y P' -> In y (x :: P) /\ y <> x).
    { intros y Hy. unfold P' in Hy. apply in_remove in Hy.
      destruct Hy as [Hy Hyx]. split; [now right | assumption]. }
    assert (Hlen' : length P' <= k).
    { unfold P'. pose proof (remove_length_le string_dec P x).
      simpl in Hlen. lia. }
    assert (Hne' : P' <> []).
    { intros E. pose proof (HinP' w Hw Hwx) as Hin. rewrite E in Hin.
      destruct Hin. }
    destruct (IH R' P' Hlen' Hne') as [z Hz].
    + intros y Hy. apply HP'in in Hy. destruct Hy as [Hy Hyx].
      destruct (Hsucc y Hy) as [v [Hv Hyv]].
      destruct (string_dec v x) as [->|Hvx].
      * exists w. split; [now apply HinP' | right; split; assumption].
      * exists v. split; [now apply HinP' | now left].
    + exists z. now apply HR'.
Qed.

(** ** [topological_sort]: the loop invariant *)

Section SortInvariant.
Variable source : list (string * list string).
Hypothesis source_nodup : NoDup (map fst source).

Lemma source_functional (n : string) (ds1 ds2 : list string) :
  In (n, ds1) source -> In (n, ds2) source -> ds1 = ds2.
Proof.
  clear -source_nodup. induction source as [|[m ds] src IH]; simpl; intros H1 H2.
  - destruct H1.
  - inversion source_nodup as [|? ? Hnot Hnd]; subst.
    destruct H1 as [H1|H1], H2 as [H2|H2].
    + congruence.
    + inversion H1; subst. exfalso. apply Hnot.
      change n with (fst (n, ds2)). now apply in_map.
    + inversion H2; subst. exfalso. apply Hnot.
      change n with (fst (n, ds1)). now apply in_map.
    + now apply IH.
Qed.

Lemma entry_ok_grow (y em : list string) (m : string) (p : string * list string) :
  entry_ok source y em p -> entry_ok source (y ++ [m]) (em ++ [m]) p.
Proof.
  intros [ds [H1 [H2 [H3 H4]]]]. exists ds. repeat split; try assumption.
  - intros d Hd. destruct (H3 d Hd) as [H|H]; [now left|].
    right. apply in_or_app. now left.
  - intros d Hd Hy. apply in_app_or in Hy. apply in_or_app.
    destruct Hy as [Hy|Hy]; [left; now apply H4 | now right].
Qed.

(** The entry at the head of [todo] has no dependency left. *)
Lemma pass_inv_emit (y0 : list string) (n : string) (ds' : list string)
  (todo : list (string * list string)) (s : pass_state) :
  pass_inv source y0 ((n, ds') :: todo) s ->
  difference_update ds' (ps_emitted s) = [] ->
  pass_inv source y0 todo
    (mk_pass (ps_emitted s ++ [n]) (ps_next_pending s)
             (ps_next_emitted s ++ [n])).
Proof.
  intros [Hperm Htodo Hnext Hstuck Hemit Horder] Ediff.
  inversion Htodo as [|? ? Hhead Htail]; subst.
  destruct Hhead as [ds [Hs [Hsub [Hcov Hem]]]]. simpl in *.
  assert (Hall : incl ds (y0 ++ ps_next_emitted s)).
  { intros d Hd. destruct (Hcov d Hd) as [Hd'|Hd']; [|assumption].
    destruct (in_dec string_dec d (ps_emitted s)) as [Hin|Hnin].
    - now apply Hemit.
    - assert (Hx : In d (difference_update ds' (ps_emitted s)))
        by (apply difference_update_In; now split).
      rewrite Ediff in Hx. destruct Hx. }
  constructor; simpl; rewrite ?app_assoc.
  - eapply Permutation_trans; [|exact Hperm].
    rewrite <- !app_assoc. simpl.
    match goal with |- Permutation ?l (n :: ?r) =>
      replace l with (r ++ [n]) by (rewrite <- !app_assoc; reflexivity) end.
    apply Permutation_sym, Permutation_cons_append.
  - eapply Forall_impl; [|exact Htail]. intros p Hp. now apply entry_ok_grow.
  - eapply Forall_impl; [|exact Hnext]. intros p Hp. now apply entry_ok_grow.
  - assumption.
  - intros d Hd. apply in_app_or in Hd. apply in_or_app.
    destruct Hd as [Hd|Hd]; [left; now apply Hemit | now right].
  - intros m dsm Hm l1 l2 Heq. apply snoc_split in Heq.
    destruct Heq as [[E1 [E2 E3]] | [l2' [E1 E2]]].
    + subst. rewrite (source_functional _ _ _ Hm Hs). assumption.
    + exact (Horder m dsm Hm l1 l2' E2).
Qed.

(** The entry at the head of [todo] still has a dependency. *)
Lemma pass_inv_keep (y0 : list string) (n : string) (ds' : list string)
  (todo : list (string * list string)) (s : pass_state) :
  pass_inv source y0 ((n, ds') :: todo) s ->
  difference_update ds' (ps_emitted s) <> [] ->
  pass_inv source y0 todo
    (mk_pass (ps_emitted s)
             (ps_next_pending s
                ++ [(n, difference_update ds' (ps_emitted s))])
             (ps_next_emitted s)).
Proof.
  intros [Hperm Htodo Hnext Hstuck Hemit Horder] Ediff.
  inversion Htodo as [|? ? Hhead Htail]; subst.
  destruct Hhead as [ds [Hs [Hsub [Hcov Hem]]]]. simpl in *.
  constructor; simpl.
  - rewrite map_app. simpl.
    eapply Permutation_trans; [|exact Hperm].
    rewrite <- !app_assoc. simpl.
    apply Permutation_sym. rewrite !(app_assoc (map fst todo)).
    apply Permutation_middle.
  - assumption.
  - apply Forall_app. split; [assumption|].
    constructor; [|constructor].
    exists ds. simpl. repeat split.
    + assumption.
    + intros d Hd. apply difference_update_In in Hd. apply Hsub, Hd.
    + intros d Hd. destruct (Hcov d Hd) as [Hd'|Hd']; [|now right].
      destruct (in_dec string_dec d (ps_emitted s)) as [Hin|Hnin].
      * right. now apply Hemit.
      * left. apply difference_update_In. now split.
    + intros d Hd Hy. apply difference_update_In in Hd.
      destruct Hd as [Hd Hnin]. exfalso. apply Hnin. now apply Hem.
  - apply Forall_app. split; [assumption|].
    constructor; [|constructor]. simpl. assumption.
  - assumption.
  - assumption.
Qed.

Lemma sort_pass_inv (y0 : list string) :
  forall todo s,
    pass_inv source y0 todo s ->
    pass_inv source y0 [] (sort_pass todo s) /\
    length (ps_next_pending (sort_pass todo s))
      + length (ps_next_emitted (sort_pass todo s))
    = length todo + length (ps_next_pending s) + length (ps_next_emitted s).
Proof.
  induction todo as [|[n ds'] todo IH]; intros s Hinv.
  - simpl. split; [assumption | lia].
  - simpl.
    destruct (difference_update ds' (ps_emitted s)) as [|d0 rest] eqn:Ediff.
    + destruct (IH _ (pass_inv_emit _ _ _ _ _ Hinv Ediff)) as [IH1 IH2].
      split; [assumption|]. rewrite IH2. simpl. rewrite !length_app. simpl. lia.
    + assert (Hne : difference_update ds' (ps_emitted s) <> [])
        by (rewrite Ediff; discriminate).
      pose proof (pass_inv_keep _ _ _ _ _ Hinv Hne) as Hk.
      rewrite Ediff in Hk.
      destruct (IH _ Hk) as [IH1 IH2].
      split; [assumption|]. rewrite IH2. simpl. rewrite !length_app. simpl. lia.
Qed.

Lemma sort_loop_spec :
  forall fuel pending emitted yielded order e,
    sort_inv source pending emitted yielded ->
    length pending <= fuel ->
    sort_loop fuel pending emitted yielded = (order, e) ->
    (exists tail, order = yielded ++ tail) /\
    order_ok source order /\ sort_outcome_ok source order e.
Proof.
  induction fuel as [|fuel IH]; intros pending emitted yielded order e Hinv Hlen Hrun.
  - destruct pending as [|p pending]; [|simpl in Hlen; lia].
    simpl in Hrun. inversion Hrun; subst.
    destruct Hinv as [Hperm _ _ Horder]. simpl in Hperm.
    split; [exists []; now rewrite app_nil_r|]. split; assumption.
  - destruct pending as [|p pending].
    + simpl in Hrun. inversion Hrun; subst.
      destruct Hinv as [Hperm _ _ Horder]. simpl in Hperm.
      split; [exists []; now rewrite app_nil_r|]. split; assumption.
    + remember (p :: pending) as pend eqn:Epend.
      assert (Hpass : pass_inv source yielded pend (mk_pass emitted [] [])).
      { destruct Hinv as [Hperm Hpending Hemit Horder].
        constructor; simpl; rewrite ?app_nil_r; try assumption; constructor. }
      destruct (sort_pass_inv yielded pend _ Hpass) as [Hpost Hcount].
      simpl in Hcount.
      assert (Hrun' :
        match ps_next_emitted (sort_pass pend (mk_pass emitted [] [])) with
        | [] => (yielded, SortCyclic (ps_next_pending
                                        (sort_pass pend (mk_pass emitted [] []))))
        | _ :: _ =>
            sort_loop fuel
              (ps_next_pending (sort_pass pend (mk_pass emitted [] [])))
              (ps_next_emitted (sort_pass pend (mk_pass emitted [] [])))
              (yielded ++ ps_next_emitted (sort_pass pend (mk_pass emitted [] [])))
        end = (order, e)).
      { rewrite <- Hrun. rewrite Epend. reflexivity. }
      clear Hrun.
      destruct Hpost as [Hperm Htodo Hnext Hstuck Hemit Horder].
      set (s' := sort_pass pend (mk_pass emitted [] [])) in *.
      destruct (ps_next_emitted s') as [|m ne] eqn:Ene.
      * inversion Hrun'; subst order e. clear Hrun'.
        rewrite app_nil_r in *. simpl in Hperm.
        split; [exists []; now rewrite app_nil_r|].
        split; [assumption|]. simpl. repeat split.
        -- intros E. rewrite E in Hcount. rewrite Epend in Hcount.
           simpl in Hcount. lia.
        -- assumption.
        -- rewrite Forall_forall in *. intros q Hq. split.
           ++ now apply Hstuck.
           ++ intros d Hd. destruct (Hnext q Hq) as [ds [Hs [Hsub [_ Hem]]]].
              split.
              ** exists ds. split; [assumption | now apply Hsub].
              ** intros Hy. exact (Hem d Hd Hy).
      * assert (Hinv' : sort_inv source (ps_next_pending s') (m :: ne)
                          (yielded ++ m :: ne)).
        { constructor; try assumption.
          intros d Hd. apply in_or_app. now right. }
        assert (Hlen' : length (ps_next_pending s') <= fuel).
        { simpl in Hcount. lia. }
        destruct (IH _ _ _ _ _ Hinv' Hlen' Hrun') as [[tail Htail] [Ho Hout]].
        split; [|split; assumption].
        exists ((m :: ne) ++ tail). rewrite Htail. now rewrite app_assoc.
Qed.

Lemma sort_inv_initial : sort_inv source source [] [].
Proof.
  constructor.
  - now rewrite app_nil_r.
  - apply Forall_forall. intros [n ds] Hin. exists ds. simpl.
    repeat split.
    + assumption.
    + apply incl_refl.
    + intros d Hd. now left.
    + intros d _ [].
  - apply incl_refl.
  - intros n ds _ l1 l2 E. destruct l1; discriminate.
Qed.

(** Whatever the input, [topological_sort] ends within its bound, what it
    yields respects the dependencies, and it either yields every name or
    raises on a non-empty set of entries with unmet dependencies. *)
Lemma topological_sort_spec (order : list string) (e : sort_end) :
  topological_sort source = (order, e) ->
  order_ok source order /\ sort_outcome_ok source order e.
Proof.
  intros Hrun. unfold topological_sort in Hrun.
  destruct (sort_loop_spec _ _ _ _ _ _ sort_inv_initial (le_n _) Hrun)
    as [_ H].
  exact H.
Qed.

End SortInvariant.

(** ** Positions in the yielded order *)

Lemma pos_split (x : string) (l : list string) :
  In x l -> exists l1 l2, l = l1 ++ x :: l2 /\ length l1 = pos x l.
Proof.
  induction l as [|y r IH]; intros Hin; [destruct Hin|].
  simpl. destruct (String.eqb_spec y x) as [->|Hne].
  - exists [], r. split; reflexivity.
  - destruct Hin as [->|Hin]; [congruence|].
    destruct (IH Hin) as [l1 [l2 [E1 E2]]].
    exists (y :: l1), l2. simpl. split; congruence.
Qed.

Lemma pos_prefix (x : string) (l1 r : list string) :
  In x l1 -> pos x (l1 ++ r) < length l1.
Proof.
  induction l1 as [|y l1 IH]; intros Hin; [destruct Hin|].
  simpl. destruct (String.eqb_spec y x) as [->|Hne]; [lia|].
  destruct Hin as [->|Hin]; [congruence|]. specialize (IH Hin). lia.
Qed.

(** Along the dependency relation, positions in a respectful order go
    down, and a yielded name only reaches yielded names. *)
Lemma depends_on_pos (source : list (string * list string)) (order : list string) :
  order_ok source order ->
  forall a b, clos_trans string (depends_on source) a b ->
    In a order -> In b order /\ pos b order < pos a order.
Proof.
  intros Ho a b H. induction H as [a b [ds [Hs Hb]]|a b c _ IH1 _ IH2]; intros Ha.
  - destruct (pos_split a order Ha) as [l1 [l2 [E Hl]]].
    pose proof (Ho a ds Hs l1 l2 E b Hb) as Hin.
    split.
    + rewrite E. apply in_or_app. now left.
    + rewrite <- Hl. rewrite E at 1. now apply pos_prefix.
  - destruct (IH1 Ha) as [Hb Hlt1]. destruct (IH2 Hb) as [Hc Hlt2].
    split; [assumption | lia].
Qed.

(** A numbering that goes down along every dependency rules out cycles. *)
Lemma rank_acyclic (source : list (string * list string)) (rank : string -> nat) :
  (forall a b, depends_on source a b -> rank b < rank a) -> acyclic source.
Proof.
  intros Hrank.
  assert (H : forall a b, clos_trans string (depends_on source) a b -> rank b < rank a).
  { intros a b Hab. induction Hab as [a b Hab|a b c _ IH1 _ IH2].
    - now apply Hrank.
    - lia. }
  intros x Hx. specialize (H x x Hx). lia.
Qed.

(** ** C1: the order of an acyclic input *)

(** C1.  For a sort input with distinct names whose dependencies all name
    entries of the input and whose dependency relation has no cycle,
    [topological_sort] ends without raising, yields every name exactly once
    (the yielded order is a duplicate-free permutation of the names), and
    yields each name only after every one of its dependencies. *)
Theorem topological_sort_acyclic (source : list (string * list string)) :
  NoDup (map fst source) ->
  deps_closed source ->
  acyclic source ->
  exists order,
    topological_sort source = (order, SortDone) /\
    Permutation order (map fst source) /\
    NoDup order /\
    forall n ds, In (n, ds) source -> after_all order n ds.
Proof.
  intros Hnd Hclosed Hacyc.
  destruct (topological_sort source) as [order e] eqn:Hrun.
  destruct (topological_sort_spec source Hnd order e Hrun) as [Ho Hout].
  destruct e as [|stuck|]; simpl in Hout.
  - exists order. repeat split; try assumption.
    eapply Permutation_NoDup; [apply Permutation_sym; exact Hout | exact Hnd].
  - exfalso. destruct Hout as [Hne [Hperm Hstuck]].
    destruct (finite_successors_cycle (depends_on source)
                (length (map fst stuck)) (map fst stuck)) as [x Hx].
    + apply le_n.
    + destruct stuck; [congruence | discriminate].
    + intros x Hx. apply in_map_iff in Hx. destruct Hx as [[n ds'] [E Hin]].
      simpl in E. subst n.
      rewrite Forall_forall in Hstuck. destruct (Hstuck _ Hin) as [Hnz Hdeps].
      simpl in *. destruct ds' as [|d ds']; [congruence|].
      destruct (Hdeps d (or_introl eq_refl)) as [Hdep Hnot].
      exists d. split; [|assumption].
      destruct Hdep as [ds [Hs Hd]].
      pose proof (Hclosed x ds d Hs Hd) as Hname.
      eapply Permutation_in in Hname; [|apply Permutation_sym; exact Hperm].
      apply in_app_or in Hname. destruct Hname; [assumption | contradiction].
    + exact (Hacyc x Hx).
  - destruct Hout.
Qed.

(** ** [get_dependent_apps]: termination and closure *)

Section DependentApps.
Variable cfg : config.

Lemma closed_at_mono (d d' : list string) (x : string) :
  incl d d' -> closed_at cfg d x -> closed_at cfg d' x.
Proof. intros Hi Hc app Ha. apply Hi, Hc, Ha. Qed.

Lemma extends_closed_refl (d : list string) : extends_closed cfg d d.
Proof. exists []. split; [now rewrite app_nil_r | intros x []]. Qed.

Lemma extends_closed_incl (d d' : list string) :
  extends_closed cfg d d' -> incl d d'.
Proof. intros [ext [-> _]] x Hx. apply in_or_app. now left. Qed.

Lemma extends_closed_trans (d0 d1 d2 : list string) :
  extends_closed cfg d0 d1 -> extends_closed cfg d1 d2 -> extends_closed cfg d0 d2.
Proof.
  intros [e1 [-> H1]] [e2 [-> H2]]. exists (e1 ++ e2).
  split; [now rewrite app_assoc|].
  intros x Hx. apply in_app_or in Hx. destruct Hx as [Hx|Hx].
  - destruct (H1 x Hx) as [Hk Hc]. split; [assumption|].
    eapply closed_at_mono; [|exact Hc].
    intros y Hy. apply in_or_app. now left.
  - now apply H2.
Qed.

Lemma filter_length_mono {A : Type} (f g : A -> bool) (l : list A) :
  (forall x, In x l -> f x = true -> g x = true) ->
  length (filter f l) <= length (filter g l).
Proof.
  induction l as [|a l IH]; intros H; simpl; [lia|].
  assert (IH' : length (filter f l) <= length (filter g l)).
  { apply IH. intros x Hx. apply H. now right. }
  destruct (f a) eqn:Ef.
  - rewrite (H a (or_introl eq_refl) Ef). simpl. lia.
  - destruct (g a); simpl; lia.
Qed.

Lemma filter_length_strict {A : Type} (f g : A -> bool) (l : list A) (a : A) :
  (forall x, In x l -> f x = true -> g x = true) ->
  In a l -> f a = false -> g a = true ->
  length (filter f l) < length (filter g l).
Proof.
  induction l as [|b l IH]; intros H Ha Hf Hg; [destruct Ha|].
  simpl. destruct Ha as [->|Ha].
  - rewrite Hf, Hg. simpl.
    pose proof (filter_length_mono f g l) as Hle.
    assert (length (filter f l) <= length (filter g l)).
    { apply Hle. intros x Hx. apply H. now right. }
    lia.
  - assert (IH' : length (filter f l) < length (filter g l)).
    { apply IH; try assumption. intros x Hx. apply H. now right. }
    destruct (f b) eqn:Ef.
    + rewrite (H b (or_introl eq_refl) Ef). simpl. lia.
    + destruct (g b); simpl; lia.
Qed.

Lemma unseen_mono (d d' : list string) : incl d d' -> unseen cfg d' <= unseen cfg d.
Proof.
  intros Hi. unfold unseen. apply filter_length_mono.
  intros x _ Hx. rewrite negb_true_iff, mem_false in *.
  intros Hc. apply Hx. now apply Hi.
Qed.

Lemma unseen_append (d : list string) (app : string) :
  In app (dict_keys cfg) -> ~ In app d -> unseen cfg (d ++ [app]) < unseen cfg d.
Proof.
  intros Hk Hn. unfold unseen. apply filter_length_strict with (a := app).
  - intros x _ Hx. rewrite negb_true_iff, mem_false in *.
    intros Hc. apply Hx. apply in_or_app. now left.
  - assumption.
  - rewrite negb_false_iff, mem_In. apply in_or_app. right. now left.
  - now rewrite negb_true_iff, mem_false.
Qed.

Lemma unseen_bound (d : list string) : unseen cfg d <= length cfg.
Proof.
  unfold unseen, dict_keys.
  etransitivity; [apply List.filter_length_le|]. now rewrite length_map.
Qed.

(** With more fuel than unseen cfg apps the call returns; the result extends
    [deps] by closed apps and holds every app that declares cfg [dependee]. *)
Lemma get_dependent_apps_fuel_spec :
  forall fuel dependee deps,
    unseen cfg deps < fuel ->
    exists deps',
      get_dependent_apps_fuel fuel cfg dependee deps = Some deps' /\
      extends_closed cfg deps deps' /\ closed_at cfg deps' dependee.
Proof.
  induction fuel as [|fuel IH]; intros dependee deps Hfuel; [lia|].
  simpl.
  (* the loop over the dependencies of one app *)
  assert (Hinner : forall app e, In (app, e) cfg ->
    forall ds d, unseen cfg d <= fuel ->
      exists d',
        fold_fuel
          (fun deps dep =>
             if String.eqb dep dependee && negb (mem app deps)
             then get_dependent_apps_fuel fuel cfg app (deps ++ [app])
             else Some deps) ds d = Some d' /\
        extends_closed cfg d d' /\ (In dependee ds -> In app d')).
  { intros app e Hin. induction ds as [|dep ds IHds]; intros d Hd.
    - exists d. simpl. split; [reflexivity|].
      split; [apply extends_closed_refl | intros []].
    - simpl. destruct (String.eqb_spec dep dependee) as [->|Hne]; simpl.
      + destruct (mem app d) eqn:Em; simpl.
        * destruct (IHds d Hd) as [d' [E [Hx Hi]]].
          exists d'. split; [assumption|]. split; [assumption|].
          intros _. apply (extends_closed_incl _ _ Hx). now apply mem_In.
        * apply mem_false in Em.
          assert (Hk : In app (dict_keys cfg)).
          { unfold dict_keys. change app with (fst (app, e)). now apply in_map. }
          pose proof (unseen_append d app Hk Em) as Hlt.
          destruct (IH app (d ++ [app])) as [d1 [E1 [Hx1 Hc1]]]; [lia|].
          rewrite E1.
          assert (Hd1 : extends_closed cfg d d1).
          { destruct Hx1 as [ext [-> Hext]]. exists ([app] ++ ext).
            split; [now rewrite app_assoc|].
            intros x Hx. destruct Hx as [<-|Hx].
            - split; assumption.
            - now apply Hext. }
          assert (Hle : unseen cfg d1 <= fuel).
          { pose proof (unseen_mono d d1 (extends_closed_incl _ _ Hd1)). lia. }
          destruct (IHds d1 Hle) as [d' [E [Hx Hi]]].
          exists d'. split; [assumption|].
          split; [eapply extends_closed_trans; eassumption|].
          intros _. apply (extends_closed_incl _ _ Hx).
          apply (extends_closed_incl _ _ Hx1). apply in_or_app. right. now left.
      + destruct (IHds d Hd) as [d' [E [Hx Hi]]].
        exists d'. split; [assumption|]. split; [assumption|].
        intros [Hc|Hc]; [congruence | now apply Hi]. }
  (* the loop over the apps *)
  assert (Houter : forall apps, incl apps cfg ->
    forall d, unseen cfg d <= fuel ->
      exists d',
        fold_fuel
          (fun deps (item : string * entry) =>
             let (app, e) := item in
             fold_fuel
               (fun deps dep =>
                  if String.eqb dep dependee && negb (mem app deps)
                  then get_dependent_apps_fuel fuel cfg app (deps ++ [app])
                  else Some deps)
               (entry_dependencies e) deps) apps d = Some d' /\
        extends_closed cfg d d' /\
        (forall app e, In (app, e) apps ->
           In dependee (entry_dependencies e) -> In app d')).
  { induction apps as [|[app e] apps IHapps]; intros Hsub d Hd.
    - exists d. simpl. split; [reflexivity|].
      split; [apply extends_closed_refl | intros ? ? []].
    - simpl.
      destruct (Hinner app e (Hsub _ (or_introl eq_refl))
                  (entry_dependencies e) d Hd) as [d1 [E1 [Hx1 Hi1]]].
      rewrite E1.
      assert (Hle : unseen cfg d1 <= fuel).
      { pose proof (unseen_mono d d1 (extends_closed_incl _ _ Hx1)). lia. }
      destruct (IHapps (fun x Hx => Hsub x (or_intror Hx)) d1 Hle)
        as [d' [E [Hx Hi]]].
      exists d'. split; [assumption|].
      split; [eapply extends_closed_trans; eassumption|].
      intros app' e' [Heq|Hin] Hdep.
      + inversion Heq; subst. apply (extends_closed_incl _ _ Hx). now apply Hi1.
      + now apply (Hi app' e'). }
  destruct (Houter cfg (incl_refl _) deps) as [d' [E [Hx Hi]]]; [lia|].
  exists d'. split; [assumption|]. split; [assumption|].
  intros app [e [Hin Hdep]]. now apply (Hi app e).
Qed.

Lemma get_dependent_apps_spec (dependee : string) (deps : list string) :
  exists deps',
    get_dependent_apps cfg dependee deps = Some deps' /\
    extends_closed cfg deps deps' /\ closed_at cfg deps' dependee.
Proof.
  apply get_dependent_apps_fuel_spec.
  pose proof (unseen_bound deps). lia.
Qed.

(** [deplist] holds the input set and is closed under "declares cfg". *)
Lemma build_deplist_spec :
  forall applist deplist,
    (forall x, In x deplist -> closed_at cfg deplist x) ->
    exists final,
      build_deplist cfg applist deplist = Some final /\
      incl deplist final /\ incl applist final /\
      (forall x, In x final -> closed_at cfg final x) /\
      (forall x, In x final ->
         In x deplist \/ In x applist \/ In x (dict_keys cfg)).
Proof.
  induction applist as [|app rest IH]; intros deplist Hclosed.
  - exists deplist. simpl. split; [reflexivity|].
    split; [apply incl_refl|]. split; [intros x []|].
    split; [assumption | intros x Hx; now left].
  - simpl.
    set (d1 := if mem app deplist then deplist else deplist ++ [app]).
    assert (Hd1 : incl deplist d1 /\ In app d1 /\
                  forall x, In x d1 -> In x deplist \/ x = app).
    { unfold d1. destruct (mem app deplist) eqn:Em.
      - apply mem_In in Em. split; [apply incl_refl|].
        split; [assumption | intros x Hx; now left].
      - split; [intros x Hx; apply in_or_app; now left|].
        split; [apply in_or_app; right; now left|].
        intros x Hx. apply in_app_or in Hx.
        destruct Hx as [Hx|[Hx|[]]]; [now left | now right]. }
    destruct Hd1 as [Hincl1 [Happ1 Hfrom1]].
    destruct (get_dependent_apps_spec app d1) as [d2 [E2 [Hx2 Hc2]]].
    rewrite E2.
    pose proof (extends_closed_incl _ _ Hx2) as Hincl2.
    destruct (IH d2) as [final [E [Hi1 [Hi2 [Hc Hfrom]]]]].
    + intros x Hx. destruct Hx2 as [ext [-> Hext]].
      apply in_app_or in Hx. destruct Hx as [Hx|Hx]; [|now apply Hext].
      destruct (Hfrom1 x Hx) as [Hd| ->]; [|assumption].
      eapply closed_at_mono; [|apply Hclosed, Hd].
      intros y Hy. apply in_or_app. left. now apply Hincl1.
    + exists final. split; [assumption|].
      split; [intros x Hx; apply Hi1, Hincl2, Hincl1, Hx|].
      split.
      { intros x [<-|Hx]; [apply Hi1, Hincl2, Happ1 | now apply Hi2]. }
      split; [assumption|].
      intros x Hx. destruct (Hfrom x Hx) as [Hd|[Hr|Hk]].
      * destruct Hx2 as [ext [-> Hext]].
        apply in_app_or in Hd. destruct Hd as [Hd|Hd].
        -- destruct (Hfrom1 x Hd) as [H| ->]; [now left | right; left; now left].
        -- right. right. apply Hext, Hd.
      * right. left. now right.
      * right. now right.
Qed.
End DependentApps.

(** ** Dictionaries *)

Section DictFacts.
Context {V : Type}.
Implicit Types (d : dict V) (k : string) (v : V).

Lemma dict_get_None k d : dict_get k d = None <-> ~ In k (dict_keys d).
Proof.
  induction d as [|[k' v'] d IH]; simpl; [tauto|].
  destruct (String.eqb_spec k' k) as [->|Hne].
  - split; [discriminate | intros H; exfalso; apply H; now left].
  - rewrite IH. split; [intros H [Hc|Hc]; [congruence | contradiction] | tauto].
Qed.

Lemma dict_get_Some_In k d :
  In k (dict_keys d) -> exists v, dict_get k d = Some v.
Proof.
  intros Hin. destruct (dict_get k d) as [v|] eqn:E; [now exists v|].
  apply dict_get_None in E. contradiction.
Qed.

Lemma dict_has_In k d : dict_has k d = true <-> In k (dict_keys d).
Proof.
  unfold dict_has. destruct (dict_get k d) eqn:E.
  - split; [|reflexivity]. intros _.
    destruct (in_dec string_dec k (dict_keys d)) as [H|H]; [assumption|].
    apply dict_get_None in H. congruence.
  - apply dict_get_None in E. split; [discriminate | contradiction].
Qed.

Lemma dict_get_In k v d : dict_get k d = Some v -> In (k, v) d.
Proof.
  induction d as [|[k' v'] d IH]; simpl; [discriminate|].
  destruct (String.eqb_spec k' k) as [->|Hne]; intros H.
  - inversion H; subst. now left.
  - right. now apply IH.
Qed.

Lemma dict_In_get k v d : NoDup (dict_keys d) -> In (k, v) d -> dict_get k d = Some v.
Proof.
  induction d as [|[k' v'] d IH]; simpl; intros Hnd Hin; [destruct Hin|].
  inversion Hnd as [|? ? Hnot Hnd']; subst.
  destruct Hin as [Heq|Hin].
  - inversion Heq; subst. now rewrite String.eqb_refl.
  - destruct (String.eqb_spec k' k) as [->|Hne].
    + exfalso. apply Hnot. change k with (fst (k, v)). now apply in_map.
    + now apply IH.
Qed.

Lemma dict_keys_set k v d :
  dict_keys (dict_set k v d)
  = if mem k (dict_keys d) then dict_keys d else dict_keys d ++ [k].
Proof.
  induction d as [|[k' v'] d IH]; simpl; [reflexivity|].
  rewrite (String.eqb_sym k k').
  destruct (String.eqb_spec k' k) as [->|Hne]; simpl; [reflexivity|].
  fold (mem k (dict_keys d)). rewrite IH.
  now destruct (mem k (dict_keys d)).
Qed.

Lemma dict_get_set k k' v d :
  dict_get k' (dict_set k v d)
  = if String.eqb k k' then Some v else dict_get k' d.
Proof.
  induction d as [|[k0 v0] d IH]; simpl.
  - reflexivity.
  - destruct (String.eqb_spec k0 k) as [->|Hne]; simpl.
    + destruct (String.eqb_spec k k'); reflexivity.
    + destruct (String.eqb_spec k0 k') as [->|Hne'].
      * destruct (String.eqb_spec k k'); [congruence | reflexivity].
      * apply IH.
Qed.

(** Filtering by a test on the key keeps the entries of the keys that
    pass. *)
Lemma dict_get_filter (f : string -> bool) k d :
  dict_get k (filter (fun item : string * V => f (fst item)) d)
  = if f k then dict_get k d else None.
Proof.
  induction d as [|[k' v'] d IH]; simpl; [now destruct (f k)|].
  destruct (f k') eqn:Ef; simpl.
  - destruct (String.eqb_spec k' k) as [->|Hne]; [now rewrite Ef | apply IH].
  - destruct (String.eqb_spec k' k) as [->|Hne]; [|apply IH].
    rewrite IH. now rewrite Ef.
Qed.
End DictFacts.

(** ** [topological_sort] always ends within its bound *)

Lemma sort_pass_count :
  forall todo s,
    length (ps_next_pending (sort_pass todo s))
      + length (ps_next_emitted (sort_pass todo s))
    = length todo + length (ps_next_pending s) + length (ps_next_emitted s).
Proof.
  induction todo as [|[n ds] todo IH]; intros s; simpl; [lia|].
  destruct (difference_update ds (ps_emitted s));
    rewrite IH; simpl; rewrite !length_app; simpl; lia.
Qed.

Lemma sort_pass_names :
  forall todo s,
    incl (ps_next_emitted (sort_pass todo s))
         (ps_next_emitted s ++ map fst todo) /\
    incl (map fst (ps_next_pending (sort_pass todo s)))
         (map fst (ps_next_pending s) ++ map fst todo).
Proof.
  induction todo as [|[n ds] todo IH]; intros s; simpl.
  - rewrite !app_nil_r. split; apply incl_refl.
  - destruct (difference_update ds (ps_emitted s)).
    + destruct (IH (mk_pass (ps_emitted s ++ [n]) (ps_next_pending s)
                            (ps_next_emitted s ++ [n]))) as [H1 H2].
      simpl in H1, H2. split; intros x Hx.
      * apply H1 in Hx. rewrite <- app_assoc in Hx. exact Hx.
      * apply H2 in Hx. apply in_app_or in Hx. apply in_or_app.
        destruct Hx as [Hx|Hx]; [now left | right; now right].
    + match goal with |- context [sort_pass todo ?s'] =>
        destruct (IH s') as [H1 H2] end.
      simpl in H1, H2. split; intros x Hx.
      * apply H1 in Hx. apply in_app_or in Hx. apply in_or_app.
        destruct Hx as [Hx|Hx]; [now left | right; now right].
      * apply H2 in Hx. rewrite map_app, <- app_assoc in Hx. exact Hx.
Qed.

Lemma sort_loop_total :
  forall fuel pending emitted yielded,
    length pending <= fuel ->
    snd (sort_loop fuel pending emitted yielded) <> SortFuel /\
    incl (fst (sort_loop fuel pending emitted yielded))
         (yielded ++ map fst pending).
Proof.
  induction fuel as [|fuel IH]; intros pending emitted yielded Hlen.
  - destruct pending; [|simpl in Hlen; lia]. simpl.
    split; [discriminate | rewrite app_nil_r; apply incl_refl].
  - destruct pending as [|p pending].
    + simpl. split; [discriminate | rewrite app_nil_r; apply incl_refl].
    + remember (p :: pending) as pend eqn:Ep.
      assert (E : sort_loop (S fuel) pend emitted yielded =
        let s := sort_pass pend (mk_pass emitted [] []) in
        match ps_next_emitted s with
        | [] => (yielded, SortCyclic (ps_next_pending s))
        | _ :: _ => sort_loop fuel (ps_next_pending s) (ps_next_emitted s)
                      (yielded ++ ps_next_emitted s)
        end) by (rewrite Ep; reflexivity).
      rewrite E. clear E. cbv zeta.
      pose proof (sort_pass_count pend (mk_pass emitted [] [])) as Hc.
      destruct (sort_pass_names pend (mk_pass emitted [] [])) as [Hn1 Hn2].
      simpl in Hc, Hn1, Hn2.
      destruct (ps_next_emitted (sort_pass pend (mk_pass emitted [] [])))
        as [|m ne] eqn:Ene.
      * simpl. split; [discriminate|].
        intros x Hx. apply in_or_app. now left.
      * assert (Hlen' : length (ps_next_pending
                  (sort_pass pend (mk_pass emitted [] []))) <= fuel).
        { change (length (m :: ne)) with (S (length ne)) in Hc. lia. }
        destruct (IH _ (m :: ne) (yielded ++ m :: ne) Hlen') as [H1 H2].
        split; [assumption|].
        intros x Hx. apply H2 in Hx.
        apply in_or_app.
        apply in_app_or in Hx. destruct Hx as [Hx|Hx].
        -- apply in_app_or in Hx. destruct Hx as [Hx|Hx]; [now left|].
           right. now apply Hn1.
        -- right. now apply Hn2.
Qed.

Lemma topological_sort_total (source : list (string * list string)) :
  snd (topological_sort source) <> SortFuel /\
  incl (fst (topological_sort source)) (map fst source).
Proof.
  unfold topological_sort.
  destruct (sort_loop_total (length source) source [] [] (le_n _)) as [H1 H2].
  split; assumption.
Qed.

Lemma build_deps_names (cfg : config) :
  map fst (build_deps cfg) = dict_keys cfg.
Proof. unfold build_deps, dict_keys. rewrite map_map. reflexivity. Qed.

(** The sort input that [get_app_deps_and_prios] builds only lists
    dependencies that are apps. *)
Lemma build_deps_closed (cfg : config) : deps_closed (build_deps cfg).
Proof.
  intros n ds d Hin Hd. rewrite build_deps_names.
  unfold build_deps in Hin. apply in_map_iff in Hin.
  destruct Hin as [[k e] [Heq _]]. inversion Heq; subst.
  unfold valid_dependees in Hd. apply filter_In in Hd.
  now apply dict_has_In.
Qed.

(** ** Priority assignment *)

Lemma assign_prios_spec (cfg : config) :
  forall order k acc,
    incl order (dict_keys cfg) ->
    exists m,
      assign_prios cfg order k acc = Ok m /\
      (forall x, In x (dict_keys m) <-> In x (dict_keys acc) \/ In x order) /\
      (forall x, ~ In x order -> dict_get x m = dict_get x acc) /\
      (NoDup order -> (forall x, In x order -> ~ In x (dict_keys acc)) ->
       dict_keys m = dict_keys acc ++ order) /\
      (forall x e, In x order -> dict_get x cfg = Some e ->
         exists p, dict_get x m = Some p /\
           if in_chain cfg x e then exists j, p = PrioClustered j
           else p = plain_prio e).
Proof.
  induction order as [|app rest IH]; intros k acc Hsub.
  - exists acc. simpl. split; [reflexivity|].
    split; [intros x; tauto|]. split; [reflexivity|].
    split; [intros _ _; now rewrite app_nil_r | intros x e []].
  - simpl.
    destruct (dict_get_Some_In app cfg (Hsub app (or_introl eq_refl))) as [e He].
    rewrite He.
    assert (Hsub' : incl rest (dict_keys cfg))
      by (intros x Hx; apply Hsub; now right).
    set (p0 := if entry_has_dependencies e || app_has_dependents cfg app
               then PrioClustered k else plain_prio e).
    set (k' := if entry_has_dependencies e || app_has_dependents cfg app
               then S k else k).
    destruct (IH k' (dict_set app p0 acc) Hsub') as [m [Hrun [Hkeys [Hget [Hord Hval]]]]].
    exists m. split.
    { unfold p0, k' in Hrun. unfold plain_prio in Hrun.
      destruct (entry_has_dependencies e || app_has_dependents cfg app);
        exact Hrun. }
    assert (Hk : forall x, In x (dict_keys (dict_set app p0 acc))
                           <-> In x (dict_keys acc) \/ x = app).
    { intros x. rewrite dict_keys_set.
      destruct (mem app (dict_keys acc)) eqn:Em.
      - apply mem_In in Em. split; [tauto | intros [H| ->]; assumption].
      - rewrite in_app_iff. simpl. intuition auto. }
    split.
    { intros x. rewrite Hkeys, Hk. simpl. split; intros H; intuition auto. }
    split.
    { intros x Hx. rewrite Hget by (intros Hc; apply Hx; now right).
      rewrite dict_get_set. destruct (String.eqb_spec app x) as [->|Hne];
        [exfalso; apply Hx; now left | reflexivity]. }
    split.
    { intros Hnd Hfresh. inversion Hnd as [|? ? Hnot Hnd']; subst.
      rewrite Hord.
      - rewrite dict_keys_set.
        assert (Em : mem app (dict_keys acc) = false)
          by (apply mem_false, Hfresh; now left).
        rewrite Em. now rewrite <- app_assoc.
      - assumption.
      - intros x Hx Hc. apply Hk in Hc. destruct Hc as [Hc| ->].
        + apply (Hfresh x); [now right | assumption].
        + contradiction. }
    intros x e' Hx He'.
    destruct (in_dec string_dec x rest) as [Hin|Hnin].
    + now apply Hval.
    + destruct Hx as [->|Hx]; [|contradiction].
      rewrite He in He'. inversion He'; subst e'.
      exists p0. split.
      * rewrite Hget by assumption. rewrite dict_get_set.
        now rewrite String.eqb_refl.
      * unfold in_chain, p0.
        destruct (entry_has_dependencies e || app_has_dependents cfg x);
          [now exists k | reflexivity].
Qed.

(** [get_app_deps_and_prios] never raises: the deplist loops end, the sort
    ends within its bound, and every sorted name is an app. *)
Lemma prio_apps_of_total (cfg : config) :
  exists m,
    prio_apps_of cfg = Ok m /\
    (forall x, In x (dict_keys m)
               <-> In x (fst (topological_sort (build_deps cfg)))).
Proof.
  unfold prio_apps_of.
  destruct (topological_sort_total (build_deps cfg)) as [_ Hnames].
  rewrite build_deps_names in Hnames.
  destruct (assign_prios_spec cfg _ 0 [] Hnames) as [m [E [Hk _]]].
  exists m. split; [assumption|].
  intros x. rewrite Hk. simpl. tauto.
Qed.

Lemma get_app_deps_and_prios_total (cfg : config) (applist : list string) :
  exists deplist prio_apps,
    build_deplist cfg applist [] = Some deplist /\
    prio_apps_of cfg = Ok prio_apps /\
    get_app_deps_and_prios cfg applist
    = (deps_warnings cfg
         ++ sort_warnings (snd (topological_sort (build_deps cfg))),
       Ok (restrict_to deplist prio_apps)).
Proof.
  destruct (build_deplist_spec cfg applist []) as [deplist [E _]];
    [intros x []|].
  destruct (prio_apps_of_total cfg) as [m [Em _]].
  exists deplist, m. split; [assumption|]. split; [assumption|].
  unfold get_app_deps_and_prios. rewrite E, Em.
  destruct (topological_sort_total (build_deps cfg)) as [Hf _].
  destruct (snd (topological_sort (build_deps cfg))); try reflexivity.
  congruence.
Qed.

Lemma dict_get_restrict_to (deplist : list string) (m : dict prio) (x : string) :
  dict_get x (restrict_to deplist m)
  = if mem x deplist then dict_get x m else None.
Proof.
  unfold restrict_to.
  exact (dict_get_filter (fun k => mem k deplist) x m).
Qed.

Lemma NoDup_app_disjoint {A : Type} (l1 l2 : list A) (a : A) :
  NoDup (l1 ++ l2) -> In a l1 -> ~ In a l2.
Proof.
  induction l1 as [|b l1 IH]; simpl; intros Hnd Hin; [destruct Hin|].
  inversion Hnd as [|? ? Hnot Hnd']; subst.
  destruct Hin as [->|Hin].
  - intros Hc. apply Hnot. apply in_or_app. now right.
  - now apply IH.
Qed.

Lemma clos_trans_first {A : Type} (R : relation A) (x y : A) :
  clos_trans A R x y -> exists z, R x z.
Proof.
  intros H. induction H as [x y H|x y z _ IH _ _]; [now exists y | exact IH].
Qed.

(** ** C2: a cycle in the dependencies *)

(** With distinct names, a cycle stops the sort: it raises on a non-empty
    set of stuck entries, each with a dependency that was never yielded,
    and every name on a cycle is stuck. *)
Lemma topological_sort_cyclic (source : list (string * list string)) :
  NoDup (map fst source) ->
  has_cycle source ->
  exists order stuck,
    topological_sort source = (order, SortCyclic stuck) /\
    stuck <> [] /\
    Forall (stuck_ok source order) stuck /\
    Permutation (map fst stuck ++ order) (map fst source) /\
    order_ok source order /\
    (forall x, clos_trans string (depends_on source) x x ->
               In x (map fst stuck)).
Proof.
  intros Hnd [c Hc].
  destruct (topological_sort source) as [order e] eqn:Hrun.
  destruct (topological_sort_spec source Hnd order e Hrun) as [Ho Hout].
  assert (Hname : forall x, clos_trans string (depends_on source) x x ->
                            In x (map fst source)).
  { intros x Hx. destruct (clos_trans_first _ _ _ Hx) as [z [ds [Hs _]]].
    change x with (fst (x, ds)). now apply in_map. }
  assert (Hnot : forall x, clos_trans string (depends_on source) x x ->
                           ~ In x order).
  { intros x Hx Hin.
    destruct (depends_on_pos source order Ho x x Hx Hin) as [_ Hlt]. lia. }
  destruct e as [|stuck|]; simpl in Hout.
  - exfalso. apply (Hnot c Hc).
    eapply Permutation_in; [apply Permutation_sym; exact Hout|].
    now apply Hname.
  - destruct Hout as [Hne [Hperm Hstuck]].
    exists order, stuck. repeat split; try assumption.
    intros x Hx. pose proof (Hname x Hx) as Hin.
    eapply Permutation_in in Hin; [|apply Permutation_sym; exact Hperm].
    apply in_app_or in Hin. destruct Hin as [Hin|Hin]; [assumption|].
    exfalso. exact (Hnot x Hx Hin).
  - destruct Hout.
Qed.

(** C2.  When the valid dependencies of a configuration contain a cycle,
    the sort inside [get_app_deps_and_prios] raises after yielding [order],
    in a pass that emitted nothing while the entries [stuck] were pending
    (each has a dependency that was never yielded; every app on a cycle is
    among them).  The exception is swallowed: [prio_apps] holds a priority
    for exactly the yielded apps, in that order, the method returns them
    restricted to [deplist] with the value assigned, and no stuck app has a
    priority in [prio_apps] or in the returned map. *)
Theorem cyclic_dependencies_degrade (cfg : config) (applist : list string) :
  NoDup (dict_keys cfg) ->
  has_cycle (build_deps cfg) ->
  exists order stuck prio_apps deplist,
    topological_sort (build_deps cfg) = (order, SortCyclic stuck) /\
    stuck <> [] /\
    Forall (stuck_ok (build_deps cfg) order) stuck /\
    Permutation (map fst stuck ++ order) (dict_keys cfg) /\
    (forall x, clos_trans string (depends_on (build_deps cfg)) x x ->
               In x (map fst stuck)) /\
    prio_apps_of cfg = Ok prio_apps /\
    dict_keys prio_apps = order /\
    build_deplist cfg applist [] = Some deplist /\
    get_app_deps_and_prios cfg applist
    = (deps_warnings cfg ++ sort_warnings (SortCyclic stuck),
       Ok (restrict_to deplist prio_apps)) /\
    (forall app, In app order -> In app deplist ->
       exists p, dict_get app prio_apps = Some p /\
                 dict_get app (restrict_to deplist prio_apps) = Some p) /\
    (forall app, In app (map fst stuck) ->
       dict_get app prio_apps = None /\
       dict_get app (restrict_to deplist prio_apps) = None).
Proof.
  intros Hnd Hcyc.
  assert (Hnd' : NoDup (map fst (build_deps cfg)))
    by now rewrite build_deps_names.
  destruct (topological_sort_cyclic _ Hnd' Hcyc)
    as [order [stuck [Hrun [Hne [Hstuck [Hperm [Ho Hon]]]]]]].
  rewrite build_deps_names in Hperm.
  assert (Hnd2 : NoDup (map fst stuck ++ order))
    by (eapply Permutation_NoDup; [apply Permutation_sym; exact Hperm | exact Hnd]).
  assert (Hsub : incl order (dict_keys cfg)).
  { intros x Hx. eapply Permutation_in; [exact Hperm|].
    apply in_or_app. now right. }
  destruct (assign_prios_spec cfg order 0 [] Hsub)
    as [m [Em [Hkeys [Hget [Hord _]]]]].
  assert (Hk : dict_keys m = order).
  { apply (Hord (NoDup_app_remove_l _ _ Hnd2)). intros x _ []. }
  assert (Hprio : prio_apps_of cfg = Ok m).
  { unfold prio_apps_of. now rewrite Hrun. }
  destruct (get_app_deps_and_prios_total cfg applist)
    as [deplist [m' [Edep [Em' Eall]]]].
  rewrite Hprio in Em'. inversion Em'; subst m'. clear Em'.
  rewrite Hrun in Eall. simpl snd in Eall.
  exists order, stuck, m, deplist.
  repeat split; try assumption.
  - intros app Hin Hdep.
    assert (Hin' : In app (dict_keys m)) by now rewrite Hk.
    destruct (dict_get_Some_In app m Hin') as [p Hp].
    exists p. split; [assumption|].
    rewrite dict_get_restrict_to.
    apply mem_In in Hdep. now rewrite Hdep.
  - apply dict_get_None. rewrite Hk.
    now apply (NoDup_app_disjoint _ _ app Hnd2).
  - rewrite dict_get_restrict_to.
    assert (Hn : dict_get app m = None).
    { apply dict_get_None. rewrite Hk.
      now apply (NoDup_app_disjoint _ _ app Hnd2). }
    rewrite Hn. now destruct (mem app deplist).
Qed.

(** ** Dependents are pulled into the set *)

(** [get_app_deps_and_prios] returns normally, and the [deplist] it builds
    holds the input set and every app whose chain of declared dependencies
    reaches an app of the input set; such an app is in the returned map
    with the priority it was assigned. *)
Lemma dependents_are_included (cfg : config) (applist : list string)
  (x y : string) :
  In x applist ->
  clos_trans string (declares cfg) y x ->
  exists deplist prio_apps,
    build_deplist cfg applist [] = Some deplist /\
    incl applist deplist /\
    In y deplist /\
    prio_apps_of cfg = Ok prio_apps /\
    snd (get_app_deps_and_prios cfg applist)
    = Ok (restrict_to deplist prio_apps) /\
    dict_get y (restrict_to deplist prio_apps) = dict_get y prio_apps.
Proof.
  intros Hx Hreach.
  destruct (get_app_deps_and_prios_total cfg applist)
    as [deplist [m [Edep [Em Eall]]]].
  destruct (build_deplist_spec cfg applist []) as [final [E [_ [Hin [Hclosed _]]]]];
    [intros z []|].
  rewrite Edep in E. inversion E; subst final. clear E.
  assert (Hy : In y deplist).
  { assert (H : forall a b, clos_trans string (declares cfg) a b ->
                            In b deplist -> In a deplist).
    { intros a b Hab. induction Hab as [a b Hab|a b c _ IH1 _ IH2]; intros Hb.
      - exact (Hclosed b Hb a Hab).
      - auto. }
    apply (H y x Hreach). now apply Hin. }
  exists deplist, m. repeat split; try assumption.
  - now rewrite Eall.
  - rewrite dict_get_restrict_to. apply mem_In in Hy. now rewrite Hy.
Qed.

(** ** Example configurations *)

Example cfg_chain_sorted :
  topological_sort (build_deps cfg_chain) = (["base"; "mid"; "top"], SortDone).
Proof. reflexivity. Qed.

Example cfg_cycle_sorted :
  topological_sort (build_deps cfg_cycle)
  = (["solo"],
     SortCyclic [("ping", ["pong"]); ("pong", ["ping"]); ("late", ["ping"])]).
Proof. reflexivity. Qed.

(** ** C6: a dependency on an app that does not exist *)

(** C6 (the code at the failing input).  [orphan] lists [ghost], which is
    not an app: both warnings are logged, the edge is dropped, and [orphan]
    is still sorted and receives the first clustered priority. *)
Theorem missing_dependency_keeps_priority :
  build_deps cfg_missing = [("orphan", [])] /\
  get_app_deps_and_prios cfg_missing ["orphan"]
  = ([LogUnableToFindDep "ghost" "orphan"; LogIgnoringApp "orphan"],
     Ok [("orphan", PrioClustered 0)]).
Proof. split; reflexivity. Qed.

(** In general: the edges to missing apps are dropped from the sort input,
    each with the two warnings, and an app that declares dependencies and
    is sorted is assigned a clustered priority all the same. *)
Lemma missing_dependency_general (cfg : config) (app : string) (e : entry)
  (dep : string) :
  NoDup (dict_keys cfg) ->
  In (app, e) cfg ->
  In dep (entry_dependencies e) ->
  dict_has dep cfg = false ->
  In (LogUnableToFindDep dep app) (deps_warnings cfg) /\
  In (LogIgnoringApp app) (deps_warnings cfg) /\
  ~ depends_on (build_deps cfg) app dep /\
  forall prio_apps,
    prio_apps_of cfg = Ok prio_apps ->
    In app (fst (topological_sort (build_deps cfg))) ->
    exists j, dict_get app prio_apps = Some (PrioClustered j).
Proof.
  intros Hnd Hin Hdep Hmiss.
  assert (Hw : forall m, In m [LogUnableToFindDep dep app; LogIgnoringApp app] ->
                         In m (deps_warnings cfg)).
  { intros m Hm. unfold deps_warnings. apply in_flat_map.
    exists (app, e). split; [assumption|]. apply in_flat_map.
    exists dep. split; [assumption|]. now rewrite Hmiss. }
  split; [apply Hw; now left|]. split; [apply Hw; right; now left|].
  split.
  - intros [ds [Hs Hd]]. unfold build_deps in Hs. apply in_map_iff in Hs.
    destruct Hs as [[app' e'] [Heq Hin']]. simpl in Heq.
    inversion Heq; subst. unfold valid_dependees in Hd.
    apply filter_In in Hd. destruct Hd as [_ Hd]. congruence.
  - intros m Hm Hsorted. unfold prio_apps_of in Hm.
    destruct (topological_sort_total (build_deps cfg)) as [_ Hnames].
    rewrite build_deps_names in Hnames.
    destruct (assign_prios_spec cfg _ 0 [] Hnames) as [m' [Em' [_ [_ [_ Hval]]]]].
    rewrite Hm in Em'. inversion Em'; subst m'.
    destruct (Hval app e Hsorted (dict_In_get _ _ _ Hnd Hin)) as [p [Hp Hkind]].
    unfold in_chain in Hkind.
    assert (Hhas : entry_has_dependencies e = true).
    { destruct e as [a|mods]; simpl in *; [|destruct Hdep].
      destruct (ad_dependencies a); [reflexivity | destruct Hdep]. }
    rewrite Hhas in Hkind. simpl in Hkind. destruct Hkind as [j ->].
    now exists j.
Qed.

(** ** The theorems at the example configurations *)

Lemma cfg_chain_nodup : NoDup (map fst (build_deps cfg_chain)).
Proof.
  simpl. repeat constructor; simpl; intuition discriminate.
Qed.

Lemma cfg_chain_closed : deps_closed (build_deps cfg_chain).
Proof.
  intros n ds d Hin Hd. simpl in *.
  repeat (destruct Hin as [Hin|Hin]; [inversion Hin; subst; simpl in Hd; tauto|]).
  destruct Hin.
Qed.

Lemma cfg_chain_acyclic : acyclic (build_deps cfg_chain).
Proof.
  apply rank_acyclic with
    (rank := fun s => if String.eqb s "base" then 0
                      else if String.eqb s "mid" then 1 else 2).
  intros a b [ds [Hin Hd]]. simpl in Hin.
  repeat (destruct Hin as [Hin|Hin];
          [inversion Hin; subst; simpl in Hd;
           repeat (destruct Hd as [Hd|Hd]; [subst; simpl; lia|]);
           destruct Hd|]).
  destruct Hin.
Qed.

Lemma topological_sort_acyclic_witness :
  exists order,
    topological_sort (build_deps cfg_chain) = (order, SortDone) /\
    Permutation order (map fst (build_deps cfg_chain)) /\
    NoDup order /\
    forall n ds, In (n, ds) (build_deps cfg_chain) -> after_all order n ds.
Proof.
  exact (topological_sort_acyclic (build_deps cfg_chain)
           cfg_chain_nodup cfg_chain_closed cfg_chain_acyclic).
Defined.

Lemma cfg_cycle_nodup : NoDup (dict_keys cfg_cycle).
Proof.
  simpl. repeat constructor; simpl; intuition discriminate.
Qed.

Lemma cfg_cycle_has_cycle : has_cycle (build_deps cfg_cycle).
Proof.
  exists "ping". apply t_trans with "pong"; apply t_step.
  - exists ["pong"]. split; simpl; tauto.
  - exists ["ping"]. split; simpl; tauto.
Qed.

Lemma cyclic_dependencies_degrade_witness :
  exists order stuck prio_apps deplist,
    topological_sort (build_deps cfg_cycle) = (order, SortCyclic stuck) /\
    stuck <> [] /\
    Forall (stuck_ok (build_deps cfg_cycle) order) stuck /\
    Permutation (map fst stuck ++ order) (dict_keys cfg_cycle) /\
    (forall x, clos_trans string (depends_on (build_deps cfg_cycle)) x x ->
               In x (map fst stuck)) /\
    prio_apps_of cfg_cycle = Ok prio_apps /\
    dict_keys prio_apps = order /\
    build_deplist cfg_cycle ["solo"; "late"] [] = Some deplist /\
    get_app_deps_and_prios cfg_cycle ["solo"; "late"]
    = (deps_warnings cfg_cycle ++ sort_warnings (SortCyclic stuck),
       Ok (restrict_to deplist prio_apps)) /\
    (forall app, In app order -> In app deplist ->
       exists p, dict_get app prio_apps = Some p /\
                 dict_get app (restrict_to deplist prio_apps) = Some p) /\
    (forall app, In app (map fst stuck) ->
       dict_get app prio_apps = None /\
       dict_get app (restrict_to deplist prio_apps) = None).
Proof.
  exact (cyclic_dependencies_degrade cfg_cycle ["solo"; "late"]
           cfg_cycle_nodup cfg_cycle_has_cycle).
Defined.

Example cfg_cycle_prios :
  get_app_deps_and_prios cfg_cycle ["solo"; "late"]
  = ([LogCyclicDetected; LogDependsOn "ping" ["pong"];
      LogDependsOn "pong" ["ping"]; LogDependsOn "late" ["ping"]],
     Ok [("solo", PrioDefault)]).
Proof. reflexivity. Qed.

Lemma cfg_chain_top_reaches_base :
  clos_trans string (declares cfg_chain) "top" "base".
Proof.
  apply t_trans with "mid"; apply t_step.
  - exists (app_section "top_mod" "Top" (Some ["mid"; "base"])).
    split; simpl; tauto.
  - exists (app_section "mid_mod" "Mid" (Some ["base"])).
    split; simpl; tauto.
Qed.

Example cfg_chain_prios :
  get_app_deps_and_prios cfg_chain ["base"]
  = ([], Ok [("base", PrioClustered 0); ("mid", PrioClustered 1);
             ("top", PrioClustered 2)]).
Proof. reflexivity. Qed.

(** ** Reasoning about runs in the monad *)

Section Preorder.
Variable R : state -> state -> Prop.
Hypothesis R_refl : forall st, R st st.
Hypothesis R_trans : forall a b c, R a b -> R b c -> R a c.

Lemma rel_ret {A : Type} (a : A) : run_rel (ret a) R.
Proof. intros st. apply R_refl. Qed.

Lemma rel_raise {A : Type} (e : exn) : run_rel (@raise A e) R.
Proof. intros st. apply R_refl. Qed.

Lemma rel_get : run_rel get R.
Proof. intros st. apply R_refl. Qed.

Lemma rel_lift {A : Type} (r : result A) : run_rel (lift r) R.
Proof. destruct r; intros st; apply R_refl. Qed.

Lemma rel_bind {A B : Type} (m : M A) (k : A -> M B) :
  run_rel m R -> (forall a, run_rel (k a) R) -> run_rel (bind m k) R.
Proof.
  intros Hm Hk st. unfold bind. specialize (Hm st).
  destruct (m st) as [[a|e] st1]; simpl in *.
  - eapply R_trans; [exact Hm | apply Hk].
  - exact Hm.
Qed.

Lemma rel_try {A : Type} (m : M A) (h : exn -> M A) :
  run_rel m R -> (forall e, run_rel (h e) R) -> run_rel (try_except m h) R.
Proof.
  intros Hm Hh st. unfold try_except. specialize (Hm st).
  destruct (m st) as [[a|e] st1]; simpl in *.
  - exact Hm.
  - eapply R_trans; [exact Hm | apply Hh].
Qed.

Lemma rel_foldM {A S : Type} (f : S -> A -> M S) (l : list A) :
  (forall s x, In x l -> run_rel (f s x) R) ->
  forall s, run_rel (foldM f l s) R.
Proof.
  induction l as [|x l IH]; intros Hf s; simpl.
  - apply rel_ret.
  - apply rel_bind; [apply Hf; now left|].
    intros s'. apply IH. intros s0 y Hy. apply Hf. now right.
Qed.

Lemma rel_forM {A : Type} (f : A -> M unit) (l : list A) :
  (forall x, In x l -> run_rel (f x) R) -> run_rel (forM f l) R.
Proof.
  induction l as [|x l IH]; intros Hf; simpl.
  - apply rel_ret.
  - apply rel_bind; [apply Hf; now left|].
    intros _. apply IH. intros y Hy. apply Hf. now right.
Qed.

Lemma rel_modify (f : state -> state) :
  (forall st, R st (f st)) -> run_rel (modify f) R.
Proof. intros Hf st. apply Hf. Qed.
End Preorder.

(** The run of a [bind] whose first part returns. *)
Lemma bind_ok {A B : Type} (m : M A) (k : A -> M B) (st st1 : state) (a : A) :
  m st = (Ok a, st1) -> bind m k st = k a st1.
Proof. intros H. unfold bind. now rewrite H. Qed.

Lemma bind_raise {A B : Type} (m : M A) (k : A -> M B) (st st1 : state) (e : exn) :
  m st = (Raise e, st1) -> bind m k st = (Raise e, st1).
Proof. intros H. unfold bind. now rewrite H. Qed.

(** *** State relations *)

Lemma emits_refl (P : event -> Prop) (st : state) : emits P st st.
Proof. exists []. split; [now rewrite app_nil_r | constructor]. Qed.

Lemma emits_trans (P : event -> Prop) (a b c : state) :
  emits P a b -> emits P b c -> emits P a c.
Proof.
  intros [e1 [H1 F1]] [e2 [H2 F2]]. exists (e1 ++ e2).
  split; [rewrite H2, H1; now rewrite app_assoc | now apply Forall_app].
Qed.

Lemma same_config_refl st : same_config st st.
Proof. reflexivity. Qed.

Lemma same_config_trans a b c : same_config a b -> same_config b c -> same_config a c.
Proof. unfold same_config. congruence. Qed.

Lemma same_records_refl st : same_records st st.
Proof. repeat split. Qed.

Lemma same_records_trans a b c :
  same_records a b -> same_records b c -> same_records a c.
Proof.
  unfold same_records. intros [H1 [H2 H3]] [H4 [H5 H6]].
  repeat split; congruence.
Qed.

(** *** Event classes *)

(** Decomposes a goal [run_rel m R] along the structure of [m]; [tac]
    closes the goals left by state updates. *)
Ltac rel_go Hrefl Htrans tac :=
  repeat first
    [ apply (rel_ret _ Hrefl)
    | apply (rel_raise _ Hrefl)
    | apply (rel_get _ Hrefl)
    | apply (rel_lift _ Hrefl)
    | apply (rel_bind _ Htrans); [|intro]
    | apply (rel_try _ Htrans); [|intro]
    | apply (rel_foldM _ Hrefl Htrans); intros
    | apply (rel_forM _ Hrefl Htrans); intros
    | apply rel_modify; intro; tac
    | match goal with
      | |- run_rel (if ?b then _ else _) _ => destruct b
      | |- run_rel (match ?x with _ => _ end) _ => destruct x
      | |- run_rel (let _ := _ in _) _ => cbv zeta
      end ].

Ltac emits_one :=
  first
    [ apply emits_refl
    | exists []; split; [simpl; symmetry; apply app_nil_r | constructor]
    | eexists; split; [reflexivity | repeat constructor]; auto ].

Ltac unfold_methods :=
  repeat progress unfold check_config, check_config_body, check_later_app_configs,
    lf_deleted_get, read_config, term_object, diff_existing, diff_added,
    add_threads, plan_add_term, plan_add_init, scan_file, delete_module,
    plan_reload, module_apps, plugin_app, import_module, read_app_load,
    read_app, remove_failed, load_module, init_object, initialize_app,
    is_disabled, run_get_app_deps_and_prios, emit, warn.

Section EmitsFacts.
Variable P : event -> Prop.
Hypothesis P_log : forall m, P (EvLog m).

Lemma check_later_emits w t : run_rel (check_later_app_configs w t) (emits P).
Proof.
  unfold_methods.
  rel_go (emits_refl P) (emits_trans P)
    ltac:(emits_one).
Qed.

Hypothesis P_import : forall m r, P (EvImport m r).

Lemma load_module_emits w apps mc : run_rel (load_module w apps mc) (emits P).
Proof.
  unfold_methods.
  rel_go (emits_refl P) (emits_trans P)
    ltac:(emits_one).
Qed.

Hypothesis P_term : forall n, P (EvTermObject n).
Hypothesis P_thread : P EvAddThread.

Lemma check_config_emits w : run_rel (check_config w) (emits P).
Proof.
  unfold_methods.
  rel_go (emits_refl P) (emits_trans P)
    ltac:(emits_one).
Qed.

Lemma plan_phase_emits w plugin ex : run_rel (plan_phase w plugin ex) (emits P).
Proof.
  unfold plan_phase.
  apply (rel_bind _ (emits_trans P)); [apply check_config_emits|intro].
  unfold_methods.
  rel_go (emits_refl P) (emits_trans P)
    ltac:(emits_one).
Qed.

Lemma run_prios_emits l : run_rel (run_get_app_deps_and_prios l) (emits P).
Proof.
  unfold_methods.
  rel_go (emits_refl P) (emits_trans P) ltac:(idtac).
  eexists. split; [reflexivity|].
  apply Forall_forall. intros e He. apply in_map_iff in He.
  destruct He as [m [<- _]]. apply P_log.
Qed.

Lemma terminate_phase_emits lt apps : run_rel (terminate_phase lt apps) (emits P).
Proof.
  unfold terminate_phase.
  destruct apps as [p|]; [|apply (rel_ret _ (emits_refl P))].
  destruct (p_term p); [apply (rel_ret _ (emits_refl P))|].
  apply (rel_bind _ (emits_trans P)); [apply run_prios_emits|intro].
  unfold_methods.
  rel_go (emits_refl P) (emits_trans P)
    ltac:(emits_one).
Qed.
End EmitsFacts.

(** ** The initialize phase *)

Lemma init_events_app (a b : list event) :
  init_events (a ++ b) = init_events a ++ init_events b.
Proof. apply filter_app. Qed.

Lemma init_events_logs (logs : list log_msg) : init_events (map EvLog logs) = [].
Proof. induction logs; simpl; auto. Qed.

Ltac destruct_matches :=
  repeat match goal with
         | |- context [match ?x with _ => _ end] => destruct x eqn:?; simpl
         end.

Ltac unfold_monad :=
  unfold bind, ret, raise, get, modify, emit, warn, lift, try_except.

(** [init_object] leaves the configuration alone and its only
    initialize-phase event is the call itself. *)
Lemma init_object_spec (w : world) (name : string) (st : state) :
  exists r st',
    init_object w name st = (r, st') /\
    app_config st' = app_config st /\
    init_events (trace st') = init_events (trace st) ++ [EvInitObject name].
Proof.
  unfold init_object. unfold_monad. simpl.
  destruct_matches; eexists; eexists;
    (split; [reflexivity|]); simpl;
    (split; [reflexivity|]);
    rewrite ?init_events_app; simpl; rewrite ?app_nil_r; reflexivity.
Qed.

Lemma initialize_app_spec (name : string) (st : state) :
  exists st',
    initialize_app name st = (Ok tt, st') /\
    app_config st' = app_config st /\
    init_events (trace st') = init_events (trace st) ++ [EvInitializeApp name].
Proof.
  unfold initialize_app. unfold_monad. simpl.
  destruct_matches; eexists;
    (split; [reflexivity|]); simpl;
    (split; [reflexivity|]);
    rewrite ?init_events_app; simpl; rewrite ?app_nil_r; reflexivity.
Qed.

Lemma construct_step_spec (w : world) (app : string) (st : state) :
  exists st',
    construct_step w app st = (Ok tt, st') /\
    app_config st' = app_config st /\
    init_events (trace st')
    = init_events (trace st)
        ++ (if app_enabled (app_config st) app then [EvInitObject app] else []).
Proof.
  unfold construct_step, is_disabled, app_enabled.
  destruct (dict_get app (app_config st)) as [e|] eqn:He.
  - destruct (entry_disabled e) eqn:Hd.
    + exists st. unfold_monad. simpl. rewrite He, Hd. simpl.
      now rewrite app_nil_r.
    + destruct (init_object_spec w app st) as [r [st' [Hrun [Hc Ht]]]].
      unfold_monad. simpl. rewrite He, Hd, Hrun. simpl.
      destruct r as [[]|x].
      * exists st'. repeat split; assumption.
      * eexists. split; [reflexivity|]. simpl. split; [assumption|].
        rewrite init_events_app, Ht. simpl. now rewrite app_nil_r.
  - unfold_monad. simpl. rewrite He. simpl.
    eexists. split; [reflexivity|]. simpl. split; [reflexivity|].
    rewrite init_events_app. reflexivity.
Qed.

Lemma initialize_step_spec (app : string) (st : state) :
  In app (dict_keys (app_config st)) ->
  exists st',
    initialize_step app st = (Ok tt, st') /\
    app_config st' = app_config st /\
    init_events (trace st')
    = init_events (trace st)
        ++ (if app_enabled (app_config st) app then [EvInitializeApp app] else []).
Proof.
  intros Hin. unfold initialize_step, is_disabled, app_enabled.
  destruct (dict_get_Some_In _ _ Hin) as [e He].
  destruct (entry_disabled e) eqn:Hd.
  - exists st. unfold_monad. simpl. rewrite He, Hd. simpl.
    now rewrite app_nil_r.
  - destruct (initialize_app_spec app st) as [st' [Hrun [Hc Ht]]].
    unfold_monad. simpl. rewrite He, Hd. simpl.
    exists st'. repeat split; assumption.
Qed.

(** A loop whose body appends known initialize-phase events. *)
Lemma forM_init_events (f : string -> M unit) (ev : string -> event)
  (cfg : config) :
  forall l,
    (forall x st, In x l -> app_config st = cfg ->
       exists st',
         f x st = (Ok tt, st') /\
         app_config st' = cfg /\
         init_events (trace st')
         = init_events (trace st)
             ++ (if app_enabled cfg x then [ev x] else [])) ->
    forall st, app_config st = cfg ->
      exists st',
        forM f l st = (Ok tt, st') /\
        app_config st' = cfg /\
        init_events (trace st')
        = init_events (trace st) ++ map ev (filter (app_enabled cfg) l).
Proof.
  induction l as [|x l IH]; intros Hf st Hc.
  - exists st. simpl. repeat split; [assumption | now rewrite app_nil_r].
  - destruct (Hf x st (or_introl eq_refl) Hc) as [st1 [H1 [Hc1 Ht1]]].
    destruct (IH (fun y s Hy => Hf y s (or_intror Hy)) st1 Hc1)
      as [st2 [H2 [Hc2 Ht2]]].
    exists st2. split.
    + simpl. rewrite (bind_ok _ _ _ _ _ H1). exact H2.
    + split; [assumption|]. rewrite Ht2, Ht1. simpl.
      destruct (app_enabled cfg x); simpl; now rewrite <- app_assoc.
Qed.

Section SortedKeys.
Variable prio_lt : prio -> prio -> bool.

Lemma insert_by_perm (lt : prio -> prio -> bool) (x : string * prio)
  (l : list (string * prio)) :
  Permutation (insert_by lt x l) (x :: l).
Proof.
  induction l as [|y l IH]; simpl; [reflexivity|].
  destruct (lt (snd y) (snd x)); [|reflexivity].
  rewrite IH. apply perm_swap.
Qed.

Lemma sort_by_perm (lt : prio -> prio -> bool) (m : dict prio) :
  Permutation (fold_right (insert_by lt) [] m) m.
Proof.
  induction m as [|x m IH]; simpl; [reflexivity|].
  rewrite insert_by_perm. now constructor.
Qed.

(** Both sorts return the keys of the map, each once per entry. *)
Lemma sorted_keys_perm (m : dict prio) :
  Permutation (sorted_keys prio_lt m) (dict_keys m).
Proof. unfold sorted_keys, dict_keys. apply Permutation_map, sort_by_perm. Qed.

Lemma sorted_keys_reverse_perm (m : dict prio) :
  Permutation (sorted_keys_reverse prio_lt m) (dict_keys m).
Proof.
  unfold sorted_keys_reverse, dict_keys. apply Permutation_map, sort_by_perm.
Qed.
End SortedKeys.

(** The apps of a returned priority map are apps of the configuration. *)
Lemma get_app_deps_and_prios_keys (cfg : config) (applist : list string)
  (m : dict prio) :
  snd (get_app_deps_and_prios cfg applist) = Ok m ->
  incl (dict_keys m) (dict_keys cfg).
Proof.
  intros H.
  destruct (get_app_deps_and_prios_total cfg applist) as [dl [pa [_ [Hp E]]]].
  rewrite E in H. simpl in H. inversion H; subst m. clear H.
  destruct (prio_apps_of_total cfg) as [pa' [Hp' Hk]].
  rewrite Hp in Hp'. inversion Hp'; subst pa'. clear Hp'.
  destruct (topological_sort_total (build_deps cfg)) as [_ Hn].
  rewrite build_deps_names in Hn.
  intros x Hx. apply Hn, Hk.
  unfold restrict_to, dict_keys in Hx. apply in_map_iff in Hx.
  destruct Hx as [[k v] [<- Hin]]. apply filter_In in Hin.
  destruct Hin as [Hin _]. unfold dict_keys.
  change (fst (k, v)) with (fst (k, v)). now apply in_map.
Qed.

Lemma run_prios_spec (applist : list string) (st : state) :
  exists m,
    snd (get_app_deps_and_prios (app_config st) applist) = Ok m /\
    run_get_app_deps_and_prios applist st
    = (Ok m,
       add_events
         (map EvLog (fst (get_app_deps_and_prios (app_config st) applist))) st).
Proof.
  destruct (get_app_deps_and_prios_total (app_config st) applist)
    as [dl [pa [_ [_ E]]]].
  exists (restrict_to dl pa). split; [now rewrite E|].
  unfold run_get_app_deps_and_prios. unfold_monad. simpl.
  rewrite E. reflexivity.
Qed.

(** The initialize phase on a non-empty set: it returns, leaves the
    configuration alone, and its events are the constructions of the
    enabled apps in priority order, one pin recomputation, and the
    initialize calls of the same apps in the same order. *)
Lemma init_phase_spec (prio_lt : prio -> prio -> bool) (w : world) (p : plan)
  (st : state) :
  p_init p <> [] ->
  exists prio_apps st',
    snd (get_app_deps_and_prios (app_config st) (p_init p)) = Ok prio_apps /\
    init_phase prio_lt w (Some p) st = (Ok tt, st') /\
    app_config st' = app_config st /\
    init_events (trace st')
    = init_events (trace st)
        ++ map EvInitObject
             (filter (app_enabled (app_config st)) (sorted_keys prio_lt prio_apps))
        ++ [EvCalcPinThreads]
        ++ map EvInitializeApp
             (filter (app_enabled (app_config st)) (sorted_keys prio_lt prio_apps)).
Proof.
  intros Hne. unfold init_phase.
  destruct (p_init p) as [|a0 rest] eqn:Ep; [congruence|]. clear Hne.
  destruct (run_prios_spec (a0 :: rest) st) as [m [Hm Hrun]].
  exists m.
  set (st0 := add_events
                (map EvLog (fst (get_app_deps_and_prios (app_config st) (a0 :: rest))))
                st) in *.
  assert (Hc0 : app_config st0 = app_config st) by reflexivity.
  assert (Ht0 : init_events (trace st0) = init_events (trace st)).
  { unfold st0. simpl. rewrite init_events_app, init_events_logs.
    now rewrite app_nil_r. }
  assert (Hkeys : forall x, In x (sorted_keys prio_lt m) ->
                            In x (dict_keys (app_config st))).
  { intros x Hx. apply (get_app_deps_and_prios_keys _ _ _ Hm).
    eapply Permutation_in; [apply sorted_keys_perm | exact Hx]. }
  destruct (forM_init_events (construct_step w) EvInitObject (app_config st)
              (sorted_keys prio_lt m)) with (st := st0)
    as [st1 [H1 [Hc1 Ht1]]]; [|assumption|].
  { intros x s _ Hs. destruct (construct_step_spec w x s) as [s' [Hr [Hc Ht]]].
    exists s'. rewrite Hs in *. repeat split; assumption. }
  set (st2 := add_events [EvCalcPinThreads] st1).
  destruct (forM_init_events initialize_step EvInitializeApp (app_config st)
              (sorted_keys prio_lt m)) with (st := st2)
    as [st3 [H3 [Hc3 Ht3]]]; [|exact Hc1|].
  { intros x s Hx Hs.
    destruct (initialize_step_spec x s) as [s' [Hr [Hc Ht]]].
    - rewrite Hs. now apply Hkeys.
    - exists s'. rewrite Hs in *. repeat split; assumption. }
  exists st3. split; [assumption|]. split.
  - rewrite (bind_ok _ _ _ _ _ Hrun).
    fold (construct_step w) in *.
    change (fun app : string =>
              try_except
                (disabled <- is_disabled app ;;
                 if (disabled : bool) then ret tt else init_object w app)
                (fun _ : exn => warn (LogAppError "initializing" app)))
      with (construct_step w).
    rewrite (bind_ok _ _ _ _ _ H1).
    unfold emit at 1. unfold modify at 1.
    unfold bind at 1. fold st2.
    exact H3.
  - split; [assumption|].
    rewrite Ht3. unfold st2. simpl. rewrite init_events_app, Ht1, Ht0.
    simpl. rewrite <- !app_assoc. reflexivity.
Qed.

Lemma emits_no_init (st st' : state) :
  emits (fun e => is_init_event e = false) st st' ->
  init_events (trace st') = init_events (trace st).
Proof.
  intros [evs [Ht Hall]]. rewrite Ht, init_events_app.
  assert (E : init_events evs = []).
  { clear Ht. unfold init_events. induction Hall as [|e evs He _ IH]; simpl; [reflexivity|].
    simpl in He. rewrite He. exact IH. }
  rewrite E. now rewrite app_nil_r.
Qed.

Lemma load_modules_emits (P : event -> Prop) (w : world)
  (mods : list module_change) (apps : option plan) :
  (forall m, P (EvLog m)) -> (forall m r, P (EvImport m r)) ->
  run_rel (foldM (load_module w) mods apps) (emits P).
Proof.
  intros H1 H2. apply (rel_foldM _ (emits_refl P) (emits_trans P)).
  intros s x _. now apply load_module_emits.
Qed.

(** ** C3: construct everything, recompute the pins, then initialize *)

(** The apps of [applist] that have a priority are the ones the sort
    yields. *)
Lemma prio_apps_of_applist (cfg : config) (applist : list string)
  (m : dict prio) (x : string) :
  snd (get_app_deps_and_prios cfg applist) = Ok m ->
  In x applist ->
  (In x (dict_keys m) <-> In x (fst (topological_sort (build_deps cfg)))).
Proof.
  intros Hm Hx.
  destruct (get_app_deps_and_prios_total cfg applist)
    as [deplist [m0 [Hdl [Hm0 Hrun]]]].
  rewrite Hrun in Hm. simpl in Hm. inversion Hm; subst m. clear Hm.
  destruct (prio_apps_of_total cfg) as [m1 [Hm1 Hkeys]].
  rewrite Hm0 in Hm1. inversion Hm1; subst m1. clear Hm1.
  destruct (build_deplist_spec cfg applist []) as [final [Hdl' [_ [Hincl _]]]];
    [intros y []|].
  rewrite Hdl in Hdl'. inversion Hdl'; subst final. clear Hdl'.
  assert (Hmem : mem x deplist = true).
  { apply mem_In. now apply Hincl. }
  rewrite <- Hkeys. rewrite <- !dict_has_In. unfold dict_has.
  now rewrite dict_get_restrict_to, Hmem.
Qed.

(** C3 (as amended).  A cycle that reaches its end with a non-empty
    initialize set [p] has made, on the one priority ordering that
    [get_app_deps_and_prios] returns for that set, a construction pass over
    every app of the ordering that is not disabled, then exactly one
    thread-pin recomputation, then an initialize pass over the same apps in
    the same order; the cycle made no other construction, recomputation or
    initialize call.  An app of the set is in the two passes exactly when
    it is not disabled and [topological_sort] yields it: when the sort ends
    without raising, every app of the set that is not disabled is
    constructed and then initialized. *)
Theorem two_pass_initialize (prio_lt : prio -> prio -> bool) (w : world)
  (plugin : option string) (exit : bool) (st st' : state) (p : plan) :
  check_app_updates prio_lt w plugin exit st = (Ok (Some p), st') ->
  p_init p <> [] ->
  exists prio_apps,
    snd (get_app_deps_and_prios (app_config st') (p_init p)) = Ok prio_apps /\
    init_events (trace st')
    = init_events (trace st)
        ++ map EvInitObject
             (filter (app_enabled (app_config st')) (sorted_keys prio_lt prio_apps))
        ++ [EvCalcPinThreads]
        ++ map EvInitializeApp
             (filter (app_enabled (app_config st')) (sorted_keys prio_lt prio_apps)) /\
    (forall x, In x (p_init p) ->
       (In x (filter (app_enabled (app_config st'))
                (sorted_keys prio_lt prio_apps))
        <-> app_enabled (app_config st') x = true /\
            In x (fst (topological_sort (build_deps (app_config st')))))) /\
    (NoDup (dict_keys (app_config st')) ->
     snd (topological_sort (build_deps (app_config st'))) = SortDone ->
     forall x, In x (p_init p) -> app_enabled (app_config st') x = true ->
       In x (filter (app_enabled (app_config st'))
               (sorted_keys prio_lt prio_apps))).
Proof.
  intros Hrun Hne. unfold check_app_updates in Hrun.
  destruct (w_apps_enabled w); simpl in Hrun; [|discriminate].
  set (P := fun e => is_init_event e = false).
  assert (Plog : forall m, P (EvLog m)) by reflexivity.
  assert (Pimp : forall m r, P (EvImport m r)) by reflexivity.
  assert (Pterm : forall n, P (EvTermObject n)) by reflexivity.
  assert (Pthr : P EvAddThread) by reflexivity.
  pose proof (plan_phase_emits P Plog Pterm Pthr w plugin exit st) as E1.
  unfold bind in Hrun at 1.
  destruct (plan_phase w plugin exit st) as [[planned|x] st1]; [|discriminate].
  simpl in E1.
  pose proof (terminate_phase_emits P Plog Pterm prio_lt (fst planned) st1) as E2.
  unfold bind in Hrun at 1.
  destruct (terminate_phase prio_lt (fst planned) st1) as [[[]|x] st2];
    [|discriminate].
  simpl in E2.
  pose proof (load_modules_emits P w (snd planned) (fst planned) Plog Pimp st2)
    as E3.
  unfold bind in Hrun at 1.
  destruct (foldM (load_module w) (snd planned) (fst planned) st2)
    as [[apps|x] st3]; [|discriminate].
  simpl in E3.
  unfold bind in Hrun at 1.
  destruct (init_phase prio_lt w apps st3) as [[[]|x] st4] eqn:Hinit;
    [|discriminate].
  unfold bind, modify, ret in Hrun. simpl in Hrun.
  inversion Hrun; subst apps st'. clear Hrun.
  destruct (init_phase_spec prio_lt w p st3 Hne) as [m [st4' [Hm [Hi [Hc Ht]]]]].
  rewrite Hinit in Hi. inversion Hi; subst st4'. clear Hi.
  exists m. simpl. rewrite Hc.
  assert (Hin : forall x, In x (p_init p) ->
            (In x (filter (app_enabled (app_config st3)) (sorted_keys prio_lt m))
             <-> app_enabled (app_config st3) x = true /\
                 In x (fst (topological_sort (build_deps (app_config st3)))))).
  { intros x Hx. rewrite filter_In.
    rewrite <- (prio_apps_of_applist _ _ _ x Hm Hx).
    split; intros [H1 H2]; split; try assumption.
    - apply (Permutation_in _ (sorted_keys_perm prio_lt m)). exact H1.
    - apply (Permutation_in _ (Permutation_sym (sorted_keys_perm prio_lt m))).
      exact H2. }
  split; [assumption|]. split.
  - rewrite Ht.
    rewrite (emits_no_init _ _ E3), (emits_no_init _ _ E2), (emits_no_init _ _ E1).
    reflexivity.
  - split; [exact Hin|].
    intros Hnd Hdone x Hx Hen. apply (Hin x Hx). split; [assumption|].
    assert (Hsrc : NoDup (map fst (build_deps (app_config st3))))
      by (now rewrite build_deps_names).
    destruct (topological_sort (build_deps (app_config st3))) as [order e] eqn:Hs.
    destruct (topological_sort_spec _ Hsrc order e Hs) as [_ Hout].
    simpl in Hdone. subst e. simpl in Hout. simpl.
    apply (Permutation_in _ (Permutation_sym Hout)).
    rewrite build_deps_names.
    unfold app_enabled in Hen.
    destruct (dict_get x (app_config st3)) as [e|] eqn:Hg; [|discriminate].
    apply dict_get_In in Hg. change x with (fst (x, e)). now apply in_map.
Qed.

Example world_chain_first_cycle :
  let res := check_app_updates prio_lt_float world_chain None false initial_state in
  fst res = Ok (Some (mk_plan ["top"; "base"; "mid"] [] 3)) /\
  trace (snd res)
  = [EvImport "top_mod" false; EvImport "base_mod" false;
     EvImport "mid_mod" false;
     EvInitObject "base"; EvInitObject "mid"; EvInitObject "top";
     EvCalcPinThreads;
     EvInitializeApp "base"; EvInitializeApp "mid"; EvInitializeApp "top"].
Proof. vm_compute. split; reflexivity. Qed.

Lemma two_pass_initialize_witness :
  exists prio_apps,
    snd (get_app_deps_and_prios (app_config state_chain)
           (p_init (mk_plan ["top"; "base"; "mid"] [] 3)))
    = Ok prio_apps /\
    init_events (trace state_chain)
    = init_events (trace initial_state)
        ++ map EvInitObject
             (filter (app_enabled (app_config state_chain))
                (sorted_keys prio_lt_float prio_apps))
        ++ [EvCalcPinThreads]
        ++ map EvInitializeApp
             (filter (app_enabled (app_config state_chain))
                (sorted_keys prio_lt_float prio_apps)) /\
    (forall x, In x (p_init (mk_plan ["top"; "base"; "mid"] [] 3)) ->
       (In x (filter (app_enabled (app_config state_chain))
                (sorted_keys prio_lt_float prio_apps))
        <-> app_enabled (app_config state_chain) x = true /\
            In x (fst (topological_sort
                         (build_deps (app_config state_chain)))))) /\
    (NoDup (dict_keys (app_config state_chain)) ->
     snd (topological_sort (build_deps (app_config state_chain))) = SortDone ->
     forall x, In x (p_init (mk_plan ["top"; "base"; "mid"] [] 3)) ->
       app_enabled (app_config state_chain) x = true ->
       In x (filter (app_enabled (app_config state_chain))
               (sorted_keys prio_lt_float prio_apps))).
Proof.
  apply (two_pass_initialize prio_lt_float world_chain None false initial_state
           state_chain (mk_plan ["top"; "base"; "mid"] [] 3)).
  - vm_compute. reflexivity.
  - discriminate.
Defined.

(** C3 (counterexample).  In a first cycle over [cfg_cycle] the initialize
    set holds all four apps and none is disabled, yet the cycle constructs
    and initializes [solo] alone: [ping], [pong] and [late] are in the set
    and are never constructed, because [topological_sort] raised before it
    yielded them. *)
Lemma cyclic_apps_are_not_constructed :
  fst (check_app_updates prio_lt_float world_cycle None false initial_state)
  = Ok (Some (mk_plan ["solo"; "ping"; "pong"; "late"] [] 4)) /\
  forallb (app_enabled cfg_cycle) ["solo"; "ping"; "pong"; "late"] = true /\
  init_events
    (trace (snd (check_app_updates prio_lt_float world_cycle None false
                   initial_state)))
  = [EvInitObject "solo"; EvCalcPinThreads; EvInitializeApp "solo"].
Proof. vm_compute. repeat split; reflexivity. Qed.

(** ** [check_config]: what one call does *)

Lemma nameset_add_In (x y : string) (s : nameset) :
  In y (nameset_add x s) <-> In y s \/ y = x.
Proof.
  unfold nameset_add. destruct (mem x s) eqn:E.
  - apply mem_In in E. split; [tauto | intros [H| ->]; assumption].
  - rewrite in_app_iff. simpl. intuition auto.
Qed.

Lemma terminate_all_spec (names : list string) (st : state) :
  app_config (terminate_all names st) = app_config st /\
  app_config_file_modified (terminate_all names st) = app_config_file_modified st /\
  app_config_files (terminate_all names st) = app_config_files st /\
  monitored_files (terminate_all names st) = monitored_files st /\
  modules (terminate_all names st) = modules st /\
  trace (terminate_all names st) = trace st ++ map EvTermObject names /\
  objects (terminate_all names st)
  = fold_left (fun o a => dict_del a o) names (objects st).
Proof.
  revert st. induction names as [|a names IH]; intros st; simpl.
  - rewrite app_nil_r. repeat split.
  - destruct (IH (set_objects (dict_del a (objects st))
                    (add_events [EvTermObject a] st)))
      as [H1 [H2 [H3 [H4 [H5 [H6 H7]]]]]].
    unfold terminate_all in *. simpl in *.
    rewrite H1, H2, H3, H4, H5, H6, H7. rewrite <- app_assoc.
    repeat split.
Qed.

Lemma diff_existing_loop (new_config : config) :
  forall l acc st,
    exists acc',
      foldM (diff_existing new_config) l acc st
      = (Ok acc', terminate_all (removed_apps new_config l) st) /\
      (forall x, In x (fst acc') <->
                 In x (fst acc) \/ In x (changed_apps new_config l)) /\
      (forall x, In x (snd acc') <->
                 In x (snd acc) \/ In x (changed_apps new_config l)).
Proof.
  induction l as [|[name e] l IH]; intros acc st.
  - exists acc. simpl. split; [reflexivity|]. split; intros x; tauto.
  - simpl. unfold diff_existing at 1. simpl.
    unfold removed_apps, changed_apps, dict_has. simpl.
    destruct (dict_get name new_config) as [n|] eqn:Hn; simpl.
    + destruct (entry_eqb e n) eqn:He; simpl.
      * destruct (IH acc st) as [acc' [Hrun [H1 H2]]].
        exists acc'. split; [|split; assumption].
        unfold bind, ret. exact Hrun.
      * destruct (IH (nameset_add name (fst acc), nameset_add name (snd acc)) st)
          as [acc' [Hrun [H1 H2]]].
        exists acc'. split; [unfold bind, ret; exact Hrun|].
        simpl in H1, H2.
        split; intros x; [rewrite H1 | rewrite H2];
          rewrite nameset_add_In; unfold changed_apps; simpl; intuition auto.
    + destruct (IH acc (set_objects (dict_del name (objects st))
                          (add_events [EvTermObject name] st)))
        as [acc' [Hrun [H1 H2]]].
      exists acc'. split; [|split; assumption].
      unfold term_object, emit. unfold_monad. simpl. exact Hrun.
Qed.

Lemma diff_added_loop (w : world) (old : config) :
  forall l init st,
    exists init' logs,
      foldM (diff_added w old) l init st
      = (Ok init', add_events (map EvLog logs) st) /\
      (forall x, In x init' <-> In x init \/ In x (added_apps old l)).
Proof.
  induction l as [|[name e] l IH]; intros init st.
  - exists init, []. simpl. unfold ret, add_events. simpl.
    rewrite app_nil_r. split; [now destruct st | intros x; tauto].
  - simpl. unfold diff_added at 1. unfold added_apps. simpl.
    destruct (dict_has name old) eqn:Hh; simpl.
    + destruct (IH init st) as [init' [logs [Hrun H1]]].
      exists init', logs. split; [unfold bind, ret; exact Hrun | assumption].
    + destruct (entry_has_class_and_module e); simpl.
      * destruct (IH (nameset_add name init) st) as [init' [logs [Hrun H1]]].
        exists init', logs. split; [unfold bind, ret; exact Hrun|].
        intros x. rewrite H1, nameset_add_In. unfold added_apps.
        intuition auto.
      * destruct (String.eqb name "global_modules").
        -- destruct (IH init st) as [init' [logs [Hrun H1]]].
           exists init', logs. split; [unfold bind, ret; exact Hrun | assumption].
        -- destruct (w_invalid_yaml_warnings w).
           ++ destruct (IH init (add_events [EvLog (LogMissingClassOrModule name)] st))
                as [init' [logs [Hrun H1]]].
              exists init', (LogMissingClassOrModule name :: logs).
              split; [|assumption].
              unfold warn, emit. unfold_monad. simpl. rewrite Hrun.
              f_equal. unfold add_events. simpl. now rewrite <- app_assoc.
           ++ destruct (IH init st) as [init' [logs [Hrun H1]]].
              exists init', logs.
              split; [unfold_monad; simpl; exact Hrun | assumption].
Qed.

Lemma add_threads_spec (w : world) (n : nat) (st : state) :
  exists k, add_threads w n st = (Ok tt, add_events (repeat EvAddThread k) st).
Proof.
  unfold add_threads.
  destruct (w_auto_pin w && Z.ltb (w_threads w) (Z.of_nat n)).
  - generalize (Z.to_nat (Z.of_nat n - w_threads w)). intros k. exists k.
    revert st. induction k as [|k IH]; intros st; simpl.
    + unfold ret, add_events. simpl. rewrite app_nil_r. now destruct st.
    + unfold emit. unfold_monad. simpl. rewrite IH.
      f_equal. unfold add_events. simpl. now rewrite <- app_assoc.
  - exists 0. unfold ret, add_events. simpl. rewrite app_nil_r. now destruct st.
Qed.

(** Nothing to read: the plan is empty. *)
Lemma check_config_unchanged (w : world) (st : state) :
  detects_change w st = false ->
  exists k,
    check_config w st
    = (Ok (Some (mk_plan [] [] (length (app_config st)))),
       add_events (repeat EvAddThread k) (after_scan w st)).
Proof.
  intros Hd. unfold detects_change in Hd.
  destruct (w_config_is_file w) eqn:Hf; [discriminate|].
  destruct (yaml_later w (app_config_file_modified st)
              ++ yaml_added w (app_config_files st)) eqn:Efiles; [|discriminate].
  destruct (yaml_deleted w (app_config_files st)) eqn:Edel; [|discriminate].
  destruct (add_threads_spec w (length (app_config st)) (after_scan w st))
    as [k Hk].
  exists k.
  unfold check_config, check_config_body, check_later_app_configs.
  rewrite Hf. unfold after_scan, new_watermark in *. rewrite Hf in *.
  unfold lf_deleted_get. unfold_monad. simpl.
  rewrite Efiles, Edel. simpl. rewrite Hk. reflexivity.
Qed.

(** The state after the scan differs from the state before it in the
    watermark and the file list only. *)
Lemma after_scan_spec (w : world) (st : state) :
  app_config (after_scan w st) = app_config st /\
  objects (after_scan w st) = objects st /\
  monitored_files (after_scan w st) = monitored_files st /\
  modules (after_scan w st) = modules st /\
  trace (after_scan w st) = trace st /\
  apps_initialized (after_scan w st) = apps_initialized st /\
  app_config_file_modified (after_scan w st) = new_watermark w st /\
  app_config_files (after_scan w st)
  = (if w_config_is_file w then app_config_files st
     else Some (map fst (w_yaml_files w))).
Proof.
  unfold after_scan. destruct (w_config_is_file w); simpl; repeat split.
Qed.

(** The configuration is read and the read raises, returns [None], or (with
    [apps.yaml] in the configuration directory) returns a configuration and
    [latest["deleted"]] raises [KeyError]: no plan, and the state is the
    state after the scan with one warning logged. *)
Lemma check_config_no_plan (w : world) (st : state) :
  detects_change w st = true ->
  match w_read_config w with
  | ReadConfig _ => w_config_is_file w = true
  | _ => True
  end ->
  check_config w st
  = (Ok None,
     add_events
       [EvLog (match w_read_config w with
               | ReadNone => LogConfigNotApplied
               | _ => LogUnexpectedError
               end)]
       (after_scan w st)).
Proof.
  intros Hd Hr. unfold detects_change in Hd.
  unfold check_config, check_config_body, check_later_app_configs.
  unfold after_scan, new_watermark, read_config, lf_deleted_get in *.
  destruct (w_config_is_file w) eqn:Hf.
  - unfold_monad. simpl. destruct (w_read_config w); reflexivity.
  - unfold_monad. simpl.
    destruct (yaml_later w (app_config_file_modified st)
                ++ yaml_added w (app_config_files st)) eqn:Efiles.
    + destruct (yaml_deleted w (app_config_files st)) eqn:Edel; [discriminate|].
      simpl. destruct (w_read_config w); try reflexivity. discriminate.
    + simpl. destruct (w_read_config w); try reflexivity. discriminate.
Qed.

(** The configuration is read and applied. *)
Lemma check_config_applied (w : world) (st : state) (new_config : config) :
  w_config_is_file w = false ->
  detects_change w st = true ->
  w_read_config w = ReadConfig new_config ->
  exists p logs k,
    check_config w st
    = (Ok (Some p),
       add_events (repeat EvAddThread k)
         (set_app_config new_config
            (add_events (map EvLog logs)
               (terminate_all (removed_apps new_config (app_config st))
                  (after_scan w st))))) /\
    p_total p = length new_config /\
    (forall x, In x (p_term p) <-> In x (changed_apps new_config (app_config st))) /\
    (forall x, In x (p_init p) <->
               In x (changed_apps new_config (app_config st)) \/
               In x (added_apps (app_config st) new_config)).
Proof.
  intros Hf Hd Hr. unfold detects_change in Hd. rewrite Hf in Hd.
  destruct (diff_existing_loop new_config (app_config st) ([], []) (after_scan w st))
    as [acc [Hacc [Hterm Hinit]]].
  destruct (terminate_all_spec (removed_apps new_config (app_config st))
              (after_scan w st)) as [Hc _].
  destruct (after_scan_spec w st) as [Hc0 _].
  destruct (diff_added_loop w (app_config st) new_config (snd acc)
              (terminate_all (removed_apps new_config (app_config st))
                 (after_scan w st))) as [init [logs [Hadd Hinit2]]].
  destruct (add_threads_spec w (length new_config)
              (set_app_config new_config
                 (add_events (map EvLog logs)
                    (terminate_all (removed_apps new_config (app_config st))
                       (after_scan w st))))) as [k Hk].
  exists (mk_plan init (fst acc) (length new_config)), logs, k.
  split; [|split; [reflexivity|split]].
  - unfold check_config, check_config_body, check_later_app_configs.
    unfold after_scan, new_watermark, read_config, lf_deleted_get in *.
    rewrite Hf in *. rewrite Hr. unfold_monad. simpl.
    destruct (yaml_later w (app_config_file_modified st)
                ++ yaml_added w (app_config_files st)) eqn:Efiles.
    + destruct (yaml_deleted w (app_config_files st)) eqn:Edel; [discriminate|].
      simpl. simpl in Hacc. rewrite Hacc.
      rewrite Hc. simpl. rewrite Hadd. rewrite Hk. reflexivity.
    + simpl. simpl in Hacc. rewrite Hacc.
      rewrite Hc. simpl. rewrite Hadd. rewrite Hk. reflexivity.
  - simpl. intros x. rewrite Hterm. simpl. tauto.
  - simpl. intros x. rewrite Hinit2, Hinit. simpl. tauto.
Qed.

(** ** C4: a failed read of the configuration *)

(** C4 (as amended).  When [check_config] reads the configuration and the
    read raises, it logs the error and returns no plan; the stored
    configuration and the registry are as before, and no app was
    terminated.  The watermark and the list of configuration files are
    those of the scan: they were stored before the read. *)
Theorem config_read_failure_keeps_config (w : world) (st : state) :
  detects_change w st = true ->
  w_read_config w = ReadRaises ->
  fst (check_config w st) = Ok None /\
  app_config (snd (check_config w st)) = app_config st /\
  objects (snd (check_config w st)) = objects st /\
  monitored_files (snd (check_config w st)) = monitored_files st /\
  trace (snd (check_config w st)) = trace st ++ [EvLog LogUnexpectedError] /\
  app_config_file_modified (snd (check_config w st)) = new_watermark w st /\
  app_config_files (snd (check_config w st))
  = (if w_config_is_file w then app_config_files st
     else Some (map fst (w_yaml_files w))).
Proof.
  intros Hd Hr.
  rewrite (check_config_no_plan w st Hd) by (now rewrite Hr).
  rewrite Hr.
  cbn [fst snd add_events app_config objects monitored_files trace
       app_config_file_modified app_config_files].
  destruct (after_scan_spec w st) as [H1 [H2 [H3 [H4 [H5 [H6 [H7 H8]]]]]]].
  rewrite H1, H2, H3, H5, H7, H8. repeat split.
Qed.

(** C4 (counterexample).  The read raises and no plan is returned, but the
    watermark moved from 5 to 9. *)
Lemma read_failure_advances_watermark :
  w_read_config world_chain_broken = ReadRaises /\
  fst (check_config world_chain_broken state_chain) = Ok None /\
  app_config_file_modified state_chain = 5%Z /\
  app_config_file_modified (snd (check_config world_chain_broken state_chain))
  = 9%Z /\
  app_config_file_modified (snd (check_config world_chain_broken state_chain))
  <> app_config_file_modified state_chain.
Proof.
  vm_compute. repeat split; try reflexivity. discriminate.
Qed.

Lemma config_read_failure_keeps_config_witness :
  fst (check_config world_chain_broken state_chain) = Ok None /\
  app_config (snd (check_config world_chain_broken state_chain))
  = app_config state_chain /\
  objects (snd (check_config world_chain_broken state_chain))
  = objects state_chain /\
  monitored_files (snd (check_config world_chain_broken state_chain))
  = monitored_files state_chain /\
  trace (snd (check_config world_chain_broken state_chain))
  = trace state_chain ++ [EvLog LogUnexpectedError] /\
  app_config_file_modified (snd (check_config world_chain_broken state_chain))
  = new_watermark world_chain_broken state_chain /\
  app_config_files (snd (check_config world_chain_broken state_chain))
  = (if w_config_is_file world_chain_broken then app_config_files state_chain
     else Some (map fst (w_yaml_files world_chain_broken))).
Proof.
  apply (config_read_failure_keeps_config world_chain_broken state_chain).
  - vm_compute. reflexivity.
  - reflexivity.
Defined.

(** ** C7: an app removed from the configuration *)

Lemma dict_get_del {V : Type} (k k' : string) (d : dict V) :
  dict_get k (dict_del k' d)
  = if String.eqb k k' then None else dict_get k d.
Proof.
  unfold dict_del.
  rewrite (dict_get_filter (fun x => negb (String.eqb x k')) k d).
  now destruct (String.eqb k k').
Qed.

Lemma dict_get_del_all {V : Type} (k : string) (names : list string) :
  forall d : dict V,
    dict_get k (fold_left (fun o a => dict_del a o) names d)
    = if mem k names then None else dict_get k d.
Proof.
  induction names as [|a names IH]; intros d; simpl; [reflexivity|].
  rewrite IH, dict_get_del. fold (mem k names).
  destruct (String.eqb k a); simpl; now destruct (mem k names).
Qed.

Lemma term_events_app (a b : list event) :
  term_events (a ++ b) = term_events a ++ term_events b.
Proof. apply filter_app. Qed.

Lemma term_events_term (l : list string) :
  term_events (map EvTermObject l) = map EvTermObject l.
Proof. induction l; simpl; congruence. Qed.

Lemma term_events_logs (l : list log_msg) : term_events (map EvLog l) = [].
Proof. induction l; simpl; auto. Qed.

Lemma term_events_threads (k : nat) : term_events (repeat EvAddThread k) = [].
Proof. induction k; simpl; auto. Qed.

Lemma removed_apps_In (new_config old : config) (x : string) :
  In x (removed_apps new_config old)
  <-> In x (dict_keys old) /\ dict_get x new_config = None.
Proof.
  unfold removed_apps, dict_keys. rewrite !in_map_iff. split.
  - intros [[k e] [<- Hin]]. apply filter_In in Hin. destruct Hin as [Hin Hh].
    simpl in *. split; [exists (k, e); now split|].
    unfold dict_has in Hh. now destruct (dict_get k new_config).
  - intros [[[k e] [<- Hin]] Hn]. exists (k, e). split; [reflexivity|].
    apply filter_In. split; [assumption|]. simpl in *.
    unfold dict_has. now rewrite Hn.
Qed.

Lemma changed_apps_In (new_config old : config) (x : string) :
  In x (changed_apps new_config old)
  <-> exists e n, In (x, e) old /\ dict_get x new_config = Some n /\
                  entry_eqb e n = false.
Proof.
  unfold changed_apps. rewrite in_map_iff. split.
  - intros [[k e] [<- Hin]]. apply filter_In in Hin. destruct Hin as [Hin Hh].
    simpl in *. destruct (dict_get k new_config) as [n|] eqn:Hn; [|discriminate].
    exists e, n. repeat split; try assumption. now apply negb_true_iff.
  - intros [e [n [Hin [Hn He]]]]. exists (x, e). split; [reflexivity|].
    apply filter_In. split; [assumption|]. simpl. rewrite Hn, He. reflexivity.
Qed.

Lemma added_apps_In (old new_config : config) (x : string) :
  In x (added_apps old new_config) ->
  In x (dict_keys new_config) /\ dict_has x old = false.
Proof.
  unfold added_apps, dict_keys. rewrite !in_map_iff.
  intros [[k e] [<- Hin]]. apply filter_In in Hin. destruct Hin as [Hin Hh].
  simpl in *. apply andb_true_iff in Hh. destruct Hh as [Hh _].
  split; [exists (k, e); now split | now apply negb_true_iff].
Qed.

(** C7.  [check_config] applies a new configuration in which app [a] is
    gone while app [b], unchanged, still lists [a] as a dependency.  The
    removed apps are terminated inside [check_config], in the order of the
    old configuration and without a place in the plan: [a] is terminated
    and leaves the registry, [b] is not terminated, keeps its registry
    entry, and is in neither set of the plan. *)
Theorem deleted_app_terminated_immediately (w : world) (st : state)
  (new_config : config) (a b : string) (e_b e_b' : entry) :
  w_config_is_file w = false ->
  detects_change w st = true ->
  w_read_config w = ReadConfig new_config ->
  NoDup (dict_keys (app_config st)) ->
  In a (dict_keys (app_config st)) ->
  dict_get a new_config = None ->
  dict_get b (app_config st) = Some e_b ->
  dict_get b new_config = Some e_b' ->
  entry_eqb e_b e_b' = true ->
  In a (entry_dependencies e_b') ->
  exists p st' evs,
    check_config w st = (Ok (Some p), st') /\
    app_config st' = new_config /\
    trace st' = trace st ++ evs /\
    term_events evs
    = map EvTermObject (removed_apps new_config (app_config st)) /\
    In (EvTermObject a) evs /\
    ~ In (EvTermObject b) evs /\
    dict_get a (objects st') = None /\
    dict_get b (objects st') = dict_get b (objects st) /\
    ~ In a (p_term p) /\ ~ In a (p_init p) /\
    ~ In b (p_term p) /\ ~ In b (p_init p).
Proof.
  intros Hf Hd Hr Hnd Ha Hna Hb Hb' Heq _.
  destruct (check_config_applied w st new_config Hf Hd Hr)
    as [p [logs [k [Hrun [_ [Hterm Hinit]]]]]].
  set (removed := removed_apps new_config (app_config st)) in *.
  destruct (terminate_all_spec removed (after_scan w st))
    as [_ [_ [_ [_ [_ [Htr Hobj]]]]]].
  destruct (after_scan_spec w st) as [_ [Hobj0 [_ [_ [Htr0 _]]]]].
  assert (Har : In a removed) by (apply removed_apps_In; now split).
  assert (Hbr : ~ In b removed).
  { intros Hc. apply removed_apps_In in Hc. destruct Hc as [_ Hc]. congruence. }
  assert (Hac : ~ In a (changed_apps new_config (app_config st))).
  { intros Hc. apply changed_apps_In in Hc.
    destruct Hc as [e [n [_ [Hn _]]]]. congruence. }
  assert (Hbc : ~ In b (changed_apps new_config (app_config st))).
  { intros Hc. apply changed_apps_In in Hc.
    destruct Hc as [e [n [Hin [Hn He]]]].
    rewrite (dict_In_get _ _ _ Hnd Hin) in Hb. congruence. }
  assert (Haa : ~ In a (added_apps (app_config st) new_config)).
  { intros Hc. apply added_apps_In in Hc. destruct Hc as [Hc _].
    apply dict_get_None in Hna. contradiction. }
  assert (Hba : ~ In b (added_apps (app_config st) new_config)).
  { intros Hc. apply added_apps_In in Hc. destruct Hc as [_ Hc].
    unfold dict_has in Hc. now rewrite Hb in Hc. }
  eexists p, _, (map EvTermObject removed ++ map EvLog logs
                   ++ repeat EvAddThread k).
  split; [exact Hrun|]. simpl.
  split; [reflexivity|].
  split; [rewrite Htr, Htr0; now rewrite <- !app_assoc|].
  split.
  { rewrite !term_events_app, term_events_term, term_events_logs,
      term_events_threads. now rewrite !app_nil_r. }
  split; [apply in_or_app; left; now apply in_map|].
  split.
  { intros Hc. apply in_app_or in Hc. destruct Hc as [Hc|Hc].
    - apply in_map_iff in Hc. destruct Hc as [x [Hx Hin]].
      inversion Hx; subst. contradiction.
    - apply in_app_or in Hc. destruct Hc as [Hc|Hc].
      + apply in_map_iff in Hc. destruct Hc as [x [Hx _]]. discriminate.
      + apply repeat_spec in Hc. discriminate. }
  rewrite Hobj, Hobj0, !dict_get_del_all.
  apply mem_In in Har. rewrite Har.
  apply mem_false in Hbr. rewrite Hbr.
  repeat split; try reflexivity.
  - now rewrite Hterm.
  - rewrite Hinit. tauto.
  - now rewrite Hterm.
  - rewrite Hinit. tauto.
Qed.

Lemma state_chain_config : app_config state_chain = cfg_chain.
Proof. vm_compute. reflexivity. Qed.

Lemma state_chain_nodup : NoDup (dict_keys (app_config state_chain)).
Proof.
  rewrite state_chain_config. simpl.
  repeat constructor; simpl; intuition discriminate.
Qed.

Lemma deleted_app_terminated_immediately_witness :
  exists p st' evs,
    check_config world_base_removed state_chain = (Ok (Some p), st') /\
    app_config st' = cfg_chain_without_base /\
    trace st' = trace state_chain ++ evs /\
    term_events evs
    = map EvTermObject
        (removed_apps cfg_chain_without_base (app_config state_chain)) /\
    In (EvTermObject "base") evs /\
    ~ In (EvTermObject "mid") evs /\
    dict_get "base" (objects st') = None /\
    dict_get "mid" (objects st') = dict_get "mid" (objects state_chain) /\
    ~ In "base" (p_term p) /\ ~ In "base" (p_init p) /\
    ~ In "mid" (p_term p) /\ ~ In "mid" (p_init p).
Proof.
  apply (deleted_app_terminated_immediately world_base_removed state_chain
           cfg_chain_without_base "base" "mid"
           (app_section "mid_mod" "Mid" (Some ["base"]))
           (app_section "mid_mod" "Mid" (Some ["base"]))).
  - reflexivity.
  - vm_compute. reflexivity.
  - reflexivity.
  - exact state_chain_nodup.
  - rewrite state_chain_config. simpl. tauto.
  - reflexivity.
  - rewrite state_chain_config. reflexivity.
  - reflexivity.
  - reflexivity.
  - simpl. tauto.
Defined.

(** The whole cycle after the removal: [base] is terminated and nothing
    else happens to any app. *)
Example base_removed_cycle :
  let res := check_app_updates prio_lt_float world_base_removed None false
               state_chain in
  fst res = Ok (Some (mk_plan [] [] 2)) /\
  trace (snd res) = trace state_chain ++ [EvTermObject "base"] /\
  dict_keys (objects (snd res)) = ["mid"; "top"].
Proof. vm_compute. repeat split; reflexivity. Qed.

(** ** What the later phases leave alone *)

Ltac same_tac := first [ reflexivity | repeat split; reflexivity ].

Lemma run_prios_records l : run_rel (run_get_app_deps_and_prios l) same_records.
Proof.
  unfold_methods.
  rel_go same_records_refl same_records_trans ltac:(same_tac).
Qed.

Lemma module_apps_records apps mc : run_rel (module_apps apps mc) same_records.
Proof.
  unfold_methods.
  rel_go same_records_refl same_records_trans ltac:(same_tac).
Qed.

Lemma plugin_app_records pl apps item :
  run_rel (plugin_app pl apps item) same_records.
Proof.
  unfold_methods.
  rel_go same_records_refl same_records_trans ltac:(same_tac).
Qed.

Lemma load_module_records w apps mc : run_rel (load_module w apps mc) same_records.
Proof.
  unfold_methods.
  rel_go same_records_refl same_records_trans ltac:(same_tac).
Qed.

Lemma terminate_phase_records lt apps :
  run_rel (terminate_phase lt apps) same_records.
Proof.
  unfold terminate_phase.
  destruct apps as [p|]; [|apply (rel_ret _ same_records_refl)].
  destruct (p_term p); [apply (rel_ret _ same_records_refl)|].
  apply (rel_bind _ same_records_trans); [apply run_prios_records|intro].
  unfold_methods.
  rel_go same_records_refl same_records_trans ltac:(same_tac).
Qed.

Lemma init_phase_records lt w apps : run_rel (init_phase lt w apps) same_records.
Proof.
  unfold init_phase.
  destruct apps as [p|]; [|apply (rel_ret _ same_records_refl)].
  destruct (p_init p); [apply (rel_ret _ same_records_refl)|].
  apply (rel_bind _ same_records_trans); [apply run_prios_records|intro].
  unfold_methods.
  rel_go same_records_refl same_records_trans ltac:(same_tac).
Qed.

(** ** The module scan *)

(** A scan of files that are all seen finds no module and only logs the
    unreadable files. *)
Lemma scan_seen (w : world) :
  forall files acc st,
    files_seen w files (monitored_files st) ->
    exists logs,
      foldM (scan_file w) files acc st
      = (Ok acc, add_events (map EvLog logs) st).
Proof.
  induction files as [|[f mt] files IH]; intros acc st Hseen.
  - exists []. simpl. unfold ret, add_events. simpl. rewrite app_nil_r.
    now destruct st.
  - assert (Hseen' : forall s, monitored_files s = monitored_files st ->
                               files_seen w files (monitored_files s)).
    { intros s Hs g ts Hg Hn. rewrite Hs. apply Hseen; [now right | assumption]. }
    simpl. unfold scan_file at 1. simpl. fold (init_py w).
    destruct (String.eqb_spec f (init_py w)) as [->|Hne].
    + destruct (IH acc st (Hseen' st eq_refl)) as [logs Hrun].
      exists logs. unfold_monad. exact Hrun.
    + destruct mt as [ts|].
      * destruct (Hseen f ts (or_introl eq_refl) Hne) as [seen [Hg Hlt]].
        destruct (IH acc st (Hseen' st eq_refl)) as [logs Hrun].
        exists logs. unfold_monad. simpl. rewrite Hg, Hlt. exact Hrun.
      * destruct (IH acc (add_events [EvLog (LogUnableToRead f)] st)
                    (Hseen' _ eq_refl)) as [logs Hrun].
        exists (LogUnableToRead f :: logs).
        unfold warn, emit. unfold_monad. simpl. rewrite Hrun.
        f_equal. unfold add_events. simpl. now rewrite <- app_assoc.
Qed.

(** Any scan returns, leaves everything but [monitored_files] and the log
    alone, and makes every file it visited seen. *)
Lemma scan_establishes (w : world) :
  forall files acc st,
    exists acc' st',
      foldM (scan_file w) files acc st = (Ok acc', st') /\
      app_config st' = app_config st /\
      app_config_file_modified st' = app_config_file_modified st /\
      app_config_files st' = app_config_files st /\
      files_seen w files (monitored_files st') /\
      (forall f seen, dict_get f (monitored_files st) = Some seen ->
         exists seen', dict_get f (monitored_files st') = Some seen' /\
                       (seen <= seen')%Z).
Proof.
  induction files as [|[f mt] files IH]; intros acc st.
  - exists acc, st. simpl. repeat split.
    + intros g ts [].
    + intros g seen Hg. exists seen. split; [assumption | lia].
  - simpl. unfold scan_file at 1. simpl. fold (init_py w).
    (* the state and the list after the head file *)
    assert (Hhead : exists acc1 st1,
      (if String.eqb f (init_py w) then ret acc
       else match mt with
            | None => warn (LogUnableToRead f) ;;; ret acc
            | Some modified =>
                st0 <- get ;;
                match dict_get f (monitored_files st0) with
                | Some seen =>
                    if Z.ltb seen modified then
                      modify (fun st =>
                                set_monitored_files
                                  (dict_set f modified (monitored_files st)) st) ;;;
                      ret (acc ++ [mk_mod f true])
                    else ret acc
                | None =>
                    modify (fun st =>
                              set_monitored_files
                                (dict_set f modified (monitored_files st)) st) ;;;
                    ret (acc ++ [mk_mod f false])
                end
            end) st = (Ok acc1, st1) /\
      app_config st1 = app_config st /\
      app_config_file_modified st1 = app_config_file_modified st /\
      app_config_files st1 = app_config_files st /\
      (forall ts, mt = Some ts -> f <> init_py w ->
         exists seen, dict_get f (monitored_files st1) = Some seen /\
                      Z.ltb seen ts = false) /\
      (forall g seen, dict_get g (monitored_files st) = Some seen ->
         exists seen', dict_get g (monitored_files st1) = Some seen' /\
                       (seen <= seen')%Z)).
    { destruct (String.eqb_spec f (init_py w)) as [->|Hne].
      - exists acc, st. unfold ret. repeat split.
        + intros ts _ Hc. congruence.
        + intros g seen Hg. exists seen. split; [assumption | lia].
      - destruct mt as [ts|].
        + unfold_monad. simpl.
          destruct (dict_get f (monitored_files st)) as [seen|] eqn:Hg.
          * destruct (Z.ltb seen ts) eqn:Hlt.
            -- eexists _, _. split; [reflexivity|]. simpl. repeat split.
               ++ intros ts' Hts _. inversion Hts; subst ts'.
                  exists ts. rewrite dict_get_set, String.eqb_refl.
                  split; [reflexivity | apply Z.ltb_irrefl].
               ++ intros g s Hs. rewrite dict_get_set.
                  destruct (String.eqb_spec f g) as [->|Hfg].
                  ** rewrite Hg in Hs. inversion Hs; subst s.
                     exists ts. split; [reflexivity|].
                     apply Z.ltb_lt in Hlt. lia.
                  ** exists s. split; [assumption | lia].
            -- exists acc, st. split; [reflexivity|]. repeat split.
               ++ intros ts' Hts _. inversion Hts; subst ts'.
                  exists seen. now split.
               ++ intros g s Hs. exists s. split; [assumption | lia].
          * eexists _, _. split; [reflexivity|]. simpl. repeat split.
            -- intros ts' Hts _. inversion Hts; subst ts'.
               exists ts. rewrite dict_get_set, String.eqb_refl.
               split; [reflexivity | apply Z.ltb_irrefl].
            -- intros g s Hs. rewrite dict_get_set.
               destruct (String.eqb_spec f g) as [->|Hfg]; [congruence|].
               exists s. split; [assumption | lia].
        + unfold warn, emit. unfold_monad. simpl.
          eexists _, _. split; [reflexivity|]. simpl. repeat split.
          * intros ts Hc. discriminate.
          * intros g s Hs. exists s. split; [assumption | lia]. }
    destruct Hhead as [acc1 [st1 [Hrun1 [Hc1 [Hw1 [Hf1 [Hseen1 Hmono1]]]]]]].
    destruct (IH acc1 st1) as [acc' [st' [Hrun [Hc [Hw [Hf [Hseen Hmono]]]]]]].
    exists acc', st'. split.
    + unfold bind at 1. rewrite Hrun1. exact Hrun.
    + split; [congruence|]. split; [congruence|]. split; [congruence|].
      split.
      * intros g ts [Heq|Hin] Hn.
        -- inversion Heq; subst g mt.
           destruct (Hseen1 ts eq_refl Hn) as [s1 [Hg1 Hlt1]].
           destruct (Hmono f s1 Hg1) as [s2 [Hg2 Hle]].
           exists s2. split; [assumption|].
           apply Z.ltb_ge. apply Z.ltb_ge in Hlt1. lia.
        -- now apply Hseen.
      * intros g s Hs. destruct (Hmono1 g s Hs) as [s1 [Hg1 Hle1]].
        destruct (Hmono g s1 Hg1) as [s2 [Hg2 Hle2]].
        exists s2. split; [assumption | lia].
Qed.

(** Reduces the projections of an updated state, and nothing else. *)
Ltac proj_simpl :=
  cbn [fst snd add_events set_app_config set_objects set_monitored_files
       set_modules set_apps_initialized set_app_config_files
       set_app_config_file_modified
       app_config objects monitored_files trace modules apps_initialized
       app_config_file_modified app_config_files].

(** Whatever [check_config] does, it stores the watermark and the file
    list of the scan and leaves [monitored_files] alone. *)
Lemma check_config_records (w : world) (st : state) :
  app_config_file_modified (snd (check_config w st)) = new_watermark w st /\
  app_config_files (snd (check_config w st))
  = (if w_config_is_file w then app_config_files st
     else Some (map fst (w_yaml_files w))) /\
  monitored_files (snd (check_config w st)) = monitored_files st.
Proof.
  destruct (after_scan_spec w st) as [_ [_ [H3 [_ [_ [_ [H7 H8]]]]]]].
  destruct (detects_change w st) eqn:Hd.
  - assert (Hcases :
      match w_read_config w with
      | ReadConfig _ => w_config_is_file w = true
      | _ => True
      end \/
      exists c, w_read_config w = ReadConfig c /\ w_config_is_file w = false).
    { destruct (w_read_config w) as [| |c]; auto.
      destruct (w_config_is_file w); [now left | right; now exists c]. }
    destruct Hcases as [Hr|[c [Hr Hf]]].
    + rewrite (check_config_no_plan w st Hd Hr). proj_simpl.
      now rewrite H3, H7, H8.
    + destruct (check_config_applied w st c Hf Hd Hr) as [p [logs [k [Hrun _]]]].
      rewrite Hrun. proj_simpl.
      destruct (terminate_all_spec (removed_apps c (app_config st))
                  (after_scan w st)) as [_ [T2 [T3 [T4 _]]]].
      now rewrite T2, T3, T4, H3, H7, H8.
  - destruct (check_config_unchanged w st Hd) as [k Hrun].
    rewrite Hrun. proj_simpl. now rewrite H3, H7, H8.
Qed.

(** *** The deleted modules *)

Lemma plan_add_term_loop_state (l : list string) :
  forall apps st,
    snd (foldM (fun apps app => plan_add_term app apps) l apps st) = st.
Proof.
  induction l as [|a l IH]; intros apps st; simpl; [reflexivity|].
  unfold bind. destruct apps as [p|]; simpl; [apply IH | reflexivity].
Qed.

Lemma delete_module_state (apps : option plan) (f : string) (st : state) :
  snd (delete_module apps f st)
  = set_monitored_files (dict_del f (monitored_files st)) st.
Proof.
  unfold delete_module. unfold_monad. simpl.
  destruct (apps_per_module (app_config st) (get_module_from_path f))
    as [l|x]; simpl; [|reflexivity].
  pose proof (plan_add_term_loop_state l apps
                (set_monitored_files (dict_del f (monitored_files st)) st)) as H.
  destruct (foldM (fun apps0 app => plan_add_term app apps0) l apps
              (set_monitored_files (dict_del f (monitored_files st)) st))
    as [r s]. simpl in H. subst s. now destruct r.
Qed.

(** A delete loop that returns has removed every file of its list from
    [monitored_files] and touched nothing else. *)
Lemma delete_loop_state :
  forall l apps st apps' st',
    foldM delete_module l apps st = (Ok apps', st') ->
    monitored_files st'
    = fold_left (fun m f => dict_del f m) l (monitored_files st) /\
    app_config st' = app_config st /\
    app_config_file_modified st' = app_config_file_modified st /\
    app_config_files st' = app_config_files st /\
    objects st' = objects st /\
    trace st' = trace st.
Proof.
  induction l as [|f l IH]; intros apps st apps' st' Hrun; simpl in Hrun.
  - inversion Hrun; subst. repeat split.
  - unfold bind in Hrun at 1.
    pose proof (delete_module_state apps f st) as Hst.
    destruct (delete_module apps f st) as [[apps1|x] st1]; [|discriminate].
    simpl in Hst. subst st1.
    destruct (IH _ _ _ _ Hrun) as [H1 [H2 [H3 [H4 [H5 H6]]]]].
    simpl in *. repeat split; assumption.
Qed.

Lemma filter_nil {A : Type} (f : A -> bool) (l : list A) :
  (forall x, In x l -> f x = false) -> filter f l = [].
Proof.
  induction l as [|a l IH]; intros H; simpl; [reflexivity|].
  rewrite (H a (or_introl eq_refl)). apply IH. intros x Hx. apply H. now right.
Qed.

Lemma deleted_modules_none (w : world) (monitored : dict Z) :
  none_deleted w monitored -> deleted_modules w monitored = [].
Proof.
  intros H. unfold deleted_modules. apply filter_nil.
  intros f Hf. rewrite orb_false_r. apply negb_false_iff, mem_In. now apply H.
Qed.

Lemma deleted_modules_removed (w : world) (monitored : dict Z) :
  none_deleted w
    (fold_left (fun m f => dict_del f m) (deleted_modules w monitored) monitored).
Proof.
  intros f Hf.
  destruct (dict_get_Some_In _ _ Hf) as [v Hv].
  rewrite dict_get_del_all in Hv.
  destruct (mem f (deleted_modules w monitored)) eqn:Em; [discriminate|].
  apply mem_false in Em.
  destruct (in_dec string_dec f (map fst (w_py_files w))) as [Hin|Hnin];
    [assumption|].
  exfalso. apply Em. unfold deleted_modules. apply filter_In. split.
  - destruct (in_dec string_dec f (dict_keys monitored)) as [H|H]; [assumption|].
    apply dict_get_None in H. congruence.
  - rewrite orb_false_r. apply negb_true_iff, mem_false. assumption.
Qed.

Lemma deleted_modules_keep_seen (w : world) (monitored : dict Z) :
  files_seen w (w_py_files w) monitored ->
  files_seen w (w_py_files w)
    (fold_left (fun m f => dict_del f m) (deleted_modules w monitored) monitored).
Proof.
  intros Hseen f ts Hin Hne.
  destruct (Hseen f ts Hin Hne) as [seen [Hg Hlt]].
  exists seen. split; [|assumption].
  rewrite dict_get_del_all.
  destruct (mem f (deleted_modules w monitored)) eqn:Em; [|assumption].
  exfalso. apply mem_In in Em. unfold deleted_modules in Em.
  apply filter_In in Em. destruct Em as [_ Em].
  rewrite orb_false_r in Em. apply negb_true_iff, mem_false in Em.
  apply Em. change f with (fst (f, Some ts)). now apply in_map.
Qed.

(** *** The configuration files after a scan *)

Lemma yaml_latest_ge (files : list (string * Z)) :
  forall t, (t <= fold_left (fun l f => if Z.ltb l (snd f) then snd f else l)
                            files t)%Z /\
            forall f, In f files ->
              (snd f <= fold_left (fun l f => if Z.ltb l (snd f) then snd f else l)
                                  files t)%Z.
Proof.
  induction files as [|g files IH]; intros t; simpl.
  - split; [lia | intros f []].
  - destruct (IH (if Z.ltb t (snd g) then snd g else t)) as [H1 H2].
    assert (Hm : (t <= (if Z.ltb t (snd g) then snd g else t))%Z /\
                 (snd g <= (if Z.ltb t (snd g) then snd g else t))%Z).
    { destruct (Z.ltb t (snd g)) eqn:E;
        [apply Z.ltb_lt in E | apply Z.ltb_ge in E]; lia. }
    split; [lia|].
    intros f [<-|Hf]; [lia | now apply H2].
Qed.

(** Once the watermark and the file list of a scan are stored, the same
    files are neither later, nor added, nor deleted. *)
Lemma scan_records_settled (w : world) (st st' : state) :
  w_config_is_file w = false ->
  app_config_file_modified st' = new_watermark w st ->
  app_config_files st' = Some (map fst (w_yaml_files w)) ->
  detects_change w st' = false.
Proof.
  intros Hf Hw Hl. unfold detects_change, new_watermark in *.
  rewrite Hf in *. rewrite Hw, Hl.
  assert (E1 : yaml_later w (yaml_latest w (app_config_file_modified st)) = []).
  { unfold yaml_later, yaml_latest.
    rewrite filter_nil; [reflexivity|].
    intros f Hin.
    destruct (yaml_latest_ge (w_yaml_files w) (app_config_file_modified st))
      as [_ H].
    apply Z.ltb_ge. now apply H. }
  assert (E2 : yaml_added w (Some (map fst (w_yaml_files w))) = []).
  { unfold yaml_added. apply filter_nil. intros f Hin.
    apply negb_false_iff, mem_In. assumption. }
  assert (E3 : yaml_deleted w (Some (map fst (w_yaml_files w))) = []).
  { unfold yaml_deleted. apply filter_nil. intros f Hin.
    apply negb_false_iff, mem_In. assumption. }
  now rewrite E1, E2, E3.
Qed.

(** ** A completed cycle leaves the records in sync *)

Lemma same_records_sync (w : world) (st st' : state) :
  same_records st st' -> in_sync w st -> in_sync w st'.
Proof.
  intros [H1 [H2 H3]] [S1 [S2 S3]]. unfold in_sync, detects_change in *.
  rewrite H1, H2, H3. repeat split; assumption.
Qed.

Lemma plan_phase_sync (w : world) (plugin : option string) (st st' : state)
  (planned : option plan * list module_change) :
  plan_phase w plugin false st = (Ok planned, st') -> in_sync w st'.
Proof.
  unfold plan_phase. intros Hrun.
  destruct (check_config_records w st) as [Hw [Hl Hm]].
  unfold bind in Hrun at 1.
  destruct (check_config w st) as [[apps|x] s1]; [|discriminate].
  simpl in Hw, Hl, Hm.
  destruct (scan_establishes w (w_py_files w) [] s1)
    as [mods [s2 [Hscan [_ [Hw2 [Hl2 [Hseen _]]]]]]].
  unfold bind in Hrun at 1. rewrite Hscan in Hrun.
  unfold bind in Hrun at 1. unfold get in Hrun at 1.
  fold (deleted_modules w (monitored_files s2)) in Hrun.
  unfold bind in Hrun at 1.
  destruct (foldM delete_module (deleted_modules w (monitored_files s2)) apps s2)
    as [[apps1|x] s3] eqn:Hdel; [|discriminate].
  destruct (delete_loop_state _ _ _ _ _ Hdel) as [Hm3 [_ [Hw3 [Hl3 _]]]].
  assert (Hsync3 : in_sync w s3).
  { split; [|split].
    - intros Hf. apply (scan_records_settled w st s3 Hf).
      + congruence.
      + rewrite Hl3, Hl2, Hl. now rewrite Hf.
    - rewrite Hm3. now apply deleted_modules_keep_seen.
    - rewrite Hm3. apply deleted_modules_removed. }
  pose proof (rel_foldM same_records same_records_refl same_records_trans
                module_apps mods
                (fun s x _ => module_apps_records s x) apps1 s3) as Hrel4.
  unfold bind in Hrun at 1.
  destruct (foldM module_apps mods apps1 s3) as [[apps2|x] s4]; [|discriminate].
  simpl in Hrel4.
  assert (Hsync4 : in_sync w s4) by (eapply same_records_sync; eassumption).
  destruct plugin as [pl|].
  - unfold bind in Hrun at 1. unfold bind in Hrun at 1. unfold get in Hrun at 1.
    pose proof (rel_foldM same_records same_records_refl same_records_trans
                  (plugin_app pl) (app_config s4)
                  (fun s x _ => plugin_app_records pl s x) apps2 s4) as Hrel5.
    destruct (foldM (plugin_app pl) (app_config s4) apps2 s4)
      as [[apps3|x] s5]; [|discriminate].
    simpl in Hrel5. unfold ret in Hrun. inversion Hrun; subst.
    eapply same_records_sync; eassumption.
  - unfold bind, ret in Hrun. inversion Hrun; subst. assumption.
Qed.

Lemma cycle_establishes_sync (prio_lt : prio -> prio -> bool) (w : world)
  (plugin : option string) (st st' : state) (r : option plan) :
  w_apps_enabled w = true ->
  check_app_updates prio_lt w plugin false st = (Ok r, st') ->
  in_sync w st'.
Proof.
  intros Hen Hrun. unfold check_app_updates in Hrun. rewrite Hen in Hrun.
  simpl in Hrun.
  unfold bind in Hrun at 1.
  destruct (plan_phase w plugin false st) as [[planned|x] s1] eqn:Hplan;
    [|discriminate].
  pose proof (plan_phase_sync _ _ _ _ _ Hplan) as Hs1.
  pose proof (terminate_phase_records prio_lt (fst planned) s1) as R2.
  unfold bind in Hrun at 1.
  destruct (terminate_phase prio_lt (fst planned) s1) as [[[]|x] s2];
    [|discriminate].
  simpl in R2.
  pose proof (rel_foldM same_records same_records_refl same_records_trans
                (load_module w) (snd planned)
                (fun s x _ => load_module_records w s x) (fst planned) s2) as R3.
  unfold bind in Hrun at 1.
  destruct (foldM (load_module w) (snd planned) (fst planned) s2)
    as [[apps|x] s3]; [|discriminate].
  simpl in R3.
  pose proof (init_phase_records prio_lt w apps s3) as R4.
  unfold bind in Hrun at 1.
  destruct (init_phase prio_lt w apps s3) as [[[]|x] s4]; [|discriminate].
  simpl in R4.
  unfold bind, modify, ret in Hrun. inversion Hrun; subst.
  apply (same_records_sync w s4); [repeat split|].
  eapply same_records_sync; [exact R4|].
  eapply same_records_sync; [exact R3|].
  eapply same_records_sync; [exact R2|]. assumption.
Qed.

(** ** A cycle on records that are in sync *)

Lemma lifecycle_events_app (a b : list event) :
  lifecycle_events (a ++ b) = lifecycle_events a ++ lifecycle_events b.
Proof. apply filter_app. Qed.

Lemma lifecycle_events_logs (l : list log_msg) :
  lifecycle_events (map EvLog l) = [].
Proof. induction l; simpl; auto. Qed.

Lemma lifecycle_events_threads (k : nat) :
  lifecycle_events (repeat EvAddThread k) = [].
Proof. induction k; simpl; auto. Qed.

(** On records in sync and without a plugin restart, a cycle detects
    nothing: the plan is empty (absent, with [apps.yaml] in the
    configuration directory, where [check_config] never returns one), no
    app is terminated, constructed or initialized, and the stored
    configuration and the registry are as before. *)
Lemma in_sync_cycle (prio_lt : prio -> prio -> bool) (w : world) (st : state) :
  w_apps_enabled w = true ->
  in_sync w st ->
  exists r st',
    check_app_updates prio_lt w None false st = (Ok r, st') /\
    plan_empty r /\
    r = (if w_config_is_file w then None
         else Some (mk_plan [] [] (length (app_config st)))) /\
    app_config st' = app_config st /\
    objects st' = objects st /\
    lifecycle_events (trace st') = lifecycle_events (trace st).
Proof.
  intros Hen [Hyaml [Hseen Hnodel]].
  assert (Hcfg : exists r evs,
    check_config w st = (Ok r, add_events evs (after_scan w st)) /\
    plan_empty r /\
    r = (if w_config_is_file w then None
         else Some (mk_plan [] [] (length (app_config st)))) /\
    lifecycle_events evs = []).
  { destruct (w_config_is_file w) eqn:Hf.
    - assert (Hd : detects_change w st = true)
        by (unfold detects_change; now rewrite Hf).
      assert (Hr : match w_read_config w with
                   | ReadConfig _ => w_config_is_file w = true
                   | _ => True
                   end) by (destruct (w_read_config w); auto).
      eexists None, _. split; [exact (check_config_no_plan w st Hd Hr)|].
      split; [exact I|]. split; reflexivity.
    - destruct (check_config_unchanged w st (Hyaml eq_refl)) as [k Hk].
      eexists _, _. split; [exact Hk|].
      split; [split; reflexivity|]. split; [reflexivity|].
      apply lifecycle_events_threads. }
  destruct Hcfg as [r [evs [Hcfg [Hempty [Hsome Hevs]]]]].
  destruct (after_scan_spec w st) as [A1 [A2 [A3 [_ [A5 _]]]]].
  set (s1 := add_events evs (after_scan w st)) in *.
  assert (Hm1 : monitored_files s1 = monitored_files st) by exact A3.
  destruct (scan_seen w (w_py_files w) [] s1) as [logs Hscan];
    [now rewrite Hm1|].
  set (s2 := add_events (map EvLog logs) s1) in *.
  assert (Hdel : deleted_modules w (monitored_files s2) = []).
  { apply deleted_modules_none. change (monitored_files s2) with (monitored_files s1).
    now rewrite Hm1. }
  exists r, (set_apps_initialized true s2).
  split.
  - unfold check_app_updates, plan_phase. rewrite Hen.
    change (negb true) with false. cbv iota.
    unfold bind at 1. unfold bind at 1. cbv beta. rewrite Hcfg.
    unfold bind at 1. rewrite Hscan.
    unfold bind at 1. unfold get at 1.
    fold (deleted_modules w (monitored_files s2)). rewrite Hdel.
    simpl foldM. unfold bind, ret, modify. simpl.
    destruct r as [p|]; simpl.
    + destruct Hempty as [Hi Ht]. rewrite Hi, Ht. reflexivity.
    + reflexivity.
  - split; [assumption|]. split; [assumption|].
    unfold s2, s1. proj_simpl. rewrite A1, A2, A5.
    split; [reflexivity|]. split; [reflexivity|].
    rewrite !lifecycle_events_app, Hevs, lifecycle_events_logs.
    now rewrite !app_nil_r.
Qed.

(** ** C8: cycles without changes *)

(** C8.  Once a cycle has run to its end, two more cycles over the same
    files (nothing modified, added or deleted, no plugin restart, no exit)
    both return with an empty plan: the watermark, the file list and the
    monitored files that the first cycle recorded make the next cycle detect
    nothing, and a cycle that detects nothing records the same again.  With
    the configuration in the apps directory the plan is the one with both
    sets empty (with [apps.yaml] in the configuration directory, or with
    apps switched off, there is no plan at all); neither cycle terminates,
    constructs or initializes an app or changes the stored configuration or
    the registry. *)
Theorem idle_cycles_plan_nothing (prio_lt : prio -> prio -> bool) (w : world)
  (plugin : option string) (st st0 : state) (r0 : option plan) :
  check_app_updates prio_lt w plugin false st = (Ok r0, st0) ->
  exists r1 st1 r2 st2,
    check_app_updates prio_lt w None false st0 = (Ok r1, st1) /\
    check_app_updates prio_lt w None false st1 = (Ok r2, st2) /\
    plan_empty r1 /\ plan_empty r2 /\
    r1 = (if w_apps_enabled w && negb (w_config_is_file w)
          then Some (mk_plan [] [] (length (app_config st0))) else None) /\
    r2 = r1 /\
    lifecycle_events (trace st1) = lifecycle_events (trace st0) /\
    lifecycle_events (trace st2) = lifecycle_events (trace st0) /\
    app_config st2 = app_config st0 /\
    objects st2 = objects st0.
Proof.
  intros Hrun.
  destruct (w_apps_enabled w) eqn:Hen.
  - pose proof (cycle_establishes_sync _ _ _ _ _ _ Hen Hrun) as Hs0.
    destruct (in_sync_cycle prio_lt w st0 Hen Hs0)
      as [r1 [st1 [Hrun1 [He1 [Hp1 [Hc1 [Ho1 Hl1]]]]]]].
    pose proof (cycle_establishes_sync _ _ _ _ _ _ Hen Hrun1) as Hs1.
    destruct (in_sync_cycle prio_lt w st1 Hen Hs1)
      as [r2 [st2 [Hrun2 [He2 [Hp2 [Hc2 [Ho2 Hl2]]]]]]].
    exists r1, st1, r2, st2. repeat split; try assumption; try congruence.
    + rewrite Hp1. now destruct (w_config_is_file w).
    + rewrite Hp2, Hp1, Hc1. reflexivity.
  - assert (E : forall s, check_app_updates prio_lt w None false s = (Ok None, s)).
    { intros s. unfold check_app_updates. now rewrite Hen. }
    exists None, st0, None, st0. rewrite !E.
    repeat split; reflexivity.
Qed.

Lemma idle_cycles_plan_nothing_witness :
  exists r1 st1 r2 st2,
    check_app_updates prio_lt_float world_chain None false state_chain
    = (Ok r1, st1) /\
    check_app_updates prio_lt_float world_chain None false st1 = (Ok r2, st2) /\
    plan_empty r1 /\ plan_empty r2 /\
    r1 = (if w_apps_enabled world_chain && negb (w_config_is_file world_chain)
          then Some (mk_plan [] [] (length (app_config state_chain)))
          else None) /\
    r2 = r1 /\
    lifecycle_events (trace st1) = lifecycle_events (trace state_chain) /\
    lifecycle_events (trace st2) = lifecycle_events (trace state_chain) /\
    app_config st2 = app_config state_chain /\
    objects st2 = objects state_chain.
Proof.
  apply (idle_cycles_plan_nothing prio_lt_float world_chain None initial_state
           state_chain (Some (mk_plan ["top"; "base"; "mid"] [] 3))).
  vm_compute. reflexivity.
Defined.

(** ** C10: a missing plan and changed modules *)

Lemma apps_per_module_total (cfg : config) (module : string) :
  global_modules_keyed cfg -> exists l, apps_per_module cfg module = Ok l.
Proof.
  induction cfg as [|[k e] cfg IH]; intros Hwf; simpl.
  - now exists [].
  - destruct IH as [l Hl].
    { intros k' mods Hin. apply (Hwf k' mods). now right. }
    destruct (String.eqb_spec k "global_modules") as [->|Hne].
    + now exists l.
    + destruct e as [a|mods]; simpl.
      * rewrite Hl. eexists. reflexivity.
      * exfalso. apply Hne. apply (Hwf k mods). now left.
Qed.

(** Adding to a missing plan: nothing for an empty list, else the
    [TypeError]; the state is not touched. *)
Lemma plan_loop_none (f : option plan -> string -> M (option plan))
  (l : list string) (st : state) :
  (forall app s, f None app s = (Raise TypeError_none_subscript, s)) ->
  foldM f l None st
  = (if nonempty l then Raise TypeError_none_subscript else Ok None, st).
Proof.
  intros Hf. destruct l as [|a l]; simpl; [reflexivity|].
  unfold bind. now rewrite Hf.
Qed.

Lemma plan_add_term_none (app : string) (s : state) :
  plan_add_term app None s = (Raise TypeError_none_subscript, s).
Proof. reflexivity. Qed.

Lemma plan_reload_none (reload : bool) (app : string) (s : state) :
  plan_reload reload None app s = (Raise TypeError_none_subscript, s).
Proof. unfold plan_reload. destruct reload; reflexivity. Qed.

Lemma delete_loop_none (cfg : config) :
  global_modules_keyed cfg ->
  forall l st,
    app_config st = cfg ->
    exists st',
      foldM delete_module l None st
      = (if existsb (file_has_apps cfg) l
         then Raise TypeError_none_subscript else Ok None, st') /\
      app_config st' = cfg.
Proof.
  intros Hwf. induction l as [|f l IH]; intros st Hc.
  - exists st. split; [reflexivity | assumption].
  - simpl. unfold delete_module at 1. unfold_monad. simpl. rewrite Hc.
    unfold file_has_apps at 1.
    destruct (apps_per_module_total cfg (get_module_from_path f) Hwf) as [apps Ha].
    rewrite Ha. simpl.
    rewrite (plan_loop_none _ apps _ plan_add_term_none).
    destruct (nonempty apps); simpl.
    + eexists. split; [reflexivity | exact Hc].
    + apply IH. exact Hc.
Qed.

Lemma global_loop_none (cfg : config) (reload : bool) (name : string) :
  forall gml st,
    foldM
      (fun apps gm =>
         if String.eqb gm name
         then foldM (plan_reload reload) (apps_per_global_module cfg gm) apps
         else ret apps) gml None st
    = (if mem name gml && nonempty (apps_per_global_module cfg name)
       then Raise TypeError_none_subscript else Ok None, st).
Proof.
  induction gml as [|gm gml IH]; intros st; simpl; [reflexivity|].
  rewrite (String.eqb_sym name gm).
  destruct (String.eqb_spec gm name) as [->|Hne]; simpl.
  - unfold bind.
    rewrite (plan_loop_none _ _ _ (plan_reload_none reload)).
    destruct (nonempty (apps_per_global_module cfg name)) eqn:En; simpl.
    + reflexivity.
    + rewrite IH. now rewrite andb_false_r.
  - unfold bind, ret. rewrite IH. reflexivity.
Qed.

Lemma module_loop_none (cfg : config) :
  global_modules_keyed cfg ->
  forall mods st,
    app_config st = cfg ->
    foldM module_apps mods None st
    = (if existsb (module_has_apps cfg) mods
       then Raise TypeError_none_subscript else Ok None, st).
Proof.
  intros Hwf. induction mods as [|mc mods IH]; intros st Hc; simpl.
  - reflexivity.
  - unfold module_apps at 1. unfold bind at 1. unfold bind at 1.
    unfold get at 1. rewrite Hc. unfold module_has_apps at 1, file_has_apps.
    destruct (apps_per_module_total cfg (get_module_from_path (m_name mc)) Hwf)
      as [apps Ha].
    rewrite Ha. unfold lift, ret, bind at 1. unfold bind at 1.
    rewrite (plan_loop_none _ apps _ (plan_reload_none (m_reload mc))).
    destruct (nonempty apps); simpl; [reflexivity|].
    rewrite global_loop_none.
    destruct (mem (get_module_from_path (m_name mc)) (global_modules_list cfg)
              && nonempty (apps_per_global_module cfg
                             (get_module_from_path (m_name mc)))); simpl.
    + reflexivity.
    + now apply IH.
Qed.

Lemma check_config_none_inv (w : world) (st : state) :
  fst (check_config w st) = Ok None ->
  app_config (snd (check_config w st)) = app_config st.
Proof.
  intros Hn.
  destruct (after_scan_spec w st) as [A1 _].
  destruct (detects_change w st) eqn:Hd.
  - assert (Hcases :
      match w_read_config w with
      | ReadConfig _ => w_config_is_file w = true
      | _ => True
      end \/
      exists c, w_read_config w = ReadConfig c /\ w_config_is_file w = false).
    { destruct (w_read_config w) as [| |c]; auto.
      destruct (w_config_is_file w); [now left | right; now exists c]. }
    destruct Hcases as [Hr|[c [Hr Hf]]].
    + rewrite (check_config_no_plan w st Hd Hr). proj_simpl. assumption.
    + destruct (check_config_applied w st c Hf Hd Hr) as [p [logs [k [Hrun _]]]].
      rewrite Hrun in Hn. discriminate.
  - destruct (check_config_unchanged w st Hd) as [k Hrun].
    rewrite Hrun in Hn. discriminate.
Qed.

Lemma plugin_loop_none (pl : string) :
  forall cfg st,
    foldM (plugin_app pl) cfg None st
    = (if existsb (plugin_reloads pl) cfg
       then Raise TypeError_none_subscript else Ok None, st).
Proof.
  induction cfg as [|item cfg IH]; intros st; simpl; [reflexivity|].
  unfold plugin_app at 1, plugin_reloads at 1.
  destruct (String.eqb (fst item) "global_modules"); simpl.
  - unfold bind, ret. apply IH.
  - destruct (match entry_plugin (snd item) with
              | Some l => plugin_matches pl l
              | None => true
              end); simpl.
    + reflexivity.
    + unfold bind, ret. apply IH.
Qed.

(** C10 (as amended).  [check_config] returned no plan.  If a module that
    was deleted, added or modified in the cycle is the module of a
    configured app (or a global module that an app depends on), or if the
    cycle is a plugin restart that reloads a section, [check_app_updates]
    raises the [TypeError] of subscripting [None] and the cycle ends there;
    otherwise the plan steps pass with the plan still missing. *)
Theorem none_plan_type_error (prio_lt : prio -> prio -> bool) (w : world)
  (plugin : option string) (ex : bool) (st s2 : state)
  (mods : list module_change) :
  w_apps_enabled w = true ->
  fst (check_config w st) = Ok None ->
  global_modules_keyed (app_config st) ->
  foldM (scan_file w) (w_py_files w) [] (snd (check_config w st)) = (Ok mods, s2) ->
  if touches_app (app_config st)
       (filter (fun file => negb (mem file (map fst (w_py_files w))) || ex)
               (dict_keys (monitored_files s2))) mods
     || plugin_touches_app (app_config st) plugin
  then fst (check_app_updates prio_lt w plugin ex st)
       = Raise TypeError_none_subscript
  else fst (plan_phase w plugin ex st) = Ok (None, mods).
Proof.
  intros Hen Hnone Hwf Hscan.
  pose proof (check_config_none_inv w st Hnone) as Hc1.
  destruct (check_config w st) as [r1 s1] eqn:Hcfg. simpl in Hnone, Hc1, Hscan.
  subst r1.
  destruct (scan_establishes w (w_py_files w) [] s1)
    as [mods' [s2' [Hscan' [Hc2 _]]]].
  rewrite Hscan in Hscan'. inversion Hscan'; subst mods' s2'. clear Hscan'.
  set (deleted := filter (fun file => negb (mem file (map fst (w_py_files w))) || ex)
                         (dict_keys (monitored_files s2))).
  destruct (delete_loop_none (app_config st) Hwf deleted s2)
    as [s3 [Hdel Hc3]]; [congruence|].
  pose proof (module_loop_none (app_config st) Hwf mods s3 Hc3) as Hmod.
  assert (Hplan :
    plan_phase w plugin ex st
    = (if touches_app (app_config st) deleted mods
          || plugin_touches_app (app_config st) plugin
       then Raise TypeError_none_subscript
       else Ok (None, mods), s3)).
  { unfold plan_phase, touches_app.
    unfold bind at 1. rewrite Hcfg.
    unfold bind at 1. rewrite Hscan.
    unfold bind at 1. unfold get at 1.
    fold deleted. unfold bind at 1. rewrite Hdel.
    destruct (existsb (file_has_apps (app_config st)) deleted); [reflexivity|].
    unfold bind at 1. rewrite Hmod.
    destruct (existsb (module_has_apps (app_config st)) mods); [reflexivity|].
    destruct plugin as [pl|]; [|reflexivity].
    unfold bind at 1. unfold bind at 1. unfold get at 1.
    rewrite plugin_loop_none, Hc3. simpl.
    destruct (existsb (plugin_reloads pl) (app_config st)); reflexivity. }
  fold deleted.
  destruct (touches_app (app_config st) deleted mods
            || plugin_touches_app (app_config st) plugin) eqn:Ht.
  - unfold check_app_updates. rewrite Hen. change (negb true) with false.
    cbv iota. unfold bind at 1. rewrite Hplan. reflexivity.
  - rewrite Hplan. reflexivity.
Qed.

Lemma cfg_chain_keyed : global_modules_keyed (app_config state_chain).
Proof.
  rewrite state_chain_config. intros k mods Hin. simpl in Hin.
  repeat (destruct Hin as [Hin|Hin]; [discriminate|]). destruct Hin.
Qed.

Lemma none_plan_type_error_witness :
  if touches_app (app_config state_chain)
       (filter
          (fun file =>
             negb (mem file (map fst (w_py_files world_broken_and_module)))
             || false)
          (dict_keys
             (monitored_files
                (snd (foldM (scan_file world_broken_and_module)
                        (w_py_files world_broken_and_module) []
                        (snd (check_config world_broken_and_module
                                state_chain)))))))
       [mk_mod "/conf/apps/top_mod.py" true]
     || plugin_touches_app (app_config state_chain) None
  then fst (check_app_updates prio_lt_float world_broken_and_module None false
              state_chain)
       = Raise TypeError_none_subscript
  else fst (plan_phase world_broken_and_module None false state_chain)
       = Ok (None, [mk_mod "/conf/apps/top_mod.py" true]).
Proof.
  apply (none_plan_type_error prio_lt_float world_broken_and_module None false
           state_chain
           (snd (foldM (scan_file world_broken_and_module)
                   (w_py_files world_broken_and_module) []
                   (snd (check_config world_broken_and_module state_chain))))
           [mk_mod "/conf/apps/top_mod.py" true]).
  - reflexivity.
  - vm_compute. reflexivity.
  - exact cfg_chain_keyed.
  - vm_compute. reflexivity.
Defined.

Example broken_and_module_touches :
  touches_app (app_config state_chain) [] [mk_mod "/conf/apps/top_mod.py" true]
  = true.
Proof. vm_compute. reflexivity. Qed.

Example broken_and_module_raises :
  fst (check_app_updates prio_lt_float world_broken_and_module None false
         state_chain)
  = Raise TypeError_none_subscript.
Proof. vm_compute. reflexivity. Qed.

(** A plugin restart after a failed read of the configuration, with no
    module changed: the first section that is reloaded subscripts the
    missing plan. *)
Example none_plan_plugin_restart :
  fst (check_config world_chain_broken state_chain) = Ok None /\
  fst (foldM (scan_file world_chain_broken) (w_py_files world_chain_broken) []
         (snd (check_config world_chain_broken state_chain)))
  = Ok [] /\
  plugin_touches_app (app_config state_chain) (Some "__ALL__") = true /\
  fst (check_app_updates prio_lt_float world_chain_broken (Some "__ALL__") false
         state_chain)
  = Raise TypeError_none_subscript.
Proof. vm_compute. repeat split; reflexivity. Qed.

(** C10 (counterexample).  [check_config] returns no plan and a module was
    added in the same cycle, yet the cycle runs to its end: the module is
    the module of no app, so [apps] is never subscripted. *)
Lemma none_plan_without_type_error :
  fst (check_config world_broken_and_helper state_chain) = Ok None /\
  fst (foldM (scan_file world_broken_and_helper)
         (w_py_files world_broken_and_helper) []
         (snd (check_config world_broken_and_helper state_chain)))
  = Ok [mk_mod "/conf/apps/helper.py" false] /\
  fst (check_app_updates prio_lt_float world_broken_and_helper None false
         state_chain)
  = Ok None.
Proof. vm_compute. repeat split; reflexivity. Qed.

(** ** C5: a module that fails to load *)

(** C5 (the code at the failing input).  The handler of the failed load
    subscripts the [global_modules] list with ["module"]: the cycle ends
    with that [TypeError] right after "Removing associated apps:", no app
    was removed from the initialize set, the other modules were not
    loaded, and no app, related or not, was constructed or initialized. *)
Theorem load_failure_with_global_modules :
  fst (check_app_updates prio_lt_float world_hello_fails None false initial_state)
  = Raise TypeError_list_index /\
  trace (snd (check_app_updates prio_lt_float world_hello_fails None false
                initial_state))
  = [EvImport "hello_mod" false;
     EvLog (LogErrorLoadingModule "/conf/apps/hello_mod.py");
     EvLog LogRemovingAssociated] /\
  objects (snd (check_app_updates prio_lt_float world_hello_fails None false
                  initial_state)) = [] /\
  fst (plan_phase world_hello_fails None false initial_state)
  = Ok (Some (mk_plan ["hello"; "other"] [] 3),
        [mk_mod "/conf/apps/hello_mod.py" false;
         mk_mod "/conf/apps/other_mod.py" false;
         mk_mod "/conf/apps/shared.py" false]) /\
  apps_per_module cfg_with_global "hello_mod" = Ok ["hello"].
Proof. vm_compute. repeat split; reflexivity. Qed.

Lemma nameset_del_In (x y : string) (s : nameset) :
  In y (nameset_del x s) <-> In y s /\ y <> x.
Proof.
  unfold nameset_del. rewrite filter_In, negb_true_iff.
  destruct (String.eqb_spec y x); split; intros [H1 H2]; split;
    congruence || assumption.
Qed.

Lemma remove_failed_step (module k : string) (a : app_def) (p : plan)
  (st : state) :
  remove_failed module (Some p) (k, App a) st
  = if String.eqb (ad_module a) module && mem k (p_init p)
    then (Ok (Some (mk_plan (nameset_del k (p_init p)) (p_term p) (p_total p))),
          add_events [EvLog (LogRemovedApp k)] st)
    else (Ok (Some p), st).
Proof.
  unfold remove_failed, warn, emit, lift. unfold_monad. simpl.
  destruct (String.eqb (ad_module a) module); [|reflexivity].
  destruct (p_init p) as [|i0 irest]; [reflexivity|].
  simpl. destruct (String.eqb k i0 || mem k irest); reflexivity.
Qed.

Lemma remove_failed_loop (module : string) :
  forall l p st,
    only_app_sections l ->
    exists p' logs,
      foldM (remove_failed module) l (Some p) st
      = (Ok (Some p'), add_events (map EvLog logs) st) /\
      p_term p' = p_term p /\
      (forall app, In app (p_init p') <->
                   In app (p_init p) /\ ~ In app (apps_with_module l module)) /\
      (forall app, In (LogRemovedApp app) logs <->
                   In app (p_init p) /\ In app (apps_with_module l module)).
Proof.
  induction l as [|[k e] l IH]; intros p st Hall.
  - exists p, []. simpl. unfold ret, add_events. simpl. rewrite app_nil_r.
    split; [now destruct st|]. split; [reflexivity|].
    split; intros app; simpl; tauto.
  - destruct (Hall k e (or_introl eq_refl)) as [a ->].
    assert (Hall' : only_app_sections l)
      by (intros k' e' Hin; apply (Hall k' e'); now right).
    simpl foldM. unfold bind at 1. rewrite remove_failed_step.
    unfold apps_with_module in *. cbn [filter snd].
    destruct (String.eqb (ad_module a) module) eqn:Em; cbn [andb].
    + destruct (mem k (p_init p)) eqn:Hk.
      * destruct (IH (mk_plan (nameset_del k (p_init p)) (p_term p) (p_total p))
                    (add_events [EvLog (LogRemovedApp k)] st) Hall')
          as [p' [logs [Hrun [Ht [Hi Hl]]]]].
        exists p', (LogRemovedApp k :: logs). split.
        { rewrite Hrun. f_equal. unfold add_events. simpl.
          now rewrite <- app_assoc. }
        split; [assumption|]. simpl in Hi, Hl. apply mem_In in Hk.
        split; intros app.
        -- rewrite Hi, nameset_del_In. simpl. intuition auto.
        -- simpl. rewrite Hl, nameset_del_In. split.
           ++ intros [H|[[H1 H2] H3]].
              ** inversion H; subst. split; [assumption | now left].
              ** split; [assumption | now right].
           ++ intros [H1 [H2|H2]].
              ** left. now subst.
              ** destruct (String.eqb_spec app k) as [->|Hne];
                   [now left | right; auto].
      * destruct (IH p st Hall') as [p' [logs [Hrun [Ht [Hi Hl]]]]].
        exists p', logs. split; [exact Hrun|]. split; [assumption|].
        apply mem_false in Hk. split; intros app.
        -- rewrite Hi. simpl. split.
           ++ intros [H1 H2]. split; [assumption|].
              intros [H|H]; [subst; contradiction | contradiction].
           ++ intros [H1 H2]. split; [assumption|]. tauto.
        -- rewrite Hl. simpl. split.
           ++ intros [H1 H2]. auto.
           ++ intros [H1 [H2|H2]]; [subst; contradiction | auto].
    + destruct (IH p st Hall') as [p' [logs [Hrun [Ht [Hi Hl]]]]].
      exists p', logs. split; [exact Hrun|]. split; [assumption|].
      split; assumption.
Qed.

Lemma read_app_config (w : world) (file : string) (reload : bool) :
  run_rel (read_app w file reload) same_config.
Proof.
  unfold_methods.
  rel_go same_config_refl same_config_trans ltac:(reflexivity).
Qed.

Lemma load_failure_removes_apps (w : world) (p : plan) (mc : module_change)
  (st s1 : state) (x : exn) :
  only_app_sections (app_config st) ->
  read_app w (m_name mc) (m_reload mc) st = (Raise x, s1) ->
  exists p' st',
    load_module w (Some p) mc st = (Ok (Some p'), st') /\
    p_term p' = p_term p /\
    (forall app, In app (p_init p') <->
       In app (p_init p) /\
       ~ In app (apps_with_module (app_config st)
                   (get_module_from_path (m_name mc)))) /\
    (forall app,
       In app (p_init p) ->
       In app (apps_with_module (app_config st)
                 (get_module_from_path (m_name mc))) ->
       In (EvLog (LogRemovedApp app)) (trace st')).
Proof.
  intros Hall Hread.
  pose proof (read_app_config w (m_name mc) (m_reload mc) st) as Hc.
  rewrite Hread in Hc. simpl in Hc. unfold same_config in Hc.
  set (s2 := add_events [EvLog LogRemovingAssociated]
               (add_events [EvLog (LogErrorLoadingModule (m_name mc))] s1)).
  destruct (remove_failed_loop (get_module_from_path (m_name mc))
              (app_config st) p s2 Hall) as [p' [logs [Hrun [Ht [Hi Hl]]]]].
  exists p', (add_events (map EvLog logs) s2).
  split.
  - unfold load_module, try_except. unfold bind at 1. rewrite Hread.
    unfold warn, emit. unfold_monad. cbn [fst snd]. fold s2.
    change (app_config s2) with (app_config s1).
    rewrite Hc. exact Hrun.
  - split; [assumption|]. split; [assumption|].
    intros app H1 H2. simpl. apply in_or_app. right.
    apply in_map. apply Hl. now split.
Qed.

(** ** The terminate phase, and C9 at the level of the phases *)

Lemma terminate_loop_spec (l : list string) :
  forall st,
    forM (fun app =>
            try_except (term_object app)
                       (fun _ => warn (LogAppError "terminating" app))) l st
    = (Ok tt, terminate_all l st).
Proof.
  induction l as [|a l IH]; intros st; simpl; [reflexivity|].
  unfold bind at 1. unfold try_except, term_object, emit. unfold_monad.
  cbn [fst snd]. rewrite IH. reflexivity.
Qed.

(** The terminate phase on a non-empty set calls [term_object] on the apps
    of the priority map, in descending priority order. *)
Lemma terminate_phase_spec (prio_lt : prio -> prio -> bool) (p : plan)
  (st : state) :
  p_term p <> [] ->
  exists prio_apps st',
    snd (get_app_deps_and_prios (app_config st) (p_term p)) = Ok prio_apps /\
    terminate_phase prio_lt (Some p) st = (Ok tt, st') /\
    app_config st' = app_config st /\
    term_events (trace st')
    = term_events (trace st)
        ++ map EvTermObject (sorted_keys_reverse prio_lt prio_apps).
Proof.
  intros Hne. unfold terminate_phase.
  destruct (p_term p) as [|a0 rest] eqn:Ep; [congruence|]. clear Hne.
  destruct (run_prios_spec (a0 :: rest) st) as [m [Hm Hrun]].
  exists m. eexists. split; [assumption|]. split.
  - rewrite (bind_ok _ _ _ _ _ Hrun). apply terminate_loop_spec.
  - destruct (terminate_all_spec (sorted_keys_reverse prio_lt m)
                (add_events
                   (map EvLog
                      (fst (get_app_deps_and_prios (app_config st) (a0 :: rest))))
                   st)) as [H1 [_ [_ [_ [_ [H6 _]]]]]].
    split; [exact H1|]. rewrite H6. proj_simpl.
    rewrite !term_events_app, term_events_logs, term_events_term.
    now rewrite app_nil_r.
Qed.

Lemma init_events_In (e : event) (tr : list event) :
  In e (init_events tr) -> In e tr.
Proof. unfold init_events. intros H. now apply filter_In in H. Qed.

Lemma term_events_In (e : event) (tr : list event) :
  In e (term_events tr) -> In e tr.
Proof. unfold term_events. intros H. now apply filter_In in H. Qed.

(** C9.  [get_app_deps_and_prios] returns normally, and the [deplist] it
    builds holds the input set and every app whose chain of declared
    dependencies reaches an app of the input set.  Such an app [y] is
    therefore in the returned map with the priority it was assigned (it is
    absent only if it was assigned none).  Consequently, when [y] has a
    priority, the terminate phase on that set calls [term_object] on [y],
    and the initialize phase on that set constructs and initializes [y]
    (unless [y] is disabled). *)
Theorem dependents_follow_changed_app (prio_lt : prio -> prio -> bool)
  (w : world) (cfg : config) (applist : list string) (x y : string) :
  In x applist ->
  clos_trans string (declares cfg) y x ->
  exists deplist prio_apps,
    build_deplist cfg applist [] = Some deplist /\
    incl applist deplist /\
    In y deplist /\
    prio_apps_of cfg = Ok prio_apps /\
    snd (get_app_deps_and_prios cfg applist)
    = Ok (restrict_to deplist prio_apps) /\
    dict_get y (restrict_to deplist prio_apps) = dict_get y prio_apps /\
    (forall p st,
       dict_get y prio_apps <> None ->
       app_config st = cfg ->
       (p_term p = applist ->
        In (EvTermObject y)
           (trace (snd (terminate_phase prio_lt (Some p) st)))) /\
       (p_init p = applist -> app_enabled cfg y = true ->
        In (EvInitObject y) (trace (snd (init_phase prio_lt w (Some p) st))) /\
        In (EvInitializeApp y)
           (trace (snd (init_phase prio_lt w (Some p) st))))).
Proof.
  intros Hx Hreach.
  destruct (dependents_are_included cfg applist x y Hx Hreach)
    as [deplist [m [H1 [H2 [H3 [H4 [H5 H6]]]]]]].
  exists deplist, m.
  split; [assumption|]. split; [assumption|]. split; [assumption|].
  split; [assumption|]. split; [assumption|]. split; [assumption|].
  intros p st Hprio Hcfg.
  assert (Hne : applist <> []) by (destruct applist; [destruct Hx | discriminate]).
  assert (Hkey : In y (dict_keys (restrict_to deplist m))).
  { destruct (in_dec string_dec y (dict_keys (restrict_to deplist m)))
      as [Hin|Hnin]; [assumption|].
    apply dict_get_None in Hnin. congruence. }
  split.
  - intros Hterm. rewrite <- Hterm in Hne.
    destruct (terminate_phase_spec prio_lt p st Hne)
      as [m' [st' [Hm' [Hrun [_ Htr]]]]].
    rewrite Hrun. simpl. apply term_events_In. rewrite Htr.
    apply in_or_app. right. apply in_map.
    rewrite Hcfg, Hterm, H5 in Hm'. inversion Hm'; subst m'.
    eapply Permutation_in; [apply Permutation_sym, sorted_keys_reverse_perm|].
    assumption.
  - intros Hinit Hen. rewrite <- Hinit in Hne.
    destruct (init_phase_spec prio_lt w p st Hne)
      as [m' [st' [Hm' [Hrun [_ Htr]]]]].
    rewrite Hrun. simpl.
    rewrite Hcfg, Hinit, H5 in Hm'. inversion Hm'; subst m'.
    assert (Hin : In y (filter (app_enabled (app_config st))
                          (sorted_keys prio_lt (restrict_to deplist m)))).
    { apply filter_In. rewrite Hcfg. split; [|assumption].
      eapply Permutation_in; [apply Permutation_sym, sorted_keys_perm|].
      assumption. }
    split; apply init_events_In; rewrite Htr; apply in_or_app; right;
      apply in_or_app.
    + left. now apply in_map.
    + right. apply in_or_app. right. now apply in_map.
Qed.

Lemma dependents_follow_changed_app_witness :
  exists deplist prio_apps,
    build_deplist cfg_chain ["base"] [] = Some deplist /\
    incl ["base"] deplist /\
    In "top" deplist /\
    prio_apps_of cfg_chain = Ok prio_apps /\
    snd (get_app_deps_and_prios cfg_chain ["base"])
    = Ok (restrict_to deplist prio_apps) /\
    dict_get "top" (restrict_to deplist prio_apps) = dict_get "top" prio_apps /\
    (forall p st,
       dict_get "top" prio_apps <> None ->
       app_config st = cfg_chain ->
       (p_term p = ["base"] ->
        In (EvTermObject "top")
           (trace (snd (terminate_phase prio_lt_float (Some p) st)))) /\
       (p_init p = ["base"] -> app_enabled cfg_chain "top" = true ->
        In (EvInitObject "top")
           (trace (snd (init_phase prio_lt_float world_chain (Some p) st))) /\
        In (EvInitializeApp "top")
           (trace (snd (init_phase prio_lt_float world_chain (Some p) st))))).
Proof.
  exact (dependents_follow_changed_app prio_lt_float world_chain cfg_chain
           ["base"] "base" "top" (or_introl eq_refl) cfg_chain_top_reaches_base).
Defined.

Example base_modified_cycle :
  let res := check_app_updates prio_lt_float world_base_modified None false
               state_chain in
  fst res = Ok (Some (mk_plan ["base"] ["base"] 3)) /\
  trace (snd res)
  = trace state_chain
      ++ [EvTermObject "top"; EvTermObject "mid"; EvTermObject "base";
          EvImport "base_mod" true;
          EvInitObject "base"; EvInitObject "mid"; EvInitObject "top";
          EvCalcPinThreads;
          EvInitializeApp "base"; EvInitializeApp "mid"; EvInitializeApp "top"].
Proof. vm_compute. split; reflexivity. Qed.

(* ===================================================================== *)
(** * Part IV.  Further properties of the methods                        *)
(* ===================================================================== *)

(** ** The sort on inputs in dependency order *)

Lemma sort_pass_ordered :
  forall todo s,
    dependency_ordered (ps_emitted s) todo = true ->
    sort_pass todo s
    = mk_pass (ps_emitted s ++ map fst todo) (ps_next_pending s)
              (ps_next_emitted s ++ map fst todo).
Proof.
  induction todo as [|[n ds] todo IH]; intros s H; simpl in *.
  - rewrite !app_nil_r. now destruct s.
  - apply andb_true_iff in H. destruct H as [Hds Hrest].
    assert (E : difference_update ds (ps_emitted s) = []).
    { unfold difference_update. apply filter_nil. intros d Hd.
      rewrite forallb_forall in Hds. now rewrite (Hds d Hd). }
    rewrite E. rewrite IH; simpl; [|assumption].
    now rewrite <- !app_assoc.
Qed.

(** X1. An input in which every entry comes after the entries it lists is
    yielded in its own order, in a single pass: the names emitted during a
    pass are subtracted at once. *)
Theorem topological_sort_keeps_dependency_order
  (source : list (string * list string)) :
  dependency_ordered [] source = true ->
  topological_sort source = (map fst source, SortDone).
Proof.
  intros H. unfold topological_sort.
  destruct source as [|p source]; [reflexivity|].
  cbn [length sort_loop].
  rewrite (sort_pass_ordered (p :: source) (mk_pass [] [] []) H).
  cbn [ps_emitted ps_next_pending ps_next_emitted app map].
  destruct source; reflexivity.
Qed.

Lemma topological_sort_keeps_dependency_order_witness :
  topological_sort [("base", []); ("mid", ["base"]); ("top", ["mid"; "base"])]
  = (["base"; "mid"; "top"], SortDone).
Proof.
  apply (topological_sort_keeps_dependency_order
           [("base", []); ("mid", ["base"]); ("top", ["mid"; "base"])]).
  reflexivity.
Defined.

(** ** An entry that lists a name that is no entry *)

(** A pass leaves an entry that still lists [d] pending, as long as [d] is
    not emitted. *)
Lemma sort_pass_keeps_missing (d : string) :
  forall todo s,
    ~ In d (ps_emitted s) ->
    ~ In d (map fst todo) ->
    ~ In d (ps_emitted (sort_pass todo s)) /\
    (forall n ds,
       (In (n, ds) todo \/ In (n, ds) (ps_next_pending s)) -> In d ds ->
       exists ds', In (n, ds') (ps_next_pending (sort_pass todo s)) /\ In d ds').
Proof.
  induction todo as [|[m ms] todo IH]; intros s He Hn.
  - simpl. split; [assumption|].
    intros n ds [[]|H] Hd. now exists ds.
  - simpl in Hn.
    assert (Hm : m <> d) by (intro; apply Hn; now left).
    assert (Ht : ~ In d (map fst todo)) by (intro; apply Hn; now right).
    cbn [sort_pass].
    destruct (difference_update ms (ps_emitted s)) as [|x xs] eqn:E.
    + destruct (IH (mk_pass (ps_emitted s ++ [m]) (ps_next_pending s)
                      (ps_next_emitted s ++ [m]))) as [I1 I2]; simpl.
      * intros H. apply in_app_or in H. destruct H as [H|[H|[]]]; auto.
      * assumption.
      * split; [exact I1|].
        intros n ds [[Heq|H]|H] Hd.
        -- inversion Heq; subst n ds.
           assert (Hin : In d (difference_update ms (ps_emitted s))).
           { apply difference_update_In. now split. }
           rewrite E in Hin. destruct Hin.
        -- apply (I2 n ds); [now left | assumption].
        -- apply (I2 n ds); [now right | assumption].
    + destruct (IH (mk_pass (ps_emitted s)
                      (ps_next_pending s ++ [(m, x :: xs)])
                      (ps_next_emitted s))) as [I1 I2]; simpl.
      * assumption.
      * assumption.
      * split; [exact I1|].
        intros n ds [[Heq|H]|H] Hd.
        -- inversion Heq; subst n ds.
           apply (I2 m (x :: xs)).
           ++ right. apply in_or_app. right. now left.
           ++ rewrite <- E. apply difference_update_In. now split.
        -- apply (I2 n ds); [now left | assumption].
        -- apply (I2 n ds); [|assumption].
           right. apply in_or_app. now left.
Qed.

Lemma sort_loop_missing (d : string) :
  forall fuel pending emitted yielded n ds,
    length pending <= fuel ->
    In (n, ds) pending -> In d ds ->
    ~ In d emitted -> ~ In d (map fst pending) ->
    exists order stuck ds',
      sort_loop fuel pending emitted yielded = (order, SortCyclic stuck) /\
      In (n, ds') stuck /\ In d ds'.
Proof.
  induction fuel as [|fuel IH]; intros pending emitted yielded n ds Hlen Hin Hd He Hn.
  - destruct pending; [destruct Hin | simpl in Hlen; lia].
  - destruct pending as [|p pending]; [destruct Hin|].
    cbn [sort_loop].
    set (s := sort_pass (p :: pending) (mk_pass emitted [] [])).
    destruct (sort_pass_keeps_missing d (p :: pending) (mk_pass emitted [] []) He Hn)
      as [He' Hkeep].
    destruct (Hkeep n ds (or_introl Hin) Hd) as [ds' [Hin' Hd']].
    fold s in He', Hin'.
    pose proof (sort_pass_count (p :: pending) (mk_pass emitted [] [])) as Hc.
    pose proof (sort_pass_names (p :: pending) (mk_pass emitted [] [])) as [Hne Hnp].
    fold s in Hc, Hne, Hnp. cbn [ps_next_pending ps_next_emitted length] in Hc.
    destruct (ps_next_emitted s) as [|e es] eqn:Ee.
    + exists yielded, (ps_next_pending s), ds'. repeat split; assumption.
    + apply (IH (ps_next_pending s) (e :: es) (yielded ++ e :: es) n ds').
      * cbn [length] in Hc. simpl in Hlen. lia.
      * assumption.
      * assumption.
      * intros H. apply Hn. apply Hne in H. exact H.
      * intros H. apply Hn. apply Hnp in H. exact H.
Qed.

(** X2. An entry that lists a name that is no entry of the input is never
    yielded: the generator ends with ValueError and the entry is among the
    pending entries it logs, still listing that name. *)
Theorem topological_sort_missing_name
  (source : list (string * list string)) (n d : string) (ds : list string) :
  NoDup (map fst source) ->
  In (n, ds) source -> In d ds -> ~ In d (map fst source) ->
  exists order stuck ds',
    topological_sort source = (order, SortCyclic stuck) /\
    In (n, ds') stuck /\ In d ds' /\ ~ In n order.
Proof.
  intros Hnd Hin Hd Hn.
  destruct (sort_loop_missing d (length source) source [] [] n ds
              (le_n _) Hin Hd (fun H => H) Hn)
    as [order [stuck [ds' [Hrun [Hs Hd']]]]].
  exists order, stuck, ds'. repeat split; try assumption.
  destruct (topological_sort_spec source Hnd order (SortCyclic stuck) Hrun)
    as [_ [_ [Hperm _]]].
  intros Ho.
  assert (Hnd' : NoDup (map fst stuck ++ order)).
  { eapply Permutation_NoDup; [apply Permutation_sym; exact Hperm | exact Hnd]. }
  apply (NoDup_app_disjoint _ _ n Hnd'); [|assumption].
  change n with (fst (n, ds')). now apply in_map.
Qed.

Lemma topological_sort_missing_name_witness :
  exists order stuck ds',
    topological_sort [("solo", []); ("orphan", ["ghost"])]
    = (order, SortCyclic stuck) /\
    In ("orphan", ds') stuck /\ In "ghost" ds' /\ ~ In "orphan" order.
Proof.
  apply (topological_sort_missing_name
           [("solo", []); ("orphan", ["ghost"])] "orphan" "ghost" ["ghost"]).
  - constructor; [simpl; intros [H|[]]; discriminate|].
    constructor; [intros []|constructor].
  - right. now left.
  - now left.
  - simpl. intros [H|[H|[]]]; discriminate.
Defined.

(** ** What [get_dependent_apps] adds to the list *)

Lemma NoDup_snoc {A : Type} (l : list A) (a : A) :
  NoDup l -> ~ In a l -> NoDup (l ++ [a]).
Proof.
  induction l as [|b l IH]; intros Hnd Hn; simpl.
  - constructor; [intros [] | constructor].
  - inversion Hnd as [|? ? Hb Hl]; subst. constructor.
    + intros H. apply in_app_or in H. destruct H as [H|[H|[]]]; [auto|].
      apply Hn. now left.
    + apply IH; [assumption|]. intros H. apply Hn. now right.
Qed.

Section DependentAppsSound.
Variable cfg : config.

Lemma extends_towards_refl (x : string) (deps : list string) :
  extends_towards cfg x deps deps.
Proof.
  exists []. rewrite app_nil_r. repeat split; auto. intros y [].
Qed.

Lemma extends_towards_trans (x : string) (d0 d1 d2 : list string) :
  extends_towards cfg x d0 d1 -> extends_towards cfg x d1 d2 -> extends_towards cfg x d0 d2.
Proof.
  intros [e1 [-> [H1 N1]]] [e2 [-> [H2 N2]]].
  exists (e1 ++ e2). rewrite app_assoc. repeat split; auto.
  intros y Hy. apply in_app_or in Hy. destruct Hy; auto.
Qed.

Lemma fold_fuel_extends {A : Type} (x : string)
  (f : list string -> A -> option (list string)) :
  forall l,
    (forall a deps deps', In a l -> f deps a = Some deps' ->
       extends_towards cfg x deps deps') ->
    forall deps deps',
      fold_fuel f l deps = Some deps' -> extends_towards cfg x deps deps'.
Proof.
  induction l as [|a l IH]; intros Hf deps deps' Hrun; simpl in Hrun.
  - inversion Hrun; subst. apply extends_towards_refl.
  - destruct (f deps a) as [d1|] eqn:E; [|discriminate].
    apply (extends_towards_trans x deps d1 deps').
    + apply (Hf a); [now left | assumption].
    + apply IH; [|assumption].
      intros b u v Hb. apply Hf. now right.
Qed.

Lemma get_dependent_apps_fuel_sound :
  forall fuel dependee deps deps',
    get_dependent_apps_fuel fuel cfg dependee deps = Some deps' ->
    extends_towards cfg dependee deps deps'.
Proof.
  induction fuel as [|fuel IH]; intros dependee deps deps' Hrun;
    [discriminate|].
  cbn [get_dependent_apps_fuel] in Hrun.
  revert deps deps' Hrun. apply fold_fuel_extends.
  intros [app e] deps deps' Hin Hrun.
  revert deps deps' Hrun. apply fold_fuel_extends.
  intros dep deps deps' Hdep Hrun.
  destruct (String.eqb dep dependee && negb (mem app deps)) eqn:Et.
  - apply andb_true_iff in Et. destruct Et as [Ed Em].
    apply String.eqb_eq in Ed. subst dep.
    apply negb_true_iff, mem_false in Em.
    assert (Hstep : clos_trans string (declares cfg) app dependee).
    { apply t_step. now exists e. }
    destruct (IH app (deps ++ [app]) deps' Hrun) as [ext [-> [Hreach Hnd]]].
    exists (app :: ext). rewrite <- app_assoc. repeat split.
    + intros y [<-|Hy]; [assumption|].
      eapply t_trans; [apply Hreach; exact Hy | exact Hstep].
    + intros Hn. rewrite <- app_assoc in Hnd. apply Hnd.
      apply NoDup_snoc; assumption.
  - inversion Hrun; subst. apply extends_towards_refl.
Qed.

End DependentAppsSound.

Lemma build_deplist_sound (cfg : config) :
  forall applist deplist final,
    build_deplist cfg applist deplist = Some final ->
    (NoDup deplist -> NoDup final) /\
    forall y, In y final ->
      In y deplist \/ In y applist \/
      exists x, In x applist /\ clos_trans string (declares cfg) y x.
Proof.
  induction applist as [|app rest IH]; intros deplist final Hrun;
    simpl in Hrun.
  - inversion Hrun; subst. split; auto.
  - set (d1 := if mem app deplist then deplist else deplist ++ [app]) in *.
    destruct (get_dependent_apps cfg app d1) as [d2|] eqn:E; [|discriminate].
    destruct (get_dependent_apps_fuel_sound cfg _ _ _ _ E)
      as [ext [-> [Hreach Hnd]]].
    destruct (IH _ _ Hrun) as [In1 In2].
    assert (Hd1 : NoDup deplist -> NoDup d1).
    { intros H. unfold d1. destruct (mem app deplist) eqn:Em; [assumption|].
      apply NoDup_snoc; [assumption | now apply mem_false]. }
    assert (Hin1 : forall y, In y d1 -> In y deplist \/ y = app).
    { intros y. unfold d1. destruct (mem app deplist); [now left|].
      intros H. apply in_app_or in H. destruct H as [H|[H|[]]]; auto. }
    split; [auto|].
    intros y Hy. destruct (In2 y Hy) as [H|[H|[x [Hx Hr]]]].
    + apply in_app_or in H. destruct H as [H|H].
      * destruct (Hin1 y H) as [H'| ->]; [now left|].
        right. left. now left.
      * right. right. exists app. split; [now left | now apply Hreach].
    + right. left. now right.
    + right. right. exists x. split; [now right | assumption].
Qed.

(** X3. [get_app_deps_and_prios] returns.  The list it builds from its
    input never repeats an app and holds every app of the input; the apps
    of the priority map it returns are apps of that list, and each of them
    is an app of the input or reaches one through declared dependencies:
    no other app is given a priority. *)
Theorem deplist_holds_only_dependents (cfg : config) (applist : list string) :
  exists deplist prio_apps,
    build_deplist cfg applist [] = Some deplist /\
    snd (get_app_deps_and_prios cfg applist) = Ok prio_apps /\
    NoDup deplist /\
    incl applist deplist /\
    incl (dict_keys prio_apps) deplist /\
    forall y, In y (dict_keys prio_apps) ->
      In y applist \/
      exists x, In x applist /\ clos_trans string (declares cfg) y x.
Proof.
  destruct (get_app_deps_and_prios_total cfg applist)
    as [deplist [m [Hrun [_ Hres]]]].
  destruct (build_deplist_spec cfg applist []) as [final [Hrun' [_ [Hincl _]]]];
    [intros x []|].
  rewrite Hrun in Hrun'. inversion Hrun'; subst final.
  destruct (build_deplist_sound cfg _ _ _ Hrun) as [Hnd Hin].
  assert (Hkeys : incl (dict_keys (restrict_to deplist m)) deplist).
  { intros y Hy. unfold dict_keys, restrict_to in Hy.
    apply in_map_iff in Hy. destruct Hy as [[k v] [<- Hy]].
    apply filter_In in Hy. destruct Hy as [_ Hy]. now apply mem_In. }
  exists deplist, (restrict_to deplist m).
  split; [assumption|]. split; [now rewrite Hres|].
  split; [apply Hnd; constructor|]. split; [assumption|].
  split; [assumption|].
  intros y Hy. destruct (Hin y (Hkeys y Hy)) as [[]|[H|H]]; auto.
Qed.

(** ** The counter of the assignment loop *)

Lemma assign_prios_others (cfg : config) :
  forall order k acc m,
    assign_prios cfg order k acc = Ok m ->
    forall x, ~ In x order -> dict_get x m = dict_get x acc.
Proof.
  induction order as [|app rest IH]; intros k acc m Hrun x Hx; simpl in Hrun.
  - now inversion Hrun.
  - destruct (dict_get app cfg) as [e|]; [|discriminate].
    assert (Hne : String.eqb app x = false).
    { apply String.eqb_neq. intros ->. apply Hx. now left. }
    assert (Hr : ~ In x rest) by (intro; apply Hx; now right).
    destruct (entry_has_dependencies e || app_has_dependents cfg app);
      rewrite (IH _ _ _ Hrun x Hr), dict_get_set, Hne; reflexivity.
Qed.

Lemma chain_count_app (cfg : config) (l1 l2 : list string) :
  chain_count cfg (l1 ++ l2) = chain_count cfg l1 + chain_count cfg l2.
Proof. unfold chain_count. now rewrite filter_app, length_app. Qed.

(** An app of a chain gets the counter value that counts the apps of chains
    yielded before it. *)
Lemma assign_prios_clustered (cfg : config) :
  forall order k acc m,
    assign_prios cfg order k acc = Ok m ->
    NoDup order ->
    forall l1 x l2 e,
      order = l1 ++ x :: l2 ->
      dict_get x cfg = Some e -> in_chain cfg x e = true ->
      dict_get x m = Some (PrioClustered (k + chain_count cfg l1)).
Proof.
  induction order as [|app rest IH]; intros k acc m Hrun Hnd l1 x l2 e Ho Hx Hc.
  - destruct l1; discriminate.
  - inversion Hnd as [|? ? Hnot Hnd']; subst.
    simpl in Hrun.
    destruct l1 as [|y l1]; simpl in Ho; inversion Ho; subst.
    + rewrite Hx in Hrun. unfold in_chain in Hc. rewrite Hc in Hrun.
      rewrite (assign_prios_others _ _ _ _ _ Hrun x Hnot).
      rewrite dict_get_set, String.eqb_refl.
      unfold chain_count. simpl. now rewrite Nat.add_0_r.
    + destruct (dict_get y cfg) as [ey|] eqn:Ey; [|discriminate].
      change (y :: l1) with ([y] ++ l1). rewrite chain_count_app.
      unfold chain_count at 1. cbn [filter]. rewrite Ey. unfold in_chain at 1.
      destruct (entry_has_dependencies ey || app_has_dependents cfg y).
      * rewrite (IH _ _ _ Hrun Hnd' l1 x l2 e eq_refl Hx Hc).
        cbn [length]. do 2 f_equal. lia.
      * rewrite (IH _ _ _ Hrun Hnd' l1 x l2 e eq_refl Hx Hc).
        cbn [length]. reflexivity.
Qed.

(** ** Declared dependencies and the input of the sort *)

Lemma declares_depends_on (cfg : config) (a b : string) :
  declares cfg a b -> In b (dict_keys cfg) ->
  depends_on (build_deps cfg) a b.
Proof.
  intros [e [Hin Hb]] Hk. exists (valid_dependees cfg e). split.
  - unfold build_deps. apply in_map_iff. now exists (a, e).
  - unfold valid_dependees. apply filter_In. split; [assumption|].
    now apply dict_has_In.
Qed.

Lemma declares_is_app (cfg : config) (a b : string) :
  declares cfg a b -> In a (dict_keys cfg).
Proof.
  intros [e [Hin _]]. change a with (fst (a, e)). now apply in_map.
Qed.

Lemma declares_chain_depends_on (cfg : config) (a b : string) :
  clos_trans string (declares cfg) a b -> In b (dict_keys cfg) ->
  clos_trans string (depends_on (build_deps cfg)) a b.
Proof.
  intros H. apply clos_trans_t1n_iff in H.
  induction H as [a b H|a y b H Hrest IH]; intros Hb.
  - apply t_step. now apply declares_depends_on.
  - eapply t_trans; [|apply IH; assumption].
    apply t_step. apply declares_depends_on; [assumption|].
    apply clos_trans_t1n_iff in Hrest.
    destruct (clos_trans_first _ _ _ Hrest) as [z Hz].
    eapply declares_is_app. exact Hz.
Qed.

Lemma clos_trans_last {A : Type} (R : relation A) (x y : A) :
  clos_trans A R x y -> exists z, R z y.
Proof.
  intros H. induction H as [x y H|x y z _ _ _ IH]; [now exists x | exact IH].
Qed.

Lemma pos_lt_In (x : string) (l1 r : list string) :
  pos x (l1 ++ r) < length l1 -> In x l1.
Proof.
  induction l1 as [|y l1 IH]; simpl; intros H; [lia|].
  destruct (String.eqb_spec y x) as [->|Hne]; [now left|].
  right. apply IH. lia.
Qed.

Lemma has_dependencies_declares (cfg : config) (a b : string) (e : entry) :
  NoDup (dict_keys cfg) -> dict_get a cfg = Some e -> declares cfg a b ->
  entry_has_dependencies e = true.
Proof.
  intros Hnd Hg [e' [Hin Hb]].
  rewrite (dict_In_get _ _ _ Hnd Hin) in Hg. inversion Hg; subst e'.
  destruct e as [ad|mods]; simpl in *; [|destruct Hb].
  destruct (ad_dependencies ad); [reflexivity | destruct Hb].
Qed.

Lemma has_dependents_declares (cfg : config) (a b : string) :
  declares cfg a b -> app_has_dependents cfg b = true.
Proof.
  intros [e [Hin Hb]]. unfold app_has_dependents.
  apply existsb_exists. exists (a, e). split; [assumption|].
  now apply mem_In.
Qed.

Lemma yielded_nodup (source : list (string * list string)) :
  NoDup (map fst source) -> NoDup (fst (topological_sort source)).
Proof.
  intros Hnd.
  destruct (topological_sort source) as [order e] eqn:Hrun.
  destruct (topological_sort_spec source Hnd order e Hrun) as [_ Hout].
  simpl. destruct e as [|stuck|]; simpl in Hout.
  - eapply Permutation_NoDup; [apply Permutation_sym; exact Hout | exact Hnd].
  - destruct Hout as [_ [Hperm _]].
    assert (H : NoDup (map fst stuck ++ order)).
    { eapply Permutation_NoDup; [apply Permutation_sym; exact Hperm | exact Hnd]. }
    apply NoDup_app_remove_l in H. exact H.
  - destruct Hout.
Qed.

(** The counter values of two apps of which one reaches the other. *)
Lemma clustered_along_dependencies (cfg : config) (m : dict prio)
  (a b : string) (pa pb : prio) :
  NoDup (dict_keys cfg) ->
  prio_apps_of cfg = Ok m ->
  clos_trans string (declares cfg) a b ->
  dict_get a m = Some pa -> dict_get b m = Some pb ->
  exists ka kb, pa = PrioClustered ka /\ pb = PrioClustered kb /\ kb < ka.
Proof.
  intros Hnd Hm Hab Ha Hb.
  assert (Hsrc : NoDup (map fst (build_deps cfg)))
    by (now rewrite build_deps_names).
  destruct (prio_apps_of_total cfg) as [m' [Hm' Hkeys]].
  rewrite Hm in Hm'. inversion Hm'; subst m'.
  pose proof (yielded_nodup _ Hsrc) as Hndo.
  destruct (topological_sort_total (build_deps cfg)) as [_ Hincl].
  rewrite build_deps_names in Hincl.
  destruct (topological_sort (build_deps cfg)) as [order e] eqn:Hrun.
  cbn [fst] in Hkeys, Hndo, Hincl.
  assert (Hin : forall x p, dict_get x m = Some p -> In x order).
  { intros x p Hx. apply Hkeys.
    apply dict_get_In in Hx. change x with (fst (x, p)). now apply in_map. }
  pose proof (Hin a pa Ha) as Hao. pose proof (Hin b pb Hb) as Hbo.
  destruct (topological_sort_spec _ Hsrc order e Hrun) as [Hok _].
  destruct (depends_on_pos _ _ Hok a b
              (declares_chain_depends_on cfg a b Hab (Hincl b Hbo)) Hao)
    as [_ Hpos].
  destruct (pos_split a order Hao) as [l1 [l2 [Ho Hl1]]].
  assert (Hb1 : In b l1).
  { apply (pos_lt_In b l1 (a :: l2)). rewrite <- Ho. lia. }
  apply in_split in Hb1. destruct Hb1 as [l0 [l0' Hl0]].
  destruct (dict_get_Some_In a cfg (Hincl a Hao)) as [ea Hea].
  destruct (dict_get_Some_In b cfg (Hincl b Hbo)) as [eb Heb].
  destruct (clos_trans_first _ _ _ Hab) as [z Hz].
  destruct (clos_trans_last _ _ _ Hab) as [y Hy].
  assert (Hca : in_chain cfg a ea = true).
  { unfold in_chain. rewrite (has_dependencies_declares cfg a z ea Hnd Hea Hz).
    reflexivity. }
  assert (Hcb : in_chain cfg b eb = true).
  { unfold in_chain. rewrite (has_dependents_declares cfg y b Hy).
    apply orb_true_r. }
  unfold prio_apps_of in Hm. rewrite Hrun in Hm. simpl in Hm.
  pose proof (assign_prios_clustered cfg order 0 [] m Hm Hndo
                l1 a l2 ea Ho Hea Hca) as Ka.
  assert (Ho' : order = l0 ++ b :: (l0' ++ a :: l2)).
  { rewrite Ho, Hl0. now rewrite <- app_assoc. }
  pose proof (assign_prios_clustered cfg order 0 [] m Hm Hndo
                l0 b _ eb Ho' Heb Hcb) as Kb.
  rewrite Ka in Ha. rewrite Kb in Hb. inversion Ha; inversion Hb; subst.
  eexists _, _. split; [reflexivity|]. split; [reflexivity|].
  change (b :: l0') with ([b] ++ l0'). rewrite !chain_count_app.
  unfold chain_count at 3. cbn [filter]. rewrite Heb, Hcb. cbn [length]. lia.
Qed.

(** X4. In the priority map [get_app_deps_and_prios] returns, two apps of
    which one reaches the other through declared dependencies both have a
    value of the running counter (not their configured priority), and the
    app that is depended on has the smaller one. *)
Theorem priorities_follow_dependencies (cfg : config) (applist : list string)
  (prio_apps : dict prio) (a b : string) (pa pb : prio) :
  NoDup (dict_keys cfg) ->
  snd (get_app_deps_and_prios cfg applist) = Ok prio_apps ->
  clos_trans string (declares cfg) a b ->
  dict_get a prio_apps = Some pa -> dict_get b prio_apps = Some pb ->
  exists ka kb, pa = PrioClustered ka /\ pb = PrioClustered kb /\ kb < ka.
Proof.
  intros Hnd Hres Hab Ha Hb.
  destruct (get_app_deps_and_prios_total cfg applist)
    as [deplist [m [_ [Hm Hrun]]]].
  rewrite Hrun in Hres. simpl in Hres. inversion Hres; subst prio_apps.
  rewrite dict_get_restrict_to in Ha, Hb.
  destruct (mem a deplist); [|discriminate].
  destruct (mem b deplist); [|discriminate].
  exact (clustered_along_dependencies cfg m a b pa pb Hnd Hm Hab Ha Hb).
Qed.

Lemma priorities_follow_dependencies_witness :
  exists ka kb,
    PrioClustered 2 = PrioClustered ka /\ PrioClustered 0 = PrioClustered kb /\
    kb < ka.
Proof.
  apply (priorities_follow_dependencies cfg_chain ["base"]
           [("base", PrioClustered 0); ("mid", PrioClustered 1);
            ("top", PrioClustered 2)]
           "top" "base" (PrioClustered 2) (PrioClustered 0)
           cfg_chain_nodup eq_refl cfg_chain_top_reaches_base eq_refl eq_refl).
Defined.

(** ** The order of [sorted] *)

Lemma before_cons {A : Type} (l : list A) (h x y : A) :
  before l x y -> before (h :: l) x y.
Proof.
  intros [l1 [l2 [l3 ->]]]. now exists (h :: l1), l2, l3.
Qed.

Lemma before_map {A B : Type} (f : A -> B) (l : list A) (x y : A) :
  before l x y -> before (map f l) (f x) (f y).
Proof.
  intros [l1 [l2 [l3 ->]]]. exists (map f l1), (map f l2), (map f l3).
  rewrite map_app. simpl. rewrite map_app. reflexivity.
Qed.

Lemma before_filter {A : Type} (f : A -> bool) (l : list A) (x y : A) :
  before l x y -> f x = true -> f y = true -> before (filter f l) x y.
Proof.
  intros [l1 [l2 [l3 ->]]] Hx Hy.
  exists (filter f l1), (filter f l2), (filter f l3).
  rewrite filter_app. simpl. rewrite Hx, filter_app. simpl. now rewrite Hy.
Qed.

Section InsertionSort.
Variable lt : prio -> prio -> bool.
Hypothesis lt_asym : forall x y, lt x y = true -> lt y x = false.
Hypothesis le_trans :
  forall x y z, lt y x = false -> lt z y = false -> lt z x = false.

Lemma insert_by_sorted (x : string * prio) (l : list (string * prio)) :
  StronglySorted (prio_le lt) l ->
  StronglySorted (prio_le lt) (insert_by lt x l).
Proof.
  induction l as [|y r IH]; intros Hs; simpl.
  - constructor; constructor.
  - inversion Hs as [|? ? Hr Hy]; subst.
    destruct (lt (snd y) (snd x)) eqn:E.
    + constructor; [now apply IH|].
      eapply Permutation_Forall;
        [apply Permutation_sym; apply insert_by_perm|].
      constructor; [|assumption]. unfold prio_le. now apply lt_asym.
    + constructor; [assumption|]. constructor; [exact E|].
      rewrite Forall_forall in Hy |- *. intros z Hz.
      unfold prio_le in *. apply (le_trans _ (snd y)); [assumption|].
      now apply Hy.
Qed.

Lemma sort_by_sorted (m : dict prio) :
  StronglySorted (prio_le lt) (fold_right (insert_by lt) [] m).
Proof.
  induction m as [|x m IH]; simpl; [constructor | now apply insert_by_sorted].
Qed.

Lemma sorted_before (s : list (string * prio)) (u v : string * prio) :
  StronglySorted (prio_le lt) s ->
  In u s -> In v s -> lt (snd u) (snd v) = true -> before s u v.
Proof.
  intros Hs Hu Hv Hlt.
  assert (Hirr : u <> v).
  { intros ->. pose proof (lt_asym _ _ Hlt). congruence. }
  induction Hs as [|h t Ht IH Hh]; [destruct Hu|].
  rewrite Forall_forall in Hh.
  destruct Hu as [->|Hu]; destruct Hv as [->|Hv].
  - congruence.
  - apply in_split in Hv. destruct Hv as [l2 [l3 ->]]. now exists [], l2, l3.
  - pose proof (Hh u Hu) as Hc. unfold prio_le in Hc. congruence.
  - apply before_cons. now apply IH.
Qed.

(** The key with the smaller priority comes first in the sorted keys. *)
Lemma sort_by_before (m : dict prio) (x y : string) (px py : prio) :
  dict_get x m = Some px -> dict_get y m = Some py -> lt px py = true ->
  before (map fst (fold_right (insert_by lt) [] m)) x y.
Proof.
  intros Hx Hy Hlt.
  apply (before_map fst _ (x, px) (y, py)).
  apply sorted_before; [apply sort_by_sorted | | | exact Hlt].
  - eapply Permutation_in; [apply Permutation_sym; apply sort_by_perm|].
    now apply dict_get_In.
  - eapply Permutation_in; [apply Permutation_sym; apply sort_by_perm|].
    now apply dict_get_In.
Qed.

End InsertionSort.

(** ** The orders on priorities *)

Lemma prio_lt_float_asym (x y : prio) :
  prio_lt_float x y = true -> prio_lt_float y x = false.
Proof.
  unfold prio_lt_float. intros H. apply negb_true_iff in H.
  apply negb_false_iff. apply Qle_bool_iff.
  destruct (Qlt_le_dec (prio_float y) (prio_float x)) as [Hlt|Hle];
    [|assumption].
  apply Qlt_le_weak in Hlt. apply Qle_bool_iff in Hlt. congruence.
Qed.

Lemma prio_lt_float_le_trans (x y z : prio) :
  prio_lt_float y x = false -> prio_lt_float z y = false ->
  prio_lt_float z x = false.
Proof.
  unfold prio_lt_float. intros H1 H2.
  apply negb_false_iff in H1. apply negb_false_iff in H2.
  apply negb_false_iff.
  apply Qle_bool_iff in H1. apply Qle_bool_iff in H2. apply Qle_bool_iff.
  eapply Qle_trans; eassumption.
Qed.

Lemma counter_increases_step (n : nat) :
  forall i,
    counter_increases n (prio_float (PrioClustered i)) = true ->
    forall k, k < n ->
      prio_lt_float (PrioClustered (i + k)) (PrioClustered (S (i + k))) = true.
Proof.
  induction n as [|n IH]; intros i H k Hk; [lia|].
  cbn [counter_increases] in H. cbv zeta in H.
  apply andb_true_iff in H. destruct H as [H1 H2].
  destruct k as [|k].
  - rewrite Nat.add_0_r. exact H1.
  - replace (i + S k) with (S i + k) by lia.
    apply (IH (S i)); [exact H2 | lia].
Qed.

(** The float counter increases over its first four thousand values: as
    floats too, an app that is given the counter later has the larger
    priority. *)
Lemma prio_lt_float_clustered (i j : nat) :
  i < j -> j <= 4000 ->
  prio_lt_float (PrioClustered i) (PrioClustered j) = true.
Proof.
  intros Hij Hj.
  assert (Hall : counter_increases 4000 (prio_float (PrioClustered 0)) = true)
    by (vm_compute; reflexivity).
  assert (Hstep : forall k, k < 4000 ->
            prio_lt_float (PrioClustered k) (PrioClustered (S k)) = true).
  { intros k Hk. exact (counter_increases_step 4000 0 Hall k Hk). }
  assert (Hlt : forall d, i + S d <= 4000 ->
            prio_lt_float (PrioClustered i) (PrioClustered (i + S d)) = true).
  { induction d as [|d IHd]; intros Hd.
    - replace (i + 1) with (S i) by lia. apply Hstep. lia.
    - assert (H1 := IHd ltac:(lia)).
      assert (H2 := Hstep (i + S d) ltac:(lia)).
      replace (i + S (S d)) with (S (i + S d)) by lia.
      unfold prio_lt_float in *.
      apply negb_true_iff in H1. apply negb_true_iff in H2.
      apply negb_true_iff.
      destruct (Qle_bool (prio_float (PrioClustered (S (i + S d))))
                         (prio_float (PrioClustered i))) eqn:E; [|reflexivity].
      exfalso. apply Qle_bool_iff in E.
      assert (E1 : ~ (prio_float (PrioClustered (i + S d))
                      <= prio_float (PrioClustered i))%Q)
        by (intros C; apply Qle_bool_iff in C; congruence).
      assert (E2 : ~ (prio_float (PrioClustered (S (i + S d)))
                      <= prio_float (PrioClustered (i + S d)))%Q)
        by (intros C; apply Qle_bool_iff in C; congruence).
      apply Qnot_le_lt in E1. apply Qnot_le_lt in E2.
      apply (Qlt_irrefl (prio_float (PrioClustered i))).
      eapply Qlt_le_trans; [|exact E].
      eapply Qlt_trans; eassumption. }
  replace j with (i + S (j - i - 1)) by lia. apply Hlt. lia.
Qed.

(** Where the two orders differ, and where they agree: the second value of
    the counter is [50.100100000000005] as a float, above a configured
    [50.1001]; on the priorities of [cfg_chain] the two phases run the
    same way under both orders. *)
Example float_order_and_exact_order :
  prio_float (PrioClustered 1) = 7050962240350769 # 140737488355328 /\
  prio_lt_float (PrioConfigured (501001 # 10000)) (PrioClustered 1) = true /\
  prio_lt_exact (PrioConfigured (501001 # 10000)) (PrioClustered 1) = false /\
  init_phase prio_lt_float world_chain (Some (mk_plan ["base"] ["base"] 3))
    state_chain
  = init_phase prio_lt_exact world_chain (Some (mk_plan ["base"] ["base"] 3))
      state_chain /\
  terminate_phase prio_lt_float (Some (mk_plan ["base"] ["base"] 3)) state_chain
  = terminate_phase prio_lt_exact (Some (mk_plan ["base"] ["base"] 3))
      state_chain.
Proof. vm_compute. repeat split; reflexivity. Qed.

Lemma prio_lt_exact_asym (x y : prio) :
  prio_lt_exact x y = true -> prio_lt_exact y x = false.
Proof.
  unfold prio_lt_exact. intros H. apply negb_true_iff in H.
  apply negb_false_iff. apply Qle_bool_iff.
  destruct (Qlt_le_dec (prio_value y) (prio_value x)) as [Hlt|Hle];
    [|assumption].
  apply Qlt_le_weak in Hlt. apply Qle_bool_iff in Hlt. congruence.
Qed.

Lemma prio_lt_exact_le_trans (x y z : prio) :
  prio_lt_exact y x = false -> prio_lt_exact z y = false ->
  prio_lt_exact z x = false.
Proof.
  unfold prio_lt_exact. intros H1 H2.
  apply negb_false_iff in H1. apply negb_false_iff in H2.
  apply negb_false_iff.
  apply Qle_bool_iff in H1. apply Qle_bool_iff in H2. apply Qle_bool_iff.
  eapply Qle_trans; eassumption.
Qed.

Lemma prio_lt_exact_clustered (i j : nat) :
  i < j -> prio_lt_exact (PrioClustered i) (PrioClustered j) = true.
Proof.
  intros H. unfold prio_lt_exact. apply negb_true_iff.
  destruct (Qle_bool (prio_value (PrioClustered j))
                     (prio_value (PrioClustered i))) eqn:E; [|reflexivity].
  exfalso. apply Qle_bool_iff in E. simpl in E.
  apply Qplus_le_r in E.
  apply Qmult_le_r in E; [|reflexivity].
  rewrite <- Zle_Qle in E. lia.
Qed.

(** ** Dependencies in the two phases *)

Lemma app_enabled_key (cfg : config) (x : string) :
  app_enabled cfg x = true -> In x (dict_keys cfg).
Proof.
  unfold app_enabled. intros H.
  destruct (dict_get x cfg) eqn:E; [|discriminate].
  apply dict_has_In. unfold dict_has. now rewrite E.
Qed.

Lemma prio_apps_keys_nodup (cfg : config) (applist : list string)
  (prio_apps : dict prio) :
  NoDup (dict_keys cfg) ->
  snd (get_app_deps_and_prios cfg applist) = Ok prio_apps ->
  NoDup (dict_keys prio_apps).
Proof.
  intros Hnd Hres.
  destruct (get_app_deps_and_prios_total cfg applist)
    as [deplist [m [_ [Hm Hrun]]]].
  rewrite Hrun in Hres. simpl in Hres. inversion Hres; subst prio_apps.
  assert (Hsrc : NoDup (map fst (build_deps cfg)))
    by (now rewrite build_deps_names).
  pose proof (yielded_nodup _ Hsrc) as Hndo.
  destruct (topological_sort_total (build_deps cfg)) as [_ Hincl].
  rewrite build_deps_names in Hincl.
  destruct (assign_prios_spec cfg _ 0 [] Hincl) as [m' [Hm' [_ [_ [Hk _]]]]].
  unfold prio_apps_of in Hm. rewrite Hm in Hm'. inversion Hm'; subst m'.
  specialize (Hk Hndo (fun x _ H => H)). simpl in Hk.
  unfold restrict_to, dict_keys.
  assert (Hmap : forall l : dict prio,
            NoDup (map fst l) ->
            NoDup (map fst (filter (fun item : string * prio =>
                                      mem (fst item) deplist) l))).
  { induction l as [|[k v] l IH]; intros Hl; simpl; [constructor|].
    inversion Hl as [|? ? Hn Hl']; subst.
    destruct (mem k deplist); simpl; [|now apply IH].
    constructor; [|now apply IH].
    intros Hc. apply Hn. apply in_map_iff in Hc.
    destruct Hc as [[k' v'] [Hk' Hc]]. simpl in Hk'. subst k'.
    apply filter_In in Hc. destruct Hc as [Hc _].
    change k with (fst (k, v')). now apply in_map. }
  apply Hmap. unfold dict_keys in Hk. rewrite Hk. exact Hndo.
Qed.

(** Both apps of a dependency have a counter value in the map of a set
    that holds the app depended on. *)
Lemma dependency_in_prio_apps (cfg : config) (applist : list string)
  (prio_apps : dict prio) (a b : string) (pa : prio) :
  NoDup (dict_keys cfg) ->
  In b applist -> In b (dict_keys cfg) ->
  clos_trans string (declares cfg) a b ->
  snd (get_app_deps_and_prios cfg applist) = Ok prio_apps ->
  dict_get a prio_apps = Some pa ->
  exists ka kb,
    dict_get a prio_apps = Some (PrioClustered ka) /\
    dict_get b prio_apps = Some (PrioClustered kb) /\ kb < ka.
Proof.
  intros Hnd Hb Hbk Hab Hres Ha.
  destruct (get_app_deps_and_prios_total cfg applist)
    as [deplist [m [Hdl [Hm Hrun]]]].
  rewrite Hrun in Hres. simpl in Hres. inversion Hres; subst prio_apps.
  rewrite !dict_get_restrict_to in *.
  destruct (mem a deplist); [|discriminate].
  destruct (build_deplist_spec cfg applist []) as [final [Hdl' [_ [Hincl _]]]];
    [intros x []|].
  rewrite Hdl in Hdl'. inversion Hdl'; subst final.
  assert (Hmb : mem b deplist = true) by (apply mem_In; now apply Hincl).
  rewrite Hmb.
  assert (Hpb : exists pb, dict_get b m = Some pb).
  { assert (Hsrc : NoDup (map fst (build_deps cfg)))
      by (now rewrite build_deps_names).
    destruct (prio_apps_of_total cfg) as [m' [Hm' Hkeys]].
    rewrite Hm in Hm'. inversion Hm'; subst m'.
    destruct (topological_sort (build_deps cfg)) as [order e] eqn:Hsort.
    cbn [fst] in Hkeys.
    destruct (topological_sort_spec _ Hsrc order e Hsort) as [Hok _].
    assert (Hao : In a order).
    { apply Hkeys. apply dict_get_In in Ha.
      change a with (fst (a, pa)). now apply in_map. }
    destruct (depends_on_pos _ _ Hok a b
                (declares_chain_depends_on cfg a b Hab Hbk) Hao) as [Hbo _].
    apply dict_get_Some_In. now apply Hkeys. }
  destruct Hpb as [pb Hpb].
  destruct (clustered_along_dependencies cfg m a b pa pb Hnd Hm Hab Ha Hpb)
    as [ka [kb [-> [-> Hlt]]]].
  now exists ka, kb.
Qed.

Section PhaseOrder.
Variable prio_lt : prio -> prio -> bool.
Hypothesis prio_lt_asym : forall x y, prio_lt x y = true -> prio_lt y x = false.
Hypothesis prio_le_trans :
  forall x y z, prio_lt y x = false -> prio_lt z y = false -> prio_lt z x = false.
Hypothesis prio_lt_clustered :
  forall i j, i < j -> prio_lt (PrioClustered i) (PrioClustered j) = true.

(** X5. The initialize phase for a set that holds an app [b]: an app [a]
    that reaches [b] through declared dependencies, when it has a priority
    and both are enabled, is constructed after [b] and initialized after
    [b], each of them once.  The order of floats is a parameter: it is
    asymmetric, its complement is transitive, and the values of the running
    counter grow. *)
Theorem dependencies_are_started_first (w : world) (p : plan) (st : state)
  (a b : string) (prio_apps : dict prio) (pa : prio) :
  NoDup (dict_keys (app_config st)) ->
  In b (p_init p) ->
  clos_trans string (declares (app_config st)) a b ->
  snd (get_app_deps_and_prios (app_config st) (p_init p)) = Ok prio_apps ->
  dict_get a prio_apps = Some pa ->
  app_enabled (app_config st) a = true ->
  app_enabled (app_config st) b = true ->
  exists started st',
    init_phase prio_lt w (Some p) st = (Ok tt, st') /\
    init_events (trace st')
    = init_events (trace st)
        ++ map EvInitObject started ++ [EvCalcPinThreads]
        ++ map EvInitializeApp started /\
    NoDup started /\ before started b a.
Proof.
  intros Hnd Hb Hab Hres Ha Hea Heb.
  assert (Hne : p_init p <> []) by (intros E; rewrite E in Hb; destruct Hb).
  destruct (init_phase_spec prio_lt w p st Hne)
    as [m [st' [Hm [Hrun [_ Hev]]]]].
  rewrite Hres in Hm. inversion Hm; subst m.
  destruct (dependency_in_prio_apps _ _ _ a b pa Hnd Hb
              (app_enabled_key _ _ Heb) Hab Hres Ha)
    as [ka [kb [Hka [Hkb Hlt]]]].
  exists (filter (app_enabled (app_config st)) (sorted_keys prio_lt prio_apps)), st'.
  split; [assumption|]. split; [assumption|]. split.
  - apply NoDup_filter.
    eapply Permutation_NoDup;
      [apply Permutation_sym; apply sorted_keys_perm|].
    eapply prio_apps_keys_nodup; eassumption.
  - apply before_filter; [|assumption|assumption].
    unfold sorted_keys.
    apply (sort_by_before prio_lt prio_lt_asym prio_le_trans prio_apps b a
             (PrioClustered kb) (PrioClustered ka) Hkb Hka).
    now apply prio_lt_clustered.
Qed.

(** X6. The terminate phase for a set that holds an app [b]: an app [a]
    that reaches [b] through declared dependencies and has a priority is
    terminated before [b], each of them once. *)
Theorem dependents_are_terminated_first (p : plan) (st : state)
  (a b : string) (prio_apps : dict prio) (pa : prio) :
  NoDup (dict_keys (app_config st)) ->
  In b (p_term p) -> In b (dict_keys (app_config st)) ->
  clos_trans string (declares (app_config st)) a b ->
  snd (get_app_deps_and_prios (app_config st) (p_term p)) = Ok prio_apps ->
  dict_get a prio_apps = Some pa ->
  exists stopped st',
    terminate_phase prio_lt (Some p) st = (Ok tt, st') /\
    term_events (trace st')
    = term_events (trace st) ++ map EvTermObject stopped /\
    NoDup stopped /\ before stopped a b.
Proof.
  intros Hnd Hb Hbk Hab Hres Ha.
  assert (Hne : p_term p <> []) by (intros E; rewrite E in Hb; destruct Hb).
  destruct (terminate_phase_spec prio_lt p st Hne)
    as [m [st' [Hm [Hrun [_ Hev]]]]].
  rewrite Hres in Hm. inversion Hm; subst m.
  destruct (dependency_in_prio_apps _ _ _ a b pa Hnd Hb Hbk Hab Hres Ha)
    as [ka [kb [Hka [Hkb Hlt]]]].
  exists (sorted_keys_reverse prio_lt prio_apps), st'.
  split; [assumption|]. split; [assumption|]. split.
  - eapply Permutation_NoDup;
      [apply Permutation_sym; apply sorted_keys_reverse_perm|].
    eapply prio_apps_keys_nodup; eassumption.
  - unfold sorted_keys_reverse.
    apply (sort_by_before (fun x y => prio_lt y x)
             (fun x y H => prio_lt_asym y x H)
             (fun x y z H1 H2 => prio_le_trans z y x H2 H1)
             prio_apps a b (PrioClustered ka) (PrioClustered kb) Hka Hkb).
    now apply prio_lt_clustered.
Qed.

End PhaseOrder.

Lemma dependencies_are_started_first_witness :
  exists started st',
    init_phase prio_lt_exact world_chain (Some (mk_plan ["base"] ["base"] 3))
      state_chain = (Ok tt, st') /\
    init_events (trace st')
    = init_events (trace state_chain)
        ++ map EvInitObject started ++ [EvCalcPinThreads]
        ++ map EvInitializeApp started /\
    NoDup started /\ before started "base" "top".
Proof.
  apply (dependencies_are_started_first prio_lt_exact prio_lt_exact_asym
           prio_lt_exact_le_trans prio_lt_exact_clustered world_chain
           (mk_plan ["base"] ["base"] 3) state_chain "top" "base"
           [("base", PrioClustered 0); ("mid", PrioClustered 1);
            ("top", PrioClustered 2)] (PrioClustered 2)).
  - exact state_chain_nodup.
  - now left.
  - rewrite state_chain_config. exact cfg_chain_top_reaches_base.
  - vm_compute. reflexivity.
  - reflexivity.
  - vm_compute. reflexivity.
  - vm_compute. reflexivity.
Defined.

Lemma dependents_are_terminated_first_witness :
  exists stopped st',
    terminate_phase prio_lt_exact (Some (mk_plan ["base"] ["base"] 3))
      state_chain = (Ok tt, st') /\
    term_events (trace st')
    = term_events (trace state_chain) ++ map EvTermObject stopped /\
    NoDup stopped /\ before stopped "top" "base".
Proof.
  apply (dependents_are_terminated_first prio_lt_exact prio_lt_exact_asym
           prio_lt_exact_le_trans prio_lt_exact_clustered
           (mk_plan ["base"] ["base"] 3) state_chain "top" "base"
           [("base", PrioClustered 0); ("mid", PrioClustered 1);
            ("top", PrioClustered 2)] (PrioClustered 2)).
  - exact state_chain_nodup.
  - now left.
  - rewrite state_chain_config. simpl. tauto.
  - rewrite state_chain_config. exact cfg_chain_top_reaches_base.
  - vm_compute. reflexivity.
  - reflexivity.
Defined.

(** ** [check_config] with [apps.yaml] in the configuration directory *)

(** X7. With [apps.yaml] in the configuration directory (the deprecated
    place) [check_config] returns no plan, whatever the file holds: the
    file always counts as changed, and either the read gives nothing or
    [latest["deleted"]], a key the scan of that place does not set, raises.
    The stored configuration, the registry and the monitored files stay as
    they are, one warning is logged and the watermark is the time of the
    file. *)
Theorem deprecated_config_file_is_never_applied (w : world) (st : state) :
  w_config_is_file w = true ->
  exists st' m,
    check_config w st = (Ok None, st') /\
    trace st' = trace st ++ [EvLog m] /\
    app_config st' = app_config st /\
    objects st' = objects st /\
    monitored_files st' = monitored_files st /\
    app_config_file_modified st' = w_config_file_ts w.
Proof.
  intros Hf.
  assert (Hd : detects_change w st = true)
    by (unfold detects_change; now rewrite Hf).
  assert (Hr : match w_read_config w with
               | ReadConfig _ => w_config_is_file w = true
               | _ => True
               end) by (destruct (w_read_config w); auto).
  destruct (after_scan_spec w st) as [H1 [H2 [H3 [_ [H5 [_ [H7 _]]]]]]].
  eexists _, _. split; [exact (check_config_no_plan w st Hd Hr)|].
  proj_simpl. rewrite H1, H2, H3, H5, H7.
  unfold new_watermark. rewrite Hf. repeat split.
Qed.

Lemma deprecated_config_file_is_never_applied_witness :
  exists st' m,
    check_config world_chain_deprecated initial_state = (Ok None, st') /\
    trace st' = trace initial_state ++ [EvLog m] /\
    app_config st' = app_config initial_state /\
    objects st' = objects initial_state /\
    monitored_files st' = monitored_files initial_state /\
    app_config_file_modified st' = w_config_file_ts world_chain_deprecated.
Proof.
  apply (deprecated_config_file_is_never_applied world_chain_deprecated
           initial_state).
  reflexivity.
Defined.

(** ** A configuration that is read again with the same sections *)

Lemma list_eqb_refl {A : Type} (eqb : A -> A -> bool) (l : list A) :
  (forall x, eqb x x = true) -> list_eqb eqb l l = true.
Proof.
  intros H. induction l as [|x l IH]; simpl; [reflexivity|].
  now rewrite H, IH.
Qed.

Lemma option_eqb_refl {A : Type} (eqb : A -> A -> bool) (o : option A) :
  (forall x, eqb x x = true) -> option_eqb eqb o o = true.
Proof. intros H. destruct o; simpl; auto. Qed.

Lemma names_eqb_refl (v : names) : names_eqb v v = true.
Proof.
  destruct v as [s|l]; simpl;
    [apply String.eqb_refl | apply list_eqb_refl, String.eqb_refl].
Qed.

Lemma dict_eqb_spec {V : Type} (eqb : V -> V -> bool) (d1 d2 : dict V) :
  dict_eqb eqb d1 d2 = true <->
  forall k, option_eqb eqb (dict_get k d1) (dict_get k d2) = true.
Proof.
  unfold dict_eqb. rewrite forallb_forall. split; [|intros H k _; apply H].
  intros H k.
  destruct (dict_get k d1) as [v1|] eqn:E1.
  - rewrite <- E1. apply H. apply in_or_app. left.
    apply dict_get_In in E1. change k with (fst (k, v1)). now apply in_map.
  - destruct (dict_get k d2) as [v2|] eqn:E2; [|reflexivity].
    rewrite <- E1, <- E2. apply H. apply in_or_app. right.
    apply dict_get_In in E2. change k with (fst (k, v2)). now apply in_map.
Qed.

Lemma dict_eqb_refl {V : Type} (eqb : V -> V -> bool) (d : dict V) :
  (forall x, eqb x x = true) -> dict_eqb eqb d d = true.
Proof.
  intros H. apply dict_eqb_spec. intros k. now apply option_eqb_refl.
Qed.

Lemma entry_eqb_refl (e : entry) : entry_eqb e e = true.
Proof.
  destruct e as [a|mods]; simpl.
  - unfold app_def_eqb.
    rewrite !String.eqb_refl.
    rewrite !(option_eqb_refl names_eqb) by apply names_eqb_refl.
    rewrite (option_eqb_refl Qeq_bool) by (intros q; apply Qeq_bool_refl).
    rewrite (option_eqb_refl Z.eqb) by apply Z.eqb_refl.
    rewrite (option_eqb_refl Bool.eqb) by (intros []; reflexivity).
    rewrite dict_eqb_refl; [reflexivity | apply String.eqb_refl].
  - apply list_eqb_refl. apply String.eqb_refl.
Qed.

Lemma same_sections_refl (c : config) : same_sections c c.
Proof.
  intros k. destruct (dict_get k c); [apply entry_eqb_refl | exact I].
Qed.

Lemma same_sections_diff (old new_config : config) :
  NoDup (dict_keys old) ->
  same_sections old new_config ->
  removed_apps new_config old = [] /\
  changed_apps new_config old = [] /\
  added_apps old new_config = [].
Proof.
  intros Hnd Hs. unfold removed_apps, changed_apps, added_apps.
  repeat split.
  - rewrite filter_nil; [reflexivity|]. intros [k e] Hin. simpl.
    specialize (Hs k). rewrite (dict_In_get _ _ _ Hnd Hin) in Hs.
    unfold dict_has. destruct (dict_get k new_config); [reflexivity | destruct Hs].
  - rewrite filter_nil; [reflexivity|]. intros [k e] Hin. simpl.
    specialize (Hs k). rewrite (dict_In_get _ _ _ Hnd Hin) in Hs.
    destruct (dict_get k new_config); [now rewrite Hs | reflexivity].
  - rewrite filter_nil; [reflexivity|]. intros [k e] Hin. simpl.
    specialize (Hs k).
    assert (Hk : In k (dict_keys new_config))
      by (change k with (fst (k, e)); now apply in_map).
    destruct (dict_get_Some_In _ _ Hk) as [e' He']. rewrite He' in Hs.
    unfold dict_has. destruct (dict_get k old); [reflexivity | destruct Hs].
Qed.

Lemma no_member_nil {A : Type} (l : list A) :
  (forall x, In x l <-> False) -> l = [].
Proof.
  destruct l as [|a l]; [reflexivity|]. intros H.
  exfalso. apply (H a). now left.
Qed.

(** X8. A configuration file that was saved again without a change of any
    section: [check_config] reads the configuration and returns the plan
    with both sets empty; it terminates no app and leaves the registry
    alone.  Sections are compared as Python compares them: the order of
    the sections and of the keys of a section does not matter, the form of
    a value does (a name is not equal to the list that holds it). *)
Theorem unchanged_sections_restart_nothing (w : world) (st : state)
  (new_config : config) :
  w_config_is_file w = false ->
  detects_change w st = true ->
  w_read_config w = ReadConfig new_config ->
  NoDup (dict_keys (app_config st)) ->
  same_sections (app_config st) new_config ->
  exists st',
    check_config w st = (Ok (Some (mk_plan [] [] (length new_config))), st') /\
    app_config st' = new_config /\
    objects st' = objects st /\
    term_events (trace st') = term_events (trace st).
Proof.
  intros Hf Hd Hr Hnd Hs.
  destruct (check_config_applied w st new_config Hf Hd Hr)
    as [p [logs [k [Hrun [Ht [Hterm Hinit]]]]]].
  destruct (same_sections_diff _ _ Hnd Hs) as [Er [Ec Ea]].
  rewrite Er in Hrun. rewrite Ec in Hterm. rewrite Ec, Ea in Hinit.
  destruct p as [init term total]. simpl in *.
  assert (Ei : init = []) by (apply no_member_nil; intros x; rewrite Hinit; simpl; tauto).
  assert (Et : term = []) by (apply no_member_nil; intros x; rewrite Hterm; simpl; tauto).
  subst init term total.
  eexists. split; [exact Hrun|].
  destruct (after_scan_spec w st) as [_ [H2 [_ [_ [H5 _]]]]].
  proj_simpl. simpl terminate_all. rewrite H2, H5.
  split; [reflexivity|]. split; [reflexivity|].
  rewrite !term_events_app, term_events_logs, term_events_threads.
  now rewrite !app_nil_r.
Qed.

Lemma same_sections_dict_eqb (c1 c2 : config) :
  dict_eqb entry_eqb c1 c2 = true <-> same_sections c1 c2.
Proof.
  rewrite dict_eqb_spec. unfold same_sections.
  split; intros H k; specialize (H k);
    destruct (dict_get k c1), (dict_get k c2); simpl in *;
    solve [assumption | exact I | discriminate | reflexivity | destruct H].
Qed.

Lemma state_lights_nodup : NoDup (dict_keys (app_config state_lights)).
Proof.
  change (NoDup ["hall"; "porch"]).
  repeat constructor; simpl; intuition discriminate.
Qed.

Lemma unchanged_sections_restart_nothing_witness :
  exists st',
    check_config world_lights_rearranged state_lights
    = (Ok (Some (mk_plan [] [] (length cfg_lights_rearranged))), st') /\
    app_config st' = cfg_lights_rearranged /\
    objects st' = objects state_lights /\
    term_events (trace st') = term_events (trace state_lights).
Proof.
  apply (unchanged_sections_restart_nothing world_lights_rearranged
           state_lights cfg_lights_rearranged).
  - reflexivity.
  - vm_compute. reflexivity.
  - reflexivity.
  - exact state_lights_nodup.
  - apply same_sections_dict_eqb. vm_compute. reflexivity.
Defined.

(** A dependency written as a list of one name instead of a string is a
    change of the section: [porch] is restarted. *)
Example string_and_list_differ :
  fst (check_config world_lights_listed state_lights)
  = Ok (Some (mk_plan ["porch"] ["porch"] 2)) /\
  dict_eqb entry_eqb cfg_lights cfg_lights_listed = false /\
  dict_eqb entry_eqb cfg_lights cfg_lights_rearranged = true.
Proof. vm_compute. repeat split; reflexivity. Qed.

(** ** The watermark *)

(** X9. With the configuration in the apps directory, every call of
    [check_config], whatever reading the configuration did, leaves a
    watermark that is not lower than before and not lower than the time of
    any YAML file of the walk, so that the same files make the next call
    read nothing: a read that failed is not tried again until a file
    changes. *)
Theorem watermark_covers_scanned_files (w : world) (st : state) :
  w_config_is_file w = false ->
  (app_config_file_modified st
   <= app_config_file_modified (snd (check_config w st)))%Z /\
  (forall f ts, In (f, ts) (w_yaml_files w) ->
     (ts <= app_config_file_modified (snd (check_config w st)))%Z) /\
  detects_change w (snd (check_config w st)) = false.
Proof.
  intros Hf. destruct (check_config_records w st) as [Hw [Hl _]].
  rewrite Hf in Hl. rewrite Hw. unfold new_watermark. rewrite Hf.
  destruct (yaml_latest_ge (w_yaml_files w) (app_config_file_modified st))
    as [G1 G2].
  split; [exact G1|]. split.
  - intros f ts Hin. exact (G2 (f, ts) Hin).
  - apply (scan_records_settled w st); [assumption | | assumption].
    rewrite Hw. reflexivity.
Qed.

Lemma watermark_covers_scanned_files_witness :
  (app_config_file_modified state_chain
   <= app_config_file_modified
        (snd (check_config world_chain_broken state_chain)))%Z /\
  (forall f ts, In (f, ts) (w_yaml_files world_chain_broken) ->
     (ts <= app_config_file_modified
              (snd (check_config world_chain_broken state_chain)))%Z) /\
  detects_change world_chain_broken
    (snd (check_config world_chain_broken state_chain)) = false.
Proof.
  apply (watermark_covers_scanned_files world_chain_broken state_chain).
  reflexivity.
Defined.

(** ** The thread top-up *)

Lemma add_threads_exact (w : world) (n : nat) (st : state) :
  add_threads w n st
  = (Ok tt, add_events (repeat EvAddThread (threads_needed w n)) st).
Proof.
  assert (Hloop : forall k s,
            forM (fun _ : unit => emit EvAddThread) (repeat tt k) s
            = (Ok tt, add_events (repeat EvAddThread k) s)).
  { induction k as [|k IH]; intros s; simpl.
    - unfold ret, add_events. simpl. rewrite app_nil_r. now destruct s.
    - unfold emit. unfold_monad. simpl. rewrite IH.
      f_equal. unfold add_events. simpl. now rewrite <- app_assoc. }
  unfold add_threads, threads_needed.
  destruct (w_auto_pin w); simpl.
  - destruct (Z.ltb (w_threads w) (Z.of_nat n)) eqn:E; [apply Hloop|].
    apply Z.ltb_ge in E.
    replace (Z.to_nat (Z.of_nat n - w_threads w)) with 0 by lia.
    unfold ret, add_events. simpl. rewrite app_nil_r. now destruct st.
  - unfold ret, add_events. simpl. rewrite app_nil_r. now destruct st.
Qed.

Lemma thread_events_app (a b : list event) :
  thread_events (a ++ b) = thread_events a ++ thread_events b.
Proof. apply filter_app. Qed.

Lemma thread_events_logs (l : list log_msg) : thread_events (map EvLog l) = [].
Proof. induction l; simpl; auto. Qed.

Lemma thread_events_term (l : list string) :
  thread_events (map EvTermObject l) = [].
Proof. induction l; simpl; auto. Qed.

Lemma thread_events_threads (k : nat) :
  thread_events (repeat EvAddThread k) = repeat EvAddThread k.
Proof. induction k; simpl; [reflexivity | now f_equal]. Qed.

(** The two ways in which [check_config] returns a plan, with the number of
    threads it adds. *)
Lemma check_config_plan_cases (w : world) (st st' : state) (p : plan) :
  check_config w st = (Ok (Some p), st') ->
  exists evs,
    trace st' = trace st ++ evs ++ repeat EvAddThread (threads_needed w (p_total p)) /\
    thread_events evs = [] /\
    p_total p = length (app_config st').
Proof.
  intros Hrun.
  destruct (after_scan_spec w st) as [A1 [_ [_ [_ [A5 _]]]]].
  destruct (detects_change w st) eqn:Hd.
  - destruct (w_config_is_file w) eqn:Hf.
    + rewrite check_config_no_plan in Hrun;
        [discriminate | assumption | destruct (w_read_config w); auto].
    + destruct (w_read_config w) as [| |c] eqn:Hr;
        try (rewrite check_config_no_plan in Hrun;
             [discriminate | assumption | now rewrite Hr]).
      (* the configuration is applied *)
      unfold detects_change in Hd. rewrite Hf in Hd.
      destruct (diff_existing_loop c (app_config st) ([], []) (after_scan w st))
        as [acc [Hacc _]].
      destruct (terminate_all_spec (removed_apps c (app_config st))
                  (after_scan w st)) as [Hc [_ [_ [_ [_ [Htr _]]]]]].
      destruct (diff_added_loop w (app_config st) c (snd acc)
                  (terminate_all (removed_apps c (app_config st))
                     (after_scan w st))) as [init [logs [Hadd _]]].
      assert (E : check_config w st
                  = (Ok (Some (mk_plan init (fst acc) (length c))),
                     add_events (repeat EvAddThread (threads_needed w (length c)))
                       (set_app_config c
                          (add_events (map EvLog logs)
                             (terminate_all (removed_apps c (app_config st))
                                (after_scan w st)))))).
      { unfold check_config, check_config_body, check_later_app_configs.
        unfold after_scan, new_watermark, read_config, lf_deleted_get in *.
        rewrite Hf in *. rewrite Hr. unfold_monad. simpl.
        destruct (yaml_later w (app_config_file_modified st)
                    ++ yaml_added w (app_config_files st)) eqn:Efiles.
        - destruct (yaml_deleted w (app_config_files st)) eqn:Edel; [discriminate|].
          simpl. simpl in Hacc. rewrite Hacc.
          rewrite Hc. simpl. rewrite Hadd. rewrite add_threads_exact. reflexivity.
        - simpl. simpl in Hacc. rewrite Hacc.
          rewrite Hc. simpl. rewrite Hadd. rewrite add_threads_exact. reflexivity. }
      rewrite E in Hrun. inversion Hrun; subst p st'. proj_simpl.
      exists (map EvTermObject (removed_apps c (app_config st)) ++ map EvLog logs).
      rewrite Htr, A5. rewrite <- !app_assoc.
      split; [reflexivity|]. split; [|reflexivity].
      now rewrite thread_events_app, thread_events_term, thread_events_logs.
  - assert (E : check_config w st
                = (Ok (Some (mk_plan [] [] (length (app_config st)))),
                   add_events
                     (repeat EvAddThread (threads_needed w (length (app_config st))))
                     (after_scan w st))).
    { unfold detects_change in Hd.
      destruct (w_config_is_file w) eqn:Hf; [discriminate|].
      destruct (yaml_later w (app_config_file_modified st)
                  ++ yaml_added w (app_config_files st)) eqn:Efiles; [|discriminate].
      destruct (yaml_deleted w (app_config_files st)) eqn:Edel; [|discriminate].
      unfold check_config, check_config_body, check_later_app_configs.
      rewrite Hf. unfold after_scan, new_watermark in *. rewrite Hf in *.
      unfold lf_deleted_get. unfold_monad. simpl.
      rewrite Efiles, Edel. simpl. rewrite add_threads_exact. reflexivity. }
    rewrite E in Hrun. inversion Hrun; subst p st'. proj_simpl.
    exists []. rewrite A1, A5. repeat split.
Qed.

(** X10. When [check_config] returns a plan, its total is the number of
    sections of the configuration now stored, and the calls of
    [add_thread] it made are, with automatic pinning, as many as that total
    exceeds the size of the pool (none when the pool is large enough), and
    none without automatic pinning. *)
Theorem check_config_tops_up_threads (w : world) (st st' : state) (p : plan) :
  check_config w st = (Ok (Some p), st') ->
  p_total p = length (app_config st') /\
  thread_events (trace st')
  = thread_events (trace st)
      ++ repeat EvAddThread
           (if w_auto_pin w
            then Z.to_nat (Z.of_nat (p_total p) - w_threads w) else 0).
Proof.
  intros Hrun.
  destruct (check_config_plan_cases w st st' p Hrun) as [evs [Htr [Hev Ht]]].
  split; [assumption|].
  rewrite Htr, !thread_events_app, Hev, thread_events_threads.
  reflexivity.
Qed.

Lemma check_config_tops_up_threads_witness :
  p_total (mk_plan ["top"; "base"; "mid"] [] 3)
  = length (app_config (snd (check_config world_chain_auto_pin initial_state))) /\
  thread_events (trace (snd (check_config world_chain_auto_pin initial_state)))
  = thread_events (trace initial_state)
      ++ repeat EvAddThread
           (if w_auto_pin world_chain_auto_pin
            then Z.to_nat
                   (Z.of_nat (p_total (mk_plan ["top"; "base"; "mid"] [] 3))
                    - w_threads world_chain_auto_pin)
            else 0).
Proof.
  apply (check_config_tops_up_threads world_chain_auto_pin initial_state
           (snd (check_config world_chain_auto_pin initial_state))
           (mk_plan ["top"; "base"; "mid"] [] 3)).
  vm_compute. reflexivity.
Defined.

(** ** The apps of a module *)

Lemma apps_per_module_spec (cfg : config) (module : string) :
  global_modules_keyed cfg ->
  exists l,
    apps_per_module cfg module = Ok l /\
    forall a, In a l <-> uses_module cfg module a.
Proof.
  induction cfg as [|[app e] cfg IH]; intros Hk.
  - exists []. split; [reflexivity|].
    intros a. split; [intros [] | intros [_ [x [[] _]]]].
  - assert (Hk' : global_modules_keyed cfg).
    { intros k mods Hin. apply (Hk k mods). now right. }
    destruct (IH Hk') as [l [Hl Hspec]].
    cbn [apps_per_module].
    destruct (String.eqb_spec app "global_modules") as [->|Hne].
    + exists l. split; [assumption|].
      intros a. rewrite Hspec. unfold uses_module. split.
      * intros [Ha [x [Hin Hm]]]. split; [assumption|].
        exists x. split; [now right | assumption].
      * intros [Ha [x [[Heq|Hin] Hm]]].
        -- inversion Heq; subst. congruence.
        -- split; [assumption|]. now exists x.
    + destruct e as [ad|mods].
      * simpl. rewrite Hl.
        exists (if String.eqb (ad_module ad) module then app :: l else l).
        split; [reflexivity|].
        intros a. unfold uses_module.
        destruct (String.eqb_spec (ad_module ad) module) as [Hm|Hm].
        -- simpl. rewrite Hspec. unfold uses_module. split.
           ++ intros [<-|[Ha [x [Hin Hx]]]].
              ** split; [assumption|]. exists ad. split; [now left | assumption].
              ** split; [assumption|]. exists x. split; [now right | assumption].
           ++ intros [Ha [x [[Heq|Hin] Hx]]].
              ** inversion Heq; subst. now left.
              ** right. split; [assumption|]. now exists x.
        -- rewrite Hspec. unfold uses_module. split.
           ++ intros [Ha [x [Hin Hx]]].
              split; [assumption|]. exists x. split; [now right | assumption].
           ++ intros [Ha [x [[Heq|Hin] Hx]]].
              ** inversion Heq; subst. congruence.
              ** split; [assumption|]. now exists x.
      * exfalso. apply Hne. apply (Hk app mods). now left.
Qed.

(** ** Loops that add apps to the plan *)

Lemma add_term_loop (l : list string) :
  forall p st,
    exists p',
      foldM (fun apps app => plan_add_term app apps) l (Some p) st
      = (Ok (Some p'), st) /\
      p_init p' = p_init p /\ p_total p' = p_total p /\
      forall a, In a (p_term p') <-> In a (p_term p) \/ In a l.
Proof.
  induction l as [|x l IH]; intros p st.
  - exists p. simpl. unfold ret. repeat split; tauto.
  - destruct (IH (mk_plan (p_init p) (nameset_add x (p_term p)) (p_total p)) st)
      as [p' [Hrun [Hi [Ht Hm]]]].
    exists p'. split; [simpl; unfold_monad; simpl; exact Hrun|].
    split; [assumption|]. split; [assumption|].
    intros a. rewrite Hm. simpl. rewrite nameset_add_In. intuition auto.
Qed.

Lemma reload_loop (reload : bool) (l : list string) :
  forall p st,
    exists p',
      foldM (plan_reload reload) l (Some p) st = (Ok (Some p'), st) /\
      p_total p' = p_total p /\
      (forall a, In a (p_init p') <-> In a (p_init p) \/ In a l) /\
      (forall a, In a (p_term p') <->
                 In a (p_term p) \/ (reload = true /\ In a l)).
Proof.
  induction l as [|x l IH]; intros p st.
  - exists p. simpl. unfold ret. repeat split; tauto.
  - destruct reload.
    + destruct (IH (mk_plan (nameset_add x (p_init p))
                            (nameset_add x (p_term p)) (p_total p)) st)
        as [p' [Hrun [Ht [Hi Hm]]]].
      exists p'. split; [simpl; unfold plan_reload; unfold_monad; simpl; exact Hrun|].
      split; [assumption|]. split.
      * intros a. rewrite Hi. simpl. rewrite nameset_add_In. intuition auto.
      * intros a. rewrite Hm. simpl. rewrite nameset_add_In. intuition auto.
    + destruct (IH (mk_plan (nameset_add x (p_init p)) (p_term p) (p_total p)) st)
        as [p' [Hrun [Ht [Hi Hm]]]].
      exists p'. split; [simpl; unfold plan_reload; unfold_monad; simpl; exact Hrun|].
      split; [assumption|]. split.
      * intros a. rewrite Hi. simpl. rewrite nameset_add_In. intuition auto.
      * intros a. rewrite Hm. simpl. split; [tauto|].
        intros [H|[H _]]; [now left | discriminate].
Qed.

(** ** A plugin restart *)

(** The loop over the [plugin] list of a section, with its two [break]s:
    an empty list restarts nothing, not even for [__ALL__]. *)
Lemma plugin_matches_spec (plugin : string) (l : list string) :
  plugin_matches plugin l
  = nonempty l && (String.eqb plugin "__ALL__" || mem plugin l).
Proof.
  induction l as [|t r IH]; [reflexivity|].
  cbn [plugin_matches nonempty andb]. unfold mem. cbn [existsb].
  rewrite (String.eqb_sym plugin t).
  destruct (String.eqb t plugin); [now rewrite orb_true_r|].
  destruct (String.eqb plugin "__ALL__"); [reflexivity|].
  rewrite IH. cbn [orb]. destruct r; reflexivity.
Qed.

Lemma plugin_app_step (plugin : string) (p : plan) (item : string * entry)
  (st : state) :
  plugin_app plugin (Some p) item st
  = (Ok (Some (if restarted_by plugin item
               then mk_plan (nameset_add (fst item) (p_init p))
                            (nameset_add (fst item) (p_term p)) (p_total p)
               else p)), st).
Proof.
  unfold plugin_app, restarted_by.
  destruct (String.eqb (fst item) "global_modules"); [reflexivity|].
  cbn [negb andb].
  destruct (entry_plugin (snd item)) as [l|].
  - rewrite plugin_matches_spec.
    destruct (nonempty l && (String.eqb plugin "__ALL__" || mem plugin l));
      reflexivity.
  - reflexivity.
Qed.

Lemma plugin_loop (plugin : string) (l : config) :
  forall p st,
    exists p',
      foldM (plugin_app plugin) l (Some p) st = (Ok (Some p'), st) /\
      p_total p' = p_total p /\
      (forall a, In a (p_term p') <->
                 In a (p_term p) \/ In a (map fst (filter (restarted_by plugin) l))) /\
      (forall a, In a (p_init p') <->
                 In a (p_init p) \/ In a (map fst (filter (restarted_by plugin) l))).
Proof.
  induction l as [|item l IH]; intros p st.
  - exists p. simpl. unfold ret. repeat split; tauto.
  - cbn [foldM filter]. unfold bind at 1. rewrite plugin_app_step.
    destruct (restarted_by plugin item).
    + destruct (IH (mk_plan (nameset_add (fst item) (p_init p))
                            (nameset_add (fst item) (p_term p)) (p_total p)) st)
        as [p' [Hrun [Ht [Hm Hi]]]].
      exists p'. split; [exact Hrun|]. split; [assumption|]. split.
      * intros a. rewrite Hm. simpl. rewrite nameset_add_In. intuition auto.
      * intros a. rewrite Hi. simpl. rewrite nameset_add_In. intuition auto.
    + destruct (IH p st) as [p' [Hrun H]]. exists p'. split; [exact Hrun | exact H].
Qed.

(** ** The plan of a cycle that finds no new or modified file *)

Lemma delete_loop_plan (cfg : config) :
  global_modules_keyed cfg ->
  forall l p st,
    app_config st = cfg ->
    exists p' st',
      foldM delete_module l (Some p) st = (Ok (Some p'), st') /\
      p_init p' = p_init p /\ p_total p' = p_total p /\
      forall a, In a (p_term p') <-> In a (p_term p) \/ apps_of_files cfg l a.
Proof.
  intros Hk. induction l as [|f l IH]; intros p st Hc.
  - exists p, st. simpl. unfold ret. repeat split; try tauto.
    intros [H|[g [[] _]]]. exact H.
  - destruct (apps_per_module_spec cfg (get_module_from_path f) Hk)
      as [users [Hu Hspec]].
    set (s1 := set_monitored_files (dict_del f (monitored_files st)) st).
    destruct (add_term_loop users p s1) as [p1 [Hrun1 [Hi1 [Ht1 Hm1]]]].
    destruct (IH p1 s1 Hc) as [p' [st' [Hrun [Hi [Ht Hm]]]]].
    exists p', st'. split.
    + cbn [foldM]. unfold bind at 1. unfold delete_module.
      unfold_monad. cbn [fst snd]. fold s1.
      change (app_config s1) with (app_config st). rewrite Hc, Hu.
      cbn [lift ret]. rewrite Hrun1. exact Hrun.
    + split; [congruence|]. split; [congruence|].
      intros a. rewrite Hm, Hm1, Hspec. unfold apps_of_files. split.
      * intros [[H|H]|[g [Hg Hug]]].
        -- now left.
        -- right. exists f. split; [now left | assumption].
        -- right. exists g. split; [now right | assumption].
      * intros [H|[g [[<-|Hg] Hug]]].
        -- left. now left.
        -- left. now right.
        -- right. exists g. now split.
Qed.

Lemma plan_phase_quiet (w : world) (plugin : option string) (exit : bool)
  (st : state) :
  detects_change w st = false ->
  files_seen w (w_py_files w) (monitored_files st) ->
  global_modules_keyed (app_config st) ->
  exists p st',
    plan_phase w plugin exit st = (Ok (Some p, []), st') /\
    p_total p = length (app_config st) /\
    monitored_files st'
    = fold_left (fun m f => dict_del f m)
        (dropped_files w exit (monitored_files st)) (monitored_files st) /\
    app_config st' = app_config st /\
    objects st' = objects st /\
    apps_initialized st' = apps_initialized st /\
    lifecycle_events (trace st') = lifecycle_events (trace st) /\
    (forall a, In a (p_term p) <->
       apps_of_files (app_config st)
         (dropped_files w exit (monitored_files st)) a \/
       In a (plugin_restarts plugin (app_config st))) /\
    (forall a, In a (p_init p) <->
       In a (plugin_restarts plugin (app_config st))).
Proof.
  intros Hd Hseen Hk.
  destruct (check_config_unchanged w st Hd) as [k Hcfg].
  destruct (after_scan_spec w st) as [A1 [A2 [A3 [_ [A5 [A6 _]]]]]].
  set (s1 := add_events (repeat EvAddThread k) (after_scan w st)) in *.
  assert (Hm1 : monitored_files s1 = monitored_files st) by exact A3.
  destruct (scan_seen w (w_py_files w) [] s1) as [logs Hscan];
    [now rewrite Hm1|].
  set (s2 := add_events (map EvLog logs) s1) in *.
  assert (Hm2 : monitored_files s2 = monitored_files st) by exact A3.
  assert (Hc2 : app_config s2 = app_config st) by exact A1.
  destruct (delete_loop_plan (app_config st) Hk
              (dropped_files w exit (monitored_files st))
              (mk_plan [] [] (length (app_config st))) s2 Hc2)
    as [p1 [s3 [Hdel [Hi1 [Ht1 Hmem1]]]]].
  destruct (delete_loop_state _ _ _ _ _ Hdel) as [D1 [D2 [_ [_ [D5 D6]]]]].
  assert (Hinit3 : apps_initialized s3 = apps_initialized st).
  { pose proof (rel_foldM (fun a b => apps_initialized b = apps_initialized a)
                  (fun _ => eq_refl) (fun a b c H1 H2 => eq_trans H2 H1)
                  delete_module (dropped_files w exit (monitored_files st))) as R.
    specialize (R (fun s x _ => fun st0 =>
                     f_equal apps_initialized (delete_module_state s x st0))).
    specialize (R (Some (mk_plan [] [] (length (app_config st)))) s2).
    rewrite Hdel in R. simpl in R. rewrite R. exact A6. }
  assert (Hplug : exists p,
            match plugin with
            | Some pl => st0 <- get ;; foldM (plugin_app pl) (app_config st0) (Some p1)
            | None => ret (Some p1)
            end s3 = (Ok (Some p), s3) /\
            p_total p = p_total p1 /\
            (forall a, In a (p_term p) <->
               In a (p_term p1) \/ In a (plugin_restarts plugin (app_config st))) /\
            (forall a, In a (p_init p) <->
               In a (p_init p1) \/ In a (plugin_restarts plugin (app_config st)))).
  { destruct plugin as [pl|]; simpl.
    - destruct (plugin_loop pl (app_config st) p1 s3) as [p [Hrun H]].
      exists p. split; [|exact H].
      unfold bind, get. rewrite D2, Hc2. exact Hrun.
    - exists p1. unfold ret. repeat split; tauto. }
  destruct Hplug as [p [Hrunp [Htp [Hmp Hip]]]].
  exists p, s3. split.
  - unfold plan_phase. unfold bind at 1. rewrite Hcfg.
    unfold bind at 1. rewrite Hscan.
    unfold bind at 1. unfold get at 1.
    fold (dropped_files w exit (monitored_files s2)). rewrite Hm2.
    unfold bind at 1. rewrite Hdel.
    cbn [foldM]. unfold bind at 1. unfold ret at 1.
    unfold bind at 1. rewrite Hrunp. reflexivity.
  - split; [rewrite Htp, Ht1; reflexivity|].
    split; [now rewrite D1, Hm2|].
    split; [now rewrite D2|].
    split; [rewrite D5; exact A2|].
    split; [assumption|].
    split.
    + rewrite D6. unfold s2, s1. proj_simpl. rewrite A5.
      rewrite !lifecycle_events_app, lifecycle_events_threads,
        lifecycle_events_logs. now rewrite !app_nil_r.
    + split.
      * intros a. rewrite Hmp, Hmem1. simpl. tauto.
      * intros a. rewrite Hip, Hi1. simpl. tauto.
Qed.

Lemma in_sync_quiet (w : world) (st : state) :
  w_config_is_file w = false -> in_sync w st ->
  detects_change w st = false /\
  files_seen w (w_py_files w) (monitored_files st) /\
  dropped_files w false (monitored_files st) = [].
Proof.
  intros Hf [H1 [H2 H3]]. split; [now apply H1|]. split; [assumption|].
  exact (deleted_modules_none w _ H3).
Qed.

(** X11. A cycle for the restart of a plugin, on records in sync with the
    files and with the configuration in the apps directory: the plan holds,
    in both sets, exactly the sections other than [global_modules] that
    have no [plugin] key, or whose [plugin] list is not empty and either
    holds the plugin or the restart is for all plugins ([__ALL__]).  A
    section with an empty [plugin] list is never restarted.  No module is
    loaded and the stored configuration and the registry are as before. *)
Theorem plugin_restart_plan (w : world) (pl : string) (st : state) :
  w_config_is_file w = false ->
  in_sync w st ->
  global_modules_keyed (app_config st) ->
  exists p st',
    plan_phase w (Some pl) false st = (Ok (Some p, []), st') /\
    (forall a, In a (p_term p) <->
       exists e, In (a, e) (app_config st) /\ restarted_by pl (a, e) = true) /\
    (forall a, In a (p_init p) <->
       exists e, In (a, e) (app_config st) /\ restarted_by pl (a, e) = true) /\
    app_config st' = app_config st /\
    objects st' = objects st.
Proof.
  intros Hf Hs Hk.
  destruct (in_sync_quiet w st Hf Hs) as [Hd [Hseen Hdrop]].
  destruct (plan_phase_quiet w (Some pl) false st Hd Hseen Hk)
    as [p [st' [Hrun [_ [_ [Hc [Ho [_ [_ [Hterm Hinit]]]]]]]]]].
  assert (Hmem : forall a,
            In a (plugin_restarts (Some pl) (app_config st)) <->
            exists e, In (a, e) (app_config st) /\ restarted_by pl (a, e) = true).
  { intros a. simpl. rewrite in_map_iff. split.
    - intros [[k e] [<- Hin]]. apply filter_In in Hin. now exists e.
    - intros [e [Hin Hr]]. exists (a, e). split; [reflexivity|].
      apply filter_In. now split. }
  exists p, st'. split; [assumption|]. split; [|split; [|now split]].
  - intros a. rewrite Hterm, Hdrop, Hmem. split; [|tauto].
    intros [[f [[] _]]|H]. exact H.
  - intros a. rewrite Hinit. apply Hmem.
Qed.

(** X12. A cycle that finds the configuration unchanged and no new or
    modified file, but misses monitored files: the plan that leaves the
    planning steps has an empty initialize set, and its terminate set holds
    exactly the apps of the modules of the missing files; those files are
    no longer monitored, and the sections of the apps stay in the stored
    configuration. *)
Theorem deleted_module_terminates_its_apps (w : world) (st : state) :
  detects_change w st = false ->
  files_seen w (w_py_files w) (monitored_files st) ->
  global_modules_keyed (app_config st) ->
  exists p st',
    plan_phase w None false st = (Ok (Some p, []), st') /\
    p_init p = [] /\
    (forall a, In a (p_term p) <->
       apps_of_files (app_config st) (deleted_modules w (monitored_files st)) a) /\
    (forall f, In f (deleted_modules w (monitored_files st)) ->
       dict_get f (monitored_files st') = None) /\
    (forall f, ~ In f (deleted_modules w (monitored_files st)) ->
       dict_get f (monitored_files st') = dict_get f (monitored_files st)) /\
    app_config st' = app_config st.
Proof.
  intros Hd Hseen Hk.
  destruct (plan_phase_quiet w None false st Hd Hseen Hk)
    as [p [st' [Hrun [_ [Hm [Hc [_ [_ [_ [Hterm Hinit]]]]]]]]]].
  change (dropped_files w false (monitored_files st))
    with (deleted_modules w (monitored_files st)) in *.
  exists p, st'. split; [assumption|]. split.
  - apply no_member_nil. intros a. rewrite Hinit. simpl. tauto.
  - split.
    + intros a. rewrite Hterm. simpl. tauto.
    + split; [|split; [|assumption]].
      * intros f Hf. rewrite Hm, dict_get_del_all.
        apply mem_In in Hf. now rewrite Hf.
      * intros f Hf. rewrite Hm, dict_get_del_all.
        apply mem_false in Hf. now rewrite Hf.
Qed.

Lemma state_chain_in_sync : in_sync world_chain state_chain.
Proof.
  apply (cycle_establishes_sync prio_lt_float world_chain None initial_state
           state_chain (Some (mk_plan ["top"; "base"; "mid"] [] 3)));
    [reflexivity | vm_compute; reflexivity].
Qed.

Lemma plugin_restart_plan_witness :
  exists p st',
    plan_phase world_chain (Some "HASS") false state_chain
    = (Ok (Some p, []), st') /\
    (forall a, In a (p_term p) <->
       exists e, In (a, e) (app_config state_chain) /\
                 restarted_by "HASS" (a, e) = true) /\
    (forall a, In a (p_init p) <->
       exists e, In (a, e) (app_config state_chain) /\
                 restarted_by "HASS" (a, e) = true) /\
    app_config st' = app_config state_chain /\
    objects st' = objects state_chain.
Proof.
  apply (plugin_restart_plan world_chain "HASS" state_chain).
  - reflexivity.
  - exact state_chain_in_sync.
  - exact cfg_chain_keyed.
Defined.

(** A restart for all plugins leaves the app with the empty list alone; a
    restart of one plugin restarts the apps that list it and the app
    without the key. *)
Example plugin_restart_sections :
  map fst (filter (restarted_by "__ALL__") cfg_plugins)
  = ["hass_app"; "mqtt_app"; "plain_app"] /\
  map fst (filter (restarted_by "MQTT") cfg_plugins)
  = ["mqtt_app"; "plain_app"].
Proof. split; reflexivity. Qed.

Lemma state_chain_files_seen (w : world) :
  w_app_dir w = "/conf/apps" ->
  incl (w_py_files w)
       [("/conf/apps/top_mod.py", Some 3%Z);
        ("/conf/apps/base_mod.py", Some 3%Z);
        ("/conf/apps/mid_mod.py", Some 4%Z)] ->
  files_seen w (w_py_files w) (monitored_files state_chain).
Proof.
  intros Hd Hincl f ts Hin _. apply Hincl in Hin.
  destruct Hin as [H|[H|[H|[]]]]; inversion H; subst;
    eexists; (split; [vm_compute; reflexivity | reflexivity]).
Qed.

Lemma deleted_module_terminates_its_apps_witness :
  exists p st',
    plan_phase world_mid_deleted None false state_chain
    = (Ok (Some p, []), st') /\
    p_init p = [] /\
    (forall a, In a (p_term p) <->
       apps_of_files (app_config state_chain)
         (deleted_modules world_mid_deleted (monitored_files state_chain)) a) /\
    (forall f, In f (deleted_modules world_mid_deleted
                       (monitored_files state_chain)) ->
       dict_get f (monitored_files st') = None) /\
    (forall f, ~ In f (deleted_modules world_mid_deleted
                         (monitored_files state_chain)) ->
       dict_get f (monitored_files st') = dict_get f (monitored_files state_chain)) /\
    app_config st' = app_config state_chain.
Proof.
  apply (deleted_module_terminates_its_apps world_mid_deleted state_chain).
  - vm_compute. reflexivity.
  - apply state_chain_files_seen; [reflexivity|].
    intros x [H|[H|[]]]; subst; simpl; auto.
  - exact cfg_chain_keyed.
Defined.

(** The whole cycle after [mid_mod.py] was removed: [mid] and its dependent
    [top] are terminated, and nothing is constructed. *)
Example mid_deleted_cycle :
  let res := check_app_updates prio_lt_float world_mid_deleted None false
               state_chain in
  fst res = Ok (Some (mk_plan [] ["mid"] 3)) /\
  trace (snd res)
  = trace state_chain ++ [EvTermObject "top"; EvTermObject "mid"] /\
  dict_keys (objects (snd res)) = ["base"] /\
  dict_keys (app_config (snd res)) = ["top"; "base"; "mid"].
Proof. vm_compute. repeat split; reflexivity. Qed.

(** ** The last cycle *)

Lemma init_events_of_lifecycle (tr : list event) :
  init_events (lifecycle_events tr) = init_events tr.
Proof.
  induction tr as [|e tr IH]; [reflexivity|].
  unfold init_events, lifecycle_events in *.
  destruct e; simpl; rewrite ?IH; reflexivity.
Qed.

Lemma dropped_files_exit (w : world) (monitored : dict Z) :
  dropped_files w true monitored = dict_keys monitored.
Proof.
  unfold dropped_files. induction (dict_keys monitored) as [|f l IH];
    [reflexivity|].
  simpl. rewrite orb_true_r. now f_equal.
Qed.

Lemma del_all_keys {V : Type} (d : dict V) :
  forall l, incl (dict_keys d) l ->
    fold_left (fun m f => dict_del f m) l d = [].
Proof.
  intros l Hincl.
  assert (H : forall k, dict_get k (fold_left (fun m f => dict_del f m) l d) = None).
  { intros k. rewrite dict_get_del_all.
    destruct (mem k l) eqn:E; [reflexivity|].
    apply dict_get_None. intros Hk. apply mem_false in E. auto. }
  destruct (fold_left (fun m f => dict_del f m) l d) as [|[k v] r];
    [reflexivity|].
  specialize (H k). simpl in H. rewrite String.eqb_refl in H. discriminate.
Qed.

(** Without a cycle every app is yielded. *)
Lemma acyclic_all_yielded (cfg : config) :
  NoDup (dict_keys cfg) -> acyclic (build_deps cfg) ->
  forall a, In a (dict_keys cfg) ->
    In a (fst (topological_sort (build_deps cfg))).
Proof.
  intros Hnd Hacyc a Ha.
  assert (Hsrc : NoDup (map fst (build_deps cfg)))
    by (now rewrite build_deps_names).
  destruct (topological_sort (build_deps cfg)) as [order e] eqn:Hrun.
  destruct (topological_sort_spec _ Hsrc order e Hrun) as [_ Hout].
  cbn [fst]. rewrite <- build_deps_names in Ha.
  destruct e as [|stuck|]; simpl in Hout.
  - eapply Permutation_in; [apply Permutation_sym; exact Hout | exact Ha].
  - exfalso. destruct Hout as [Hne [Hperm Hstuck]].
    destruct (finite_successors_cycle (depends_on (build_deps cfg))
                (length (map fst stuck)) (map fst stuck)) as [x Hx].
    + apply le_n.
    + destruct stuck; [congruence | discriminate].
    + intros x Hx. apply in_map_iff in Hx. destruct Hx as [[n ds'] [E Hin]].
      simpl in E. subst n.
      rewrite Forall_forall in Hstuck. destruct (Hstuck _ Hin) as [Hnz Hdeps].
      simpl in *. destruct ds' as [|d ds']; [congruence|].
      destruct (Hdeps d (or_introl eq_refl)) as [Hdep Hnot].
      exists d. split; [|assumption].
      destruct Hdep as [ds [Hs Hd]].
      pose proof (build_deps_closed cfg x ds d Hs Hd) as Hname.
      eapply Permutation_in in Hname; [|apply Permutation_sym; exact Hperm].
      apply in_app_or in Hname. destruct Hname; [assumption | contradiction].
    + exact (Hacyc x Hx).
  - destruct Hout.
Qed.

(** The terminate phase on a non-empty set, with the state it leaves. *)
Lemma terminate_phase_exact (prio_lt : prio -> prio -> bool) (p : plan)
  (st : state) :
  p_term p <> [] ->
  exists prio_apps logs,
    snd (get_app_deps_and_prios (app_config st) (p_term p)) = Ok prio_apps /\
    terminate_phase prio_lt (Some p) st
    = (Ok tt,
       terminate_all (sorted_keys_reverse prio_lt prio_apps)
         (add_events (map EvLog logs) st)).
Proof.
  intros Hne. unfold terminate_phase.
  destruct (p_term p) as [|a0 rest] eqn:Ep; [congruence|]. clear Hne.
  destruct (run_prios_spec (a0 :: rest) st) as [m [Hm Hrun]].
  exists m, (fst (get_app_deps_and_prios (app_config st) (a0 :: rest))).
  split; [assumption|].
  unfold bind at 1. rewrite Hrun. apply terminate_loop_spec.
Qed.

(** A cycle whose plan has no module to load and nothing to initialize:
    after the plan only the terminate phase does anything. *)
Lemma quiet_cycle (prio_lt : prio -> prio -> bool) (w : world) (exit : bool)
  (st s1 s2 : state) (p : plan) :
  w_apps_enabled w = true ->
  plan_phase w None exit st = (Ok (Some p, []), s1) ->
  p_init p = [] ->
  terminate_phase prio_lt (Some p) s1 = (Ok tt, s2) ->
  check_app_updates prio_lt w None exit st
  = (Ok (Some p), set_apps_initialized true s2).
Proof.
  intros Hen Hrun Hi Hterm.
  unfold check_app_updates. rewrite Hen.
  change (negb true) with false. cbv iota.
  unfold bind at 1. rewrite Hrun. cbn [fst snd].
  unfold bind at 1. rewrite Hterm. cbn [foldM snd].
  unfold bind at 1. unfold ret at 1.
  unfold init_phase. rewrite Hi.
  unfold bind, ret, modify. reflexivity.
Qed.

Lemma init_events_term (l : list string) : init_events (map EvTermObject l) = [].
Proof. induction l; simpl; auto. Qed.

(** X13. [terminate()] after a cycle has run to its end, with nothing
    changed on disk since, in a configuration without a dependency cycle:
    the last cycle returns, forgets every monitored file, constructs and
    initializes nothing, and calls [term_object] on every app whose module
    is the module of a monitored file; none of these apps is left in the
    registry.  The sections stay in the stored configuration. *)
Theorem terminate_stops_every_loaded_app (prio_lt : prio -> prio -> bool)
  (w : world) (st : state) :
  w_apps_enabled w = true ->
  apps_initialized st = true ->
  detects_change w st = false ->
  files_seen w (w_py_files w) (monitored_files st) ->
  global_modules_keyed (app_config st) ->
  NoDup (dict_keys (app_config st)) ->
  acyclic (build_deps (app_config st)) ->
  exists st',
    terminate prio_lt w st = (Ok tt, st') /\
    monitored_files st' = [] /\
    app_config st' = app_config st /\
    init_events (trace st') = init_events (trace st) /\
    forall a,
      apps_of_files (app_config st) (dict_keys (monitored_files st)) a ->
      In (EvTermObject a) (trace st') /\ dict_get a (objects st') = None.
Proof.
  intros Hen Hinit Hd Hseen Hk Hnd Hacyc.
  destruct (plan_phase_quiet w None true st Hd Hseen Hk)
    as [p [s1 [Hrun [_ [Hm [Hc [_ [_ [Hlife [Hterm Hpi]]]]]]]]]].
  rewrite dropped_files_exit in Hm, Hterm.
  assert (Hi : p_init p = []).
  { apply no_member_nil. intros a. rewrite Hpi. simpl. tauto. }
  assert (Hm1 : monitored_files s1 = []).
  { rewrite Hm. apply del_all_keys. apply incl_refl. }
  assert (Hie : init_events (trace s1) = init_events (trace st)).
  { rewrite <- (init_events_of_lifecycle (trace s1)), Hlife.
    apply init_events_of_lifecycle. }
  assert (Hrunt : forall s2,
            terminate_phase prio_lt (Some p) s1 = (Ok tt, s2) ->
            terminate prio_lt w st = (Ok tt, set_apps_initialized true s2)).
  { intros s2 Ht. unfold terminate. unfold bind at 1. unfold get at 1.
    rewrite Hinit. unfold bind at 1.
    rewrite (quiet_cycle prio_lt w true st s1 s2 p Hen Hrun Hi Ht).
    reflexivity. }
  destruct (p_term p) as [|a0 rest] eqn:Ep.
  - exists (set_apps_initialized true s1). split.
    + apply Hrunt. unfold terminate_phase. now rewrite Ep.
    + proj_simpl. split; [assumption|]. split; [assumption|].
      split; [assumption|].
      intros a Ha. exfalso.
      assert (H : In a []) by (apply Hterm; now left). destruct H.
  - destruct (terminate_phase_exact prio_lt p s1) as [m [logs [Hres Ht]]];
      [rewrite Ep; discriminate|].
    rewrite Ep, Hc in Hres.
    destruct (terminate_all_spec (sorted_keys_reverse prio_lt m)
                (add_events (map EvLog logs) s1))
      as [T1 [_ [_ [T4 [_ [T6 T7]]]]]].
    eexists. split; [apply Hrunt; exact Ht|].
    proj_simpl. rewrite T1, T4, T6, T7. proj_simpl.
    split; [assumption|]. split; [assumption|]. split.
    + unfold init_events in *. rewrite !filter_app.
      fold (init_events (map EvLog logs)).
      fold (init_events (map EvTermObject (sorted_keys_reverse prio_lt m))).
      rewrite init_events_logs, init_events_term, !app_nil_r. exact Hie.
    + intros a Ha.
      assert (Hat : In a (a0 :: rest)) by (apply Hterm; now left).
      assert (Hak : In a (dict_keys (app_config st))).
      { destruct Ha as [f [_ [_ [ad [Hin _]]]]].
        change a with (fst (a, App ad)). now apply in_map. }
      assert (HaL : In a (sorted_keys_reverse prio_lt m)).
      { eapply Permutation_in;
          [apply Permutation_sym; apply sorted_keys_reverse_perm|].
        destruct (get_app_deps_and_prios_total (app_config st) (a0 :: rest))
          as [deplist [mall [Hdl [Hmall Hall]]]].
        rewrite Hall in Hres. simpl in Hres. inversion Hres; subst m.
        destruct (build_deplist_spec (app_config st) (a0 :: rest) [])
          as [final [Hdl' [_ [Hincl _]]]]; [intros x []|].
        rewrite Hdl in Hdl'. inversion Hdl'; subst final.
        destruct (prio_apps_of_total (app_config st)) as [m' [Hm' Hkeys]].
        rewrite Hmall in Hm'. inversion Hm'; subst m'.
        pose proof (acyclic_all_yielded _ Hnd Hacyc a Hak) as Hy.
        apply Hkeys in Hy. destruct (dict_get_Some_In _ _ Hy) as [pa Hpa].
        assert (Hg : dict_get a (restrict_to deplist mall) = Some pa).
        { rewrite dict_get_restrict_to.
          assert (Hmem : mem a deplist = true)
            by (apply mem_In; now apply Hincl).
          now rewrite Hmem. }
        apply dict_get_In in Hg. change a with (fst (a, pa)). now apply in_map. }
      split.
      * apply in_or_app. right. now apply in_map.
      * rewrite dict_get_del_all. apply mem_In in HaL. now rewrite HaL.
Qed.

Lemma terminate_stops_every_loaded_app_witness :
  exists st',
    terminate prio_lt_float world_chain state_chain = (Ok tt, st') /\
    monitored_files st' = [] /\
    app_config st' = app_config state_chain /\
    init_events (trace st') = init_events (trace state_chain) /\
    forall a,
      apps_of_files (app_config state_chain)
        (dict_keys (monitored_files state_chain)) a ->
      In (EvTermObject a) (trace st') /\ dict_get a (objects st') = None.
Proof.
  apply (terminate_stops_every_loaded_app prio_lt_float world_chain state_chain).
  - reflexivity.
  - vm_compute. reflexivity.
  - vm_compute. reflexivity.
  - apply state_chain_files_seen; [reflexivity | apply incl_refl].
  - exact cfg_chain_keyed.
  - exact state_chain_nodup.
  - rewrite state_chain_config. exact cfg_chain_acyclic.
Defined.

(** The shutdown of the three apps of [cfg_chain]: dependents first. *)
Example chain_shutdown :
  let res := terminate prio_lt_float world_chain state_chain in
  fst res = Ok tt /\
  trace (snd res)
  = trace state_chain
      ++ [EvTermObject "top"; EvTermObject "mid"; EvTermObject "base"] /\
  objects (snd res) = [] /\ monitored_files (snd res) = [].
Proof. vm_compute. repeat split; reflexivity. Qed.

(** Before a cycle has run to its end, [terminate()] does nothing. *)
Example terminate_before_first_cycle (w : world) :
  terminate prio_lt_float w initial_state = (Ok tt, initial_state).
Proof. reflexivity. Qed.

(** ** The apps of a changed module *)

Lemma apps_per_global_module_In (cfg : config) (module a : string) :
  In a (apps_per_global_module cfg module) <-> lists_global cfg module a.
Proof.
  unfold apps_per_global_module, lists_global. rewrite in_flat_map. split.
  - intros [[k e] [Hin Ha]]. apply in_flat_map in Ha.
    destruct Ha as [gm [Hgm Ha]]. simpl in *.
    destruct (String.eqb_spec gm module) as [->|]; [|destruct Ha].
    destruct Ha as [<-|[]]. now exists e.
  - intros [e [Hin Hm]]. exists (a, e). split; [assumption|].
    apply in_flat_map. exists module. split; [assumption|].
    simpl. rewrite String.eqb_refl. now left.
Qed.

Lemma global_loop (cfg : config) (name : string) (reload : bool) :
  forall gl p st,
    exists p',
      foldM
        (fun apps gm =>
           if String.eqb gm name
           then foldM (plan_reload reload) (apps_per_global_module cfg gm) apps
           else ret apps)
        gl (Some p) st = (Ok (Some p'), st) /\
      p_total p' = p_total p /\
      (forall a, In a (p_init p') <->
         In a (p_init p) \/ (In name gl /\ lists_global cfg name a)) /\
      (forall a, In a (p_term p') <->
         In a (p_term p) \/
         (reload = true /\ In name gl /\ lists_global cfg name a)).
Proof.
  induction gl as [|gm gl IH]; intros p st.
  - exists p. simpl. unfold ret. repeat split; tauto.
  - cbn [foldM]. unfold bind at 1.
    destruct (String.eqb_spec gm name) as [->|Hne].
    + destruct (reload_loop reload (apps_per_global_module cfg name) p st)
        as [p1 [Hrun1 [Ht1 [Hi1 Hm1]]]].
      rewrite Hrun1.
      destruct (IH p1 st) as [p' [Hrun [Ht [Hi Hm]]]].
      exists p'. split; [exact Hrun|]. split; [congruence|]. split.
      * intros a. rewrite Hi, Hi1, apps_per_global_module_In. simpl. tauto.
      * intros a. rewrite Hm, Hm1, apps_per_global_module_In. simpl. tauto.
    + unfold ret at 1.
      destruct (IH p st) as [p' [Hrun [Ht [Hi Hm]]]].
      exists p'. split; [exact Hrun|]. split; [assumption|]. split.
      * intros a. rewrite Hi. simpl. intuition congruence.
      * intros a. rewrite Hm. simpl. intuition congruence.
Qed.

(** X14. The step of the plan for one new or modified file: every app of
    the module of the file, and, when [global_modules] lists that module,
    every app that lists it in its [global_dependencies], joins the
    initialize set; it joins the terminate set too when the file was
    monitored before (a reload) and not when the file is new.  No other app
    joins either set. *)
Theorem changed_module_restarts_its_apps (p : plan) (mc : module_change)
  (st : state) :
  global_modules_keyed (app_config st) ->
  exists p',
    module_apps (Some p) mc st = (Ok (Some p'), st) /\
    p_total p' = p_total p /\
    (forall a, In a (p_init p') <->
       In a (p_init p) \/
       touched_by_module (app_config st) (get_module_from_path (m_name mc)) a) /\
    (forall a, In a (p_term p') <->
       In a (p_term p) \/
       (m_reload mc = true /\
        touched_by_module (app_config st) (get_module_from_path (m_name mc)) a)).
Proof.
  intros Hk.
  destruct (apps_per_module_spec (app_config st)
              (get_module_from_path (m_name mc)) Hk) as [users [Hu Hspec]].
  destruct (reload_loop (m_reload mc) users p st)
    as [p1 [Hrun1 [Ht1 [Hi1 Hm1]]]].
  destruct (global_loop (app_config st) (get_module_from_path (m_name mc))
              (m_reload mc) (global_modules_list (app_config st)) p1 st)
    as [p' [Hrun [Ht [Hi Hm]]]].
  exists p'. split.
  - unfold module_apps. unfold bind at 1. unfold get at 1.
    rewrite Hu. unfold bind at 1. cbn [lift ret].
    unfold bind at 1. rewrite Hrun1. exact Hrun.
  - split; [congruence|]. unfold touched_by_module. split.
    + intros a. rewrite Hi, Hi1, Hspec. tauto.
    + intros a. rewrite Hm, Hm1, Hspec. tauto.
Qed.

Lemma cfg_globals_keyed : global_modules_keyed cfg_globals.
Proof.
  intros k mods Hin. simpl in Hin.
  repeat (destruct Hin as [Hin|Hin]; [inversion Hin; subst; reflexivity || discriminate|]).
  destruct Hin.
Qed.

Lemma changed_module_restarts_its_apps_witness :
  exists p',
    module_apps (Some (mk_plan [] [] 4)) (mk_mod "/conf/apps/shared.py" true)
      (set_app_config cfg_globals initial_state)
    = (Ok (Some p'), set_app_config cfg_globals initial_state) /\
    p_total p' = 4 /\
    (forall a, In a (p_init p') <->
       In a [] \/ touched_by_module cfg_globals "shared" a) /\
    (forall a, In a (p_term p') <->
       In a [] \/ (true = true /\ touched_by_module cfg_globals "shared" a)).
Proof.
  exact (changed_module_restarts_its_apps (mk_plan [] [] 4)
           (mk_mod "/conf/apps/shared.py" true)
           (set_app_config cfg_globals initial_state) cfg_globals_keyed).
Defined.

Example shared_module_changed :
  fst (module_apps (Some (mk_plan [] [] 4)) (mk_mod "/conf/apps/shared.py" true)
         (set_app_config cfg_globals initial_state))
  = Ok (Some (mk_plan ["hello"; "third"] ["hello"; "third"] 4)).
Proof. reflexivity. Qed.

(** ** The scan of the module files *)

Lemma scan_file_step (w : world) (acc : list module_change) (f : string)
  (mt : option Z) (st : state) :
  exists hd st1,
    scan_file w acc (f, mt) st = (Ok (acc ++ hd), st1) /\
    (forall g, g <> f ->
       dict_get g (monitored_files st1) = dict_get g (monitored_files st)) /\
    (forall g r, In (mk_mod g r) hd <->
       g = f /\ f <> init_py w /\
       exists ts, mt = Some ts /\
                  scan_verdict (dict_get f (monitored_files st)) ts r) /\
    (forall ts r, mt = Some ts -> f <> init_py w ->
       scan_verdict (dict_get f (monitored_files st)) ts r ->
       dict_get f (monitored_files st1) = Some ts).
Proof.
  unfold scan_file. cbn [fst snd]. fold (init_py w).
  destruct (String.eqb_spec f (init_py w)) as [Hi|Hi].
  - exists [], st. rewrite app_nil_r. unfold ret.
    split; [reflexivity|]. split; [reflexivity|]. split.
    + intros g r. split; [intros [] | intros [_ [H _]]; contradiction].
    + intros ts r _ H. contradiction.
  - destruct mt as [ts|].
    + unfold_monad. cbn [fst snd].
      destruct (dict_get f (monitored_files st)) as [seen|] eqn:Hg.
      * destruct (Z.ltb seen ts) eqn:Hlt.
        -- exists [mk_mod f true]. eexists. split; [reflexivity|].
           proj_simpl. apply Z.ltb_lt in Hlt. split; [|split].
           ++ intros g Hne. rewrite dict_get_set.
              destruct (String.eqb_spec f g); [congruence | reflexivity].
           ++ intros g r. split.
              ** intros [H|[]]. inversion H; subst.
                 split; [reflexivity|]. split; [assumption|].
                 exists ts. split; [reflexivity|]. simpl. now split.
              ** intros [-> [_ [ts' [Hts [_ ->]]]]]. now left.
           ++ intros ts' r Hts _ _. inversion Hts; subst.
              now rewrite dict_get_set, String.eqb_refl.
        -- exists [], st. rewrite app_nil_r. split; [reflexivity|].
           apply Z.ltb_ge in Hlt. split; [reflexivity|]. split.
           ++ intros g r. split; [intros []|].
              intros [_ [_ [ts' [Hts [Hc _]]]]]. inversion Hts; subst. lia.
           ++ intros ts' r Hts _ [Hc _]. inversion Hts; subst. lia.
      * exists [mk_mod f false]. eexists. split; [reflexivity|].
        proj_simpl. split; [|split].
        -- intros g Hne. rewrite dict_get_set.
           destruct (String.eqb_spec f g); [congruence | reflexivity].
        -- intros g r. split.
           ++ intros [H|[]]. inversion H; subst.
              split; [reflexivity|]. split; [assumption|]. now exists ts.
           ++ intros [-> [_ [ts' [Hts Hr]]]]. simpl in Hr. subst r. now left.
        -- intros ts' r Hts _ _. inversion Hts; subst.
           now rewrite dict_get_set, String.eqb_refl.
    + unfold warn, emit. unfold_monad. cbn [fst snd].
      exists []. eexists. rewrite app_nil_r. split; [reflexivity|].
      proj_simpl. split; [reflexivity|]. split.
      * intros g r. split; [intros []|].
        intros [_ [_ [ts [Hc _]]]]. discriminate.
      * intros ts r Hc. discriminate.
Qed.

Lemma scan_loop (w : world) :
  forall files acc st,
    NoDup (map fst files) ->
    exists mods st',
      foldM (scan_file w) files acc st = (Ok (acc ++ mods), st') /\
      (forall g, ~ In g (map fst files) ->
         dict_get g (monitored_files st') = dict_get g (monitored_files st)) /\
      (forall g r, In (mk_mod g r) mods <->
         g <> init_py w /\
         exists ts, In (g, Some ts) files /\
                    scan_verdict (dict_get g (monitored_files st)) ts r) /\
      (forall g ts r, In (g, Some ts) files -> g <> init_py w ->
         scan_verdict (dict_get g (monitored_files st)) ts r ->
         dict_get g (monitored_files st') = Some ts).
Proof.
  induction files as [|[f mt] files IH]; intros acc st Hnd.
  - exists [], st. rewrite app_nil_r. simpl. unfold ret.
    split; [reflexivity|]. split; [reflexivity|]. split.
    + intros g r. split; [intros [] | intros [_ [ts [[] _]]]].
    + intros g ts r [].
  - inversion Hnd as [|? ? Hf Hnd']; subst.
    destruct (scan_file_step w acc f mt st) as [hd [st1 [Hrun1 [Hk1 [Hm1 Hs1]]]]].
    destruct (IH (acc ++ hd) st1 Hnd') as [mods [st' [Hrun [Hk [Hm Hs]]]]].
    assert (Hrest : forall g, In g (map fst files) ->
              dict_get g (monitored_files st1) = dict_get g (monitored_files st)).
    { intros g Hg. apply Hk1. intros ->. contradiction. }
    exists (hd ++ mods), st'. split.
    + cbn [foldM]. unfold bind at 1. rewrite Hrun1.
      rewrite app_assoc. exact Hrun.
    + split; [|split].
      * intros g Hg. simpl in Hg.
        rewrite Hk by tauto. apply Hk1. intros ->. tauto.
      * intros g r. rewrite in_app_iff, Hm1, Hm. split.
        -- intros [[-> [Hi [ts [-> Hv]]]]|[Hi [ts [Hin Hv]]]].
           ++ split; [assumption|]. exists ts. split; [now left | assumption].
           ++ split; [assumption|]. exists ts. split; [now right|].
              rewrite <- Hrest; [assumption|].
              change g with (fst (g, Some ts)). now apply in_map.
        -- intros [Hi [ts [[Heq|Hin] Hv]]].
           ++ inversion Heq; subst. left. split; [reflexivity|].
              split; [assumption|]. now exists ts.
           ++ right. split; [assumption|]. exists ts. split; [assumption|].
              rewrite Hrest; [assumption|].
              change g with (fst (g, Some ts)). now apply in_map.
      * intros g ts r [Heq|Hin] Hi Hv.
        -- inversion Heq; subst. rewrite Hk by assumption.
           now apply (Hs1 ts r).
        -- apply (Hs g ts r); [assumption | assumption|].
           rewrite Hrest; [assumption|].
           change g with (fst (g, Some ts)). now apply in_map.
Qed.

(** X15. The scan of the module files, when the walk names each file once:
    it returns, and the list it builds names exactly the files (other than
    the [__init__.py] of the apps directory) that can be read and are new
    or newer than their record; the [reload] flag of an entry tells whether
    the file had a record; every such file is then recorded with its
    time, and the record of a file the walk does not name is untouched. *)
Theorem scan_finds_the_changed_files (w : world) (st : state) :
  NoDup (map fst (w_py_files w)) ->
  exists mods st',
    foldM (scan_file w) (w_py_files w) [] st = (Ok mods, st') /\
    (forall f, file_in_modules f mods = true <->
               file_changed w (monitored_files st) f) /\
    (forall f r, In (mk_mod f r) mods ->
       (r = true <-> dict_get f (monitored_files st) <> None)) /\
    (forall f ts, In (f, Some ts) (w_py_files w) ->
       file_changed w (monitored_files st) f ->
       dict_get f (monitored_files st') = Some ts) /\
    (forall f, ~ In f (map fst (w_py_files w)) ->
       dict_get f (monitored_files st') = dict_get f (monitored_files st)).
Proof.
  intros Hnd.
  destruct (scan_loop w (w_py_files w) [] st Hnd)
    as [mods [st' [Hrun [Hk [Hm Hs]]]]].
  exists mods, st'. split; [exact Hrun|]. split; [|split; [|split]].
  - intros f. unfold file_in_modules, file_changed. rewrite existsb_exists.
    split.
    + intros [[g r] [Hin Hg]]. simpl in Hg. apply String.eqb_eq in Hg. subst g.
      apply Hm in Hin. destruct Hin as [Hi [ts [Hin Hv]]].
      split; [assumption|]. exists ts. split; [assumption|].
      unfold scan_verdict in Hv.
      destruct (dict_get f (monitored_files st)); [tauto | exact I].
    + intros [Hi [ts [Hin Hv]]].
      exists (mk_mod f (match dict_get f (monitored_files st) with
                        | Some _ => true
                        | None => false
                        end)).
      split; [|apply String.eqb_refl].
      apply Hm. split; [assumption|]. exists ts. split; [assumption|].
      unfold scan_verdict.
      destruct (dict_get f (monitored_files st)); [now split | reflexivity].
  - intros f r Hin. apply Hm in Hin. destruct Hin as [_ [ts [_ Hv]]].
    unfold scan_verdict in Hv.
    destruct (dict_get f (monitored_files st)).
    + destruct Hv as [_ ->]. split; [discriminate | reflexivity].
    + subst r. split; [discriminate | congruence].
  - intros f ts Hin [Hi [ts' [Hin' Hv]]].
    assert (ts' = ts).
    { clear - Hnd Hin Hin'. induction (w_py_files w) as [|[g mt] l IH];
        [destruct Hin|].
      inversion Hnd as [|? ? Hg Hl]; subst. simpl in *.
      destruct Hin as [Heq|Hin]; destruct Hin' as [Heq'|Hin'].
      - congruence.
      - inversion Heq; subst. exfalso. apply Hg.
        change f with (fst (f, Some ts')). now apply in_map.
      - inversion Heq'; subst. exfalso. apply Hg.
        change f with (fst (f, Some ts)). now apply in_map.
      - now apply IH. }
    subst ts'.
    apply (Hs f ts (match dict_get f (monitored_files st) with
                    | Some _ => true
                    | None => false
                    end)); [assumption | assumption|].
    unfold scan_verdict.
    destruct (dict_get f (monitored_files st)); [now split | reflexivity].
  - exact Hk.
Qed.

Lemma scan_finds_the_changed_files_witness :
  exists mods st',
    foldM (scan_file world_base_modified) (w_py_files world_base_modified) []
      state_chain = (Ok mods, st') /\
    (forall f, file_in_modules f mods = true <->
               file_changed world_base_modified (monitored_files state_chain) f) /\
    (forall f r, In (mk_mod f r) mods ->
       (r = true <-> dict_get f (monitored_files state_chain) <> None)) /\
    (forall f ts, In (f, Some ts) (w_py_files world_base_modified) ->
       file_changed world_base_modified (monitored_files state_chain) f ->
       dict_get f (monitored_files st') = Some ts) /\
    (forall f, ~ In f (map fst (w_py_files world_base_modified)) ->
       dict_get f (monitored_files st') = dict_get f (monitored_files state_chain)).
Proof.
  apply (scan_finds_the_changed_files world_base_modified state_chain).
  simpl. repeat constructor; simpl; intuition discriminate.
Defined.

(** ** The module name of a file *)

Lemma append_assoc (a b c : string) : ((a ++ b) ++ c = a ++ (b ++ c))%string.
Proof. induction a as [|x a IH]; simpl; [reflexivity | now rewrite IH]. Qed.

Lemma append_nil_r (a : string) : (a ++ "" = a)%string.
Proof. induction a as [|x a IH]; simpl; [reflexivity | now rewrite IH]. Qed.

Lemma has_char_app (c : ascii) (a b : string) :
  has_char c (a ++ b) = has_char c a || has_char c b.
Proof.
  induction a as [|x a IH]; simpl; [reflexivity|].
  now rewrite IH, orb_assoc.
Qed.

Lemma basename_aux_plain (q : string) :
  has_char "/" q = false ->
  forall cur, basename_aux q cur = (cur ++ q)%string.
Proof.
  induction q as [|c q IH]; intros H cur; simpl in *.
  - now rewrite append_nil_r.
  - apply orb_false_iff in H. destruct H as [Hc Hq].
    rewrite Hc, (IH Hq), append_assoc. reflexivity.
Qed.

Lemma basename_aux_app (p q : string) :
  forall cur, basename_aux (p ++ q) cur = basename_aux q (basename_aux p cur).
Proof.
  induction p as [|c p IH]; intros cur; simpl; [reflexivity|].
  destruct (Ascii.eqb c "/"); apply IH.
Qed.

Lemma basename_aux_slash (a : string) :
  ends_with_slash a = true -> forall cur, basename_aux a cur = "".
Proof.
  induction a as [|c a IH]; intros H cur; [discriminate|].
  destruct a as [|d a'].
  - simpl in *. now rewrite H.
  - cbn [basename_aux]. destruct (Ascii.eqb c "/"); apply IH; exact H.
Qed.

(** The base name of a joined path is the name that was joined. *)
Lemma basename_path_join (dir name : string) :
  has_char "/" name = false -> basename (path_join dir name) = name.
Proof.
  intros H. unfold basename, path_join.
  destruct dir as [|c dir]; [now rewrite basename_aux_plain|].
  destruct (ends_with_slash (String c dir)) eqn:E.
  - rewrite basename_aux_app, (basename_aux_slash _ E).
    now rewrite basename_aux_plain.
  - rewrite basename_aux_app.
    change ("/" ++ name)%string with (String "/" name).
    cbn [basename_aux]. change (Ascii.eqb "/" "/") with true. cbv iota.
    now rewrite basename_aux_plain.
Qed.

Lemma list_ascii_app (a b : string) :
  list_ascii_of_string (a ++ b)
  = list_ascii_of_string a ++ list_ascii_of_string b.
Proof. induction a as [|x a IH]; simpl; [reflexivity | now rewrite IH]. Qed.

Lemma split_at_dot_first (l1 l2 : list ascii) :
  existsb (fun c => Ascii.eqb c ".") l1 = false ->
  split_at_dot (l1 ++ "."%char :: l2) = Some (l1, l2).
Proof.
  induction l1 as [|c l1 IH]; intros H; simpl in *.
  - reflexivity.
  - apply orb_false_iff in H. destruct H as [Hc Hl].
    now rewrite Hc, (IH Hl).
Qed.

Lemma has_char_existsb (c : ascii) (s : string) :
  has_char c s = existsb (fun d => Ascii.eqb d c) (list_ascii_of_string s).
Proof. induction s as [|d s IH]; simpl; [reflexivity | now rewrite IH]. Qed.

Lemma existsb_rev {A : Type} (f : A -> bool) (l : list A) :
  existsb f (rev l) = existsb f l.
Proof.
  induction l as [|x l IH]; simpl; [reflexivity|].
  rewrite existsb_app, IH. simpl. rewrite orb_false_r. apply orb_comm.
Qed.

Lemma splitext_root_plain (m ext : string) :
  existsb (fun c => negb (Ascii.eqb c ".")) (list_ascii_of_string m) = true ->
  has_char "." ext = false ->
  splitext_root (m ++ "." ++ ext) = m.
Proof.
  intros Hm He. unfold splitext_root.
  rewrite list_ascii_app.
  change (list_ascii_of_string ("." ++ ext))
    with ("."%char :: list_ascii_of_string ext).
  rewrite rev_app_distr. cbn [rev]. rewrite <- app_assoc. cbn [app].
  rewrite split_at_dot_first.
  - rewrite existsb_rev, Hm, rev_involutive.
    apply string_of_list_ascii_of_string.
  - rewrite existsb_rev, <- has_char_existsb. exact He.
Qed.

(** X16. The module name of a file in a directory: for a name [m] without
    ["/"] that has a character other than a dot, and an extension without
    ["/"] and without dot, the module of the path that [os.path.join] makes
    of a directory and [m.ext] is [m]. *)
Theorem module_of_joined_path (dir m ext : string) :
  plain_name m = true -> plain_ext ext = true ->
  get_module_from_path (path_join dir (m ++ "." ++ ext)) = m.
Proof.
  unfold plain_name, plain_ext. intros Hm He.
  apply andb_true_iff in Hm. destruct Hm as [Hs Hd].
  apply andb_true_iff in He. destruct He as [Hes Hed].
  apply negb_true_iff in Hs, Hes, Hed.
  unfold get_module_from_path.
  rewrite basename_path_join.
  - now apply splitext_root_plain.
  - rewrite !has_char_app, Hs, Hes. reflexivity.
Qed.

Lemma module_of_joined_path_witness :
  get_module_from_path (path_join "/conf/apps" ("hello.world" ++ "." ++ "py"))
  = "hello.world".
Proof.
  apply (module_of_joined_path "/conf/apps" "hello.world" "py"); reflexivity.
Defined.

(** Names that start with dots keep them: the file [.py] is the module
    [.py], and a name without dot is its own module. *)
Example module_of_dot_names :
  get_module_from_path "/conf/apps/.py" = ".py" /\
  get_module_from_path "/conf/apps/..hidden.py" = "..hidden" /\
  get_module_from_path "/conf/apps/README" = "README" /\
  get_module_from_path "/conf/apps/sub/" = "".
Proof. repeat split; reflexivity. Qed.

(** ** The flag [apps_initialized] *)

Lemma same_initialized_refl st : same_initialized st st.
Proof. reflexivity. Qed.

Lemma same_initialized_trans a b c :
  same_initialized a b -> same_initialized b c -> same_initialized a c.
Proof. unfold same_initialized. congruence. Qed.

Lemma plan_phase_initialized w plugin ex :
  run_rel (plan_phase w plugin ex) same_initialized.
Proof.
  unfold plan_phase. unfold_methods.
  rel_go same_initialized_refl same_initialized_trans ltac:(reflexivity).
Qed.

Lemma run_prios_initialized l :
  run_rel (run_get_app_deps_and_prios l) same_initialized.
Proof.
  unfold_methods.
  rel_go same_initialized_refl same_initialized_trans ltac:(reflexivity).
Qed.

Lemma terminate_phase_initialized lt apps :
  run_rel (terminate_phase lt apps) same_initialized.
Proof.
  unfold terminate_phase.
  destruct apps as [p|]; [|apply (rel_ret _ same_initialized_refl)].
  destruct (p_term p); [apply (rel_ret _ same_initialized_refl)|].
  apply (rel_bind _ same_initialized_trans); [apply run_prios_initialized|intro].
  unfold_methods.
  rel_go same_initialized_refl same_initialized_trans ltac:(reflexivity).
Qed.

Lemma load_modules_initialized w mods apps :
  run_rel (foldM (load_module w) mods apps) same_initialized.
Proof.
  apply (rel_foldM _ same_initialized_refl same_initialized_trans).
  intros s x _. unfold_methods.
  rel_go same_initialized_refl same_initialized_trans ltac:(reflexivity).
Qed.

Lemma init_phase_initialized lt w apps :
  run_rel (init_phase lt w apps) same_initialized.
Proof.
  unfold init_phase.
  destruct apps as [p|]; [|apply (rel_ret _ same_initialized_refl)].
  destruct (p_init p); [apply (rel_ret _ same_initialized_refl)|].
  apply (rel_bind _ same_initialized_trans); [apply run_prios_initialized|intro].
  unfold_methods.
  rel_go same_initialized_refl same_initialized_trans ltac:(reflexivity).
Qed.

(** X17. [apps_initialized] is set by a cycle that runs to its end with
    apps switched on, and by nothing else: a cycle that raises, or that
    returns at once because apps are switched off, leaves the flag as it
    was.  So after a first cycle that raised, [terminate()] does nothing. *)
Theorem only_a_completed_cycle_sets_the_flag (prio_lt : prio -> prio -> bool)
  (w : world) (plugin : option string) (ex : bool) (st : state) :
  (forall e st', check_app_updates prio_lt w plugin ex st = (Raise e, st') ->
     apps_initialized st' = apps_initialized st) /\
  (forall r st', check_app_updates prio_lt w plugin ex st = (Ok r, st') ->
     apps_initialized st' = w_apps_enabled w || apps_initialized st) /\
  (forall e st' w',
     apps_initialized st = false ->
     check_app_updates prio_lt w plugin ex st = (Raise e, st') ->
     terminate prio_lt w' st' = (Ok tt, st')).
Proof.
  assert (Hcases :
    match check_app_updates prio_lt w plugin ex st with
    | (Raise _, st') => apps_initialized st' = apps_initialized st
    | (Ok _, st') => apps_initialized st' = w_apps_enabled w || apps_initialized st
    end).
  { unfold check_app_updates. destruct (w_apps_enabled w); simpl; [|reflexivity].
    pose proof (plan_phase_initialized w plugin ex st) as R1.
    unfold bind at 1.
    destruct (plan_phase w plugin ex st) as [[planned|x] s1]; [|exact R1].
    pose proof (terminate_phase_initialized prio_lt (fst planned) s1) as R2.
    unfold bind at 1.
    destruct (terminate_phase prio_lt (fst planned) s1) as [[[]|x] s2];
      [|unfold same_initialized in *; simpl in *; congruence].
    pose proof (load_modules_initialized w (snd planned) (fst planned) s2) as R3.
    unfold bind at 1.
    destruct (foldM (load_module w) (snd planned) (fst planned) s2)
      as [[apps|x] s3];
      [|unfold same_initialized in *; simpl in *; congruence].
    pose proof (init_phase_initialized prio_lt w apps s3) as R4.
    unfold bind at 1.
    destruct (init_phase prio_lt w apps s3) as [[[]|x] s4];
      [|unfold same_initialized in *; simpl in *; congruence].
    reflexivity. }
  split; [|split].
  - intros e st' Hrun. now rewrite Hrun in Hcases.
  - intros r st' Hrun. now rewrite Hrun in Hcases.
  - intros e st' w' Hf Hrun. rewrite Hrun in Hcases.
    unfold terminate, bind, get. rewrite Hcases, Hf. reflexivity.
Qed.

(** The first cycle in [world_hello_fails] raises; the flag stays unset and
    [terminate()] does nothing. *)
Example failed_first_cycle_flag :
  let res := check_app_updates prio_lt_float world_hello_fails None false
               initial_state in
  fst res = Raise TypeError_list_index /\
  apps_initialized (snd res) = false /\
  terminate prio_lt_float world_hello_fails (snd res) = (Ok tt, snd res).
Proof. vm_compute. repeat split; reflexivity. Qed.

(** ** The registry *)

Lemma dict_get_del_same {V : Type} (k : string) (d : dict V) :
  dict_get k (dict_del k d) = None.
Proof. rewrite dict_get_del. now rewrite String.eqb_refl. Qed.

(** X18. The registry between [init_object], [get_app] and [term_object]:
    when the module of the section is the module of a monitored file, the
    [pin_thread] of the section (if any) is a thread of the pool, and the
    class is found and its constructor returns, [get_app] after
    [init_object] gives the new object with that pin ([-1] without
    [pin_thread]); after [term_object] it gives [None], and the entries of
    the other apps are those from before. *)
Theorem registry_round_trip (w : world) (name : string) (a : app_def)
  (pin : Z) (st : state) :
  dict_get name (app_config st) = Some (App a) ->
  get_file_from_module (monitored_files st) (ad_module a) <> None ->
  pin_of w a = Some pin ->
  w_construct w name = Constructed ->
  exists st1 st2,
    init_object w name st = (Ok tt, st1) /\
    fst (get_app name st1)
    = Ok (Some (mk_object (ad_module a) (ad_class a) pin)) /\
    term_object name st1 = (Ok tt, st2) /\
    fst (get_app name st2) = Ok None /\
    forall other, other <> name ->
      fst (get_app other st1) = fst (get_app other st) /\
      fst (get_app other st2) = fst (get_app other st).
Proof.
  intros Hc Hf Hp Hw.
  destruct (get_file_from_module (monitored_files st) (ad_module a)) as [f|] eqn:Ef;
    [clear Hf | congruence].
  assert (Hinit : init_object w name st
            = (Ok tt,
               set_objects
                 (dict_set name (mk_object (ad_module a) (ad_class a) pin)
                    (objects (add_events [EvInitObject name] st)))
                 (add_events [EvInitObject name] st))).
  { unfold init_object, emit. unfold_monad. cbn [fst snd].
    change (app_config (add_events [EvInitObject name] st)) with (app_config st).
    change (monitored_files (add_events [EvInitObject name] st))
      with (monitored_files st).
    rewrite Hc, Ef. unfold pin_of in Hp.
    destruct (ad_pin_thread a) as [q|].
    - destruct (Z.ltb q 0 || Z.leb (w_threads w) q); [discriminate|].
      inversion Hp; subst q. rewrite Hw. reflexivity.
    - inversion Hp; subst pin. rewrite Hw. reflexivity. }
  eexists _, _. split; [exact Hinit|].
  split; [|split; [reflexivity|split]].
  - unfold get_app. unfold_monad. proj_simpl.
    now rewrite dict_get_set, String.eqb_refl.
  - unfold get_app. unfold_monad. proj_simpl. now rewrite dict_get_del_same.
  - intros other Hne. unfold get_app. unfold_monad. proj_simpl.
    rewrite dict_get_del, !dict_get_set.
    destruct (String.eqb_spec name other) as [->|_]; [congruence|].
    destruct (String.eqb_spec other name) as [->|_]; [congruence|].
    split; reflexivity.
Qed.

Lemma registry_round_trip_witness :
  exists st1 st2,
    init_object world_chain "base" state_chain = (Ok tt, st1) /\
    fst (get_app "base" st1) = Ok (Some (mk_object "base_mod" "Base" (-1))) /\
    term_object "base" st1 = (Ok tt, st2) /\
    fst (get_app "base" st2) = Ok None /\
    forall other, other <> "base" ->
      fst (get_app other st1) = fst (get_app other state_chain) /\
      fst (get_app other st2) = fst (get_app other state_chain).
Proof.
  apply (registry_round_trip world_chain "base"
           (mk_app "base_mod" "Base" None None None None None None [])
           (-1) state_chain).
  - vm_compute. reflexivity.
  - vm_compute. discriminate.
  - reflexivity.
  - reflexivity.
Defined.

(** ** Reading the YAML files *)

(** A section is accepted or not whatever was accepted before; it raises
    exactly when it is unreadable. *)
Lemma check_section_cases (warnings : bool)
  (acc : dict yaml * list config_warning) (item : string * yaml) :
  if unreadable item then check_section warnings acc item = Raise ReadError
  else
    exists ws,
      check_section warnings acc item
      = Ok (if accepted (fst item) (snd item)
            then dict_set (fst item) (snd item) (fst acc) else fst acc,
            snd acc ++ ws).
Proof.
  destruct item as [app v]. unfold unreadable, check_section, accepted.
  cbn [fst snd].
  destruct v as [| |s|l|d]; cbn [py_in].
  - exists []. rewrite app_nil_r. now destruct acc.
  - destruct (String.eqb app "global_modules"); cbn [negb orb].
    + exists []. now rewrite app_nil_r.
    + reflexivity.
  - destruct (String.eqb app "global_modules"); cbn [orb].
    + exists []. now rewrite app_nil_r.
    + destruct (contains "class" s); [destruct (contains "module" s)|];
        first [ exists []; now rewrite app_nil_r | eexists; reflexivity ].
  - destruct (String.eqb app "global_modules"); cbn [orb].
    + exists []. now rewrite app_nil_r.
    + match goal with
      | |- context [existsb ?f l] => destruct (existsb f l)
      end;
      [match goal with
       | |- context [existsb ?f l] => destruct (existsb f l)
       end|];
      first [ exists []; now rewrite app_nil_r | eexists; reflexivity ].
  - destruct (String.eqb app "global_modules"); cbn [orb].
    + exists []. now rewrite app_nil_r.
    + destruct (dict_has "class" d); [destruct (dict_has "module" d)|];
        first [ exists []; now rewrite app_nil_r | eexists; reflexivity ].
Qed.

Lemma foldR_raise {A S : Type} (f : S -> A -> result S) (bad : A -> bool) :
  (forall s x, bad x = true -> f s x = Raise ReadError) ->
  (forall s x, bad x = false -> exists s', f s x = Ok s') ->
  forall l s,
    if existsb bad l then foldR f l s = Raise ReadError
    else exists s', foldR f l s = Ok s'.
Proof.
  intros Hbad Hok. induction l as [|x l IH]; intros s; simpl.
  - now exists s.
  - destruct (bad x) eqn:E; simpl.
    + now rewrite (Hbad s x E).
    + destruct (Hok s x E) as [s' Hs]. rewrite Hs. apply IH.
Qed.

Lemma check_section_raises (warnings : bool) :
  (forall acc item, unreadable item = true ->
     check_section warnings acc item = Raise ReadError) /\
  (forall acc item, unreadable item = false ->
     exists acc', check_section warnings acc item = Ok acc').
Proof.
  split; intros acc item H; pose proof (check_section_cases warnings acc item) as C;
    rewrite H in C; [exact C|].
  destruct C as [ws C]. eexists. exact C.
Qed.

(** The mapping [valid_apps] of a document without an unreadable
    section. *)
Lemma valid_apps_get (warnings : bool) :
  forall d valid ws,
    NoDup (dict_keys d) ->
    existsb unreadable d = false ->
    exists valid' ws',
      foldR (check_section warnings) d (valid, ws) = Ok (valid', ws ++ ws') /\
      forall app,
        dict_get app valid'
        = match dict_get app d with
          | Some v => if accepted app v then Some v else dict_get app valid
          | None => dict_get app valid
          end.
Proof.
  induction d as [|[k v] d IH]; intros valid ws Hnd Hr.
  - exists valid, []. rewrite app_nil_r. split; reflexivity.
  - inversion Hnd as [|? ? Hk Hnd']; subst.
    cbn [existsb] in Hr. apply orb_false_iff in Hr. destruct Hr as [Hr1 Hr2].
    pose proof (check_section_cases warnings (valid, ws) (k, v)) as C.
    rewrite Hr1 in C. destruct C as [ws1 C]. cbn [fst snd] in C.
    destruct (IH (if accepted k v then dict_set k v valid else valid)
                 (ws ++ ws1) Hnd' Hr2) as [valid' [ws' [Hrun Hget]]].
    exists valid', (ws1 ++ ws'). split.
    + cbn [foldR]. rewrite C, Hrun. now rewrite app_assoc.
    + intros app. rewrite Hget. cbn [dict_get].
      destruct (String.eqb_spec k app) as [->|Hne].
      * assert (Hn : dict_get app d = None) by (now apply dict_get_None).
        rewrite Hn. destruct (accepted app v); [|reflexivity].
        now rewrite dict_get_set, String.eqb_refl.
      * assert (E : dict_get app (if accepted k v then dict_set k v valid else valid)
                    = dict_get app valid).
        { destruct (accepted k v); [|reflexivity].
          rewrite dict_get_set.
          destruct (String.eqb_spec k app); [congruence | reflexivity]. }
        now rewrite E.
Qed.

Lemma dict_set_new_keys {V : Type} (k : string) (v : V) (d : dict V) :
  dict_has k d = false -> NoDup (dict_keys d) -> NoDup (dict_keys (dict_set k v d)).
Proof.
  intros Hh Hnd. rewrite dict_keys_set.
  assert (Hn : ~ In k (dict_keys d)).
  { intros Hin. apply dict_has_In in Hin. congruence. }
  apply mem_false in Hn. rewrite Hn. apply NoDup_snoc; [assumption|].
  now apply mem_false.
Qed.

(** The merge of [valid_apps] into [new_config]: a key that is there
    already keeps its value. *)
Lemma merge_get (file : string) :
  forall valid cfg ws,
    let merged := fold_left (merge_section file) valid (cfg, ws) in
    (forall app,
       dict_get app (fst merged)
       = match dict_get app cfg with
         | Some v => Some v
         | None => dict_get app valid
         end) /\
    (NoDup (dict_keys cfg) -> NoDup (dict_keys (fst merged))).
Proof.
  induction valid as [|[k v] valid IH]; intros cfg ws; cbn zeta.
  - simpl. split; [|auto]. intros app. now destruct (dict_get app cfg).
  - cbn [fold_left].
    assert (E : merge_section file (cfg, ws) (k, v)
                = if dict_has k cfg
                  then (cfg, ws ++ [WarnDuplicateApp file k])
                  else (dict_set k v cfg, ws)) by reflexivity.
    rewrite E. clear E.
    destruct (dict_has k cfg) eqn:Hh.
    + destruct (IH cfg (ws ++ [WarnDuplicateApp file k])) as [Hget Hnd].
      split; [|exact Hnd].
      intros app. rewrite Hget. cbn [dict_get].
      destruct (dict_get app cfg) eqn:Ha; [reflexivity|].
      destruct (String.eqb_spec k app) as [->|_]; [|reflexivity].
      unfold dict_has in Hh. rewrite Ha in Hh. discriminate.
    + destruct (IH (dict_set k v cfg) ws) as [Hget Hnd].
      split.
      * intros app. rewrite Hget, dict_get_set. cbn [dict_get].
        destruct (String.eqb_spec k app) as [->|_].
        -- unfold dict_has in Hh.
           destruct (dict_get app cfg); [discriminate | reflexivity].
        -- reflexivity.
      * intros H. apply Hnd. now apply dict_set_new_keys.
Qed.

(** One file: it raises exactly when it holds an unreadable section;
    otherwise the configuration after it is a mapping, in which the keys it
    had before keep their values and the other keys have the accepted
    sections of the file. *)
Lemma read_yaml_file_cases (warnings : bool)
  (acc : option (dict yaml) * list config_warning) (f : string * yaml) :
  distinct_keys f ->
  if unreadable_file f then read_yaml_file warnings acc f = Raise ReadError
  else
    exists cfg ws,
      read_yaml_file warnings acc f = Ok (Some cfg, ws) /\
      (forall app,
         dict_get app cfg
         = match match fst acc with
                 | Some c => dict_get app c
                 | None => None
                 end with
           | Some v => Some v
           | None => file_section f app
           end) /\
      (match fst acc with
       | Some c => NoDup (dict_keys c)
       | None => True
       end -> NoDup (dict_keys cfg)).
Proof.
  destruct f as [path doc]. unfold distinct_keys, unreadable_file,
    read_yaml_file, file_section. cbn [fst snd]. intros Hd.
  assert (Hother : forall ws0,
            exists cfg ws,
              (let new_config := match fst acc with Some c => c | None => [] end in
               let merged := fold_left (merge_section path) []
                               (new_config, ws0) in
               Ok (Some (fst merged), snd merged))
              = Ok (Some cfg, ws) /\
              (forall app,
                 dict_get app cfg
                 = match match fst acc with
                         | Some c => dict_get app c
                         | None => None
                         end with
                   | Some v => Some v
                   | None => @None yaml
                   end) /\
              (match fst acc with
               | Some c => NoDup (dict_keys c)
               | None => True
               end -> NoDup (dict_keys cfg))).
  { intros ws0. eexists _, _. split; [reflexivity|]. cbn [fold_left fst].
    destruct (fst acc) as [c|]; split; auto.
    - intros app. now destruct (dict_get app c).
    - intros _. constructor. }
  destruct doc as [| |s|l|d]; try apply Hother.
  destruct (existsb unreadable d) eqn:Hr.
  - pose proof (foldR_raise (check_section warnings) unreadable
                  (proj1 (check_section_raises warnings))
                  (proj2 (check_section_raises warnings)) d ([], snd acc)) as R.
    rewrite Hr in R. unfold dict in *. now rewrite R.
  - destruct (valid_apps_get warnings d [] (snd acc) Hd Hr)
      as [valid [ws' [Hrun Hget]]].
    unfold dict in *. rewrite Hrun. cbn [fst snd].
    destruct (merge_get path valid
                (match fst acc with Some c => c | None => [] end)
                (snd acc ++ ws')) as [Hm Hnd].
    eexists _, _. split; [reflexivity|]. split.
    + intros app. rewrite Hm, Hget.
      destruct (fst acc) as [c|]; cbn [dict_get].
      * destruct (dict_get app c); [reflexivity|].
        destruct (dict_get app d) as [v|]; [|reflexivity].
        now destruct (accepted app v).
      * destruct (dict_get app d) as [v|]; [|reflexivity].
        now destruct (accepted app v).
    + intros H. apply Hnd. destruct (fst acc); [exact H | constructor].
Qed.

Lemma read_yaml_file_raises (warnings : bool) :
  (forall acc f, unreadable_file f = true ->
     read_yaml_file warnings acc f = Raise ReadError) /\
  (forall acc f, unreadable_file f = false ->
     exists acc', read_yaml_file warnings acc f = Ok acc').
Proof.
  split; intros acc [path doc] H; unfold unreadable_file, read_yaml_file in *;
    cbn [fst snd] in *.
  - destruct doc as [| |s|l|d]; try discriminate.
    pose proof (foldR_raise (check_section warnings) unreadable
                  (proj1 (check_section_raises warnings))
                  (proj2 (check_section_raises warnings)) d ([], snd acc)) as R.
    rewrite H in R. unfold dict in *. now rewrite R.
  - destruct doc as [| |s|l|d]; try (eexists; reflexivity).
    pose proof (foldR_raise (check_section warnings) unreadable
                  (proj1 (check_section_raises warnings))
                  (proj2 (check_section_raises warnings)) d ([], snd acc)) as R.
    rewrite H in R. destruct R as [valid R]. unfold dict in *. rewrite R.
    eexists. reflexivity.
Qed.

(** X19. [read_config] over the YAML files of the apps directory raises
    (the [TypeError] of [in] on a value that is not iterable) exactly when
    some file is a mapping with a section, under a key other than
    [global_modules], whose value is a number, a boolean or another value
    without [in]; in every other case it returns.  Whatever was merged
    from the files before is lost with the exception. *)
Theorem read_config_raises_on_scalar_section (warnings : bool)
  (files : list (string * yaml)) :
  (read_config_walk warnings files = Raise ReadError <->
   exists path d app,
     In (path, YDict d) files /\ In (app, YScalar) d /\
     app <> "global_modules") /\
  ((forall e, read_config_walk warnings files <> Raise e) <->
   forall path d app,
     In (path, YDict d) files -> In (app, YScalar) d ->
     app = "global_modules").
Proof.
  assert (Hex : existsb unreadable_file files = true <->
                exists path d app,
                  In (path, YDict d) files /\ In (app, YScalar) d /\
                  app <> "global_modules").
  { rewrite existsb_exists. split.
    - intros [[path doc] [Hin Hu]]. unfold unreadable_file in Hu. simpl in Hu.
      destruct doc as [| |s|l|d]; try discriminate.
      apply existsb_exists in Hu. destruct Hu as [[app v] [Hd Hv]].
      unfold unreadable in Hv. simpl in Hv.
      destruct v; try discriminate.
      exists path, d, app. split; [assumption|]. split; [assumption|].
      apply negb_true_iff in Hv. now apply String.eqb_neq.
    - intros [path [d [app [Hin [Hd Hne]]]]].
      exists (path, YDict d). split; [assumption|].
      unfold unreadable_file. simpl. apply existsb_exists.
      exists (app, YScalar). split; [assumption|].
      unfold unreadable. simpl. apply negb_true_iff. now apply String.eqb_neq. }
  pose proof (foldR_raise (read_yaml_file warnings) unreadable_file
                (proj1 (read_yaml_file_raises warnings))
                (proj2 (read_yaml_file_raises warnings)) files (None, [])) as R.
  fold (read_config_walk warnings files) in R.
  destruct (existsb unreadable_file files) eqn:E.
  - split.
    + split; [intros _; now apply Hex | intros _; exact R].
    + split.
      * intros H. exfalso. exact (H _ R).
      * intros H. exfalso.
        destruct (proj1 Hex eq_refl) as [path [d [app [H1 [H2 H3]]]]].
        exact (H3 (H path d app H1 H2)).
  - destruct R as [r R]. split.
    + split.
      * intros H. rewrite R in H. discriminate.
      * intros H. apply Hex in H. discriminate.
    + split.
      * intros _ path d app H1 H2.
        destruct (String.eqb_spec app "global_modules") as [->|Hne];
          [reflexivity|].
        assert (Hc : false = true) by (apply Hex; now exists path, d, app).
        discriminate.
      * intros _ e H. rewrite R in H. discriminate.
Qed.

Lemma read_yaml_file_some (warnings : bool)
  (acc r : option (dict yaml) * list config_warning) (f : string * yaml) :
  read_yaml_file warnings acc f = Ok r -> fst r <> None.
Proof.
  unfold read_yaml_file. intros H.
  destruct (match snd f with
            | YDict d => foldR (check_section warnings) d ([], snd acc)
            | _ => Ok ([], snd acc ++ (if warnings
                                       then [WarnInvalidStructure (fst f)]
                                       else []))
            end); [|discriminate].
  inversion H; subst. discriminate.
Qed.

Lemma foldR_snoc {A S : Type} (f : S -> A -> result S) (l : list A) (x : A) :
  forall s,
    foldR f (l ++ [x]) s
    = match foldR f l s with
      | Ok s' => f s' x
      | Raise e => Raise e
      end.
Proof.
  induction l as [|y l IH]; intros s; simpl.
  - now destruct (f s x).
  - destruct (f s y); [apply IH | reflexivity].
Qed.

Lemma walk_some (warnings : bool) (files : list (string * yaml))
  (acc r : option (dict yaml) * list config_warning) :
  files <> [] ->
  foldR (read_yaml_file warnings) files acc = Ok r -> fst r <> None.
Proof.
  intros Hne Hrun.
  destruct (@exists_last _ files Hne) as [l [x E]].
  rewrite E, foldR_snoc in Hrun.
  destruct (foldR (read_yaml_file warnings) l acc) as [acc1|e]; [|discriminate].
  now apply read_yaml_file_some in Hrun.
Qed.

Lemma walk_get (warnings : bool) :
  forall files acc,
    Forall distinct_keys files ->
    existsb unreadable_file files = false ->
    exists cfg ws,
      foldR (read_yaml_file warnings) files acc = Ok (cfg, ws) /\
      (forall app,
         config_get cfg app
         = match config_get (fst acc) app with
           | Some v => Some v
           | None => first_section files app
           end) /\
      (config_distinct (fst acc) -> config_distinct cfg).
Proof.
  induction files as [|f files IH]; intros acc Hd Hr.
  - exists (fst acc), (snd acc). simpl. split; [now destruct acc|].
    split; [|auto]. intros app. now destruct (config_get (fst acc) app).
  - inversion Hd as [|? ? Hf Hd']; subst.
    cbn [existsb] in Hr. apply orb_false_iff in Hr. destruct Hr as [Hr1 Hr2].
    pose proof (read_yaml_file_cases warnings acc f Hf) as C.
    rewrite Hr1 in C. destruct C as [c1 [ws1 [Hrun1 [Hget1 Hnd1]]]].
    destruct (IH (Some c1, ws1) Hd' Hr2) as [cfg [ws [Hrun [Hget Hnd]]]].
    exists cfg, ws. split; [cbn [foldR]; now rewrite Hrun1|].
    split.
    + intros app. rewrite Hget. cbn [fst config_get first_section].
      rewrite Hget1. fold (config_get (fst acc) app).
      destruct (config_get (fst acc) app); [reflexivity|].
      now destruct (file_section f app).
    + intros H. apply Hnd. cbn [fst config_distinct]. apply Hnd1. exact H.
Qed.

(** X20. The configuration [read_config] merges from the YAML files of the
    apps directory, when there is at least one file, no file holds a
    section that makes the read raise, and the keys of each mapping are
    distinct: a mapping with distinct keys in which each app has the
    section of the first file of the walk that gives it one that is
    accepted (not [None], and with [class] and [module] unless the key is
    [global_modules]); an app without such a section in any file is not in
    it. *)
Theorem read_config_takes_the_first_section (warnings : bool)
  (files : list (string * yaml)) :
  files <> [] ->
  Forall distinct_keys files ->
  existsb unreadable_file files = false ->
  exists cfg ws,
    read_config_walk warnings files = Ok (Some cfg, ws) /\
    NoDup (dict_keys cfg) /\
    forall app, dict_get app cfg = first_section files app.
Proof.
  intros Hne Hd Hr.
  destruct (walk_get warnings files (None, []) Hd Hr)
    as [cfg [ws [Hrun [Hget Hnd]]]].
  destruct cfg as [c|].
  - exists c, ws. split; [exact Hrun|]. split; [now apply Hnd|].
    intros app. exact (Hget app).
  - exfalso. exact (walk_some warnings files _ _ Hne Hrun eq_refl).
Qed.

Lemma yaml_files_example_distinct : Forall distinct_keys yaml_files_example.
Proof.
  repeat constructor; unfold distinct_keys; simpl; try exact I;
    repeat constructor; simpl; intuition discriminate.
Qed.

Lemma read_config_takes_the_first_section_witness :
  exists cfg ws,
    read_config_walk true yaml_files_example = Ok (Some cfg, ws) /\
    NoDup (dict_keys cfg) /\
    forall app, dict_get app cfg = first_section yaml_files_example app.
Proof.
  apply (read_config_takes_the_first_section true yaml_files_example).
  - discriminate.
  - exact yaml_files_example_distinct.
  - reflexivity.
Defined.

(** The read of the example files: the section of [sensor] is that of the
    first file, the section without [module] and the file that is no
    mapping are warned about, and the string that holds both words is taken
    for an app. *)
Example yaml_files_example_read :
  read_config_walk true yaml_files_example
  = Ok (Some [ ("sensor", YDict [("module", YStr "sensor_a");
                                 ("class", YStr "Sensor")]);
               ("global_modules", YStr "shared");
               ("odd", YStr "a class in a module") ],
        [ WarnMissingClassOrModule "broken";
          WarnInvalidStructure "/conf/apps/b.yaml";
          WarnDuplicateApp "/conf/apps/c.yaml" "sensor" ]).
Proof. reflexivity. Qed.

(** ** No YAML file, and files that cannot be read *)

(** X21. [read_config] over the YAML files of the apps directory returns
    [None] only when the walk finds no YAML file.  A file that could not be
    read or parsed, or that is not a mapping, still makes the result a
    mapping (an empty one when there is nothing else), which
    [check_config] then applies. *)
Theorem read_config_none_only_without_files (warnings : bool)
  (files : list (string * yaml)) (cfg : option (dict yaml))
  (ws : list config_warning) :
  read_config_walk warnings files = Ok (cfg, ws) ->
  (cfg = None <-> files = []).
Proof.
  intros Hrun. split.
  - intros ->. destruct files as [|f files]; [reflexivity|].
    exfalso.
    assert (Hne : f :: files <> []) by discriminate.
    exact (walk_some warnings (f :: files) _ _ Hne Hrun eq_refl).
  - intros ->. unfold read_config_walk in Hrun. simpl in Hrun.
    now inversion Hrun.
Qed.

Lemma read_config_none_only_without_files_witness :
  @Some (dict yaml) [] = None <-> [("/conf/apps/bad.yaml", YNone)] = [].
Proof.
  apply (read_config_none_only_without_files true
           [("/conf/apps/bad.yaml", YNone)] (Some [])
           [WarnInvalidStructure "/conf/apps/bad.yaml"]).
  reflexivity.
Defined.

(** ** The filters *)

Lemma fold_left_flat_map {A B S : Type} (f : S -> B -> S) (g : A -> list B) :
  forall l s,
    fold_left f (flat_map g l) s = fold_left (fun s a => fold_left f (g a) s) l s.
Proof.
  induction l as [|a l IH]; intros s; simpl; [reflexivity|].
  now rewrite fold_left_app, IH.
Qed.

Lemma filter_file_visit (flt : filter_def) (root : string) :
  forall files acc,
    fold_left (filter_file flt root) files acc
    = fold_left visit_step
        (map (fun f : string * Z => (flt, (path_join root (fst f), snd f)))
             (filter (fun f : string * Z => ext_matches (f_input_ext flt) (fst f))
                     files))
        acc.
Proof.
  induction files as [|f files IH]; intros acc; simpl; [reflexivity|].
  unfold filter_file at 2.
  destruct (ext_matches (f_input_ext flt) (fst f)); simpl; apply IH.
Qed.

(** The three loops of [process_filters] visit the files in the order of
    [filter_visits]. *)
Lemma process_filters_visits (filters : list (filter_def * listing))
  (filter_files : dict Z) :
  process_filters filters filter_files
  = fold_left visit_step (filter_visits filters) (filter_files, []).
Proof.
  unfold process_filters, filter_visits, filter_walk.
  rewrite fold_left_flat_map.
  generalize (filter_files, @nil filter_run).
  induction filters as [|fw filters IH]; intros acc; simpl; [reflexivity|].
  rewrite <- IH. f_equal.
  rewrite fold_left_flat_map.
  generalize acc. clear.
  induction (snd fw) as [|dir walk IHw]; intros acc; simpl; [reflexivity|].
  rewrite <- IHw. f_equal. apply filter_file_visit.
Qed.

Lemma records_grow_refl (ff : dict Z) : records_grow ff ff.
Proof. intros k s H. exists s. split; [assumption | lia]. Qed.

Lemma records_grow_trans (a b c : dict Z) :
  records_grow a b -> records_grow b c -> records_grow a c.
Proof.
  intros H1 H2 k s Hk. destruct (H1 k s Hk) as [s1 [Hk1 Hle1]].
  destruct (H2 k s1 Hk1) as [s2 [Hk2 Hle2]]. exists s2. split; [assumption | lia].
Qed.

(** One visit: either nothing changes, because the record is not older
    than the file, or the file is run and recorded with its time. *)
Lemma visit_step_cases (acc : dict Z * list filter_run)
  (v : filter_def * (string * Z)) :
  (visit_step acc v = acc /\ settled (fst acc) v) \/
  (visit_step acc v
   = (dict_set (fst (snd v)) (snd (snd v)) (fst acc),
      snd acc ++ [mk_run (fst (snd v)) (snd (snd v)) (fst v)]) /\
   match dict_get (fst (snd v)) (fst acc) with
   | Some seen => (seen < snd (snd v))%Z
   | None => True
   end).
Proof.
  unfold visit_step, settled.
  destruct (dict_get (fst (snd v)) (fst acc)) as [seen|] eqn:E.
  - destruct (Z.ltb seen (snd (snd v))) eqn:Hlt.
    + right. split; [reflexivity|]. now apply Z.ltb_lt.
    + left. split; [reflexivity|]. exists seen. split; [reflexivity|].
      now apply Z.ltb_ge.
  - right. split; [reflexivity | exact I].
Qed.

Lemma records_grow_set (ff : dict Z) (k : string) (t : Z) :
  match dict_get k ff with
  | Some seen => (seen < t)%Z
  | None => True
  end ->
  records_grow ff (dict_set k t ff).
Proof.
  intros H k' s Hk'. rewrite dict_get_set.
  destruct (String.eqb_spec k k') as [->|Hne].
  - rewrite Hk' in H. exists t. split; [reflexivity | lia].
  - exists s. split; [assumption | lia].
Qed.

Lemma visit_step_inv (ff0 : dict Z) (acc : dict Z * list filter_run)
  (v : filter_def * (string * Z)) :
  filters_inv ff0 (fst acc) (snd acc) ->
  filters_inv ff0 (fst (visit_step acc v)) (snd (visit_step acc v)).
Proof.
  intros [Ho Hr Hg Hn].
  destruct (visit_step_cases acc v) as [[E _]|[E Hnew]]; rewrite E;
    [now split|].
  destruct v as [flt [infile t]]. cbn [fst snd] in *.
  assert (Hgs : records_grow (fst acc) (dict_set infile t (fst acc)))
    by (now apply records_grow_set).
  split.
  - intros l1 r l2 Hsplit r0 Hr0 Hsame.
    destruct (snoc_split _ _ _ _ _ Hsplit) as [[-> [-> ->]]|[l2' [-> Hin]]].
    + cbn [r_infile r_modified] in *.
      destruct (Hr r0 Hr0) as [seen [Hs Hle]].
      rewrite Hsame in Hs. rewrite Hs in Hnew. lia.
    + now apply (Ho l1 r l2' Hin r0).
  - intros r Hin. apply in_app_or in Hin. destruct Hin as [Hin|[<-|[]]].
    + destruct (Hr r Hin) as [seen [Hs Hle]].
      destruct (Hgs _ _ Hs) as [s' [Hs' Hle']].
      exists s'. split; [assumption | lia].
    + cbn [r_infile r_modified]. exists t.
      rewrite dict_get_set, String.eqb_refl. split; [reflexivity | lia].
  - now apply (records_grow_trans ff0 (fst acc)).
  - intros r Hin. apply in_app_or in Hin. destruct Hin as [Hin|[<-|[]]].
    + now apply Hn.
    + cbn [r_infile r_modified].
      destruct (dict_get infile ff0) as [s0|] eqn:E0; [|exact I].
      destruct (Hg _ _ E0) as [s [Hs Hle]]. rewrite Hs in Hnew. lia.
Qed.

Lemma visits_inv (ff0 : dict Z) :
  forall vs acc,
    filters_inv ff0 (fst acc) (snd acc) ->
    filters_inv ff0 (fst (fold_left visit_step vs acc))
                    (snd (fold_left visit_step vs acc)).
Proof.
  induction vs as [|v vs IH]; intros acc H; simpl; [assumption|].
  apply IH. now apply visit_step_inv.
Qed.

Lemma visit_step_grow (acc : dict Z * list filter_run)
  (v : filter_def * (string * Z)) :
  records_grow (fst acc) (fst (visit_step acc v)) /\
  settled (fst (visit_step acc v)) v.
Proof.
  destruct (visit_step_cases acc v) as [[E Hs]|[E Hnew]]; rewrite E.
  - split; [apply records_grow_refl | assumption].
  - cbn [fst]. split; [now apply records_grow_set|].
    exists (snd (snd v)). rewrite dict_get_set, String.eqb_refl.
    split; [reflexivity | lia].
Qed.

Lemma settled_grow (ff ff' : dict Z) (v : filter_def * (string * Z)) :
  records_grow ff ff' -> settled ff v -> settled ff' v.
Proof.
  intros Hg [seen [Hs Hle]]. destruct (Hg _ _ Hs) as [s' [Hs' Hle']].
  exists s'. split; [assumption | lia].
Qed.

(** After the visits every visited file is settled. *)
Lemma visits_settle :
  forall vs acc,
    records_grow (fst acc) (fst (fold_left visit_step vs acc)) /\
    forall v, In v vs -> settled (fst (fold_left visit_step vs acc)) v.
Proof.
  induction vs as [|v vs IH]; intros acc; simpl.
  - split; [apply records_grow_refl | intros v []].
  - destruct (visit_step_grow acc v) as [Hg Hs].
    destruct (IH (visit_step acc v)) as [Hg' Hs'].
    split; [now apply (records_grow_trans _ (fst (visit_step acc v)))|].
    intros u [<-|Hu]; [|now apply Hs'].
    now apply (settled_grow (fst (visit_step acc v))).
Qed.

(** Visits of settled files do nothing. *)
Lemma visits_settled :
  forall vs acc,
    (forall v, In v vs -> settled (fst acc) v) ->
    fold_left visit_step vs acc = acc.
Proof.
  induction vs as [|v vs IH]; intros acc H; simpl; [reflexivity|].
  assert (E : visit_step acc v = acc).
  { destruct (H v (or_introl eq_refl)) as [seen [Hs Hle]].
    unfold visit_step. rewrite Hs.
    assert (Hlt : Z.ltb seen (snd (snd v)) = false) by (apply Z.ltb_ge; lia).
    now rewrite Hlt. }
  rewrite E. apply IH. intros u Hu. apply H. now right.
Qed.

Lemma visits_runs :
  forall vs acc r,
    In r (snd (fold_left visit_step vs acc)) ->
    In r (snd acc) \/ In (r_filter r, (r_infile r, r_modified r)) vs.
Proof.
  induction vs as [|v vs IH]; intros acc r H; simpl in *; [now left|].
  destruct (IH _ _ H) as [Hin|Hin]; [|right; now right].
  destruct (visit_step_cases acc v) as [[E _]|[E _]]; rewrite E in Hin.
  - now left.
  - cbn [snd] in Hin. apply in_app_or in Hin. destruct Hin as [Hin|[<-|[]]].
    + now left.
    + right. left. now destruct v as [flt [infile t]].
Qed.

(** X22. The runs of one call of [process_filters]: a file is run through
    a filter only when its name passes the test of the filter and the file
    has no record in [filter_files] or a record older than its time; each
    run records the time of the file, so among the runs of one file a later
    run has a strictly larger time.  With times that do not change during
    the call, a file is run through at most one filter, however many
    filters have its extension. *)
Theorem filters_run_a_file_once_per_change
  (filters : list (filter_def * listing)) (filter_files : dict Z) :
  let res := process_filters filters filter_files in
  runs_ordered (snd res) /\
  records_grow filter_files (fst res) /\
  forall r, In r (snd res) ->
    In (r_filter r, (r_infile r, r_modified r)) (filter_visits filters) /\
    match dict_get (r_infile r) filter_files with
    | Some seen => (seen < r_modified r)%Z
    | None => True
    end /\
    exists seen, dict_get (r_infile r) (fst res) = Some seen /\
                 (r_modified r <= seen)%Z.
Proof.
  cbn zeta. rewrite process_filters_visits.
  assert (H0 : filters_inv filter_files (fst (filter_files, @nil filter_run))
                 (snd (filter_files, @nil filter_run))).
  { split; cbn [fst snd].
    - intros l1 r l2 E. destruct l1; discriminate.
    - intros r [].
    - apply records_grow_refl.
    - intros r []. }
  destruct (visits_inv filter_files (filter_visits filters) _ H0)
    as [Ho Hr Hg Hn].
  split; [assumption|]. split; [assumption|].
  intros r Hin. split; [|split].
  - destruct (visits_runs _ _ _ Hin) as [[]|H]. exact H.
  - now apply Hn.
  - now apply Hr.
Qed.

(** X23. A second call of [process_filters] that finds the same files with
    the same times starts no run and leaves [filter_files] as the first
    call left it. *)
Theorem process_filters_settles (filters : list (filter_def * listing))
  (filter_files : dict Z) :
  process_filters filters (fst (process_filters filters filter_files))
  = (fst (process_filters filters filter_files), []).
Proof.
  rewrite !process_filters_visits.
  apply visits_settled. cbn [fst].
  apply (visits_settle (filter_visits filters) (filter_files, [])).
Qed.

(** The second filter on [scss] and the filter with the empty extension
    run nothing. *)
Example filters_example_runs :
  process_filters filters_example []
  = ([("/conf/apps/style.scss", 7%Z)],
     [mk_run "/conf/apps/style.scss" 7 (mk_filter "scss" "css" "sassc $1 $2")]).
Proof. reflexivity. Qed.

(** ** The test of the input extension *)

Lemma string_of_list_app (a b : list ascii) :
  string_of_list_ascii (a ++ b)
  = (string_of_list_ascii a ++ string_of_list_ascii b)%string.
Proof. induction a as [|x a IH]; simpl; [reflexivity | now rewrite IH]. Qed.

Lemma list_ascii_length (s : string) :
  length (list_ascii_of_string s) = String.length s.
Proof. induction s as [|c s IH]; simpl; [reflexivity | now rewrite IH]. Qed.

Lemma py_last_suffix (n : nat) (s : string) :
  exists p, s = (p ++ py_last n s)%string.
Proof.
  unfold py_last.
  exists (string_of_list_ascii
            (firstn (String.length s - n) (list_ascii_of_string s))).
  rewrite <- string_of_list_app, firstn_skipn.
  symmetry. apply string_of_list_ascii_of_string.
Qed.

Lemma py_last_append (p ext : string) :
  py_last (String.length ext) (p ++ ext) = ext.
Proof.
  unfold py_last. rewrite list_ascii_app.
  replace (String.length (p ++ ext) - String.length ext)
    with (length (list_ascii_of_string p) + 0).
  - rewrite skipn_app, skipn_all2 by lia.
    replace (length (list_ascii_of_string p) + 0
             - length (list_ascii_of_string p)) with 0 by lia.
    simpl. apply string_of_list_ascii_of_string.
  - rewrite <- !list_ascii_length, list_ascii_app, length_app. lia.
Qed.

(** X24. The test [file[extlen:] == ext] of [process_filters] is a suffix
    test for an extension that is not empty; for the empty extension the
    slice is the whole name, so the test passes for no file with a
    name. *)
Theorem input_ext_is_a_suffix_test (ext file : string) :
  ext_matches ext file = true <->
  (ext = "" /\ file = "") \/
  (ext <> "" /\ exists p, file = (p ++ ext)%string).
Proof.
  unfold ext_matches. destruct ext as [|c ext].
  - cbn [String.length]. rewrite String.eqb_eq. split.
    + intros ->. left. now split.
    + intros [[_ ->]|[H _]]; [reflexivity | congruence].
  - cbn [String.length]. rewrite String.eqb_eq.
    change (S (String.length ext)) with (String.length (String c ext)).
    split.
    + intros H. right. split; [discriminate|].
      destruct (py_last_suffix (String.length (String c ext)) file) as [p Hp].
      exists p. now rewrite H in Hp.
    + intros [[H _]|[_ [p ->]]]; [discriminate|].
      apply py_last_append.
Qed.

(** ** The plan of a configuration change *)

Lemma added_apps_iff (old new_config : config) (x : string) :
  NoDup (dict_keys new_config) ->
  In x (added_apps old new_config) <->
  dict_get x old = None /\
  exists n, dict_get x new_config = Some n /\
            entry_has_class_and_module n = true.
Proof.
  intros Hnd. unfold added_apps. rewrite in_map_iff. split.
  - intros [[k e] [<- Hin]]. apply filter_In in Hin. destruct Hin as [Hin Hh].
    cbn [fst snd] in *. apply andb_true_iff in Hh. destruct Hh as [Hh He].
    apply negb_true_iff in Hh. unfold dict_has in Hh.
    destruct (dict_get k old); [discriminate|].
    split; [reflexivity|]. exists e. split; [now apply dict_In_get | exact He].
  - intros [Ho [n [Hg Hn]]]. exists (x, n). split; [reflexivity|].
    apply filter_In. split; [now apply dict_get_In|]. cbn [fst snd].
    unfold dict_has. now rewrite Ho, Hn.
Qed.

(** X25. [check_config] when it applies a configuration it has read: the
    terminate set holds exactly the apps that have a section in both
    configurations with values that are not equal, the initialize set holds
    those and the names that have a section in the new configuration only,
    when that section passes the test for [class] and [module] (an app
    section, or a list that holds both words); a name that is only in the
    old configuration is in neither set.  The total is the number of
    sections of the new configuration, which is now the stored one. *)
Theorem check_config_plans_the_difference (w : world) (st : state)
  (new_config : config) :
  w_config_is_file w = false ->
  detects_change w st = true ->
  w_read_config w = ReadConfig new_config ->
  NoDup (dict_keys (app_config st)) ->
  NoDup (dict_keys new_config) ->
  exists p st',
    check_config w st = (Ok (Some p), st') /\
    app_config st' = new_config /\
    p_total p = length new_config /\
    (forall x, In x (p_term p) <->
       exists e n,
         dict_get x (app_config st) = Some e /\
         dict_get x new_config = Some n /\ entry_eqb e n = false) /\
    (forall x, In x (p_init p) <->
       In x (p_term p) \/
       (dict_get x (app_config st) = None /\
        exists n, dict_get x new_config = Some n /\
                  entry_has_class_and_module n = true)) /\
    (forall x, dict_get x new_config = None ->
       ~ In x (p_term p) /\ ~ In x (p_init p)).
Proof.
  intros Hf Hd Hr Hnd Hnd'.
  destruct (check_config_applied w st new_config Hf Hd Hr)
    as [p [logs [k [Hrun [Ht [Hterm Hinit]]]]]].
  assert (Hterm' : forall x, In x (p_term p) <->
            exists e n,
              dict_get x (app_config st) = Some e /\
              dict_get x new_config = Some n /\ entry_eqb e n = false).
  { intros x. rewrite Hterm, changed_apps_In. split.
    - intros [e [n [Hin H]]]. exists e, n.
      split; [now apply dict_In_get | exact H].
    - intros [e [n [Hg H]]]. exists e, n.
      split; [now apply dict_get_In | exact H]. }
  assert (Hinit' : forall x, In x (p_init p) <->
            In x (p_term p) \/
            (dict_get x (app_config st) = None /\
             exists n, dict_get x new_config = Some n /\
                       entry_has_class_and_module n = true)).
  { intros x. rewrite Hinit, Hterm, (added_apps_iff _ _ _ Hnd'). reflexivity. }
  eexists p, _. split; [exact Hrun|]. proj_simpl.
  split; [reflexivity|]. split; [assumption|]. split; [assumption|].
  split; [assumption|].
  intros x Hn. split.
  - intros H. apply Hterm' in H. destruct H as [e [n [_ [H _]]]]. congruence.
  - intros H. apply Hinit' in H. destruct H as [H|[_ [n [Hg _]]]].
    + apply Hterm' in H. destruct H as [e [n [_ [H _]]]]. congruence.
    + congruence.
Qed.

Lemma cfg_chain_edited_nodup : NoDup (dict_keys cfg_chain_edited).
Proof. simpl. repeat constructor; simpl; intuition discriminate. Qed.

Lemma check_config_plans_the_difference_witness :
  exists p st',
    check_config world_chain_rewritten state_chain = (Ok (Some p), st') /\
    app_config st' = cfg_chain_edited /\
    p_total p = length cfg_chain_edited /\
    (forall x, In x (p_term p) <->
       exists e n,
         dict_get x (app_config state_chain) = Some e /\
         dict_get x cfg_chain_edited = Some n /\ entry_eqb e n = false) /\
    (forall x, In x (p_init p) <->
       In x (p_term p) \/
       (dict_get x (app_config state_chain) = None /\
        exists n, dict_get x cfg_chain_edited = Some n /\
                  entry_has_class_and_module n = true)) /\
    (forall x, dict_get x cfg_chain_edited = None ->
       ~ In x (p_term p) /\ ~ In x (p_init p)).
Proof.
  apply (check_config_plans_the_difference world_chain_rewritten state_chain
           cfg_chain_edited).
  - reflexivity.
  - vm_compute. reflexivity.
  - reflexivity.
  - exact state_chain_nodup.
  - exact cfg_chain_edited_nodup.
Defined.

(** The plan for [cfg_chain_edited]: [mid] is restarted because a string is
    not equal to a list, [fresh] and the list section [names] are started,
    [base] is terminated on the spot. *)
Example chain_rewritten_plan :
  fst (check_config world_chain_rewritten state_chain)
  = Ok (Some (mk_plan ["mid"; "fresh"; "names"] ["mid"] 5)) /\
  term_events (trace (snd (check_config world_chain_rewritten state_chain)))
  = term_events (trace state_chain) ++ [EvTermObject "base"].
Proof. vm_compute. split; reflexivity. Qed.

(** ** Priorities outside the dependency chains *)

(** X26. In the priority map [get_app_deps_and_prios] returns (for a
    configuration with distinct names), an app whose section has the key
    [dependencies], even with an empty list, or that some section lists as
    a dependency, has a value of the running counter, whatever its
    [priority] says; every other app has its [priority], or 50 without
    one. *)
Theorem priority_counts_only_outside_chains (cfg : config)
  (applist : list string) (prio_apps : dict prio) (x : string) (e : entry)
  (p : prio) :
  snd (get_app_deps_and_prios cfg applist) = Ok prio_apps ->
  dict_get x cfg = Some e ->
  dict_get x prio_apps = Some p ->
  if entry_has_dependencies e || app_has_dependents cfg x
  then exists k, p = PrioClustered k
  else p = match entry_priority e with
           | Some q => PrioConfigured q
           | None => PrioDefault
           end.
Proof.
  intros Hres He Hp.
  destruct (get_app_deps_and_prios_total cfg applist)
    as [deplist [m [_ [Hm Hrun]]]].
  rewrite Hrun in Hres. simpl in Hres. inversion Hres; subst prio_apps.
  rewrite dict_get_restrict_to in Hp.
  destruct (mem x deplist); [|discriminate].
  destruct (topological_sort_total (build_deps cfg)) as [_ Hincl].
  rewrite build_deps_names in Hincl.
  destruct (assign_prios_spec cfg _ 0 [] Hincl) as [m' [Hm' [Hkeys [_ [_ Hval]]]]].
  unfold prio_apps_of in Hm. rewrite Hm in Hm'. inversion Hm'; subst m'.
  assert (Hx : In x (fst (topological_sort (build_deps cfg)))).
  { apply dict_get_In in Hp.
    assert (Hk : In x (dict_keys m))
      by (change x with (fst (x, p)); now apply in_map).
    apply Hkeys in Hk. destruct Hk as [[]|Hk]. exact Hk. }
  destruct (Hval x e Hx He) as [p' [Hp' Hc]].
  rewrite Hp in Hp'. inversion Hp'; subst p'. exact Hc.
Qed.

Lemma priority_counts_only_outside_chains_witness :
  if entry_has_dependencies
       (App (mk_app "lone_mod" "Lone" (Some (Several [])) None (Some (10 # 1)) None None None []))
     || app_has_dependents cfg_priorities "lone"
  then exists k, PrioClustered 0 = PrioClustered k
  else PrioClustered 0 = match entry_priority
                                 (App (mk_app "lone_mod" "Lone" (Some (Several [])) None
                                         (Some (10 # 1)) None None None [])) with
                         | Some q => PrioConfigured q
                         | None => PrioDefault
                         end.
Proof.
  apply (priority_counts_only_outside_chains cfg_priorities
           ["top"; "lone"; "plain"]
           [("top", PrioConfigured (10 # 1)); ("lone", PrioClustered 0);
            ("plain", PrioDefault)]
           "lone"
           (App (mk_app "lone_mod" "Lone" (Some (Several [])) None (Some (10 # 1)) None
                   None None []))
           (PrioClustered 0)); reflexivity.
Defined.

(** ** The load phase *)

Lemma load_module_config (w : world) (apps : option plan)
  (mc : module_change) :
  run_rel (load_module w apps mc) same_config.
Proof.
  unfold_methods.
  rel_go same_config_refl same_config_trans ltac:(reflexivity).
Qed.

Lemma load_modules_keep_trace (w : world) (mods : list module_change)
  (apps : option plan) (st : state) (e : event) :
  In e (trace st) ->
  In e (trace (snd (foldM (load_module w) mods apps st))).
Proof.
  intros H.
  destruct (load_modules_emits (fun _ => True) w mods apps
              (fun _ => I) (fun _ _ => I) st) as [evs [Ht _]].
  rewrite Ht. apply in_or_app. now left.
Qed.

(** X27. The load phase of [check_app_updates] on a set of apps, when every
    section of the configuration is an app section: the loop over the
    modules never raises, whatever [read_app] does, and leaves the
    configuration and the terminate set as they are.  The initialize set
    only loses apps: an app that it loses has its module among the listed
    modules, and is named in a warning. *)
Theorem load_phase_only_drops_apps (w : world) (mods : list module_change)
  (p : plan) (st : state) :
  only_app_sections (app_config st) ->
  exists p' st',
    foldM (load_module w) mods (Some p) st = (Ok (Some p'), st') /\
    app_config st' = app_config st /\
    p_term p' = p_term p /\
    (forall app, In app (p_init p') -> In app (p_init p)) /\
    (forall app, In app (p_init p) -> ~ In app (p_init p') ->
       removed_app_logged (trace st') app /\
       exists mc, In mc mods /\
         In app (apps_with_module (app_config st)
                   (get_module_from_path (m_name mc)))).
Proof.
  revert p st. induction mods as [|mc mods IH]; intros p st Hall.
  - exists p, st. simpl. unfold ret.
    split; [reflexivity|]. split; [reflexivity|]. split; [reflexivity|].
    split; [auto|]. intros app H1 H2. contradiction.
  - assert (Hstep : exists p1 s1,
              load_module w (Some p) mc st = (Ok (Some p1), s1) /\
              p_term p1 = p_term p /\
              (forall app, In app (p_init p1) -> In app (p_init p)) /\
              (forall app, In app (p_init p) -> ~ In app (p_init p1) ->
                 In (EvLog (LogRemovedApp app)) (trace s1) /\
                 In app (apps_with_module (app_config st)
                           (get_module_from_path (m_name mc))))).
    { destruct (read_app w (m_name mc) (m_reload mc) st) as [[[]|x] s1] eqn:Hread.
      - exists p, s1. split.
        + unfold load_module, try_except. unfold bind at 1. rewrite Hread.
          reflexivity.
        + split; [reflexivity|]. split; [auto|].
          intros app H1 H2. contradiction.
      - destruct (load_failure_removes_apps w p mc st s1 x Hall Hread)
          as [p1 [s2 [Hrun [Ht [Hi Hl]]]]].
        exists p1, s2. split; [exact Hrun|]. split; [exact Ht|]. split.
        + intros app H. now apply Hi in H.
        + intros app H1 H2.
          destruct (in_dec string_dec app
                      (apps_with_module (app_config st)
                         (get_module_from_path (m_name mc)))) as [Hin|Hn].
          * split; [now apply Hl | exact Hin].
          * exfalso. apply H2. apply Hi. now split. }
    destruct Hstep as [p1 [s1 [Hrun [Ht [Hsub Hrem]]]]].
    pose proof (load_module_config w (Some p) mc st) as Hc.
    rewrite Hrun in Hc. simpl in Hc. unfold same_config in Hc.
    assert (Hall1 : only_app_sections (app_config s1)) by now rewrite Hc.
    destruct (IH p1 s1 Hall1) as [p' [st' [Hrun' [Hc' [Ht' [Hsub' Hrem']]]]]].
    exists p', st'. split.
    + simpl. unfold bind at 1. rewrite Hrun. exact Hrun'.
    + split; [congruence|]. split; [congruence|]. split; [auto|].
      intros app H1 H2.
      destruct (in_dec string_dec app (p_init p1)) as [Hin|Hn].
      * destruct (Hrem' app Hin H2) as [Hlog [mc' [Hmc Happ]]].
        split; [exact Hlog|]. exists mc'. split; [now right|].
        now rewrite <- Hc.
      * destruct (Hrem app H1 Hn) as [Hlog Happ].
        split.
        -- unfold removed_app_logged.
           pose proof (load_modules_keep_trace w mods (Some p1) s1 _ Hlog) as H.
           now rewrite Hrun' in H.
        -- exists mc. split; [now left | exact Happ].
Qed.

Lemma load_phase_only_drops_apps_witness :
  exists p' st',
    foldM (load_module world_chain_mid_fails)
      [mk_mod "/conf/apps/mid_mod.py" true; mk_mod "/conf/apps/top_mod.py" true]
      (Some (mk_plan ["mid"; "top"] ["mid"; "top"] 3)) state_chain
    = (Ok (Some p'), st') /\
    app_config st' = app_config state_chain /\
    p_term p' = p_term (mk_plan ["mid"; "top"] ["mid"; "top"] 3) /\
    (forall app, In app (p_init p') ->
       In app (p_init (mk_plan ["mid"; "top"] ["mid"; "top"] 3))) /\
    (forall app,
       In app (p_init (mk_plan ["mid"; "top"] ["mid"; "top"] 3)) ->
       ~ In app (p_init p') ->
       removed_app_logged (trace st') app /\
       exists mc,
         In mc [mk_mod "/conf/apps/mid_mod.py" true;
                mk_mod "/conf/apps/top_mod.py" true] /\
         In app (apps_with_module (app_config state_chain)
                   (get_module_from_path (m_name mc)))).
Proof.
  apply (load_phase_only_drops_apps world_chain_mid_fails
           [mk_mod "/conf/apps/mid_mod.py" true;
            mk_mod "/conf/apps/top_mod.py" true]
           (mk_plan ["mid"; "top"] ["mid"; "top"] 3) state_chain).
  intros k e H. vm_compute in H.
  repeat (destruct H as [H|H]; [inversion H; eexists; reflexivity|]).
  contradiction.
Defined.

Example mid_fails_load_phase :
  fst (foldM (load_module world_chain_mid_fails)
         [mk_mod "/conf/apps/mid_mod.py" true;
          mk_mod "/conf/apps/top_mod.py" true]
         (Some (mk_plan ["mid"; "top"] ["mid"; "top"] 3)) state_chain)
  = Ok (Some (mk_plan ["top"] ["mid"; "top"] 3)).
Proof. vm_compute. reflexivity. Qed.
